(** * ChessBet: escrow ledger, game lifecycle and order matching

    A shallow embedding of [contracts/ChessBet.sol] (the on-chain contract) and of
    the [OrderbookManager] class of the TypeScript engine, followed by the
    properties of the specification that were checked against them.

    Conventions of the embedding.
    - [uint256] values are integers in [Z]; Solidity 0.8 arithmetic is checked, so
      [+], [-] and [*] on storage amounts go through [checked_add], [checked_sub]
      and [checked_mul], which revert with the arithmetic panic when the exact
      result leaves [0, 2^256).
    - A call either returns ([Ok]), reverts ([Revert] with the reason string of the
      failed [require]) or exhausts the iteration budget of one of its loops
      ([OutOfGas]).  A reverted call leaves the storage it was started on.
    - [keccak256 (abi.encodePacked ...)] is an ideal hash: a digest is represented
      by the list of the packed fields, so equal digests mean equal preimages and
      no digest is the zero word (the empty list).
    - The ERC-20 token is an external collaborator.  Its answer to a transfer is
      an input of the call ([token_ok]), and may depend on the contract storage
      at the moment of the external call.  The token is assumed not to call back
      into state-changing functions, so [nonReentrant] never fires. *)

From stdpp Require Import gmap strings list sorting.
From Stdlib Require Import ZArith Lia.

Local Open Scope string_scope.
Local Open Scope list_scope.
Local Open Scope Z_scope.

(** ** Call outcomes *)

Inductive outcome (A : Type) : Type :=
| Ok (a : A)
| Revert (reason : string)
| OutOfGas.

Arguments Ok {A} a.
Arguments Revert {A} reason.
Arguments OutOfGas {A}.

#[global] Instance outcome_ret : MRet outcome := fun _ a => Ok a.

#[global] Instance outcome_bind : MBind outcome := fun _ _ f m =>
  match m with
  | Ok a => f a
  | Revert r => Revert r
  | OutOfGas => OutOfGas
  end.

Definition require (cond : bool) (reason : string) : outcome unit :=
  if cond then Ok tt else Revert reason.

Definition reverted {A} (m : outcome A) : Prop := ∃ reason, m = Revert reason.

(** ** Machine integers *)

Definition address : Type := Z.
Definition bytes32 : Type := list Z.

Definition MAX_UINT256 : Z := 2 ^ 256 - 1.
Definition arithmetic_panic : string := "panic: arithmetic underflow or overflow (0x11)".

Definition checked_add (a b : Z) : outcome Z :=
  if a + b <=? MAX_UINT256 then Ok (a + b) else Revert arithmetic_panic.

Definition checked_sub (a b : Z) : outcome Z :=
  if b <=? a then Ok (a - b) else Revert arithmetic_panic.

Definition checked_mul (a b : Z) : outcome Z :=
  if a * b <=? MAX_UINT256 then Ok (a * b) else Revert arithmetic_panic.

(** The ideal hash: the digest of a packed tuple is the tuple. *)
Definition keccak256 (packed : list Z) : bytes32 := packed.

(** Value of an unset slot of a Solidity mapping. *)
Class Zero (A : Type) : Type := zero : A.
#[global] Instance Z_zero : Zero Z := 0.
#[global] Instance bool_zero : Zero bool := false.
#[global] Instance list_zero {A} : Zero (list A) := [].

(** [m .[ k ]] reads a mapping: the stored value, or the zero value. *)
Definition sload `{Countable K} {V} `{Zero V} (m : gmap K V) (k : K) : V :=
  default zero (m !! k).
Notation "m .[ k ]" := (sload m k) (at level 1, format "m .[ k ]").


(** * The contract *)

Module ChessBet.

(** ** Constants *)

Definition TOKEN_DECIMALS : Z := 6.
Definition USDC_UNIT : Z := 10 ^ TOKEN_DECIMALS.
Definition MAX_MOVES : Z := 200.
Definition MAX_MOVE_BYTES : Z := 16.

Definition RESULT_WHITE : Z := 0.
Definition RESULT_BLACK : Z := 1.
Definition RESULT_DRAW : Z := 2.

(** [tickSize] and [tolerancePercentage] are storage variables that are
    initialised at deployment and that no function of the contract writes. *)
Definition tickSize : Z := 10 * USDC_UNIT.
Definition tolerancePercentage : Z := 5.

Definition START_FEN : string :=
  "rnbqkbnr/pppppppp/8/8/8/8/PPPPPPPP/RNBQKBNR w KQkq - 0 1".

(** ** Structs

    Each struct is a record in a module of its name, with its zero value and one
    setter for every field that the contract assigns after creation. *)

(** struct Game; status: 0 = waiting, 1 = active, 2 = finished; result: 0 = white wins, 1 = black wins, 2 = draw *)
Module Game.
Record t : Type := mk {
  id : bytes32;
  whitePlayer : address;
  blackPlayer : address;
  fen : string;
  pgn : string;
  status : Z;
  result : Z;
  bettingTier : Z;
  timeControl : Z;
  createdAt : Z;
  startedAt : Z;
  finishedAt : Z;
  moveCount : Z
}.
Definition zero : t := {| id := []; whitePlayer := 0; blackPlayer := 0; fen := EmptyString; pgn
  := EmptyString; status := 0; result := 0; bettingTier := 0; timeControl := 0; createdAt := 0;
  startedAt := 0; finishedAt := 0; moveCount := 0 |}.
Definition set_pgn (v : string) (x : t) : t := {| id := id x; whitePlayer := whitePlayer x;
  blackPlayer := blackPlayer x; fen := fen x; pgn := v; status := status x; result := result x;
  bettingTier := bettingTier x; timeControl := timeControl x; createdAt := createdAt x;
  startedAt := startedAt x; finishedAt := finishedAt x; moveCount := moveCount x |}.
Definition set_status (v : Z) (x : t) : t := {| id := id x; whitePlayer := whitePlayer x;
  blackPlayer := blackPlayer x; fen := fen x; pgn := pgn x; status := v; result := result x;
  bettingTier := bettingTier x; timeControl := timeControl x; createdAt := createdAt x;
  startedAt := startedAt x; finishedAt := finishedAt x; moveCount := moveCount x |}.
Definition set_result (v : Z) (x : t) : t := {| id := id x; whitePlayer := whitePlayer x;
  blackPlayer := blackPlayer x; fen := fen x; pgn := pgn x; status := status x; result := v;
  bettingTier := bettingTier x; timeControl := timeControl x; createdAt := createdAt x;
  startedAt := startedAt x; finishedAt := finishedAt x; moveCount := moveCount x |}.
Definition set_startedAt (v : Z) (x : t) : t := {| id := id x; whitePlayer := whitePlayer x;
  blackPlayer := blackPlayer x; fen := fen x; pgn := pgn x; status := status x; result := result
  x; bettingTier := bettingTier x; timeControl := timeControl x; createdAt := createdAt x;
  startedAt := v; finishedAt := finishedAt x; moveCount := moveCount x |}.
Definition set_finishedAt (v : Z) (x : t) : t := {| id := id x; whitePlayer := whitePlayer x;
  blackPlayer := blackPlayer x; fen := fen x; pgn := pgn x; status := status x; result := result
  x; bettingTier := bettingTier x; timeControl := timeControl x; createdAt := createdAt x;
  startedAt := startedAt x; finishedAt := v; moveCount := moveCount x |}.
Definition set_moveCount (v : Z) (x : t) : t := {| id := id x; whitePlayer := whitePlayer x;
  blackPlayer := blackPlayer x; fen := fen x; pgn := pgn x; status := status x; result := result
  x; bettingTier := bettingTier x; timeControl := timeControl x; createdAt := createdAt x;
  startedAt := startedAt x; finishedAt := finishedAt x; moveCount := v |}.
End Game.
(** struct GameBet; status: 0 = pending, 1 = won, 2 = lost, 3 = refunded *)
Module GameBet.
Record t : Type := mk {
  gameId : bytes32;
  player : address;
  amount : Z;
  status : Z;
  createdAt : Z;
  resolvedAt : Z;
  payout : Z
}.
Definition zero : t := {| gameId := []; player := 0; amount := 0; status := 0; createdAt := 0;
  resolvedAt := 0; payout := 0 |}.
Definition set_status (v : Z) (x : t) : t := {| gameId := gameId x; player := player x; amount
  := amount x; status := v; createdAt := createdAt x; resolvedAt := resolvedAt x; payout :=
  payout x |}.
Definition set_resolvedAt (v : Z) (x : t) : t := {| gameId := gameId x; player := player x;
  amount := amount x; status := status x; createdAt := createdAt x; resolvedAt := v; payout :=
  payout x |}.
Definition set_payout (v : Z) (x : t) : t := {| gameId := gameId x; player := player x; amount
  := amount x; status := status x; createdAt := createdAt x; resolvedAt := resolvedAt x; payout
  := v |}.
End GameBet.
(** struct BettingPool; winner is address(0) for a draw *)
Module BettingPool.
Record t : Type := mk {
  gameId : bytes32;
  totalAmount : Z;
  houseFee : Z;
  resolved : bool;
  winner : address
}.
Definition zero : t := {| gameId := []; totalAmount := 0; houseFee := 0; resolved := false;
  winner := 0 |}.
Definition set_totalAmount (v : Z) (x : t) : t := {| gameId := gameId x; totalAmount := v;
  houseFee := houseFee x; resolved := resolved x; winner := winner x |}.
Definition set_houseFee (v : Z) (x : t) : t := {| gameId := gameId x; totalAmount := totalAmount
  x; houseFee := v; resolved := resolved x; winner := winner x |}.
Definition set_resolved (v : bool) (x : t) : t := {| gameId := gameId x; totalAmount :=
  totalAmount x; houseFee := houseFee x; resolved := v; winner := winner x |}.
Definition set_winner (v : address) (x : t) : t := {| gameId := gameId x; totalAmount :=
  totalAmount x; houseFee := houseFee x; resolved := resolved x; winner := v |}.
End BettingPool.
(** struct Order; side: 0 = white, 1 = black; status: 0 = open, 1 = partially_filled, 2 = filled, 3 = cancelled *)
Module Order.
Record t : Type := mk {
  id : bytes32;
  player : address;
  side : Z;
  amount : Z;
  tickAmount : Z;
  timeControl : Z;
  createdAt : Z;
  filledAmount : Z;
  status : Z
}.
Definition zero : t := {| id := []; player := 0; side := 0; amount := 0; tickAmount := 0;
  timeControl := 0; createdAt := 0; filledAmount := 0; status := 0 |}.
Definition set_filledAmount (v : Z) (x : t) : t := {| id := id x; player := player x; side :=
  side x; amount := amount x; tickAmount := tickAmount x; timeControl := timeControl x;
  createdAt := createdAt x; filledAmount := v; status := status x |}.
Definition set_status (v : Z) (x : t) : t := {| id := id x; player := player x; side := side x;
  amount := amount x; tickAmount := tickAmount x; timeControl := timeControl x; createdAt :=
  createdAt x; filledAmount := filledAmount x; status := v |}.
End Order.
(** struct OrderbookLevel; orderIds is the queue, totalAmount is in token units *)
Module OrderbookLevel.
Record t : Type := mk {
  tickAmount : Z;
  orderIds : list bytes32;
  totalAmount : Z
}.
Definition zero : t := {| tickAmount := 0; orderIds := []; totalAmount := 0 |}.
Definition set_tickAmount (v : Z) (x : t) : t := {| tickAmount := v; orderIds := orderIds x;
  totalAmount := totalAmount x |}.
Definition set_orderIds (v : list bytes32) (x : t) : t := {| tickAmount := tickAmount x;
  orderIds := v; totalAmount := totalAmount x |}.
Definition set_totalAmount (v : Z) (x : t) : t := {| tickAmount := tickAmount x; orderIds :=
  orderIds x; totalAmount := v |}.
End OrderbookLevel.

#[global] Instance Game_zero : Zero Game.t := Game.zero.
#[global] Instance GameBet_zero : Zero GameBet.t := GameBet.zero.
#[global] Instance BettingPool_zero : Zero BettingPool.t := BettingPool.zero.
#[global] Instance Order_zero : Zero Order.t := Order.zero.
#[global] Instance OrderbookLevel_zero : Zero OrderbookLevel.t := OrderbookLevel.zero.

(** ** Events *)

Inductive Event : Type :=
| GameCreated (gameId : bytes32) (whitePlayer blackPlayer : address) (timeControl : Z)
| GameStarted (gameId : bytes32)
| MoveMade (gameId : bytes32) (move : string)
| GameFinished (gameId : bytes32) (result : Z)
| GameResolved (gameId : bytes32) (winner : address) (result : Z)
| BetPlaced (gameId : bytes32) (player : address) (amount : Z)
| BetResolved (gameId : bytes32) (player : address) (amount payout result : Z)
| PayoutClaimed (player : address) (amount : Z)
| HouseFeePercentageUpdated (newFeePercentage : Z)
| BettingTierAmountsUpdated (lowTier mediumTier : Z).

(** ** Storage

    The state variables of the contract, the owner of [Ownable], the flag of
    [Pausable], and the log of emitted events.  The nested mapping
    [orderbookLevels] is keyed by the triple (timeControl, side, tickAmount),
    [resultSubmitted] and [resultValue] by (gameId, player). *)

Record Storage : Type := mkStorage {
  games : gmap bytes32 Game.t;
  bettingPools : gmap bytes32 BettingPool.t;
  gameBets : gmap bytes32 (list GameBet.t);
  pendingPayouts : gmap address Z;
  houseFeePercentage : Z;
  lowTierAmount : Z;
  mediumTierAmount : Z;
  orders : gmap bytes32 Order.t;
  orderbookLevels : gmap (Z * Z * Z) OrderbookLevel.t;
  playerOrders : gmap address (list bytes32);
  resultSubmitted : gmap (bytes32 * address) bool;
  resultValue : gmap (bytes32 * address) Z;
  resultResolved : gmap bytes32 bool;
  resultFinal : gmap bytes32 Z;
  playerGameIndex : gmap address (list bytes32);
  _playerSeenGame : gmap (address * bytes32) bool;
  tokenFeeBalance : Z;
  owner : address;
  _paused : bool;
  events : list Event
}.
Definition set_games (v : gmap bytes32 Game.t) (s : Storage) : Storage := {| games := v;
  bettingPools := bettingPools s; gameBets := gameBets s; pendingPayouts := pendingPayouts s;
  houseFeePercentage := houseFeePercentage s; lowTierAmount := lowTierAmount s; mediumTierAmount
  := mediumTierAmount s; orders := orders s; orderbookLevels := orderbookLevels s; playerOrders
  := playerOrders s; resultSubmitted := resultSubmitted s; resultValue := resultValue s;
  resultResolved := resultResolved s; resultFinal := resultFinal s; playerGameIndex :=
  playerGameIndex s; _playerSeenGame := _playerSeenGame s; tokenFeeBalance := tokenFeeBalance s;
  owner := owner s; _paused := _paused s; events := events s |}.
Definition set_bettingPools (v : gmap bytes32 BettingPool.t) (s : Storage) : Storage := {| games
  := games s; bettingPools := v; gameBets := gameBets s; pendingPayouts := pendingPayouts s;
  houseFeePercentage := houseFeePercentage s; lowTierAmount := lowTierAmount s; mediumTierAmount
  := mediumTierAmount s; orders := orders s; orderbookLevels := orderbookLevels s; playerOrders
  := playerOrders s; resultSubmitted := resultSubmitted s; resultValue := resultValue s;
  resultResolved := resultResolved s; resultFinal := resultFinal s; playerGameIndex :=
  playerGameIndex s; _playerSeenGame := _playerSeenGame s; tokenFeeBalance := tokenFeeBalance s;
  owner := owner s; _paused := _paused s; events := events s |}.
Definition set_gameBets (v : gmap bytes32 (list GameBet.t)) (s : Storage) : Storage := {| games
  := games s; bettingPools := bettingPools s; gameBets := v; pendingPayouts := pendingPayouts s;
  houseFeePercentage := houseFeePercentage s; lowTierAmount := lowTierAmount s; mediumTierAmount
  := mediumTierAmount s; orders := orders s; orderbookLevels := orderbookLevels s; playerOrders
  := playerOrders s; resultSubmitted := resultSubmitted s; resultValue := resultValue s;
  resultResolved := resultResolved s; resultFinal := resultFinal s; playerGameIndex :=
  playerGameIndex s; _playerSeenGame := _playerSeenGame s; tokenFeeBalance := tokenFeeBalance s;
  owner := owner s; _paused := _paused s; events := events s |}.
Definition set_pendingPayouts (v : gmap address Z) (s : Storage) : Storage := {| games := games
  s; bettingPools := bettingPools s; gameBets := gameBets s; pendingPayouts := v;
  houseFeePercentage := houseFeePercentage s; lowTierAmount := lowTierAmount s; mediumTierAmount
  := mediumTierAmount s; orders := orders s; orderbookLevels := orderbookLevels s; playerOrders
  := playerOrders s; resultSubmitted := resultSubmitted s; resultValue := resultValue s;
  resultResolved := resultResolved s; resultFinal := resultFinal s; playerGameIndex :=
  playerGameIndex s; _playerSeenGame := _playerSeenGame s; tokenFeeBalance := tokenFeeBalance s;
  owner := owner s; _paused := _paused s; events := events s |}.
Definition set_houseFeePercentage (v : Z) (s : Storage) : Storage := {| games := games s;
  bettingPools := bettingPools s; gameBets := gameBets s; pendingPayouts := pendingPayouts s;
  houseFeePercentage := v; lowTierAmount := lowTierAmount s; mediumTierAmount :=
  mediumTierAmount s; orders := orders s; orderbookLevels := orderbookLevels s; playerOrders :=
  playerOrders s; resultSubmitted := resultSubmitted s; resultValue := resultValue s;
  resultResolved := resultResolved s; resultFinal := resultFinal s; playerGameIndex :=
  playerGameIndex s; _playerSeenGame := _playerSeenGame s; tokenFeeBalance := tokenFeeBalance s;
  owner := owner s; _paused := _paused s; events := events s |}.
Definition set_lowTierAmount (v : Z) (s : Storage) : Storage := {| games := games s;
  bettingPools := bettingPools s; gameBets := gameBets s; pendingPayouts := pendingPayouts s;
  houseFeePercentage := houseFeePercentage s; lowTierAmount := v; mediumTierAmount :=
  mediumTierAmount s; orders := orders s; orderbookLevels := orderbookLevels s; playerOrders :=
  playerOrders s; resultSubmitted := resultSubmitted s; resultValue := resultValue s;
  resultResolved := resultResolved s; resultFinal := resultFinal s; playerGameIndex :=
  playerGameIndex s; _playerSeenGame := _playerSeenGame s; tokenFeeBalance := tokenFeeBalance s;
  owner := owner s; _paused := _paused s; events := events s |}.
Definition set_mediumTierAmount (v : Z) (s : Storage) : Storage := {| games := games s;
  bettingPools := bettingPools s; gameBets := gameBets s; pendingPayouts := pendingPayouts s;
  houseFeePercentage := houseFeePercentage s; lowTierAmount := lowTierAmount s; mediumTierAmount
  := v; orders := orders s; orderbookLevels := orderbookLevels s; playerOrders := playerOrders
  s; resultSubmitted := resultSubmitted s; resultValue := resultValue s; resultResolved :=
  resultResolved s; resultFinal := resultFinal s; playerGameIndex := playerGameIndex s;
  _playerSeenGame := _playerSeenGame s; tokenFeeBalance := tokenFeeBalance s; owner := owner s;
  _paused := _paused s; events := events s |}.
Definition set_orders (v : gmap bytes32 Order.t) (s : Storage) : Storage := {| games := games s;
  bettingPools := bettingPools s; gameBets := gameBets s; pendingPayouts := pendingPayouts s;
  houseFeePercentage := houseFeePercentage s; lowTierAmount := lowTierAmount s; mediumTierAmount
  := mediumTierAmount s; orders := v; orderbookLevels := orderbookLevels s; playerOrders :=
  playerOrders s; resultSubmitted := resultSubmitted s; resultValue := resultValue s;
  resultResolved := resultResolved s; resultFinal := resultFinal s; playerGameIndex :=
  playerGameIndex s; _playerSeenGame := _playerSeenGame s; tokenFeeBalance := tokenFeeBalance s;
  owner := owner s; _paused := _paused s; events := events s |}.
Definition set_orderbookLevels (v : gmap (Z * Z * Z) OrderbookLevel.t) (s : Storage) : Storage
  := {| games := games s; bettingPools := bettingPools s; gameBets := gameBets s; pendingPayouts
  := pendingPayouts s; houseFeePercentage := houseFeePercentage s; lowTierAmount :=
  lowTierAmount s; mediumTierAmount := mediumTierAmount s; orders := orders s; orderbookLevels
  := v; playerOrders := playerOrders s; resultSubmitted := resultSubmitted s; resultValue :=
  resultValue s; resultResolved := resultResolved s; resultFinal := resultFinal s;
  playerGameIndex := playerGameIndex s; _playerSeenGame := _playerSeenGame s; tokenFeeBalance :=
  tokenFeeBalance s; owner := owner s; _paused := _paused s; events := events s |}.
Definition set_playerOrders (v : gmap address (list bytes32)) (s : Storage) : Storage := {|
  games := games s; bettingPools := bettingPools s; gameBets := gameBets s; pendingPayouts :=
  pendingPayouts s; houseFeePercentage := houseFeePercentage s; lowTierAmount := lowTierAmount
  s; mediumTierAmount := mediumTierAmount s; orders := orders s; orderbookLevels :=
  orderbookLevels s; playerOrders := v; resultSubmitted := resultSubmitted s; resultValue :=
  resultValue s; resultResolved := resultResolved s; resultFinal := resultFinal s;
  playerGameIndex := playerGameIndex s; _playerSeenGame := _playerSeenGame s; tokenFeeBalance :=
  tokenFeeBalance s; owner := owner s; _paused := _paused s; events := events s |}.
Definition set_resultSubmitted (v : gmap (bytes32 * address) bool) (s : Storage) : Storage := {|
  games := games s; bettingPools := bettingPools s; gameBets := gameBets s; pendingPayouts :=
  pendingPayouts s; houseFeePercentage := houseFeePercentage s; lowTierAmount := lowTierAmount
  s; mediumTierAmount := mediumTierAmount s; orders := orders s; orderbookLevels :=
  orderbookLevels s; playerOrders := playerOrders s; resultSubmitted := v; resultValue :=
  resultValue s; resultResolved := resultResolved s; resultFinal := resultFinal s;
  playerGameIndex := playerGameIndex s; _playerSeenGame := _playerSeenGame s; tokenFeeBalance :=
  tokenFeeBalance s; owner := owner s; _paused := _paused s; events := events s |}.
Definition set_resultValue (v : gmap (bytes32 * address) Z) (s : Storage) : Storage := {| games
  := games s; bettingPools := bettingPools s; gameBets := gameBets s; pendingPayouts :=
  pendingPayouts s; houseFeePercentage := houseFeePercentage s; lowTierAmount := lowTierAmount
  s; mediumTierAmount := mediumTierAmount s; orders := orders s; orderbookLevels :=
  orderbookLevels s; playerOrders := playerOrders s; resultSubmitted := resultSubmitted s;
  resultValue := v; resultResolved := resultResolved s; resultFinal := resultFinal s;
  playerGameIndex := playerGameIndex s; _playerSeenGame := _playerSeenGame s; tokenFeeBalance :=
  tokenFeeBalance s; owner := owner s; _paused := _paused s; events := events s |}.
Definition set_resultResolved (v : gmap bytes32 bool) (s : Storage) : Storage := {| games :=
  games s; bettingPools := bettingPools s; gameBets := gameBets s; pendingPayouts :=
  pendingPayouts s; houseFeePercentage := houseFeePercentage s; lowTierAmount := lowTierAmount
  s; mediumTierAmount := mediumTierAmount s; orders := orders s; orderbookLevels :=
  orderbookLevels s; playerOrders := playerOrders s; resultSubmitted := resultSubmitted s;
  resultValue := resultValue s; resultResolved := v; resultFinal := resultFinal s;
  playerGameIndex := playerGameIndex s; _playerSeenGame := _playerSeenGame s; tokenFeeBalance :=
  tokenFeeBalance s; owner := owner s; _paused := _paused s; events := events s |}.
Definition set_resultFinal (v : gmap bytes32 Z) (s : Storage) : Storage := {| games := games s;
  bettingPools := bettingPools s; gameBets := gameBets s; pendingPayouts := pendingPayouts s;
  houseFeePercentage := houseFeePercentage s; lowTierAmount := lowTierAmount s; mediumTierAmount
  := mediumTierAmount s; orders := orders s; orderbookLevels := orderbookLevels s; playerOrders
  := playerOrders s; resultSubmitted := resultSubmitted s; resultValue := resultValue s;
  resultResolved := resultResolved s; resultFinal := v; playerGameIndex := playerGameIndex s;
  _playerSeenGame := _playerSeenGame s; tokenFeeBalance := tokenFeeBalance s; owner := owner s;
  _paused := _paused s; events := events s |}.
Definition set_playerGameIndex (v : gmap address (list bytes32)) (s : Storage) : Storage := {|
  games := games s; bettingPools := bettingPools s; gameBets := gameBets s; pendingPayouts :=
  pendingPayouts s; houseFeePercentage := houseFeePercentage s; lowTierAmount := lowTierAmount
  s; mediumTierAmount := mediumTierAmount s; orders := orders s; orderbookLevels :=
  orderbookLevels s; playerOrders := playerOrders s; resultSubmitted := resultSubmitted s;
  resultValue := resultValue s; resultResolved := resultResolved s; resultFinal := resultFinal
  s; playerGameIndex := v; _playerSeenGame := _playerSeenGame s; tokenFeeBalance :=
  tokenFeeBalance s; owner := owner s; _paused := _paused s; events := events s |}.
Definition set_playerSeenGame (v : gmap (address * bytes32) bool) (s : Storage) : Storage := {|
  games := games s; bettingPools := bettingPools s; gameBets := gameBets s; pendingPayouts :=
  pendingPayouts s; houseFeePercentage := houseFeePercentage s; lowTierAmount := lowTierAmount
  s; mediumTierAmount := mediumTierAmount s; orders := orders s; orderbookLevels :=
  orderbookLevels s; playerOrders := playerOrders s; resultSubmitted := resultSubmitted s;
  resultValue := resultValue s; resultResolved := resultResolved s; resultFinal := resultFinal
  s; playerGameIndex := playerGameIndex s; _playerSeenGame := v; tokenFeeBalance :=
  tokenFeeBalance s; owner := owner s; _paused := _paused s; events := events s |}.
Definition set_tokenFeeBalance (v : Z) (s : Storage) : Storage := {| games := games s;
  bettingPools := bettingPools s; gameBets := gameBets s; pendingPayouts := pendingPayouts s;
  houseFeePercentage := houseFeePercentage s; lowTierAmount := lowTierAmount s; mediumTierAmount
  := mediumTierAmount s; orders := orders s; orderbookLevels := orderbookLevels s; playerOrders
  := playerOrders s; resultSubmitted := resultSubmitted s; resultValue := resultValue s;
  resultResolved := resultResolved s; resultFinal := resultFinal s; playerGameIndex :=
  playerGameIndex s; _playerSeenGame := _playerSeenGame s; tokenFeeBalance := v; owner := owner
  s; _paused := _paused s; events := events s |}.
Definition set_paused (v : bool) (s : Storage) : Storage := {| games := games s; bettingPools :=
  bettingPools s; gameBets := gameBets s; pendingPayouts := pendingPayouts s; houseFeePercentage
  := houseFeePercentage s; lowTierAmount := lowTierAmount s; mediumTierAmount :=
  mediumTierAmount s; orders := orders s; orderbookLevels := orderbookLevels s; playerOrders :=
  playerOrders s; resultSubmitted := resultSubmitted s; resultValue := resultValue s;
  resultResolved := resultResolved s; resultFinal := resultFinal s; playerGameIndex :=
  playerGameIndex s; _playerSeenGame := _playerSeenGame s; tokenFeeBalance := tokenFeeBalance s;
  owner := owner s; _paused := v; events := events s |}.
Definition set_events (v : list Event) (s : Storage) : Storage := {| games := games s;
  bettingPools := bettingPools s; gameBets := gameBets s; pendingPayouts := pendingPayouts s;
  houseFeePercentage := houseFeePercentage s; lowTierAmount := lowTierAmount s; mediumTierAmount
  := mediumTierAmount s; orders := orders s; orderbookLevels := orderbookLevels s; playerOrders
  := playerOrders s; resultSubmitted := resultSubmitted s; resultValue := resultValue s;
  resultResolved := resultResolved s; resultFinal := resultFinal s; playerGameIndex :=
  playerGameIndex s; _playerSeenGame := _playerSeenGame s; tokenFeeBalance := tokenFeeBalance s;
  owner := owner s; _paused := _paused s; events := v |}.

(** ** Call environment and the external token *)

Inductive TokenCall : Type :=
| SafeTransferFrom (from : address) (value : Z)   (* token.safeTransferFrom(from, address(this), value) *)
| SafeTransfer (to : address) (value : Z).        (* token.safeTransfer(to, value) *)

Record Env : Type := mkEnv {
  msg_sender : address;
  block_timestamp : Z;
  block_number : Z;
  token_ok : Storage → TokenCall → bool
}.

(** An external token call, made while the contract storage is [s]; SafeERC20
    reverts the whole call when the token fails or answers false. *)
Definition tokenCall (env : Env) (s : Storage) (c : TokenCall) : outcome unit :=
  require (token_ok env s c) "SafeERC20FailedOperation".

Definition emit (e : Event) (s : Storage) : Storage := set_events (events s ++ [e]) s.

(** The storage that a transaction leaves: that of the call when it returns, the
    storage it started on when it reverts. *)
Definition commit (call : Storage → outcome Storage) (s : Storage) : Storage :=
  match call s with
  | Ok s' => s'
  | _ => s
  end.

Definition bytes32_eqb (a b : bytes32) : bool := bool_decide (a = b).

(** Storage after the constructor, deployed by [deployer]. *)
Definition deployed (deployer : address) : Storage :=
  {| games := ∅; bettingPools := ∅; gameBets := ∅; pendingPayouts := ∅;
     houseFeePercentage := 500; lowTierAmount := 5 * USDC_UNIT;
     mediumTierAmount := 50 * USDC_UNIT; orders := ∅; orderbookLevels := ∅;
     playerOrders := ∅; resultSubmitted := ∅; resultValue := ∅; resultResolved := ∅;
     resultFinal := ∅; playerGameIndex := ∅; _playerSeenGame := ∅; tokenFeeBalance := 0;
     owner := deployer; _paused := false; events := [] |}.

(** ** Modifiers *)

Definition onlyGamePlayer (env : Env) (gameId : bytes32) (s : Storage) : outcome unit :=
  let game := (games s).[gameId] in
  require ((msg_sender env =? Game.whitePlayer game) || (msg_sender env =? Game.blackPlayer game))
          "Not a game player".

Definition gameExists (gameId : bytes32) (s : Storage) : outcome unit :=
  require (negb (bytes32_eqb (Game.id (games s).[gameId]) [])) "Game does not exist".

Definition gameNotFinished (gameId : bytes32) (s : Storage) : outcome unit :=
  require (negb (Game.status (games s).[gameId] =? 2)) "Game already finished".

Definition onlyOwner (env : Env) (s : Storage) : outcome unit :=
  require (msg_sender env =? owner s) "OwnableUnauthorizedAccount".

Definition whenNotPaused (s : Storage) : outcome unit :=
  require (negb (_paused s)) "EnforcedPause".

(** ** Game management *)

(** [createGame] (ChessBet.sol, lines 186-226). *)
Definition createGame (env : Env) (blackPlayer : address) (timeControl bettingTier : Z)
    (s : Storage) : outcome (bytes32 * Storage) :=
  whenNotPaused s;;
  require (negb (blackPlayer =? 0)) "Invalid black player";;
  require (negb (blackPlayer =? msg_sender env)) "Cannot play against yourself";;
  require (bettingTier <=? 2) "Invalid betting tier";;
  let gameId :=
    keccak256 [msg_sender env; blackPlayer; block_timestamp env; block_number env] in
  let s := set_games (<[gameId :=
      {| Game.id := gameId; Game.whitePlayer := msg_sender env;
         Game.blackPlayer := blackPlayer; Game.fen := START_FEN; Game.pgn := EmptyString;
         Game.status := 0; Game.result := 0; Game.bettingTier := bettingTier;
         Game.timeControl := timeControl; Game.createdAt := block_timestamp env;
         Game.startedAt := 0; Game.finishedAt := 0; Game.moveCount := 0 |}]> (games s)) s in
  let s := set_bettingPools (<[gameId :=
      {| BettingPool.gameId := gameId; BettingPool.totalAmount := 0;
         BettingPool.houseFee := 0; BettingPool.resolved := false;
         BettingPool.winner := 0 |}]> (bettingPools s)) s in
  Ok (gameId, emit (GameCreated gameId (msg_sender env) blackPlayer timeControl) s).

(** [startGame] (ChessBet.sol, lines 228-236). *)
Definition startGame (env : Env) (gameId : bytes32) (s : Storage) : outcome Storage :=
  gameExists gameId s;;
  onlyGamePlayer env gameId s;;
  let game := (games s).[gameId] in
  require (Game.status game =? 0) "Game not in waiting status";;
  let game := Game.set_startedAt (block_timestamp env) (Game.set_status 1 game) in
  Ok (emit (GameStarted gameId) (set_games (<[gameId := game]> (games s)) s)).

(** [makeMove] (ChessBet.sol, lines 238-258). *)
Definition makeMove (env : Env) (gameId : bytes32) (move : string) (s : Storage)
    : outcome Storage :=
  gameExists gameId s;;
  onlyGamePlayer env gameId s;;
  let game := (games s).[gameId] in
  require (Game.status game =? 1) "Game not active";;
  require (Z.of_nat (String.length move) <=? MAX_MOVE_BYTES) "move too long";;
  let s := emit (MoveMade gameId move) s in
  if Game.moveCount game <? MAX_MOVES then
    let pgn :=
      if (0 <? String.length (Game.pgn game))%nat
      then String.append (Game.pgn game) (String.append " " move)
      else move in
    (* moveCount is a uint16 below MAX_MOVES here: the increment cannot overflow *)
    let game := Game.set_moveCount (Game.moveCount game + 1) (Game.set_pgn pgn game) in
    Ok (set_games (<[gameId := game]> (games s)) s)
  else Ok s.

(** ** Escrow ledger *)

(** [_creditFee] (ChessBet.sol, lines 481-483). *)
Definition _creditFee (amount : Z) (s : Storage) : outcome Storage :=
  fee ← checked_add (tokenFeeBalance s) amount;
  Ok (set_tokenFeeBalance fee s).

Definition index_panic : string := "panic: array index out of bounds (0x32)".

(** [bets[i] = f bets[i]] on [gameBets[gameId]]. *)
Definition modifyBet (gameId : bytes32) (i : nat) (f : GameBet.t → GameBet.t) (s : Storage)
    : Storage :=
  set_gameBets (<[gameId := alter f i (gameBets s).[gameId]]> (gameBets s)) s.

(** [pendingPayouts[player] += amount] *)
Definition creditPayout (player : address) (amount : Z) (s : Storage) : outcome Storage :=
  balance ← checked_add (pendingPayouts s).[player] amount;
  Ok (set_pendingPayouts (<[player := balance]> (pendingPayouts s)) s).

(** The draw loop of [_resolveBets], [n] iterations starting at index [i]. *)
Fixpoint refundLoop (n i : nat) (env : Env) (gameId : bytes32) (s : Storage)
    : outcome Storage :=
  match n with
  | O => Ok s
  | S n' =>
    match (gameBets s).[gameId] !! i with
    | None => Revert index_panic
    | Some bet =>
      let s := modifyBet gameId i (λ b,
        GameBet.set_resolvedAt (block_timestamp env)
          (GameBet.set_payout (GameBet.amount b) (GameBet.set_status 3 b))) s in
      s ← creditPayout (GameBet.player bet) (GameBet.amount bet) s;
      let s := emit (BetResolved gameId (GameBet.player bet) (GameBet.amount bet)
                                 (GameBet.amount bet) 2) s in
      refundLoop n' (S i) env gameId s
    end
  end.

(** The winner-takes-all loop of [_resolveBets]. *)
Fixpoint payoutLoop (n i : nat) (env : Env) (gameId : bytes32) (winner : address)
    (netPool : Z) (s : Storage) : outcome Storage :=
  match n with
  | O => Ok s
  | S n' =>
    match (gameBets s).[gameId] !! i with
    | None => Revert index_panic
    | Some bet =>
      if GameBet.player bet =? winner then
        let s := modifyBet gameId i (λ b,
          GameBet.set_resolvedAt (block_timestamp env)
            (GameBet.set_payout netPool (GameBet.set_status 0 b))) s in
        s ← creditPayout (GameBet.player bet) netPool s;
        let s := emit (BetResolved gameId (GameBet.player bet) (GameBet.amount bet)
                                   netPool 0) s in
        payoutLoop n' (S i) env gameId winner netPool s
      else
        let s := modifyBet gameId i (λ b,
          GameBet.set_resolvedAt (block_timestamp env)
            (GameBet.set_payout 0 (GameBet.set_status 1 b))) s in
        let s := emit (BetResolved gameId (GameBet.player bet) (GameBet.amount bet) 0 1) s in
        payoutLoop n' (S i) env gameId winner netPool s
    end
  end.

Definition modifyPool (gameId : bytes32) (f : BettingPool.t → BettingPool.t) (s : Storage)
    : Storage :=
  set_bettingPools (<[gameId := f (bettingPools s).[gameId]]> (bettingPools s)) s.

(** [_resolveBets] (ChessBet.sol, lines 380-460). *)
Definition _resolveBets (env : Env) (gameId : bytes32) (result : Z) (s : Storage)
    : outcome Storage :=
  require (negb (BettingPool.resolved (bettingPools s).[gameId])) "Bets already resolved";;
  let s := modifyPool gameId (BettingPool.set_resolved true) s in
  let bets := (gameBets s).[gameId] in
  require (length bets =? 2)%nat "Must have exactly 2 bets";;
  if result =? RESULT_DRAW then
    s ← refundLoop (length bets) 0 env gameId s;
    let s := modifyPool gameId
               (λ p, BettingPool.set_houseFee 0 (BettingPool.set_winner 0 p)) s in
    Ok (emit (GameResolved gameId 0 result) s)
  else
    let winner :=
      if result =? RESULT_WHITE
      then Game.whitePlayer (games s).[gameId]
      else Game.blackPlayer (games s).[gameId] in
    let s := modifyPool gameId (BettingPool.set_winner winner) s in
    let s := emit (GameResolved gameId winner result) s in
    let pool := (bettingPools s).[gameId] in
    s ← _creditFee (BettingPool.houseFee pool) s;
    netPool ← checked_sub (BettingPool.totalAmount pool) (BettingPool.houseFee pool);
    payoutLoop (length bets) 0 env gameId winner netPool s.

(** The bookkeeping that [submitGameResult] and [resolveDisputedGame] share. *)
Definition finishGame (env : Env) (gameId : bytes32) (result : Z) (s : Storage) : Storage :=
  let s := set_resultResolved (<[gameId := true]> (resultResolved s)) s in
  let s := set_resultFinal (<[gameId := result]> (resultFinal s)) s in
  set_games (<[gameId :=
      Game.set_finishedAt (block_timestamp env)
        (Game.set_result result (Game.set_status 2 (games s).[gameId]))]> (games s)) s.

(** [submitGameResult] (ChessBet.sol, lines 260-292). *)
Definition submitGameResult (env : Env) (gameId : bytes32) (result : Z) (s : Storage)
    : outcome Storage :=
  gameExists gameId s;;
  onlyGamePlayer env gameId s;;
  require (result <=? 2) "Invalid result";;
  let game := (games s).[gameId] in
  require (Game.status game =? 1) "Game not active";;
  require (negb (resultResolved s).[gameId]) "Game already resolved";;
  let s := set_resultSubmitted (<[(gameId, msg_sender env) := true]> (resultSubmitted s)) s in
  let s := set_resultValue (<[(gameId, msg_sender env) := result]> (resultValue s)) s in
  let otherPlayer :=
    if msg_sender env =? Game.whitePlayer game
    then Game.blackPlayer game else Game.whitePlayer game in
  let otherSubmitted := (resultSubmitted s).[(gameId, otherPlayer)] in
  let otherResult := (resultValue s).[(gameId, otherPlayer)] in
  if otherSubmitted && (otherResult =? result) then
    s ← _resolveBets env gameId result (finishGame env gameId result s);
    Ok (emit (GameFinished gameId result) s)
  else Ok s.

(** [resolveDisputedGame] (ChessBet.sol, lines 295-322). *)
Definition resolveDisputedGame (env : Env) (gameId : bytes32) (result : Z) (s : Storage)
    : outcome Storage :=
  onlyOwner env s;;
  gameExists gameId s;;
  require (result <=? 2) "Invalid result";;
  require (negb (resultResolved s).[gameId]) "Game already resolved";;
  let game := (games s).[gameId] in
  require (Game.status game =? 1) "Game not active";;
  require ((resultSubmitted s).[(gameId, Game.whitePlayer game)]
           && (resultSubmitted s).[(gameId, Game.blackPlayer game)])
          "Both players must submit results first";;
  s ← _resolveBets env gameId result (finishGame env gameId result s);
  Ok (emit (GameFinished gameId result) s).

(** [_isValidBetAmount] (ChessBet.sol, lines 838-847). *)
Definition _isValidBetAmount (bettingTier amount : Z) (s : Storage) : bool :=
  if bettingTier =? 0 then amount =? lowTierAmount s
  else if bettingTier =? 1 then amount =? mediumTierAmount s
  else if bettingTier =? 2 then 1 * USDC_UNIT <=? amount
  else false.

(** [_indexPlayerGame] (ChessBet.sol, lines 828-833). *)
Definition _indexPlayerGame (player : address) (gameId : bytes32) (s : Storage) : Storage :=
  if negb (_playerSeenGame s).[(player, gameId)] then
    let s := set_playerSeenGame (<[(player, gameId) := true]> (_playerSeenGame s)) s in
    set_playerGameIndex
      (<[player := (playerGameIndex s).[player] ++ [gameId]]> (playerGameIndex s)) s
  else s.

(** [pool.totalAmount += amount; pool.houseFee = pool.totalAmount * houseFeePercentage / 10000],
    the pool update of [placeBet] and [_recordBet]. *)
Definition addToPool (gameId : bytes32) (amount : Z) (s : Storage) : outcome Storage :=
  let pool := (bettingPools s).[gameId] in
  total ← checked_add (BettingPool.totalAmount pool) amount;
  scaled ← checked_mul total (houseFeePercentage s);
  Ok (modifyPool gameId
        (λ p, BettingPool.set_houseFee (scaled / 10000) (BettingPool.set_totalAmount total p)) s).

Definition newBet (env : Env) (gameId : bytes32) (player : address) (amount : Z) : GameBet.t :=
  {| GameBet.gameId := gameId; GameBet.player := player; GameBet.amount := amount;
     GameBet.status := 0; GameBet.createdAt := block_timestamp env;
     GameBet.resolvedAt := 0; GameBet.payout := 0 |}.

Definition pushBet (gameId : bytes32) (bet : GameBet.t) (s : Storage) : Storage :=
  set_gameBets (<[gameId := (gameBets s).[gameId] ++ [bet]]> (gameBets s)) s.

(** [placeBet] (ChessBet.sol, lines 325-378). *)
Definition placeBet (env : Env) (gameId : bytes32) (amount : Z) (s : Storage)
    : outcome Storage :=
  gameExists gameId s;;
  gameNotFinished gameId s;;
  whenNotPaused s;;
  let game := (games s).[gameId] in
  require (Game.status game =? 0) "Game already started or finished";;
  require ((msg_sender env =? Game.whitePlayer game) || (msg_sender env =? Game.blackPlayer game))
          "Only game players can bet";;
  require (_isValidBetAmount (Game.bettingTier game) amount s) "Invalid bet amount for tier";;
  require (forallb (λ b, negb (GameBet.player b =? msg_sender env)) (gameBets s).[gameId])
          "Player already bet";;
  tokenCall env s (SafeTransferFrom (msg_sender env) amount);;
  let s := pushBet gameId (newBet env gameId (msg_sender env) amount) s in
  let s := _indexPlayerGame (msg_sender env) gameId s in
  s ← addToPool gameId amount s;
  let s := emit (BetPlaced gameId (msg_sender env) amount) s in
  if (length (gameBets s).[gameId] =? 2)%nat then
    let game := Game.set_startedAt (block_timestamp env)
                  (Game.set_status 1 (games s).[gameId]) in
    Ok (emit (GameStarted gameId) (set_games (<[gameId := game]> (games s)) s))
  else Ok s.

(** [_recordBet] (ChessBet.sol, lines 804-826). *)
Definition _recordBet (env : Env) (gameId : bytes32) (player : address) (amount : Z)
    (s : Storage) : outcome Storage :=
  let s := pushBet gameId (newBet env gameId player amount) s in
  let s := _indexPlayerGame player gameId s in
  s ← addToPool gameId amount s;
  Ok (emit (BetPlaced gameId player amount) s).

(** [claimPayout] (ChessBet.sol, lines 462-471). *)
Definition claimPayout (env : Env) (s : Storage) : outcome Storage :=
  let amount := (pendingPayouts s).[msg_sender env] in
  require (0 <? amount) "No pending payout";;
  let s := set_pendingPayouts (<[msg_sender env := 0]> (pendingPayouts s)) s in
  tokenCall env s (SafeTransfer (msg_sender env) amount);;
  Ok (emit (PayoutClaimed (msg_sender env) amount) s).

(** [withdrawTokenFees] (ChessBet.sol, lines 474-479). *)
Definition withdrawTokenFees (env : Env) (s : Storage) : outcome Storage :=
  onlyOwner env s;;
  require (0 <? tokenFeeBalance s) "No token fees to withdraw";;
  let amount := tokenFeeBalance s in
  let s := set_tokenFeeBalance 0 s in
  tokenCall env s (SafeTransfer (owner s) amount);;
  Ok s.

(** ** Administration *)

(** [setHouseFeePercentage] (ChessBet.sol, lines 850-855). *)
Definition setHouseFeePercentage (env : Env) (_houseFeePercentage : Z) (s : Storage)
    : outcome Storage :=
  onlyOwner env s;;
  require (_houseFeePercentage <=? 1000) "Fee too high";;
  require (0 <=? _houseFeePercentage) "Fee cannot be negative";;
  Ok (emit (HouseFeePercentageUpdated _houseFeePercentage)
           (set_houseFeePercentage _houseFeePercentage s)).

(** [pause] (ChessBet.sol, lines 870-872), with the modifier of Pausable._pause. *)
Definition pause (env : Env) (s : Storage) : outcome Storage :=
  onlyOwner env s;;
  whenNotPaused s;;
  Ok (set_paused true s).

(** [unpause] (ChessBet.sol, lines 874-876), with the modifier of Pausable._unpause. *)
Definition unpause (env : Env) (s : Storage) : outcome Storage :=
  onlyOwner env s;;
  require (_paused s) "ExpectedPause";;
  Ok (set_paused false s).

(** The loop of [pauseGame] that refunds the pending bets of a game with other
    than two bets. *)
Fixpoint unwindLoop (n i : nat) (env : Env) (gameId : bytes32) (s : Storage)
    : outcome Storage :=
  match n with
  | O => Ok s
  | S n' =>
    match (gameBets s).[gameId] !! i with
    | None => Revert index_panic
    | Some bet =>
      if GameBet.status bet =? 0 then
        let s := modifyBet gameId i (λ b,
          GameBet.set_resolvedAt (block_timestamp env)
            (GameBet.set_payout (GameBet.amount b) (GameBet.set_status 3 b))) s in
        s ← creditPayout (GameBet.player bet) (GameBet.amount bet) s;
        let s := emit (BetResolved gameId (GameBet.player bet) (GameBet.amount bet)
                                   (GameBet.amount bet) RESULT_DRAW) s in
        unwindLoop n' (S i) env gameId s
      else unwindLoop n' (S i) env gameId s
    end
  end.

(** [pauseGame] (ChessBet.sol, lines 878-911). *)
Definition pauseGame (env : Env) (gameId : bytes32) (s : Storage) : outcome Storage :=
  onlyOwner env s;;
  gameExists gameId s;;
  require (negb (Game.status (games s).[gameId] =? 2)) "Already finished";;
  let s := set_games (<[gameId := Game.set_status 2 (games s).[gameId]]> (games s)) s in
  let bets := (gameBets s).[gameId] in
  s ← (if (length bets =? 2)%nat then _resolveBets env gameId RESULT_DRAW s
       else
         s ← unwindLoop (length bets) 0 env gameId s;
         let s := modifyPool gameId (λ p,
           BettingPool.set_houseFee 0
             (BettingPool.set_winner 0 (BettingPool.set_resolved true p))) s in
         Ok (emit (GameResolved gameId 0 RESULT_DRAW) s));
  let s := set_games (<[gameId :=
      Game.set_finishedAt (block_timestamp env)
        (Game.set_result RESULT_DRAW (games s).[gameId])]> (games s)) s in
  let s := set_resultResolved (<[gameId := true]> (resultResolved s)) s in
  let s := set_resultFinal (<[gameId := RESULT_DRAW]> (resultFinal s)) s in
  Ok (emit (GameFinished gameId RESULT_DRAW) s).

(** ** Order book *)

(** [_quantizeAmount] (ChessBet.sol, lines 629-631). *)
Definition _quantizeAmount (amount : Z) : Z := (amount / tickSize) * tickSize.

Definition modifyOrder (orderId : bytes32) (f : Order.t → Order.t) (s : Storage) : Storage :=
  set_orders (<[orderId := f (orders s).[orderId]]> (orders s)) s.

Definition modifyLevel (key : Z * Z * Z) (f : OrderbookLevel.t → OrderbookLevel.t)
    (s : Storage) : Storage :=
  set_orderbookLevels (<[key := f (orderbookLevels s).[key]]> (orderbookLevels s)) s.

(** [ids[i] = ids[ids.length - 1]; ids.pop()] *)
Definition swapPop (i : nat) (ids : list bytes32) : list bytes32 :=
  match last ids with
  | Some tail => removelast (<[i := tail]> ids)
  | None => ids
  end.

(** Index of the first occurrence of [orderId] at or after position [i]. *)
Fixpoint indexOf (orderId : bytes32) (ids : list bytes32) (i : nat) : option nat :=
  match ids with
  | [] => None
  | x :: rest => if bytes32_eqb x orderId then Some i else indexOf orderId rest (S i)
  end.

(** [_createMatch] (ChessBet.sol, lines 751-802): a matched pair becomes a game
    that is funded and started at once. *)
Definition _createMatch (env : Env) (whiteOrderId blackOrderId : bytes32) (amount : Z)
    (s : Storage) : outcome Storage :=
  require (0 <? amount) "zero match";;
  let whiteOrder := (orders s).[whiteOrderId] in
  let blackOrder := (orders s).[blackOrderId] in
  let whitePlayer :=
    if Order.side whiteOrder =? 0 then Order.player whiteOrder else Order.player blackOrder in
  let blackPlayer :=
    if Order.side whiteOrder =? 1 then Order.player whiteOrder else Order.player blackOrder in
  let gameId :=
    keccak256 [whitePlayer; blackPlayer; amount; block_timestamp env; block_number env] in
  let s := set_games (<[gameId :=
      {| Game.id := gameId; Game.whitePlayer := whitePlayer; Game.blackPlayer := blackPlayer;
         Game.fen := START_FEN; Game.pgn := EmptyString; Game.status := 0; Game.result := 0;
         Game.bettingTier := 2; Game.timeControl := Order.timeControl whiteOrder;
         Game.createdAt := block_timestamp env; Game.startedAt := 0; Game.finishedAt := 0;
         Game.moveCount := 0 |}]> (games s)) s in
  let s := set_bettingPools (<[gameId :=
      {| BettingPool.gameId := gameId; BettingPool.totalAmount := 0;
         BettingPool.houseFee := 0; BettingPool.resolved := false;
         BettingPool.winner := 0 |}]> (bettingPools s)) s in
  s ← _recordBet env gameId whitePlayer amount s;
  s ← _recordBet env gameId blackPlayer amount s;
  let game := Game.set_startedAt (block_timestamp env)
                (Game.set_status 1 (games s).[gameId]) in
  let s := set_games (<[gameId := game]> (games s)) s in
  let s := emit (GameCreated gameId whitePlayer blackPlayer (Order.timeControl whiteOrder)) s in
  Ok (emit (GameStarted gameId) s).

(** The [while] loop of [_matchAtLevel] (ChessBet.sol, lines 667-703).  [order]
    and [oppositeOrder] are storage references, so every read goes to the current
    storage. *)
Fixpoint matchLoop (fuel : nat) (env : Env) (orderId : bytes32) (key : Z * Z * Z)
    (remainingAmount : Z) (s : Storage) : outcome Storage :=
  let level := (orderbookLevels s).[key] in
  if (0 <? remainingAmount) && (0 <? length (OrderbookLevel.orderIds level))%nat then
    match fuel with
    | O => OutOfGas
    | S fuel' =>
      let oppositeOrderId := default [] (head (OrderbookLevel.orderIds level)) in
      let oppositeOrder := (orders s).[oppositeOrderId] in
      oppositeRemaining ← checked_sub (Order.amount oppositeOrder)
                                      (Order.filledAmount oppositeOrder);
      let matchAmount :=
        if remainingAmount <? oppositeRemaining then remainingAmount else oppositeRemaining in
      if matchAmount =? 0 then
        if oppositeRemaining =? 0 then
          let s := modifyOrder oppositeOrderId (Order.set_status 2) s in
          let s := modifyLevel key (λ l,
            OrderbookLevel.set_orderIds (swapPop 0 (OrderbookLevel.orderIds l)) l) s in
          matchLoop fuel' env orderId key remainingAmount s
        else Ok s
      else
        s ← _createMatch env orderId oppositeOrderId matchAmount s;
        filled ← checked_add (Order.filledAmount (orders s).[orderId]) matchAmount;
        let s := modifyOrder orderId (Order.set_filledAmount filled) s in
        oppositeFilled ←
          checked_add (Order.filledAmount (orders s).[oppositeOrderId]) matchAmount;
        let s := modifyOrder oppositeOrderId (Order.set_filledAmount oppositeFilled) s in
        remainingAmount ← checked_sub remainingAmount matchAmount;
        total ← checked_sub (OrderbookLevel.totalAmount (orderbookLevels s).[key]) matchAmount;
        let s := modifyLevel key (OrderbookLevel.set_totalAmount total) s in
        let oppositeOrder := (orders s).[oppositeOrderId] in
        let s :=
          if Order.amount oppositeOrder <=? Order.filledAmount oppositeOrder then
            let s := modifyOrder oppositeOrderId (Order.set_status 2) s in
            modifyLevel key (λ l,
              OrderbookLevel.set_orderIds (swapPop 0 (OrderbookLevel.orderIds l)) l) s
          else s in
        matchLoop fuel' env orderId key remainingAmount s
    end
  else Ok s.

(** [_matchAtLevel] (ChessBet.sol, lines 656-711).  Every turn of [matchLoop] but
    the last evicts the head of the queue, so one turn more than the queue is
    long is enough ([matchLoop_budget] below). *)
Definition _matchAtLevel (env : Env) (orderId : bytes32) (key : Z * Z * Z) (maxAmount : Z)
    (s : Storage) : outcome Storage :=
  let order := (orders s).[orderId] in
  orderRemaining ← checked_sub (Order.amount order) (Order.filledAmount order);
  let remainingAmount := if maxAmount <=? orderRemaining then maxAmount else orderRemaining in
  let fuel := S (length (OrderbookLevel.orderIds (orderbookLevels s).[key])) in
  s ← matchLoop fuel env orderId key remainingAmount s;
  let order := (orders s).[orderId] in
  if Order.amount order <=? Order.filledAmount order then
    Ok (modifyOrder orderId (Order.set_status 2) s)
  else if 0 <? Order.filledAmount order then
    Ok (modifyOrder orderId (Order.set_status 1) s)
  else Ok s.

(** The body that both loops of [_matchNearestLevels] run at one tick (ChessBet.sol,
    lines 727-732 and 739-744): match at the level when its queue is not empty,
    recompute the remaining amount, and tell whether the loop is left by [break]. *)
Definition matchTick (env : Env) (orderId : bytes32) (oppositeSide tick remainingAmount : Z)
    (s : Storage) : outcome (Z * bool * Storage) :=
  let key := (Order.timeControl (orders s).[orderId], oppositeSide, tick) in
  if (0 <? length (OrderbookLevel.orderIds (orderbookLevels s).[key]))%nat then
    s ← _matchAtLevel env orderId key remainingAmount s;
    let order := (orders s).[orderId] in
    remainingAmount ← checked_sub (Order.amount order) (Order.filledAmount order);
    Ok (remainingAmount, remainingAmount =? 0, s)
  else Ok (remainingAmount, false, s).

(** The control of the two loops of [_matchNearestLevels] (ChessBet.sol, lines
    713-749), for any loop body
    [body tick remainingAmount st] that returns the new remaining amount, whether
    the loop is left by [break], and the new state.  [_matchNearestLevels] runs
    them with [matchTick] on the storage. *)
Section NearestLoops.
Context {St : Type} (body : Z → Z → St → outcome (Z * bool * St)).

(** [for (tick = ...; tick <= maxTick && remainingAmount > 0; tick += tickSize)] *)
Fixpoint ascend (fuel : nat) (maxTick tick remainingAmount : Z) (st : St)
    : outcome (Z * St) :=
  if (tick <=? maxTick) && (0 <? remainingAmount) then
    match fuel with
    | O => OutOfGas
    | S fuel' =>
      '(remainingAmount, break, st) ← body tick remainingAmount st;
      if break : bool then Ok (remainingAmount, st)
      else
        tick ← checked_add tick tickSize;
        ascend fuel' maxTick tick remainingAmount st
    end
  else Ok (remainingAmount, st).

(** [while (tick >= minTick && remainingAmount > 0)], left early below one tick. *)
Fixpoint descend (fuel : nat) (minTick tick remainingAmount : Z) (st : St) : outcome St :=
  if (minTick <=? tick) && (0 <? remainingAmount) then
    match fuel with
    | O => OutOfGas
    | S fuel' =>
      '(remainingAmount, break, st) ← body tick remainingAmount st;
      if break : bool then Ok st
      else if tick <? tickSize then Ok st
      else descend fuel' minTick (tick - tickSize) remainingAmount st
    end
  else Ok st.

(** Both loops advance by [tickSize] inside a band of [toleranceAmount] around the
    order's tick; [toleranceAmount / tickSize] iterations are given to each. *)
Definition nearestLoops (tickAmount maxAmount : Z) (st : St) : outcome St :=
  scaled ← checked_mul tickAmount tolerancePercentage;
  let toleranceAmount := scaled / 100 in
  let minTick := if toleranceAmount <? tickAmount then tickAmount - toleranceAmount else 0 in
  maxTick ← checked_add tickAmount toleranceAmount;
  let fuel := Z.to_nat (toleranceAmount / tickSize) in
  first ← checked_add tickAmount tickSize;
  '(remainingAmount, st) ← ascend fuel maxTick first maxAmount st;
  if tickSize <=? tickAmount then
    descend fuel minTick (tickAmount - tickSize) remainingAmount st
  else Ok st.

End NearestLoops.

Definition _matchNearestLevels (env : Env) (orderId : bytes32) (oppositeSide maxAmount : Z)
    (s : Storage) : outcome Storage :=
  nearestLoops (matchTick env orderId oppositeSide)
               (Order.tickAmount (orders s).[orderId]) maxAmount s.

(** [_attemptMatch] (ChessBet.sol, lines 633-654). *)
Definition _attemptMatch (env : Env) (orderId : bytes32) (s : Storage) : outcome Storage :=
  let order := (orders s).[orderId] in
  if negb (Order.status order =? 0) then Ok s
  else
    let oppositeSide := if Order.side order =? 0 then 1 else 0 in
    let exactKey := (Order.timeControl order, oppositeSide, Order.tickAmount order) in
    s ← (if 0 <? OrderbookLevel.totalAmount (orderbookLevels s).[exactKey] then
           remainingBefore ← checked_sub (Order.amount order) (Order.filledAmount order);
           _matchAtLevel env orderId exactKey remainingBefore s
         else Ok s);
    let order := (orders s).[orderId] in
    if (Order.status order =? 0) || (Order.status order =? 1) then
      remainingAfter ← checked_sub (Order.amount order) (Order.filledAmount order);
      if 0 <? remainingAfter then _matchNearestLevels env orderId oppositeSide remainingAfter s
      else Ok s
    else Ok s.

(** The first half of [placeOrder] (ChessBet.sol, lines 538-576): the order is
    escrowed, stored and queued at its level. *)
Definition enqueueOrder (env : Env) (side timeControl amount : Z) (s : Storage)
    : outcome (bytes32 * Storage) :=
  whenNotPaused s;;
  require (side <=? 1) "Invalid side";;
  require (tickSize <=? amount) "Amount below minimum tick size";;
  let quantizedAmount := _quantizeAmount amount in
  require (0 <? quantizedAmount) "Amount too small after quantization";;
  tokenCall env s (SafeTransferFrom (msg_sender env) quantizedAmount);;
  let orderId :=
    keccak256 [msg_sender env; side; quantizedAmount; timeControl;
               block_timestamp env; block_number env] in
  let s := set_orders (<[orderId :=
      {| Order.id := orderId; Order.player := msg_sender env; Order.side := side;
         Order.amount := quantizedAmount; Order.tickAmount := quantizedAmount;
         Order.timeControl := timeControl; Order.createdAt := block_timestamp env;
         Order.filledAmount := 0; Order.status := 0 |}]> (orders s)) s in
  let s := set_playerOrders
    (<[msg_sender env := (playerOrders s).[msg_sender env] ++ [orderId]]>
       (playerOrders s)) s in
  let key := (timeControl, side, quantizedAmount) in
  let s := modifyLevel key (λ l,
    if OrderbookLevel.tickAmount l =? 0 then OrderbookLevel.set_tickAmount quantizedAmount l
    else l) s in
  let s := modifyLevel key (λ l,
    OrderbookLevel.set_orderIds (OrderbookLevel.orderIds l ++ [orderId]) l) s in
  total ← checked_add (OrderbookLevel.totalAmount (orderbookLevels s).[key]) quantizedAmount;
  Ok (orderId, modifyLevel key (OrderbookLevel.set_totalAmount total) s).

(** [placeOrder] (ChessBet.sol, lines 538-582) then tries to match the order
    immediately. *)
Definition placeOrder (env : Env) (side timeControl amount : Z) (s : Storage)
    : outcome (bytes32 * Storage) :=
  '(orderId, s) ← enqueueOrder env side timeControl amount s;
  s ← _attemptMatch env orderId s;
  Ok (orderId, s).

(** [cancelOrder] (ChessBet.sol, lines 584-607). *)
Definition cancelOrder (env : Env) (orderId : bytes32) (s : Storage) : outcome Storage :=
  require (Order.player (orders s).[orderId] =? msg_sender env) "Not order owner";;
  require ((Order.status (orders s).[orderId] =? 0) || (Order.status (orders s).[orderId] =? 1))
          "Cannot cancel filled or cancelled order";;
  let s := modifyOrder orderId (Order.set_status 3) s in
  let order := (orders s).[orderId] in
  let key := (Order.timeControl order, Order.side order, Order.tickAmount order) in
  let s :=
    match indexOf orderId (OrderbookLevel.orderIds (orderbookLevels s).[key]) 0 with
    | Some i => modifyLevel key (λ l,
        OrderbookLevel.set_orderIds (swapPop i (OrderbookLevel.orderIds l)) l) s
    | None => s
    end in
  unfilled ← checked_sub (Order.amount order) (Order.filledAmount order);
  total ← checked_sub (OrderbookLevel.totalAmount (orderbookLevels s).[key]) unfilled;
  let s := modifyLevel key (OrderbookLevel.set_totalAmount total) s in
  refundAmount ← checked_sub (Order.amount order) (Order.filledAmount order);
  (if 0 <? refundAmount then tokenCall env s (SafeTransfer (msg_sender env) refundAmount)
   else Ok tt);;
  Ok s.

(** [setBettingTierAmounts] (ChessBet.sol, lines 857-865). *)
Definition setBettingTierAmounts (env : Env) (_lowTierAmount _mediumTierAmount : Z)
    (s : Storage) : outcome Storage :=
  onlyOwner env s;;
  require (0 <? _lowTierAmount) "Low tier amount must be positive";;
  require (_lowTierAmount <? _mediumTierAmount) "Medium tier must be higher than low tier";;
  require (tickSize <=? _lowTierAmount) "Low tier must be at least tick size";;
  require (tickSize <=? _mediumTierAmount) "Medium tier must be at least tick size";;
  let s := set_lowTierAmount _lowTierAmount s in
  let s := set_mediumTierAmount _mediumTierAmount s in
  Ok (emit (BettingTierAmountsUpdated _lowTierAmount _mediumTierAmount) s).

(** ** View functions (ChessBet.sol, lines 486-535 and 609-627) *)

Definition getGame (gameId : bytes32) (s : Storage) : Game.t := (games s).[gameId].

Definition getBettingPool (gameId : bytes32) (s : Storage) : BettingPool.t :=
  (bettingPools s).[gameId].

Definition getGameBets (gameId : bytes32) (s : Storage) : list GameBet.t :=
  (gameBets s).[gameId].

Definition getBettingTierAmounts (s : Storage) : Z * Z :=
  (lowTierAmount s, mediumTierAmount s).

Definition isValidBetAmountForTier (bettingTier amount : Z) (s : Storage) : bool :=
  _isValidBetAmount bettingTier amount s.

Definition getOrder (orderId : bytes32) (s : Storage) : Order.t := (orders s).[orderId].

Definition getPlayerOrders (player : address) (s : Storage) : list bytes32 :=
  (playerOrders s).[player].

Definition getOrderbookLevel (timeControl side tickAmount : Z) (s : Storage)
    : OrderbookLevel.t :=
  (orderbookLevels s).[(timeControl, side, tickAmount)].

Definition quantizeAmount (amount : Z) : Z := _quantizeAmount amount.

(** [getPlayerBets] (ChessBet.sol, lines 498-524) goes twice through the games
    that the player is indexed under: once to count the bets of the player, and
    once to copy them into a memory array of that length.  The counters [count]
    and [k] are bounded by the number of stored bets and cannot overflow. *)

(** The inner loop of the first pass, over the bets [gb] of one game. *)
Fixpoint countBets (player : address) (gb : list GameBet.t) (count : nat) : nat :=
  match gb with
  | [] => count
  | bet :: rest =>
    countBets player rest (if GameBet.player bet =? player then S count else count)
  end.

(** The outer loop of the first pass, over [playerGameIndex[player]]. *)
Fixpoint countGames (player : address) (index : list bytes32) (s : Storage) (count : nat)
    : nat :=
  match index with
  | [] => count
  | gameId :: rest => countGames player rest s (countBets player (gameBets s).[gameId] count)
  end.

(** The inner loop of the second pass; [out[k] = gb[j]] panics when [k] is not
    an index of [out]. *)
Fixpoint copyBets (player : address) (gb : list GameBet.t) (out : list GameBet.t) (k : nat)
    : outcome (list GameBet.t * nat) :=
  match gb with
  | [] => Ok (out, k)
  | bet :: rest =>
    if GameBet.player bet =? player then
      if (k <? length out)%nat then copyBets player rest (<[k := bet]> out) (S k)
      else Revert index_panic
    else copyBets player rest out k
  end.

(** The outer loop of the second pass. *)
Fixpoint copyGames (player : address) (index : list bytes32) (s : Storage)
    (out : list GameBet.t) (k : nat) : outcome (list GameBet.t * nat) :=
  match index with
  | [] => Ok (out, k)
  | gameId :: rest =>
    '(out, k) ← copyBets player (gameBets s).[gameId] out k;
    copyGames player rest s out k
  end.

Definition getPlayerBets (player : address) (s : Storage) : outcome (list GameBet.t) :=
  let index := (playerGameIndex s).[player] in
  let count := countGames player index s 0 in
  let out := replicate count GameBet.zero in
  '(out, _) ← copyGames player index s out 0;
  Ok out.

End ChessBet.
(** * The engine reimplementation ([OrderbookManager])

    The TypeScript engine keeps [Order] objects that are shared between the
    [allOrders] map of an order book and the queues of its levels; the embedding
    keeps the objects in one heap ([objects]) and lets maps and queues hold their
    identifiers.  A JavaScript [Map] iterates in insertion order, so the levels of
    one side are kept as a list in insertion order, keyed by [tickAmount] (the
    source keys them by [tickAmount.toString()]).  Identifiers are made from
    [Date.now()] and [Math.random()] in the source; here they are drawn from a
    counter.  Amounts are [bigint]: unbounded, with division truncating toward
    zero. *)

Module OrderbookManager.

Definition TICK_SIZE : Z := 10 * 10 ^ 18.
Definition TOLERANCE_PERCENTAGE : Z := 5.

Inductive OrderSide : Type := white | black.

Inductive OrderStatus : Type := open | partially_filled | filled | cancelled.

Definition TimeControl : Type := (Z * Z)%type.   (* initial, increment *)

Record Order : Type := mkOrder {
  id : nat;
  playerAddress : string;
  side : OrderSide;
  amount : Z;
  tickAmount : Z;
  timeControl : TimeControl;
  filledAmount : Z;
  status : OrderStatus
}.

Definition set_filledAmount (v : Z) (o : Order) : Order :=
  {| id := id o; playerAddress := playerAddress o; side := side o; amount := amount o;
     tickAmount := tickAmount o; timeControl := timeControl o; filledAmount := v;
     status := status o |}.

Definition set_status (v : OrderStatus) (o : Order) : Order :=
  {| id := id o; playerAddress := playerAddress o; side := side o; amount := amount o;
     tickAmount := tickAmount o; timeControl := timeControl o;
     filledAmount := filledAmount o; status := v |}.

Record OrderbookLevel : Type := mkLevel {
  levelTick : Z;            (* tickAmount *)
  levelOrders : list nat;   (* orders: the queue, as references into the heap *)
  totalAmount : Z
}.

Record Orderbook : Type := mkOrderbook {
  whiteLevels : list OrderbookLevel;
  blackLevels : list OrderbookLevel;
  allOrders : list nat
}.

Record Match : Type := mkMatch {
  whiteOrder : nat;
  blackOrder : nat;
  matchAmount : Z;
  gameId : nat
}.

Record Manager : Type := mkManager {
  orderbooks : gmap TimeControl Orderbook;
  objects : gmap nat Order;     (* the Order objects, by identifier *)
  pools : list nat;             (* betting pools created by the betting engine *)
  nextId : nat
}.

Definition empty : Manager :=
  {| orderbooks := ∅; objects := ∅; pools := []; nextId := 0 |}.

Definition emptyOrderbook : Orderbook :=
  {| whiteLevels := []; blackLevels := []; allOrders := [] |}.

Definition set_objects (v : gmap nat Order) (m : Manager) : Manager :=
  {| orderbooks := orderbooks m; objects := v; pools := pools m; nextId := nextId m |}.

Definition set_orderbooks (v : gmap TimeControl Orderbook) (m : Manager) : Manager :=
  {| orderbooks := v; objects := objects m; pools := pools m; nextId := nextId m |}.

Definition modifyObject (i : nat) (f : Order → Order) (m : Manager) : Manager :=
  match objects m !! i with
  | Some o => set_objects (<[i := f o]> (objects m)) m
  | None => m
  end.

(** [quantizeAmount] (ChessEngine.ts, lines 235-237). *)
Definition quantizeAmount (amount : Z) : Z := Z.quot amount TICK_SIZE * TICK_SIZE.

Definition sideLevels (sd : OrderSide) (book : Orderbook) : list OrderbookLevel :=
  match sd with white => whiteLevels book | black => blackLevels book end.

Definition set_sideLevels (sd : OrderSide) (v : list OrderbookLevel) (book : Orderbook)
    : Orderbook :=
  match sd with
  | white => {| whiteLevels := v; blackLevels := blackLevels book; allOrders := allOrders book |}
  | black => {| whiteLevels := whiteLevels book; blackLevels := v; allOrders := allOrders book |}
  end.

Definition opposite (sd : OrderSide) : OrderSide :=
  match sd with white => black | black => white end.

(** [levels.get(tick.toString())] *)
Definition getLevel (tick : Z) (levels : list OrderbookLevel) : option OrderbookLevel :=
  List.find (λ l, levelTick l =? tick) levels.

(** The level object of key [tick] is updated in place. *)
Definition modifyLevel (tick : Z) (f : OrderbookLevel → OrderbookLevel)
    (levels : list OrderbookLevel) : list OrderbookLevel :=
  List.map (λ l, if levelTick l =? tick then f l else l) levels.

(** [getOrCreateOrderbook] (ChessEngine.ts, lines 245-258). *)
Definition getOrCreateOrderbook (tc : TimeControl) (m : Manager) : Manager :=
  match orderbooks m !! tc with
  | Some _ => m
  | None => set_orderbooks (<[tc := emptyOrderbook]> (orderbooks m)) m
  end.

Definition book (tc : TimeControl) (m : Manager) : Orderbook :=
  default emptyOrderbook (orderbooks m !! tc).

Definition modifyLevelOf (tc : TimeControl) (sd : OrderSide) (tick : Z)
    (f : OrderbookLevel → OrderbookLevel) (m : Manager) : Manager :=
  let b := book tc m in
  set_orderbooks
    (<[tc := set_sideLevels sd (modifyLevel tick f (sideLevels sd b)) b]> (orderbooks m)) m.

(** [createMatch] (ChessEngine.ts, lines 432-457): a fresh game identifier and a
    betting pool for it; the game object it builds is only logged. *)
Definition createMatch (m : Manager) : nat * Manager :=
  let g := nextId m in
  (g, {| orderbooks := orderbooks m; objects := objects m; pools := pools m ++ [g];
         nextId := S g |}).

Definition removeHead (l : OrderbookLevel) : OrderbookLevel :=
  {| levelTick := levelTick l; levelOrders := tail (levelOrders l);
     totalAmount := totalAmount l |}.

Definition addTotal (d : Z) (l : OrderbookLevel) : OrderbookLevel :=
  {| levelTick := levelTick l; levelOrders := levelOrders l;
     totalAmount := totalAmount l + d |}.

Definition pushOrder (i : nat) (l : OrderbookLevel) : OrderbookLevel :=
  {| levelTick := levelTick l; levelOrders := levelOrders l ++ [i];
     totalAmount := totalAmount l |}.

(** The [while] loop of [matchAtLevel] (ChessEngine.ts, lines 359-388) on the level
    of key [tick] on side [sd] of the order book of [tc]; [acc] collects the
    matches.  [None] stands for a dangling reference or an exhausted budget. *)
Fixpoint matchLoop (fuel : nat) (orderId : nat) (tc : TimeControl) (sd : OrderSide)
    (tick : Z) (remainingAmount : Z) (acc : list Match) (m : Manager)
    : option (list Match * Z * Manager) :=
  match getLevel tick (sideLevels sd (book tc m)) with
  | None => Some (acc, remainingAmount, m)
  | Some level =>
    match levelOrders level with
    | oppositeId :: _ =>
      if 0 <? remainingAmount then
        match fuel, objects m !! orderId, objects m !! oppositeId with
        | S fuel', Some order, Some oppositeOrder =>
          let unfilled := amount oppositeOrder - filledAmount oppositeOrder in
          let matched := if remainingAmount <? unfilled then remainingAmount else unfilled in
          let '(g, m) := createMatch m in
          let acc := acc ++ [
            {| whiteOrder := match side order with white => orderId | black => oppositeId end;
               blackOrder := match side order with black => orderId | white => oppositeId end;
               matchAmount := matched; gameId := g |}] in
          let m := modifyObject orderId (λ o, set_filledAmount (filledAmount o + matched) o) m in
          let m := modifyObject oppositeId
                     (λ o, set_filledAmount (filledAmount o + matched) o) m in
          let remainingAmount := remainingAmount - matched in
          let m := modifyLevelOf tc sd tick (addTotal (- matched)) m in
          let m :=
            match objects m !! oppositeId with
            | Some o =>
              if amount o <=? filledAmount o then
                modifyLevelOf tc sd tick removeHead (modifyObject oppositeId (set_status filled) m)
              else m
            | None => m
            end in
          matchLoop fuel' orderId tc sd tick remainingAmount acc m
        | _, _, _ => None
        end
      else Some (acc, remainingAmount, m)
    | [] => Some (acc, remainingAmount, m)
    end
  end.

(** [matchAtLevel] (ChessEngine.ts, lines 351-391). *)
Definition matchAtLevel (orderId : nat) (tc : TimeControl) (sd : OrderSide) (tick : Z)
    (maxAmount : Z) (m : Manager) : option (list Match * Z * Manager) :=
  let queue :=
    match getLevel tick (sideLevels sd (book tc m)) with
    | Some l => levelOrders l
    | None => []
    end in
  matchLoop (S (length queue)) orderId tc sd tick maxAmount [] m.

(** Distance of a level from the order's tick, the sort key of [matchNearestLevels]. *)
Definition distance (tick : Z) (l : OrderbookLevel) : Z :=
  if tick <? levelTick l then levelTick l - tick else tick - levelTick l.

(** [Array.prototype.sort] is stable; the comparator is the sign of the
    difference of the distances. *)
Fixpoint insertBy (key : OrderbookLevel → Z) (x : OrderbookLevel)
    (sorted : list OrderbookLevel) : list OrderbookLevel :=
  match sorted with
  | [] => [x]
  | y :: rest => if key x <=? key y then x :: y :: rest else y :: insertBy key x rest
  end.

Definition sortBy (key : OrderbookLevel → Z) (l : list OrderbookLevel)
    : list OrderbookLevel :=
  foldr (insertBy key) [] l.

(** The levels that [matchNearestLevels] goes through, in order (ChessEngine.ts,
    lines 402-418). *)
Definition candidateLevels (tick : Z) (oppositeLevels : list OrderbookLevel)
    : list OrderbookLevel :=
  let toleranceAmount := Z.quot (tick * TOLERANCE_PERCENTAGE) 100 in
  let minTick := tick - toleranceAmount in
  let maxTick := tick + toleranceAmount in
  sortBy (distance tick)
    (List.filter (λ l, (minTick <=? levelTick l) && (levelTick l <=? maxTick)) oppositeLevels).

(** [for (const level of candidateLevels)] *)
Fixpoint visitLevels (orderId : nat) (tc : TimeControl) (sd : OrderSide)
    (levels : list OrderbookLevel) (remainingAmount : Z) (acc : list Match) (m : Manager)
    : option (list Match * Z * Manager) :=
  match levels with
  | [] => Some (acc, remainingAmount, m)
  | level :: rest =>
    if remainingAmount <=? 0 then Some (acc, remainingAmount, m)
    else
      '(found, remainingAmount, m) ←
        matchAtLevel orderId tc sd (levelTick level) remainingAmount m;
      visitLevels orderId tc sd rest remainingAmount (acc ++ found) m
  end.

(** [matchNearestLevels] (ChessEngine.ts, lines 394-429). *)
Definition matchNearestLevels (orderId : nat) (tc : TimeControl) (sd : OrderSide)
    (maxAmount : Z) (m : Manager) : option (list Match * Z * Manager) :=
  order ← objects m !! orderId;
  visitLevels orderId tc sd
    (candidateLevels (tickAmount order) (sideLevels sd (book tc m))) maxAmount [] m.

(** [attemptMatch] (ChessEngine.ts, lines 313-348). *)
Definition attemptMatch (orderId : nat) (m : Manager) : option (list Match * Manager) :=
  order ← objects m !! orderId;
  let tc := timeControl order in
  let m := getOrCreateOrderbook tc m in
  let sd := opposite (side order) in
  let remainingAmount := amount order - filledAmount order in
  '(matches, remainingAmount, m) ←
    match getLevel (tickAmount order) (sideLevels sd (book tc m)) with
    | Some _ => matchAtLevel orderId tc sd (tickAmount order) remainingAmount m
    | None => Some ([], remainingAmount, m)
    end;
  '(matches, remainingAmount, m) ←
    (if 0 <? remainingAmount then
       '(nearest, remainingAmount, m) ← matchNearestLevels orderId tc sd remainingAmount m;
       Some (matches ++ nearest, remainingAmount, m)
     else Some (matches, remainingAmount, m));
  order ← objects m !! orderId;
  let m :=
    if remainingAmount =? 0 then modifyObject orderId (set_status filled) m
    else if 0 <? filledAmount order then modifyObject orderId (set_status partially_filled) m
    else m in
  Some (matches, m).

(** The first half of [placeOrder] (ChessEngine.ts, lines 261-304): the order
    object is created, registered and queued at its level.  It throws when the
    amount quantizes to zero ([None]). *)
Definition enqueueOrder (player : string) (sd : OrderSide) (amt : Z) (tc : TimeControl)
    (m : Manager) : option (nat * Manager) :=
  let quantizedAmount := quantizeAmount amt in
  if quantizedAmount =? 0 then None
  else
    let orderId := nextId m in
    let order :=
      {| id := orderId; playerAddress := player; side := sd; amount := amt;
         tickAmount := quantizedAmount; timeControl := tc; filledAmount := 0;
         status := open |} in
    let m := {| orderbooks := orderbooks m; objects := <[orderId := order]> (objects m);
                pools := pools m; nextId := S orderId |} in
    let m := getOrCreateOrderbook tc m in
    let b := book tc m in
    let b := {| whiteLevels := whiteLevels b; blackLevels := blackLevels b;
                allOrders := allOrders b ++ [orderId] |} in
    let levels := sideLevels sd b in
    let levels :=
      match getLevel quantizedAmount levels with
      | Some _ => levels
      | None => levels ++ [{| levelTick := quantizedAmount; levelOrders := [];
                              totalAmount := 0 |}]
      end in
    let levels :=
      modifyLevel quantizedAmount (λ l, addTotal quantizedAmount (pushOrder orderId l)) levels in
    Some (orderId, set_orderbooks (<[tc := set_sideLevels sd levels b]> (orderbooks m)) m).

(** [placeOrder] (ChessEngine.ts, lines 261-310) then tries to match the order
    immediately. *)
Definition placeOrder (player : string) (sd : OrderSide) (amt : Z) (tc : TimeControl)
    (m : Manager) : option (nat * Manager) :=
  '(orderId, m) ← enqueueOrder player sd amt tc m;
  '(_, m) ← attemptMatch orderId m;
  Some (orderId, m).

(** The aggregate that the specification requires of a level, on the engine. *)
Definition openInterest (m : Manager) (level : OrderbookLevel) : Z :=
  foldr (λ i acc,
           match objects m !! i with
           | Some o =>
             match status o with
             | open | partially_filled => tickAmount o - filledAmount o + acc
             | filled | cancelled => acc
             end
           | None => acc
           end)
        0 (levelOrders level).

(** The order book that registers [orderId], and its key.  The source goes through
    [this.orderbooks.values()] and stops at the first book whose [allOrders] has
    the identifier; a fresh identifier is registered in one book only. *)
Definition findBook (orderId : nat) (m : Manager) : option (TimeControl * Orderbook) :=
  List.find (λ entry, bool_decide (orderId ∈ allOrders (snd entry)))
            (map_to_list (orderbooks m)).

(** [level.orders.findIndex(o => o.id === orderId)] *)
Fixpoint findIndex (orderId : nat) (m : Manager) (queue : list nat) (index : nat)
    : option nat :=
  match queue with
  | [] => None
  | i :: rest =>
    match objects m !! i with
    | Some o => if Nat.eqb (id o) orderId then Some index
                else findIndex orderId m rest (S index)
    | None => findIndex orderId m rest (S index)
    end
  end.

(** [level.orders.splice(index, 1); level.totalAmount -= unfilled] *)
Definition spliceOrder (index : nat) (unfilled : Z) (l : OrderbookLevel) : OrderbookLevel :=
  {| levelTick := levelTick l; levelOrders := delete index (levelOrders l);
     totalAmount := totalAmount l - unfilled |}.

(** [cancelOrder] (ChessEngine.ts, lines 460-487); the answer and the manager
    after the call. *)
Definition cancelOrder (orderId : nat) (m : Manager) : bool * Manager :=
  match findBook orderId m, objects m !! orderId with
  | Some (tc, b), Some order =>
    match status order with
    | open | partially_filled =>
      let m' := modifyObject orderId (set_status cancelled) m in
      match getLevel (tickAmount order) (sideLevels (side order) b) with
      | Some level =>
        match findIndex orderId m' (levelOrders level) 0 with
        | Some index =>
          (true, modifyLevelOf tc (side order) (tickAmount order)
                   (spliceOrder index (amount order - filledAmount order)) m')
        | None => (true, m')
        end
      | None => (true, m')
      end
    | filled | cancelled => (false, m)
    end
  | _, _ => (false, m)
  end.

(** [getOrder] (ChessEngine.ts, lines 490-496). *)
Definition getOrder (orderId : nat) (m : Manager) : option Order :=
  match findBook orderId m with
  | Some _ => objects m !! orderId
  | None => None
  end.

(** One row of [getOrderbookDepth]. *)
Record DepthRow : Type := mkDepthRow {
  rowTick : Z;        (* tickAmount *)
  rowTotal : Z;       (* totalAmount *)
  orderCount : nat
}.

Definition depthRow (l : OrderbookLevel) : DepthRow :=
  {| rowTick := levelTick l; rowTotal := totalAmount l;
     orderCount := length (levelOrders l) |}.

(** [rows.sort((a, b) => Number(a.tickAmount - b.tickAmount))], stable. *)
Fixpoint insertRow (x : DepthRow) (sorted : list DepthRow) : list DepthRow :=
  match sorted with
  | [] => [x]
  | y :: rest => if rowTick x <=? rowTick y then x :: y :: rest else y :: insertRow x rest
  end.

Definition sortRows (rows : list DepthRow) : list DepthRow := foldr insertRow [] rows.

(** [getOrderbookDepth] (ChessEngine.ts, lines 512-538): the rows of the white
    and of the black side. *)
Definition getOrderbookDepth (tc : TimeControl) (m : Manager)
    : list DepthRow * list DepthRow :=
  match orderbooks m !! tc with
  | None => ([], [])
  | Some b => (sortRows (map depthRow (whiteLevels b)), sortRows (map depthRow (blackLevels b)))
  end.

(** The levels of one side that hold an order, by ascending tick. *)
Definition populatedLevels (levels : list OrderbookLevel) : list OrderbookLevel :=
  sortBy levelTick (List.filter (λ l, (0 <? length (levelOrders l))%nat) levels).

(** [getBestBidAsk] (ChessEngine.ts, lines 541-559): (bestBid, bestAsk). *)
Definition getBestBidAsk (tc : TimeControl) (m : Manager) : Z * Z :=
  match orderbooks m !! tc with
  | None => (0, 0)
  | Some b =>
    (match populatedLevels (blackLevels b) with l :: _ => levelTick l | [] => 0 end,
     match populatedLevels (whiteLevels b) with l :: _ => levelTick l | [] => 0 end)
  end.

(** [getTickSize] (ChessEngine.ts, lines 562-564). *)
Definition getTickSize : Z := TICK_SIZE.

End OrderbookManager.
(** * Observations and scenarios *)

Import ChessBet.

(** The statuses of a [GameBet], as the struct declares them. *)
Definition BET_PENDING : Z := 0.
Definition BET_WON : Z := 1.
Definition BET_LOST : Z := 2.
Definition BET_REFUNDED : Z := 3.

(** The net pool of a decisive game as the specification words it: the total
    staked minus the fee, the fee being the floor of the total times the rate in
    basis points over 10000. *)
Definition specFee (a b r : Z) : Z := (a + b) * r / 10000.
Definition specNetPool (a b r : Z) : Z := (a + b) - specFee a b r.

(** The aggregate that the specification requires of a level: the sum of
    (quantized amount - filled amount) over the open or partially filled orders
    in its queue. *)
Definition openInterest (s : Storage) (key : Z * Z * Z) : Z :=
  foldr (λ orderId acc,
           let order := (orders s).[orderId] in
           if (Order.status order =? 0) || (Order.status order =? 1)
           then Order.amount order - Order.filledAmount order + acc
           else acc)
        0 (OrderbookLevel.orderIds (orderbookLevels s).[key]).

(** A token that accepts a payout only when, at the moment of the transfer, the
    pending balance of the payee is already zero, and otherwise answers as the
    token of [env]. *)
Definition payeeZeroed (env : Env) : Env :=
  {| msg_sender := msg_sender env; block_timestamp := block_timestamp env;
     block_number := block_number env;
     token_ok := λ s c,
       match c with
       | SafeTransfer to _ => ((pendingPayouts s).[to] =? 0) && token_ok env s c
       | SafeTransferFrom _ _ => token_ok env s c
       end |}.

(** A loop body with a log: [traced body keep] runs [body] and appends the tick
    to the log when [keep] holds of the tick and the state before the body. *)
Definition traced {St} (body : Z → Z → St → outcome (Z * bool * St)) (keep : Z → St → bool)
    (tick remainingAmount : Z) (st : St * list Z) : outcome (Z * bool * (St * list Z)) :=
  '(remainingAmount, break, st') ← body tick remainingAmount (fst st);
  Ok (remainingAmount, break, (st', if keep tick (fst st) then snd st ++ [tick] else snd st)).

(** A loop body that may only be run while something is left to fill. *)
Definition onlyUnfilled {St} (body : Z → Z → St → outcome (Z * bool * St))
    (tick remainingAmount : Z) (st : St) : outcome (Z * bool * St) :=
  if 0 <? remainingAmount then body tick remainingAmount st
  else Revert "a level was entered with nothing left to fill".

(** Forgetting the log of a traced run. *)
Definition forget {St A} (m : outcome (A * (St * list Z))) : outcome (A * St) :=
  '(a, st) ← m; Ok (a, fst st).

(** The queue of the level of [tick] opposite to the order is not empty: the
    condition under which [matchTick] enters [_matchAtLevel]. *)
Definition populated (orderId : bytes32) (oppositeSide tick : Z) (s : Storage) : bool :=
  let key := (Order.timeControl (orders s).[orderId], oppositeSide, tick) in
  (0 <? length (OrderbookLevel.orderIds (orderbookLevels s).[key]))%nat.

(** The tolerance pass of the contract with the log of the ticks at which it
    enters [_matchAtLevel]. *)
Definition loggedNearestLevels (env : Env) (orderId : bytes32) (oppositeSide maxAmount : Z)
    (s : Storage) : outcome (Storage * list Z) :=
  nearestLoops (traced (matchTick env orderId oppositeSide) (populated orderId oppositeSide))
               (Order.tickAmount (orders s).[orderId]) maxAmount (s, []).

(** The body that does nothing: with it and the log, the loops show every tick
    they go through when the order is never filled. *)
Definition idle (tick remainingAmount : Z) (st : unit) : outcome (Z * bool * unit) :=
  Ok (remainingAmount, false, st).

(** The ticks of the tolerance pass of an order of tick [tickAmount], in the
    order of the loops. *)
Definition nearestTicks (tickAmount : Z) : outcome (list Z) :=
  '(_, log) ← nearestLoops (traced idle (λ _ _, true)) tickAmount 1 (tt, []);
  Ok log.

(** [count] ticks upward from [tick], and downward. *)
Fixpoint upFrom (count : nat) (tick : Z) : list Z :=
  match count with
  | O => []
  | S count' => tick :: upFrom count' (tick + tickSize)
  end.

Fixpoint downFrom (count : nat) (tick : Z) : list Z :=
  match count with
  | O => []
  | S count' => tick :: downFrom count' (tick - tickSize)
  end.

(** The ticks of [ticks] taken one after the other: the body is run at a tick
    only while something is left to fill, and no further tick is taken once
    nothing is left. *)
Fixpoint ladder {St} (body : Z → Z → St → outcome (Z * bool * St)) (ticks : list Z)
    (remainingAmount : Z) (st : St) : outcome (Z * St) :=
  match ticks with
  | [] => Ok (remainingAmount, st)
  | tick :: ticks =>
    if 0 <? remainingAmount then
      '(remainingAmount, _, st) ← body tick remainingAmount st;
      ladder body ticks remainingAmount st
    else Ok (remainingAmount, st)
  end.

(** A loop body asks for [break] only when nothing is left to fill. *)
Definition breaksWhenFilled {St} (body : Z → Z → St → outcome (Z * bool * St)) : Prop :=
  ∀ tick remainingAmount st remaining' st',
    body tick remainingAmount st = Ok (remaining', true, st') → remaining' ≤ 0.

(** What the order [orderId] lacks: its amount less what is filled of it. *)
Definition unfilled (orderId : bytes32) (s : Storage) : Z :=
  Order.amount (orders s).[orderId] - Order.filledAmount (orders s).[orderId].

(** The tolerance pass as the specification words it.  The candidate ticks are
    taken in the order of [ticks].  A tick is taken only while the order is
    still unfilled in the storage; the level of the tick is entered when its
    queue holds an order, with what the order lacks as the amount to match, and
    the contract then reads what the order lacks again (a read that panics on an
    overfilled order).  Once the order is filled no further tick is taken.
    [log] collects the ticks of the levels entered. *)
Fixpoint specPass (env : Env) (orderId : bytes32) (oppositeSide : Z) (ticks : list Z)
    (s : Storage) (log : list Z) : outcome (Storage * list Z) :=
  match ticks with
  | [] => Ok (s, log)
  | tick :: ticks =>
    if 0 <? unfilled orderId s then
      if populated orderId oppositeSide tick s then
        let key := (Order.timeControl (orders s).[orderId], oppositeSide, tick) in
        s' ← _matchAtLevel env orderId key (unfilled orderId s) s;
        checked_sub (Order.amount (orders s').[orderId])
                    (Order.filledAmount (orders s').[orderId]);;
        specPass env orderId oppositeSide ticks s' (log ++ [tick])
      else specPass env orderId oppositeSide ticks s log
    else Ok (s, log)
  end.

(** The pass of the specification over the ticks of the band of the order:
    ascending from one tick above the tick of the order up to the ceiling, then
    descending from one tick below it down to the floor. *)
Definition specNearestLevels (env : Env) (orderId : bytes32) (oppositeSide : Z)
    (s : Storage) : outcome (Storage * list Z) :=
  let tickAmount := Order.tickAmount (orders s).[orderId] in
  let count := Z.to_nat (tickAmount * tolerancePercentage / 100 / tickSize) in
  specPass env orderId oppositeSide
    (upFrom count (tickAmount + tickSize) ++ downFrom count (tickAmount - tickSize)) s [].

(** The band of the engine around [tick]. *)
Definition inBand (tick : Z) (l : OrderbookManager.OrderbookLevel) : bool :=
  let toleranceAmount := Z.quot (tick * OrderbookManager.TOLERANCE_PERCENTAGE) 100 in
  (tick - toleranceAmount <=? OrderbookManager.levelTick l)
  && (OrderbookManager.levelTick l <=? tick + toleranceAmount).

Module Scenario.

Definition alice : address := 11.
Definition bob : address := 22.
Definition carol : address := 33.
Definition admin : address := 99.

(** All calls of a scenario are mined in one block, and the token accepts every
    transfer. *)
Definition sentBy (who : address) : Env :=
  {| msg_sender := who; block_timestamp := 1700000000; block_number := 100;
     token_ok := λ _ _, true |}.

(** The same caller, with a token that refuses every transfer. *)
Definition refusedBy (who : address) : Env :=
  {| msg_sender := who; block_timestamp := 1700000000; block_number := 100;
     token_ok := λ _ _, false |}.

(** A call of a later block. *)
Definition laterBy (who : address) : Env :=
  {| msg_sender := who; block_timestamp := 1700003600; block_number := 400;
     token_ok := λ _ _, true |}.

Definition blitz : Z := 300.

(** The storage that a scenario ends in. *)
Definition stateOf {A} (run : outcome (A * Storage)) : Storage :=
  match run with
  | Ok (_, s) => s
  | _ => deployed admin
  end.

(** Alice places a white and a black order of one tick each. *)
Definition selfMatch : outcome (bytes32 * Storage) :=
  '(_, s) ← placeOrder (sentBy alice) 0 blitz (10 * USDC_UNIT) (deployed admin);
  placeOrder (sentBy alice) 1 blitz (10 * USDC_UNIT) s.

Definition selfMatchGame : bytes32 :=
  keccak256 [alice; alice; 10 * USDC_UNIT; 1700000000; 100].

Definition selfMatched : Storage := stateOf selfMatch.

(** Bob and Alice place opposite orders of one tick each. *)
Definition plainMatch : outcome (bytes32 * Storage) :=
  '(_, s) ← placeOrder (sentBy bob) 0 blitz (10 * USDC_UNIT) (deployed admin);
  placeOrder (sentBy alice) 1 blitz (10 * USDC_UNIT) s.

(** Alice creates a low-tier game against Bob and both stake 5 USDC. *)
Definition stakedGame : outcome (bytes32 * Storage) :=
  '(gameId, s) ← createGame (sentBy alice) bob blitz 0 (deployed admin);
  s ← placeBet (sentBy alice) gameId (5 * USDC_UNIT) s;
  s ← placeBet (sentBy bob) gameId (5 * USDC_UNIT) s;
  Ok (gameId, s).

Definition stakedId : bytes32 := keccak256 [alice; bob; 1700000000; 100].

Definition staked : Storage := stateOf stakedGame.

(** Alice reports a win of white and Bob a win of black: the game is disputed. *)
Definition disputed : Storage :=
  stateOf ('(gameId, s) ← stakedGame;
           s ← submitGameResult (sentBy alice) gameId RESULT_WHITE s;
           s ← submitGameResult (sentBy bob) gameId RESULT_BLACK s;
           Ok (gameId, s)).

(** Both players then report a win of white. *)
Definition whiteWins : outcome (bytes32 * Storage) :=
  '(gameId, s) ← stakedGame;
  s ← submitGameResult (sentBy alice) gameId RESULT_WHITE s;
  s ← submitGameResult (sentBy bob) gameId RESULT_WHITE s;
  Ok (gameId, s).

Definition whiteWon : Storage := stateOf whiteWins.

(** In the same block Alice creates the game against Bob again, and in a later
    block the owner unwinds it; the storage after the resolution, after the
    second creation and after the unwinding. *)
Definition recreatedAndUnwound : outcome (Storage * Storage * Storage) :=
  '(gameId, resolved) ← whiteWins;
  '(_, recreated) ← createGame (sentBy alice) bob blitz 0 resolved;
  unwound ← pauseGame (laterBy admin) gameId recreated;
  Ok (resolved, recreated, unwound).

(** Both players report a draw instead. *)
Definition drawn : Storage :=
  stateOf ('(gameId, s) ← stakedGame;
           s ← submitGameResult (sentBy alice) gameId RESULT_DRAW s;
           s ← submitGameResult (sentBy bob) gameId RESULT_DRAW s;
           Ok (gameId, s)).

(** A started game in which [n] moves have been made. *)
Fixpoint afterMoves (n : nat) (gameId : bytes32) (s : Storage) : outcome Storage :=
  match n with
  | O => Ok s
  | S n' => s ← makeMove (sentBy alice) gameId "e4" s; afterMoves n' gameId s
  end.

Definition fullMoveLog : outcome (bytes32 * Storage) :=
  '(gameId, s) ← stakedGame;
  s ← afterMoves 200 gameId s;
  Ok (gameId, s).

Definition fullLog : Storage := stateOf fullMoveLog.

Definition plainMatched : Storage := stateOf plainMatch.

(** The same two orders on the engine. *)
Definition enginePlainMatched : option OrderbookManager.Manager :=
  '(_, m) ← OrderbookManager.placeOrder "bob" OrderbookManager.white (10 * 10 ^ 18) (blitz, 0)
              OrderbookManager.empty;
  '(_, m) ← OrderbookManager.placeOrder "alice" OrderbookManager.black (10 * 10 ^ 18)
              (blitz, 0) m;
  Some m.

(** A book with white orders resting at 99 and at 102 ticks, and an incoming
    black order of 100 ticks: on the contract ... *)
Definition restingBook : outcome Storage :=
  '(_, s) ← placeOrder (sentBy bob) 0 blitz (990 * USDC_UNIT) (deployed admin);
  '(_, s) ← placeOrder (sentBy carol) 0 blitz (1020 * USDC_UNIT) s;
  Ok s.

Definition bobOrder : bytes32 :=
  keccak256 [bob; 0; 990 * USDC_UNIT; blitz; 1700000000; 100].
Definition carolOrder : bytes32 :=
  keccak256 [carol; 0; 1020 * USDC_UNIT; blitz; 1700000000; 100].
Definition aliceOrder : bytes32 :=
  keccak256 [alice; 1; 1000 * USDC_UNIT; blitz; 1700000000; 100].

Definition contractPass : outcome Storage :=
  s ← restingBook;
  '(_, s) ← placeOrder (sentBy alice) 1 blitz (1000 * USDC_UNIT) s;
  Ok s.

(** The tolerance pass alone, on the book in which Alice's order has been
    queued (its exact level is empty), with the log of the levels entered. *)
Definition contractQueued : outcome Storage :=
  s ← restingBook;
  '(_, s) ← enqueueOrder (sentBy alice) 1 blitz (1000 * USDC_UNIT) s;
  Ok s.

Definition contractVisits : outcome (list Z) :=
  s ← contractQueued;
  '(_, log) ← loggedNearestLevels (sentBy alice) aliceOrder 0 (1000 * USDC_UNIT) s;
  Ok log.

(** The ticks of the band of Alice's order whose level holds an order, in the
    order in which the loops of the contract go through the band. *)
Definition contractCandidates : outcome (list Z) :=
  s ← contractQueued;
  ticks ← nearestTicks (1000 * USDC_UNIT);
  Ok (List.filter (λ tick, populated aliceOrder 0 tick s) ticks).

(** What Bob's and Carol's orders have been filled with after the pass. *)
Definition contractFills : outcome (Z * Z) :=
  s ← contractPass;
  Ok (Order.filledAmount (orders s).[bobOrder], Order.filledAmount (orders s).[carolOrder]).

(** ... and on the engine, in its own unit. *)
Definition WEI : Z := 10 ^ 18.

Definition engineBook : option OrderbookManager.Manager :=
  '(_, m) ← OrderbookManager.placeOrder "bob" OrderbookManager.white (990 * WEI) (blitz, 0)
              OrderbookManager.empty;
  '(_, m) ← OrderbookManager.placeOrder "carol" OrderbookManager.white (1020 * WEI) (blitz, 0) m;
  Some m.

Definition engineOrder : list Z → list Z := map (λ tick, tick / OrderbookManager.TICK_SIZE).
Definition contractOrder : list Z → list Z := map (λ tick, tick / tickSize).

(** The candidate levels of the tolerance pass of the engine for Alice's order,
    and the matches that the pass makes. *)
Definition engineVisits : option (list Z) :=
  m ← engineBook;
  Some (map OrderbookManager.levelTick
          (OrderbookManager.candidateLevels (1000 * WEI)
             (OrderbookManager.whiteLevels (OrderbookManager.book (blitz, 0) m)))).

Definition engineMatches : option (list (nat * Z)) :=
  m ← engineBook;
  '(orderId, m) ← OrderbookManager.enqueueOrder "alice" OrderbookManager.black (1000 * WEI)
                    (blitz, 0) m;
  '(matches, _) ← OrderbookManager.attemptMatch orderId m;
  Some (map (λ mt, (OrderbookManager.whiteOrder mt, OrderbookManager.matchAmount mt)) matches).

End Scenario.


(** * Further observations *)

(** A token that accepts a payout only when, at the moment of the transfer, the
    fee accumulator is already zero, and otherwise answers as the token of
    [env]. *)
Definition feesZeroed (env : Env) : Env :=
  {| msg_sender := msg_sender env; block_timestamp := block_timestamp env;
     block_number := block_number env;
     token_ok := λ s c,
       match c with
       | SafeTransfer _ _ => (tokenFeeBalance s =? 0) && token_ok env s c
       | SafeTransferFrom _ _ => token_ok env s c
       end |}.

(** The token of [env] does not look at the pause flag of the contract. *)
Definition tokenIgnoresPause (env : Env) : Prop :=
  ∀ b s c, token_ok env (set_paused b s) c = token_ok env s c.

(** The bets that [player] owns. *)
Definition ownedBy (player : address) (bet : GameBet.t) : bool :=
  GameBet.player bet =? player.

(** The bets of the indexed games of [player] that the player owns, game by game
    in the order of the index. *)
Definition indexedBets (player : address) (s : Storage) : list GameBet.t :=
  concat (map (λ gameId, List.filter (ownedBy player) (getGameBets gameId s))
              (playerGameIndex s).[player]).

(** The moves of [calls], sent one after the other to the game [gameId]. *)
Fixpoint makeMoves (gameId : bytes32) (calls : list (Env * string)) (s : Storage)
    : outcome Storage :=
  match calls with
  | [] => Ok s
  | (env, move) :: rest => s ← makeMove env gameId move s; makeMoves gameId rest s
  end.

(** A call of [makeMove] that passes the checks of the contract on the game
    [game], with a move that is not empty. *)
Definition validMove (game : Game.t) (call : Env * string) : Prop :=
  (msg_sender (fst call) = Game.whitePlayer game ∨ msg_sender (fst call) = Game.blackPlayer game)
  ∧ (0 < String.length (snd call))%nat
  ∧ Z.of_nat (String.length (snd call)) ≤ MAX_MOVE_BYTES.

(** The game is active although it does not hold two bets: a player has started
    it by [startGame] before both stakes were placed. *)
Definition shortOfStakes (gameId : bytes32) (s : Storage) : Prop :=
  Game.status (games s).[gameId] = 1 ∧ length (gameBets s).[gameId] ≠ 2%nat.

(** The bet after the refund of [pauseGame], which touches pending bets only. *)
Definition refundIfPending (env : Env) (bet : GameBet.t) : GameBet.t :=
  if GameBet.status bet =? 0 then
    GameBet.set_resolvedAt (block_timestamp env)
      (GameBet.set_payout (GameBet.amount bet) (GameBet.set_status 3 bet))
  else bet.

(** The sum of the pending bets among [bets] that [player] owns, and of all
    pending bets. *)
Definition pendingStakes (player : address) (bets : list GameBet.t) : Z :=
  foldr (λ bet acc,
           if (GameBet.status bet =? 0) && (GameBet.player bet =? player)
           then GameBet.amount bet + acc else acc) 0 bets.

Definition pendingTotal (bets : list GameBet.t) : Z :=
  foldr (λ bet acc, if GameBet.status bet =? 0 then GameBet.amount bet + acc else acc) 0 bets.

(** Alice creates a low-tier game against Bob and stakes 5 USDC; Bob starts the
    game without staking. *)
Definition startedUnstaked : outcome (bytes32 * Storage) :=
  '(gameId, s) ← createGame (Scenario.sentBy Scenario.alice) Scenario.bob Scenario.blitz 0
                   (deployed Scenario.admin);
  s ← placeBet (Scenario.sentBy Scenario.alice) gameId (5 * USDC_UNIT) s;
  Ok (gameId, s).

(** A call that, when it returns, returns a result that satisfies [Q], and that,
    when it reverts, does so by the arithmetic panic. *)
Definition returnsOrPanics {A} (m : outcome A) (Q : A → Prop) : Prop :=
  match m with
  | Ok a => Q a
  | Revert reason => reason = arithmetic_panic
  | OutOfGas => True
  end.

(** Bob's white order of one tick rests in the book; Alice's black order of one
    tick will take it. *)
Definition bobResting : Storage :=
  Scenario.stateOf (placeOrder (Scenario.sentBy Scenario.bob) 0 Scenario.blitz (10 * USDC_UNIT)
                      (deployed Scenario.admin)).

Definition bobMaker : bytes32 :=
  keccak256 [Scenario.bob; 0; 10 * USDC_UNIT; Scenario.blitz; 1700000000; 100].

Definition aliceTaker : bytes32 :=
  keccak256 [Scenario.alice; 1; 10 * USDC_UNIT; Scenario.blitz; 1700000000; 100].

(** Alice's white order of 25 USDC, quantized to 20 USDC. *)
Definition aliceResting : bytes32 :=
  keccak256 [Scenario.alice; 0; 20 * USDC_UNIT; Scenario.blitz; 1700000000; 100].

(** ** Transactions

    The state-changing functions of the contract's interface, and the storage
    that a sequence of calls can reach from a deployment.  The arguments of a
    call are values of their Solidity types; amounts are unsigned.  The owner
    can also change, through the functions that the contract inherits from
    [Ownable]. *)

Inductive Call : Type :=
| CreateGame (blackPlayer : address) (timeControl bettingTier : Z)
| StartGame (gameId : bytes32)
| MakeMove (gameId : bytes32) (move : string)
| SubmitGameResult (gameId : bytes32) (result : Z)
| ResolveDisputedGame (gameId : bytes32) (result : Z)
| PlaceBet (gameId : bytes32) (amount : Z)
| ClaimPayout
| WithdrawTokenFees
| PlaceOrder (side timeControl amount : Z)
| CancelOrder (orderId : bytes32)
| SetHouseFeePercentage (fee : Z)
| SetBettingTierAmounts (low medium : Z)
| Pause
| Unpause
| PauseGame (gameId : bytes32).

Definition execute (env : Env) (call : Call) (s : Storage) : outcome Storage :=
  match call with
  | CreateGame blackPlayer timeControl bettingTier =>
    '(_, s') ← createGame env blackPlayer timeControl bettingTier s; Ok s'
  | StartGame gameId => startGame env gameId s
  | MakeMove gameId move => makeMove env gameId move s
  | SubmitGameResult gameId result => submitGameResult env gameId result s
  | ResolveDisputedGame gameId result => resolveDisputedGame env gameId result s
  | PlaceBet gameId amount => placeBet env gameId amount s
  | ClaimPayout => claimPayout env s
  | WithdrawTokenFees => withdrawTokenFees env s
  | PlaceOrder side timeControl amount =>
    '(_, s') ← placeOrder env side timeControl amount s; Ok s'
  | CancelOrder orderId => cancelOrder env orderId s
  | SetHouseFeePercentage fee => setHouseFeePercentage env fee s
  | SetBettingTierAmounts low medium => setBettingTierAmounts env low medium s
  | Pause => pause env s
  | Unpause => unpause env s
  | PauseGame gameId => pauseGame env gameId s
  end.

Definition wellTyped (call : Call) : Prop :=
  match call with
  | PlaceBet _ amount => 0 ≤ amount
  | SetHouseFeePercentage fee => 0 ≤ fee
  | _ => True
  end.

Definition set_owner (v : address) (s : Storage) : Storage :=
  {| games := games s; bettingPools := bettingPools s; gameBets := gameBets s;
     pendingPayouts := pendingPayouts s; houseFeePercentage := houseFeePercentage s;
     lowTierAmount := lowTierAmount s; mediumTierAmount := mediumTierAmount s;
     orders := orders s; orderbookLevels := orderbookLevels s;
     playerOrders := playerOrders s; resultSubmitted := resultSubmitted s;
     resultValue := resultValue s; resultResolved := resultResolved s;
     resultFinal := resultFinal s; playerGameIndex := playerGameIndex s;
     _playerSeenGame := _playerSeenGame s; tokenFeeBalance := tokenFeeBalance s;
     owner := v; _paused := _paused s; events := events s |}.

Inductive reachable : Storage → Prop :=
| reachable_deployed deployer : reachable (deployed deployer)
| reachable_owner newOwner s : reachable s → reachable (set_owner newOwner s)
| reachable_step env call s s' :
    reachable s → wellTyped call → execute env call s = Ok s' → reachable s'.

(** The fee rate is at most 1000 basis points. *)
Definition feeCapped (s : Storage) : Prop := 0 ≤ houseFeePercentage s ≤ 1000.

(** The fee of every pool is at most a tenth of the pool. *)
Definition poolsCapped (s : Storage) : Prop :=
  ∀ gameId,
    0 ≤ BettingPool.houseFee (bettingPools s).[gameId] ∧
    10 * BettingPool.houseFee (bettingPools s).[gameId]
      ≤ BettingPool.totalAmount (bettingPools s).[gameId].

(** The move count of every game is at most [MAX_MOVES], and its move log holds
    at most [MAX_MOVE_BYTES] bytes and a separator for each move counted. *)
Definition logsBounded (s : Storage) : Prop :=
  ∀ gameId,
    0 ≤ Game.moveCount (games s).[gameId] ≤ MAX_MOVES ∧
    Z.of_nat (String.length (Game.pgn (games s).[gameId]))
      ≤ (MAX_MOVE_BYTES + 1) * Game.moveCount (games s).[gameId].

(** Every game that holds a bet of a player is in the index of the player, the
    indexed games of a player are the games flagged as seen for the player, and
    no index holds a game twice. *)
Definition betsIndexed (s : Storage) : Prop :=
  (∀ gameId bet, bet ∈ (gameBets s).[gameId] →
     gameId ∈ (playerGameIndex s).[GameBet.player bet]) ∧
  (∀ player gameId, gameId ∈ (playerGameIndex s).[player] ↔
     (_playerSeenGame s).[(player, gameId)] = true) ∧
  (∀ player, NoDup (playerGameIndex s).[player]).

Definition invariant (s : Storage) : Prop :=
  feeCapped s ∧ poolsCapped s ∧ logsBounded s ∧ betsIndexed s.

(** What a call may change that neither places a stake, nor creates a game, nor
    logs a move, nor sets the rate: in the games, anything but the move logs; in
    the pools, anything but the totals, the fees being kept or cleared; in the
    bets, anything but their players. *)
Definition settles (s s' : Storage) : Prop :=
  houseFeePercentage s' = houseFeePercentage s ∧
  playerGameIndex s' = playerGameIndex s ∧
  _playerSeenGame s' = _playerSeenGame s ∧
  (∀ gameId,
     Game.pgn (games s').[gameId] = Game.pgn (games s).[gameId] ∧
     Game.moveCount (games s').[gameId] = Game.moveCount (games s).[gameId]) ∧
  (∀ gameId,
     BettingPool.totalAmount (bettingPools s').[gameId]
       = BettingPool.totalAmount (bettingPools s).[gameId] ∧
     (BettingPool.houseFee (bettingPools s').[gameId]
        = BettingPool.houseFee (bettingPools s).[gameId]
      ∨ BettingPool.houseFee (bettingPools s').[gameId] = 0)) ∧
  (∀ gameId,
     map GameBet.player (gameBets s').[gameId] = map GameBet.player (gameBets s).[gameId]).

(** The net pool of a game: its total less its fee. *)
Definition netPoolOf (pool : BettingPool.t) : Z :=
  BettingPool.totalAmount pool - BettingPool.houseFee pool.

(** The storage after Alice has created her game against Bob, and after she has
    staked on it. *)
Definition aliceCreated : Storage :=
  Scenario.stateOf (createGame (Scenario.sentBy Scenario.alice) Scenario.bob Scenario.blitz 0
                      (deployed Scenario.admin)).

Definition aliceStaked : Storage := Scenario.stateOf startedUnstaked.

(** ** The managers of the engine *)

Section EngineStates.
Import OrderbookManager.

(** The fields of an order that no call changes once the order is created. *)
Definition sameOrder (o o' : Order) : Prop :=
  id o' = id o ∧ playerAddress o' = playerAddress o ∧ side o' = side o ∧
  amount o' = amount o ∧ tickAmount o' = tickAmount o ∧ timeControl o' = timeControl o.

(** The identifier [i] of the book of [tc] was issued, and its object carries it. *)
Definition registered (m : Manager) (tc : TimeControl) (i : nat) : Prop :=
  (i < nextId m)%nat ∧ ∃ o, objects m !! i = Some o ∧ id o = i ∧ timeControl o = tc.

(** The order [i] belongs in the level [l] of the side [sd]. *)
Definition queuedAt (m : Manager) (sd : OrderSide) (l : OrderbookLevel) (i : nat) : Prop :=
  ∃ o, objects m !! i = Some o ∧ side o = sd ∧ tickAmount o = levelTick l.

(** One side of a book is a map from ticks to queues of registered orders. *)
Definition wellFormedSide (m : Manager) (b : Orderbook) (sd : OrderSide) : Prop :=
  NoDup (map levelTick (sideLevels sd b)) ∧
  ∀ l, l ∈ sideLevels sd b →
    NoDup (levelOrders l) ∧
    ∀ i, i ∈ levelOrders l → i ∈ allOrders b ∧ queuedAt m sd l i.

Definition wellFormed (m : Manager) : Prop :=
  ∀ tc, (∀ i, i ∈ allOrders (book tc m) → registered m tc i) ∧
        ∀ sd, wellFormedSide m (book tc m) sd.

(** What matching and cancelling do to a manager: orders keep their identity,
    levels keep their tick and only lose orders. *)
Definition keepsLevel (l l' : OrderbookLevel) : Prop :=
  levelTick l' = levelTick l ∧ sublist (levelOrders l') (levelOrders l).

Definition advances (m m' : Manager) : Prop :=
  (nextId m ≤ nextId m')%nat ∧
  (∀ i o, objects m !! i = Some o → ∃ o', objects m' !! i = Some o' ∧ sameOrder o o') ∧
  ∀ tc, allOrders (book tc m') = allOrders (book tc m) ∧
        ∀ sd, Forall2 keepsLevel (sideLevels sd (book tc m)) (sideLevels sd (book tc m')).

(** The order [orderId] can be matched against the side [sd] of the book of
    [tc]: the queues of that side hold other orders, all of them known. *)
Definition matchable (orderId : nat) (tc : TimeControl) (sd : OrderSide) (m : Manager)
    : Prop :=
  is_Some (objects m !! orderId) ∧
  ∀ l, l ∈ sideLevels sd (book tc m) →
    ∀ i, i ∈ levelOrders l → i ≠ orderId ∧ is_Some (objects m !! i).

(** The public calls that change a manager, and the managers they reach from
    the one that the constructor builds. *)
Inductive EngineCall : Type :=
  | EnginePlaceOrder (playerAddress : string) (side : OrderSide) (amount : Z)
      (timeControl : TimeControl)
  | EngineCancelOrder (orderId : nat).

Definition engineExecute (call : EngineCall) (m : Manager) : option Manager :=
  match call with
  | EnginePlaceOrder player sd amt tc => snd <$> placeOrder player sd amt tc m
  | EngineCancelOrder orderId => Some (snd (cancelOrder orderId m))
  end.

Inductive engineReachable : Manager → Prop :=
  | engineReachable_empty : engineReachable empty
  | engineReachable_step call m m' :
      engineReachable m → engineExecute call m = Some m' → engineReachable m'.

(** The level of key [tick] on one side, as [placeOrder] would create it. *)
Definition levelAt (tick : Z) (levels : list OrderbookLevel) : OrderbookLevel :=
  default {| levelTick := tick; levelOrders := []; totalAmount := 0 |} (getLevel tick levels).

(** [v] is the lowest tick of the levels that hold an order, and 0 when no
    level holds one. *)
Definition lowestPopulated (levels : list OrderbookLevel) (v : Z) : Prop :=
  (∀ l, l ∈ levels → levelOrders l ≠ [] → v ≤ levelTick l) ∧
  ((∃ l, l ∈ levels ∧ levelOrders l ≠ [] ∧ levelTick l = v) ∨
   (v = 0 ∧ ∀ l, l ∈ levels → levelOrders l = [])).

End EngineStates.

(** The manager in which Bob rests with an order of 15 units on white. *)
Definition engineResting : OrderbookManager.Manager :=
  default OrderbookManager.empty
    (snd <$> OrderbookManager.placeOrder "bob" OrderbookManager.white (15 * Scenario.WEI)
               (Scenario.blitz, 0) OrderbookManager.empty).

Section EngineFills.
Import OrderbookManager.

(** An order is filled within its amount, and marked filled exactly when it is
    filled up to its amount. *)
Definition fillSettled (o : Order) : Prop :=
  0 ≤ filledAmount o ≤ amount o ∧ (status o = filled ↔ filledAmount o = amount o).

(** The managers that calls with amounts that are not negative reach. *)
Definition nonNegative (call : EngineCall) : Prop :=
  match call with
  | EnginePlaceOrder _ _ amt _ => 0 ≤ amt
  | EngineCancelOrder _ => True
  end.

Inductive engineReachableNonNegative : Manager → Prop :=
  | engineReachableNonNegative_empty : engineReachableNonNegative empty
  | engineReachableNonNegative_step call m m' :
      engineReachableNonNegative m → nonNegative call → engineExecute call m = Some m' →
      engineReachableNonNegative m'.

(** While the order [orderId] is matched, every other order is settled, and the
    amount that remains to match is what the order lacks. *)
Definition matching (orderId : nat) (remaining : Z) (m : Manager) : Prop :=
  (∀ i o, i ≠ orderId → objects m !! i = Some o → fillSettled o) ∧
  ∃ o, objects m !! orderId = Some o ∧ status o = open ∧
       0 ≤ filledAmount o ∧ remaining = amount o - filledAmount o ∧ 0 ≤ remaining.

End EngineFills.

(** The manager in which Alice has taken 10 units of the 15 units that Bob
    rests with. *)
Definition engineTaken : OrderbookManager.Manager :=
  default engineResting
    (snd <$> OrderbookManager.placeOrder "alice" OrderbookManager.black (10 * Scenario.WEI)
               (Scenario.blitz, 0) engineResting).

(** Alice creates a low-tier game against Bob and stakes 5 USDC; Bob starts the
    game without staking; Alice then reports a win of white and Bob a win of
    black.  The game is active and disputed, and holds one bet. *)
Definition oneStakeDisputed : Storage :=
  Scenario.stateOf
    ('(gameId, s) ← startedUnstaked;
     s ← startGame (Scenario.sentBy Scenario.bob) gameId s;
     s ← submitGameResult (Scenario.sentBy Scenario.alice) gameId RESULT_WHITE s;
     s ← submitGameResult (Scenario.sentBy Scenario.bob) gameId RESULT_BLACK s;
     Ok (gameId, s)).

(** * Properties *)

(** ** Mappings and checked arithmetic *)

Section Mapping.
Context `{Countable K} {V : Type} `{Zero V}.
Implicit Types (m : gmap K V) (k : K) (v : V).

Lemma sload_insert m k k' v :
  (<[k := v]> m).[k'] = if decide (k = k') then v else m.[k'].
Proof. unfold sload. rewrite lookup_insert. by destruct (decide (k = k')). Qed.

Lemma sload_insert_eq m k v : (<[k := v]> m).[k] = v.
Proof. rewrite sload_insert. by destruct (decide (k = k)). Qed.

Lemma sload_insert_ne m k k' v : k ≠ k' → (<[k := v]> m).[k'] = m.[k'].
Proof. intros. rewrite sload_insert. by destruct (decide (k = k')). Qed.

End Mapping.

Lemma checked_add_ok a b : a + b ≤ MAX_UINT256 → checked_add a b = Ok (a + b).
Proof. intros. unfold checked_add. by destruct (Z.leb_spec (a + b) MAX_UINT256); [|lia]. Qed.

Lemma checked_sub_ok a b : b ≤ a → checked_sub a b = Ok (a - b).
Proof. intros. unfold checked_sub. by destruct (Z.leb_spec b a); [|lia]. Qed.

Lemma checked_mul_ok a b : a * b ≤ MAX_UINT256 → checked_mul a b = Ok (a * b).
Proof. intros. unfold checked_mul. by destruct (Z.leb_spec (a * b) MAX_UINT256); [|lia]. Qed.

Lemma require_true reason : require true reason = Ok tt.
Proof. reflexivity. Qed.

Lemma require_false reason : require false reason = Revert reason.
Proof. reflexivity. Qed.

Lemma reverted_Revert {A} reason : reverted (@Revert A reason).
Proof. by exists reason. Qed.

Lemma reverted_not_Ok {A} (m : outcome A) a : reverted m → m ≠ Ok a.
Proof. intros [r ->]. discriminate. Qed.

Lemma commit_reverted call s : reverted (call s) → commit call s = s.
Proof. intros [r Hr]. unfold commit. by rewrite Hr. Qed.

(** Closed goals are settled by evaluation. *)
Ltac evaluate := vm_compute; first [reflexivity | discriminate].

(** Case analysis on the comparisons of a goal. *)
Ltac split_eqb :=
  repeat match goal with
  | |- context [decide (?a = ?b)] => destruct (decide (a = b)); subst
  | |- context [?a =? ?b] => destruct (Z.eqb_spec a b); subst
  end.

(** ** The escrow ledger *)

Lemma creditPayout_ok p a s :
  (pendingPayouts s).[p] + a ≤ MAX_UINT256 →
  creditPayout p a s =
  Ok (set_pendingPayouts (<[p := (pendingPayouts s).[p] + a]> (pendingPayouts s)) s).
Proof. intros. unfold creditPayout. by rewrite checked_add_ok. Qed.

Lemma modifyBet_bets gameId i f s :
  (gameBets (modifyBet gameId i f s)).[gameId] = alter f i (gameBets s).[gameId].
Proof. unfold modifyBet. cbn. by rewrite sload_insert_eq. Qed.

(** One turn of the draw loop. *)
Lemma refundLoop_step n i env gameId s bet :
  (gameBets s).[gameId] !! i = Some bet →
  (pendingPayouts s).[GameBet.player bet] + GameBet.amount bet ≤ MAX_UINT256 →
  refundLoop (S n) i env gameId s =
  refundLoop n (S i) env gameId
    (emit (BetResolved gameId (GameBet.player bet) (GameBet.amount bet) (GameBet.amount bet) 2)
       (set_pendingPayouts
          (<[GameBet.player bet :=
               (pendingPayouts s).[GameBet.player bet] + GameBet.amount bet]> (pendingPayouts s))
          (modifyBet gameId i (λ b,
             GameBet.set_resolvedAt (block_timestamp env)
               (GameBet.set_payout (GameBet.amount b) (GameBet.set_status 3 b))) s))).
Proof.
  intros Hi Hsum. cbn [refundLoop]. rewrite Hi.
  by rewrite creditPayout_ok.
Qed.

(** One turn of the winner-takes-all loop, on the bet of the winner ... *)
Lemma payoutLoop_win n i env gameId winner netPool s bet :
  (gameBets s).[gameId] !! i = Some bet →
  GameBet.player bet = winner →
  (pendingPayouts s).[winner] + netPool ≤ MAX_UINT256 →
  payoutLoop (S n) i env gameId winner netPool s =
  payoutLoop n (S i) env gameId winner netPool
    (emit (BetResolved gameId winner (GameBet.amount bet) netPool 0)
       (set_pendingPayouts
          (<[winner := (pendingPayouts s).[winner] + netPool]> (pendingPayouts s))
          (modifyBet gameId i (λ b,
             GameBet.set_resolvedAt (block_timestamp env)
               (GameBet.set_payout netPool (GameBet.set_status 0 b))) s))).
Proof.
  intros Hi Hw Hsum. cbn [payoutLoop]. rewrite Hi, Hw, Z.eqb_refl.
  by rewrite creditPayout_ok.
Qed.

(** ... and on any other bet. *)
Lemma payoutLoop_lose n i env gameId winner netPool s bet :
  (gameBets s).[gameId] !! i = Some bet →
  GameBet.player bet ≠ winner →
  payoutLoop (S n) i env gameId winner netPool s =
  payoutLoop n (S i) env gameId winner netPool
    (emit (BetResolved gameId (GameBet.player bet) (GameBet.amount bet) 0 1)
       (modifyBet gameId i (λ b,
          GameBet.set_resolvedAt (block_timestamp env)
            (GameBet.set_payout 0 (GameBet.set_status 1 b))) s)).
Proof.
  intros Hi Hw. cbn [payoutLoop]. rewrite Hi.
  by destruct (Z.eqb_spec (GameBet.player bet) winner).
Qed.

(** The start of [_resolveBets] on an unresolved pool with two bets. *)
Lemma _resolveBets_draw env gameId s :
  BettingPool.resolved (bettingPools s).[gameId] = false →
  length (gameBets s).[gameId] = 2%nat →
  _resolveBets env gameId RESULT_DRAW s =
  (s ← refundLoop 2 0 env gameId (modifyPool gameId (BettingPool.set_resolved true) s);
   Ok (emit (GameResolved gameId 0 RESULT_DRAW)
         (modifyPool gameId
            (λ p, BettingPool.set_houseFee 0 (BettingPool.set_winner 0 p)) s))).
Proof.
  intros Hres Hlen. unfold _resolveBets. rewrite Hres.
  change (gameBets (modifyPool gameId (BettingPool.set_resolved true) s)) with (gameBets s).
  rewrite Hlen. reflexivity.
Qed.

(** C3.  On an unresolved pool with the two bets [betA] and [betB], resolving the
    game as a draw returns and credits every address with the stakes it owns:
    the amount of [betA] to the player of [betA] and the amount of [betB] to the
    player of [betB] (hence exactly a to A and exactly b to B when they are two
    addresses); the winner of the pool is recorded as address zero, the pool is
    resolved, its fee is cleared, and the fee accumulator is unchanged. *)
Theorem C3_draw_refunds_each_stake env gameId s betA betB :
  (gameBets s).[gameId] = [betA; betB] →
  BettingPool.resolved (bettingPools s).[gameId] = false →
  0 ≤ GameBet.amount betA →
  0 ≤ GameBet.amount betB →
  (pendingPayouts s).[GameBet.player betA] + GameBet.amount betA + GameBet.amount betB
    ≤ MAX_UINT256 →
  (pendingPayouts s).[GameBet.player betB] + GameBet.amount betA + GameBet.amount betB
    ≤ MAX_UINT256 →
  ∃ s', _resolveBets env gameId RESULT_DRAW s = Ok s' ∧
    (∀ x, (pendingPayouts s').[x] =
          (pendingPayouts s).[x]
          + (if x =? GameBet.player betA then GameBet.amount betA else 0)
          + (if x =? GameBet.player betB then GameBet.amount betB else 0)) ∧
    (GameBet.player betA ≠ GameBet.player betB →
       (pendingPayouts s').[GameBet.player betA] =
         (pendingPayouts s).[GameBet.player betA] + GameBet.amount betA ∧
       (pendingPayouts s').[GameBet.player betB] =
         (pendingPayouts s).[GameBet.player betB] + GameBet.amount betB) ∧
    BettingPool.winner (bettingPools s').[gameId] = 0 ∧
    BettingPool.resolved (bettingPools s').[gameId] = true ∧
    BettingPool.houseFee (bettingPools s').[gameId] = 0 ∧
    tokenFeeBalance s' = tokenFeeBalance s.
Proof.
  intros Hbets Hres Ha Hb HsumA HsumB.
  rewrite _resolveBets_draw by (by rewrite ?Hbets).
  rewrite (refundLoop_step 1 0 env gameId _ betA);
    [| by cbn; rewrite Hbets | cbn; lia].
  rewrite (refundLoop_step 0 1 env gameId _ betB);
    [| by cbn; rewrite sload_insert_eq, Hbets
     | cbn; rewrite sload_insert; split_eqb; lia].
  cbn [refundLoop mbind outcome_bind].
  eexists; split; [reflexivity|].
  assert (Hall : ∀ x,
    (<[GameBet.player betB :=
         (<[GameBet.player betA :=
              (pendingPayouts s).[GameBet.player betA] + GameBet.amount betA]>
            (pendingPayouts s)).[GameBet.player betB] + GameBet.amount betB]>
       (<[GameBet.player betA :=
            (pendingPayouts s).[GameBet.player betA] + GameBet.amount betA]>
          (pendingPayouts s))).[x] =
    (pendingPayouts s).[x]
    + (if x =? GameBet.player betA then GameBet.amount betA else 0)
    + (if x =? GameBet.player betB then GameBet.amount betB else 0)).
  { intros x. rewrite !sload_insert. split_eqb; congruence || lia. }
  cbn. split; [exact Hall|]. split.
  - intros Hne.
    split; [rewrite (Hall (GameBet.player betA)) | rewrite (Hall (GameBet.player betB))];
      split_eqb; congruence || lia.
  - by rewrite !sload_insert_eq.
Qed.

(** The same through the votes of the players: Alice and Bob both report a draw
    of the game they staked 5 USDC on. *)
Example both_players_report_a_draw :
  (pendingPayouts Scenario.drawn).[Scenario.alice] = 5000000 ∧
  (pendingPayouts Scenario.drawn).[Scenario.bob] = 5000000 ∧
  tokenFeeBalance Scenario.drawn = 0 ∧
  BettingPool.winner (bettingPools Scenario.drawn).[Scenario.stakedId] = 0 ∧
  BettingPool.resolved (bettingPools Scenario.drawn).[Scenario.stakedId] = true ∧
  map GameBet.status (gameBets Scenario.drawn).[Scenario.stakedId]
    = [BET_REFUNDED; BET_REFUNDED].
Proof. repeat split; evaluate. Qed.

(** The hypotheses of C3 hold in the game that Alice and Bob staked 5 USDC on. *)
Lemma C3_draw_refunds_each_stake_witness :
  ∃ s', _resolveBets (Scenario.sentBy Scenario.bob) Scenario.stakedId RESULT_DRAW
          Scenario.staked = Ok s' ∧
    (pendingPayouts s').[Scenario.alice] =
      (pendingPayouts Scenario.staked).[Scenario.alice] + 5000000 ∧
    (pendingPayouts s').[Scenario.bob] =
      (pendingPayouts Scenario.staked).[Scenario.bob] + 5000000 ∧
    tokenFeeBalance s' = tokenFeeBalance Scenario.staked.
Proof.
  destruct (C3_draw_refunds_each_stake (Scenario.sentBy Scenario.bob) Scenario.stakedId
              Scenario.staked
              (newBet (Scenario.sentBy Scenario.alice) Scenario.stakedId Scenario.alice 5000000)
              (newBet (Scenario.sentBy Scenario.bob) Scenario.stakedId Scenario.bob 5000000))
    as (s' & Hok & _ & Hab & _ & _ & _ & Hfee); [evaluate.. |].
  exists s'. destruct Hab as [HA HB]; [evaluate|]. auto.
Defined.

(** The start of [_resolveBets] with a decisive result. *)
Lemma _resolveBets_decisive env gameId result s :
  BettingPool.resolved (bettingPools s).[gameId] = false →
  length (gameBets s).[gameId] = 2%nat →
  result ≠ RESULT_DRAW →
  let winner :=
    if result =? RESULT_WHITE
    then Game.whitePlayer (games s).[gameId] else Game.blackPlayer (games s).[gameId] in
  let pool := (bettingPools s).[gameId] in
  _resolveBets env gameId result s =
  (s ← _creditFee (BettingPool.houseFee pool)
         (emit (GameResolved gameId winner result)
            (modifyPool gameId (BettingPool.set_winner winner)
               (modifyPool gameId (BettingPool.set_resolved true) s)));
   netPool ← checked_sub (BettingPool.totalAmount pool) (BettingPool.houseFee pool);
   payoutLoop 2 0 env gameId winner netPool s).
Proof.
  intros Hres Hlen Hne winner pool. unfold _resolveBets. rewrite Hres.
  change (gameBets (modifyPool gameId (BettingPool.set_resolved true) s)) with (gameBets s).
  rewrite Hlen. cbn [negb require mbind outcome_bind Nat.eqb].
  destruct (Z.eqb_spec result RESULT_DRAW); [done|].
  cbn. by rewrite !sload_insert_eq.
Qed.

(** The fee that [placeBet] and [_recordBet] leave in the pool is the floor of
    the new total times the current rate over 10000. *)
Lemma addToPool_fee gameId amount s s' :
  addToPool gameId amount s = Ok s' →
  BettingPool.totalAmount (bettingPools s').[gameId] =
    BettingPool.totalAmount (bettingPools s).[gameId] + amount ∧
  BettingPool.houseFee (bettingPools s').[gameId] =
    (BettingPool.totalAmount (bettingPools s).[gameId] + amount) * houseFeePercentage s / 10000 ∧
  houseFeePercentage s' = houseFeePercentage s.
Proof.
  unfold addToPool, checked_add, checked_mul.
  repeat (case_match; cbn; try discriminate).
  intros [= <-]. cbn. by rewrite sload_insert_eq.
Qed.

(** With two stakes [a] and [b] of two different addresses and the fee that the
    rate [r] left in the pool, a decisive resolution credits the net pool of the
    specification to the winner, nothing to the loser, and the fee to the house. *)
Lemma decisive_payout_between_two_players env gameId result s betW betL a b r :
  result = RESULT_WHITE ∨ result = RESULT_BLACK →
  BettingPool.resolved (bettingPools s).[gameId] = false →
  ((gameBets s).[gameId] = [betW; betL] ∨ (gameBets s).[gameId] = [betL; betW]) →
  GameBet.player betW =
    (if result =? RESULT_WHITE
     then Game.whitePlayer (games s).[gameId] else Game.blackPlayer (games s).[gameId]) →
  GameBet.player betL ≠ GameBet.player betW →
  BettingPool.totalAmount (bettingPools s).[gameId] = a + b →
  BettingPool.houseFee (bettingPools s).[gameId] = (a + b) * r / 10000 →
  0 ≤ a + b → 0 ≤ r ≤ 10000 →
  tokenFeeBalance s + (a + b) ≤ MAX_UINT256 →
  (pendingPayouts s).[GameBet.player betW] + (a + b) ≤ MAX_UINT256 →
  ∃ s', _resolveBets env gameId result s = Ok s' ∧
    (pendingPayouts s').[GameBet.player betW] =
      (pendingPayouts s).[GameBet.player betW] + specNetPool a b r ∧
    (pendingPayouts s').[GameBet.player betL] = (pendingPayouts s).[GameBet.player betL] ∧
    tokenFeeBalance s' = tokenFeeBalance s + specFee a b r ∧
    (∀ bet, bet ∈ (gameBets s').[gameId] →
       (GameBet.player bet = GameBet.player betW →
          GameBet.status bet = 0 ∧ GameBet.payout bet = specNetPool a b r) ∧
       (GameBet.player bet = GameBet.player betL →
          GameBet.status bet = 1 ∧ GameBet.payout bet = 0)).
Proof.
  intros Hresult Hres Hbets Hwin Hne Htotal Hfee Hab Hr HsumFee HsumW.
  assert (0 ≤ (a + b) * r / 10000 ≤ a + b) as Hbound.
  { split; [apply Z.div_pos; nia|].
    apply Z.div_le_upper_bound; nia. }
  rewrite _resolveBets_decisive;
    [| done | by destruct Hbets as [-> | ->] | by destruct Hresult as [-> | ->]].
  rewrite <- Hwin, Htotal, Hfee.
  unfold _creditFee. cbn [tokenFeeBalance emit set_events modifyPool set_bettingPools].
  rewrite checked_add_ok by lia. cbn [mbind outcome_bind].
  rewrite checked_sub_ok by lia. cbn [mbind outcome_bind].
  unfold specNetPool, specFee.
  destruct Hbets as [Hbets | Hbets].
  - rewrite (payoutLoop_win 1 0 env gameId _ _ _ betW);
      [| by cbn; rewrite Hbets | done | cbn; lia].
    rewrite (payoutLoop_lose 0 1 env gameId _ _ _ betL);
      [| by cbn; rewrite sload_insert_eq, Hbets | done].
    cbn [payoutLoop]. eexists; split; [reflexivity|].
    cbn. rewrite !sload_insert_eq, sload_insert_ne by done. rewrite Hbets. cbn.
    do 3 (split; [done|]).
    intros bet Hbet. set_unfold in Hbet.
    destruct Hbet as [-> | [-> | []]]; cbn; split; intros Hplayer; done || congruence.
  - rewrite (payoutLoop_lose 1 0 env gameId _ _ _ betL);
      [| by cbn; rewrite Hbets | done].
    rewrite (payoutLoop_win 0 1 env gameId _ _ _ betW);
      [| by cbn; rewrite sload_insert_eq, Hbets | done | cbn; lia].
    cbn [payoutLoop]. eexists; split; [reflexivity|].
    cbn. rewrite !sload_insert_eq, sload_insert_ne by done. rewrite Hbets. cbn.
    do 3 (split; [done|]).
    intros bet Hbet. set_unfold in Hbet.
    destruct Hbet as [-> | [-> | []]]; cbn; split; intros Hplayer; done || congruence.
Qed.

(** C1.  The self-matched game has exactly two stakes of 10 USDC, staked and
    resolved at the rate of 500 basis points.  Its decisive resolution raises
    the pending balance of the winner by twice the net pool, 38 USDC, where the
    specification gives the net pool, 19 USDC; the house fee is credited once. *)
Theorem C1_self_matched_winner_is_paid_the_net_pool_twice :
  map GameBet.amount (gameBets Scenario.selfMatched).[Scenario.selfMatchGame]
    = [10000000; 10000000] ∧
  houseFeePercentage Scenario.selfMatched = 500 ∧
  specNetPool 10000000 10000000 500 = 19000000 ∧
  ∃ s', _resolveBets (Scenario.sentBy Scenario.alice) Scenario.selfMatchGame RESULT_WHITE
          Scenario.selfMatched = Ok s' ∧
    BettingPool.winner (bettingPools s').[Scenario.selfMatchGame] = Scenario.alice ∧
    (pendingPayouts s').[Scenario.alice]
      - (pendingPayouts Scenario.selfMatched).[Scenario.alice] = 38000000 ∧
    tokenFeeBalance s' - tokenFeeBalance Scenario.selfMatched = 1000000.
Proof.
  repeat split; try evaluate.
  eexists. split; [vm_compute; reflexivity|].
  repeat split; evaluate.
Qed.

(** The same through the only entry point that Alice needs: her own vote settles
    the game she plays against herself. *)
Lemma self_matched_game_is_settled_by_one_vote :
  (s ← submitGameResult (Scenario.sentBy Scenario.alice) Scenario.selfMatchGame RESULT_WHITE
         Scenario.selfMatched;
   Ok ((pendingPayouts s).[Scenario.alice], tokenFeeBalance s,
       Game.status (games s).[Scenario.selfMatchGame]))
  = Ok (38000000, 1000000, 2).
Proof. evaluate. Qed.

(** C7.  After Alice and Bob staked 5 USDC each and both reported a win of white,
    the payouts are the net pool and zero, but the bet of the winner carries the
    status 0, which the struct declares as pending, and the bet of the loser the
    status 1, which the struct declares as won. *)
Theorem C7_decisive_resolution_status_codes :
  map (λ b, (GameBet.player b, GameBet.status b, GameBet.payout b))
      (gameBets Scenario.whiteWon).[Scenario.stakedId]
  = [(Scenario.alice, BET_PENDING, specNetPool 5000000 5000000 500);
     (Scenario.bob, BET_WON, 0)] ∧
  BettingPool.winner (bettingPools Scenario.whiteWon).[Scenario.stakedId] = Scenario.alice ∧
  BET_PENDING ≠ BET_WON ∧ BET_WON ≠ BET_LOST.
Proof. repeat split; evaluate. Qed.

(** C2.  Alice and Bob stake, both report a win of white, the pool is resolved
    and 9.5 USDC are credited to Alice.  In the same block Alice creates the game
    against Bob again: the identifier is the same, and the pool is written anew
    with its flag cleared.  The owner then unwinds the game, which resolves the
    pool a second time and credits both stakes once more. *)
Theorem C2_recreated_game_is_resolved_twice :
  (run ← Scenario.recreatedAndUnwound;
   let '(resolved, recreated, unwound) := run in
   Ok (BettingPool.resolved (bettingPools resolved).[Scenario.stakedId],
       BettingPool.resolved (bettingPools recreated).[Scenario.stakedId],
       BettingPool.resolved (bettingPools unwound).[Scenario.stakedId],
       (pendingPayouts resolved).[Scenario.alice], (pendingPayouts resolved).[Scenario.bob],
       (pendingPayouts unwound).[Scenario.alice], (pendingPayouts unwound).[Scenario.bob],
       map GameBet.payout (gameBets resolved).[Scenario.stakedId],
       map GameBet.payout (gameBets unwound).[Scenario.stakedId]))
  = Ok (true, false, true,
        9500000, 0,
        14500000, 5000000,
        [9500000; 0],
        [5000000; 5000000]).
Proof. evaluate. Qed.

(** ** Resolution entry points *)

(** [_resolveBets] returns on every unresolved pool with two non-negative stakes,
    a fee that is not more than the total, and balances far from the top of the
    range; it touches neither the games nor the vote and result trackers. *)
Lemma _resolveBets_succeeds env gameId result s bet1 bet2 :
  0 ≤ result ≤ 2 →
  (gameBets s).[gameId] = [bet1; bet2] →
  BettingPool.resolved (bettingPools s).[gameId] = false →
  0 ≤ BettingPool.houseFee (bettingPools s).[gameId]
    ≤ BettingPool.totalAmount (bettingPools s).[gameId] →
  0 ≤ GameBet.amount bet1 → 0 ≤ GameBet.amount bet2 →
  tokenFeeBalance s + BettingPool.houseFee (bettingPools s).[gameId] ≤ MAX_UINT256 →
  (∀ x, (pendingPayouts s).[x] + 2 * BettingPool.totalAmount (bettingPools s).[gameId]
          + GameBet.amount bet1 + GameBet.amount bet2 ≤ MAX_UINT256) →
  ∃ s', _resolveBets env gameId result s = Ok s' ∧
    games s' = games s ∧ resultResolved s' = resultResolved s ∧
    resultFinal s' = resultFinal s ∧ resultSubmitted s' = resultSubmitted s ∧
    BettingPool.resolved (bettingPools s').[gameId] = true.
Proof.
  intros Hresult Hbets Hres Hfee Ha1 Ha2 HsumFee Hsum.
  pose proof (Hsum (GameBet.player bet1)) as Hsum1.
  pose proof (Hsum (GameBet.player bet2)) as Hsum2.
  destruct (decide (result = RESULT_DRAW)) as [-> | Hne].
  - rewrite _resolveBets_draw by (by rewrite ?Hbets).
    rewrite (refundLoop_step 1 0 env gameId _ bet1);
      [| by cbn; rewrite Hbets | cbn; lia].
    rewrite (refundLoop_step 0 1 env gameId _ bet2);
      [| by cbn; rewrite sload_insert_eq, Hbets
       | cbn; rewrite sload_insert; split_eqb; lia].
    cbn [refundLoop mbind outcome_bind].
    eexists; split; [reflexivity|]. cbn. by rewrite !sload_insert_eq.
  - rewrite _resolveBets_decisive; [| done | by rewrite Hbets | done].
    set (winner := if result =? RESULT_WHITE then _ else _).
    pose proof (Hsum winner) as HsumW.
    unfold _creditFee. cbn [tokenFeeBalance emit set_events modifyPool set_bettingPools].
    rewrite checked_add_ok by lia. cbn [mbind outcome_bind].
    rewrite checked_sub_ok by lia. cbn [mbind outcome_bind].
    destruct (decide (GameBet.player bet1 = winner)) as [Hw1 | Hw1];
      destruct (decide (GameBet.player bet2 = winner)) as [Hw2 | Hw2].
    + rewrite (payoutLoop_win 1 0 env gameId _ _ _ bet1);
        [| by cbn; rewrite Hbets | done | cbn; lia].
      rewrite (payoutLoop_win 0 1 env gameId _ _ _ bet2);
        [| by cbn; rewrite sload_insert_eq, Hbets | done
         | cbn; rewrite sload_insert_eq; lia].
      cbn [payoutLoop]. eexists; split; [reflexivity|]. cbn. by rewrite !sload_insert_eq.
    + rewrite (payoutLoop_win 1 0 env gameId _ _ _ bet1);
        [| by cbn; rewrite Hbets | done | cbn; lia].
      rewrite (payoutLoop_lose 0 1 env gameId _ _ _ bet2);
        [| by cbn; rewrite sload_insert_eq, Hbets | done].
      cbn [payoutLoop]. eexists; split; [reflexivity|]. cbn. by rewrite !sload_insert_eq.
    + rewrite (payoutLoop_lose 1 0 env gameId _ _ _ bet1);
        [| by cbn; rewrite Hbets | done].
      rewrite (payoutLoop_win 0 1 env gameId _ _ _ bet2);
        [| by cbn; rewrite sload_insert_eq, Hbets | done | cbn; lia].
      cbn [payoutLoop]. eexists; split; [reflexivity|]. cbn. by rewrite !sload_insert_eq.
    + rewrite (payoutLoop_lose 1 0 env gameId _ _ _ bet1);
        [| by cbn; rewrite Hbets | done].
      rewrite (payoutLoop_lose 0 1 env gameId _ _ _ bet2);
        [| by cbn; rewrite sload_insert_eq, Hbets | done].
      cbn [payoutLoop]. eexists; split; [reflexivity|]. cbn. by rewrite !sload_insert_eq.
Qed.

Lemma require_bind {A} cond reason (k : unit → outcome A) :
  require cond reason ≫= k = if cond then k tt else Revert reason.
Proof. by destruct cond. Qed.

(** Runs the first [require] of the call in the goal: either it reverts the call
    or its condition is kept as a hypothesis. *)
Ltac step_require :=
  rewrite require_bind;
  match goal with
  | |- context [if ?c then _ else Revert _] =>
    let H := fresh "Hreq" in
    destruct c eqn:H; [| try (by eexists); try done]
  end.

(** C8, amended.  The override of the owner returns only when both players of
    the game have a vote on record; when one vote is missing it reverts, so the
    storage is left as it was; and on an active, unresolved game that holds
    exactly two bets in an unresolved pool, with both votes on record, whatever
    the two votes are, the owner can force each of the three results.  Both
    votes do not suffice: on a game that holds other than two bets the override
    reverts, whatever the votes are, and leaves the storage as it was. *)
Theorem C8_override_needs_both_votes env gameId result s :
  let white := Game.whitePlayer (games s).[gameId] in
  let black := Game.blackPlayer (games s).[gameId] in
  (∀ s', resolveDisputedGame env gameId result s = Ok s' →
     (resultSubmitted s).[(gameId, white)] = true ∧
     (resultSubmitted s).[(gameId, black)] = true) ∧
  ((resultSubmitted s).[(gameId, white)] = false ∨
   (resultSubmitted s).[(gameId, black)] = false →
     reverted (resolveDisputedGame env gameId result s) ∧
     commit (resolveDisputedGame env gameId result) s = s) ∧
  (∀ votes bet1 bet2,
     msg_sender env = owner s →
     Game.id (games s).[gameId] ≠ [] →
     Game.status (games s).[gameId] = 1 →
     (resultResolved s).[gameId] = false →
     (resultSubmitted s).[(gameId, white)] = true →
     (resultSubmitted s).[(gameId, black)] = true →
     0 ≤ result ≤ 2 →
     (gameBets s).[gameId] = [bet1; bet2] →
     BettingPool.resolved (bettingPools s).[gameId] = false →
     0 ≤ BettingPool.houseFee (bettingPools s).[gameId]
       ≤ BettingPool.totalAmount (bettingPools s).[gameId] →
     0 ≤ GameBet.amount bet1 → 0 ≤ GameBet.amount bet2 →
     tokenFeeBalance s + BettingPool.houseFee (bettingPools s).[gameId] ≤ MAX_UINT256 →
     (∀ x, (pendingPayouts s).[x] + 2 * BettingPool.totalAmount (bettingPools s).[gameId]
             + GameBet.amount bet1 + GameBet.amount bet2 ≤ MAX_UINT256) →
     ∃ s', resolveDisputedGame env gameId result (set_resultValue votes s) = Ok s' ∧
       Game.status (games s').[gameId] = 2 ∧
       Game.result (games s').[gameId] = result ∧
       (resultFinal s').[gameId] = result ∧
       (resultResolved s').[gameId] = true ∧
       BettingPool.resolved (bettingPools s').[gameId] = true) ∧
  (length (gameBets s).[gameId] ≠ 2%nat →
     reverted (resolveDisputedGame env gameId result s) ∧
     commit (resolveDisputedGame env gameId result) s = s).
Proof.
  intros white black. split; [|split; [|split]]; cycle 3.
  - intros Hbets.
    assert (reverted (resolveDisputedGame env gameId result s)) as Hrev.
    { unfold resolveDisputedGame, onlyOwner, gameExists.
      repeat step_require.
      unfold _resolveBets. rewrite !require_bind.
      cbn [gameBets finishGame modifyPool set_bettingPools set_games set_resultFinal
           set_resultResolved].
      destruct (Nat.eqb_spec (length (gameBets s).[gameId]) 2); [congruence|].
      match goal with
      | |- context [if ?c then Revert _ else Revert _] => destruct c; by eexists
      end. }
    split; [exact Hrev | by apply commit_reverted].
  - intros s'. unfold resolveDisputedGame, onlyOwner, gameExists.
    repeat step_require. intros _.
    match goal with Hvotes : (_ && _) = true |- _ => by apply andb_true_iff in Hvotes end.
  - intros Hmissing.
    assert (reverted (resolveDisputedGame env gameId result s)) as Hrev.
    { unfold resolveDisputedGame, onlyOwner, gameExists.
      repeat step_require.
      match goal with Hvotes : (_ && _) = true |- _ =>
        apply andb_true_iff in Hvotes; fold white black in Hvotes;
        destruct Hmissing as [Hm | Hm]; rewrite Hm in Hvotes; by destruct Hvotes
      end. }
    split; [exact Hrev | by apply commit_reverted].
  - intros votes bet1 bet2 Hown Hid Hstatus Hunres HW HB Hresult Hbets Hpool Hfee
      Ha1 Ha2 HsumFee Hsum.
    unfold resolveDisputedGame, onlyOwner, gameExists.
    cbn [owner games resultResolved resultSubmitted set_resultValue].
    rewrite Hown, Z.eqb_refl. cbn [require mbind outcome_bind].
    unfold bytes32_eqb. rewrite bool_decide_eq_false_2 by done.
    cbn [negb require mbind outcome_bind].
    destruct (Z.leb_spec result 2); [|lia]. cbn [require mbind outcome_bind].
    rewrite Hunres, Hstatus. cbn [negb Z.eqb Pos.eqb require mbind outcome_bind].
    fold white black. rewrite HW, HB. cbn [andb require mbind outcome_bind].
    destruct (_resolveBets_succeeds env gameId result
                (finishGame env gameId result (set_resultValue votes s)) bet1 bet2)
      as (s' & -> & Hgames & Hresolved & Hfinal & _ & Hflag); try done.
    eexists; split; [reflexivity|].
    cbn. rewrite Hgames, Hresolved, Hfinal. cbn. by rewrite !sload_insert_eq.
Qed.

(** The votes of the disputed game of Alice and Bob differ, and the owner forces
    a draw. *)
Lemma C8_override_needs_both_votes_witness :
  (resultValue Scenario.disputed).[(Scenario.stakedId, Scenario.alice)] = RESULT_WHITE ∧
  (resultValue Scenario.disputed).[(Scenario.stakedId, Scenario.bob)] = RESULT_BLACK ∧
  ∃ s', resolveDisputedGame (Scenario.sentBy Scenario.admin) Scenario.stakedId RESULT_DRAW
          (set_resultValue (resultValue Scenario.disputed) Scenario.disputed) = Ok s' ∧
    Game.status (games s').[Scenario.stakedId] = 2 ∧
    Game.result (games s').[Scenario.stakedId] = RESULT_DRAW ∧
    (resultFinal s').[Scenario.stakedId] = RESULT_DRAW ∧
    (resultResolved s').[Scenario.stakedId] = true ∧
    BettingPool.resolved (bettingPools s').[Scenario.stakedId] = true.
Proof.
  split; [evaluate|]. split; [evaluate|].
  destruct (C8_override_needs_both_votes (Scenario.sentBy Scenario.admin) Scenario.stakedId
              RESULT_DRAW Scenario.disputed) as (_ & _ & Hforce & _).
  apply (Hforce (resultValue Scenario.disputed)
           (newBet (Scenario.sentBy Scenario.alice) Scenario.stakedId Scenario.alice 5000000)
           (newBet (Scenario.sentBy Scenario.bob) Scenario.stakedId Scenario.bob 5000000));
    try evaluate.
  all: vm_compute; split; discriminate.
Defined.

(** C8, as stated, fails.  In the game that Bob started after Alice alone had
    staked, both players have a vote on record and the votes differ; the game
    is active and no result is recorded.  The override of the owner reverts
    for each of the three results, because the resolution of the bets requires
    exactly two bets, and the storage is left as it was.  The calls that lead
    to this storage all return. *)
Lemma C8_override_reverts_on_a_game_short_of_stakes :
  reachable oneStakeDisputed ∧
  Game.status (games oneStakeDisputed).[Scenario.stakedId] = 1 ∧
  (resultResolved oneStakeDisputed).[Scenario.stakedId] = false ∧
  (resultSubmitted oneStakeDisputed).[(Scenario.stakedId, Scenario.alice)] = true ∧
  (resultSubmitted oneStakeDisputed).[(Scenario.stakedId, Scenario.bob)] = true ∧
  (resultValue oneStakeDisputed).[(Scenario.stakedId, Scenario.alice)] = RESULT_WHITE ∧
  (resultValue oneStakeDisputed).[(Scenario.stakedId, Scenario.bob)] = RESULT_BLACK ∧
  length (gameBets oneStakeDisputed).[Scenario.stakedId] = 1%nat ∧
  owner oneStakeDisputed = Scenario.admin ∧
  map (λ result, resolveDisputedGame (Scenario.sentBy Scenario.admin) Scenario.stakedId result
                   oneStakeDisputed)
      [RESULT_WHITE; RESULT_BLACK; RESULT_DRAW]
  = [Revert "Must have exactly 2 bets"; Revert "Must have exactly 2 bets";
     Revert "Must have exactly 2 bets"] ∧
  map (λ result, commit (resolveDisputedGame (Scenario.sentBy Scenario.admin)
                           Scenario.stakedId result) oneStakeDisputed)
      [RESULT_WHITE; RESULT_BLACK; RESULT_DRAW]
  = [oneStakeDisputed; oneStakeDisputed; oneStakeDisputed].
Proof.
  split.
  - set (bobEnv := Scenario.sentBy Scenario.bob).
    set (aliceEnv := Scenario.sentBy Scenario.alice).
    set (s1 := aliceStaked).
    set (s2 := commit (startGame bobEnv Scenario.stakedId) s1).
    set (s3 := commit (submitGameResult aliceEnv Scenario.stakedId RESULT_WHITE) s2).
    apply (reachable_step bobEnv (SubmitGameResult Scenario.stakedId RESULT_BLACK) s3);
      [| done | evaluate].
    apply (reachable_step aliceEnv (SubmitGameResult Scenario.stakedId RESULT_WHITE) s2);
      [| done | evaluate].
    apply (reachable_step bobEnv (StartGame Scenario.stakedId) s1); [| done | evaluate].
    apply (reachable_step aliceEnv (PlaceBet Scenario.stakedId (5 * USDC_UNIT)) aliceCreated);
      [| by vm_compute | evaluate].
    apply (reachable_step aliceEnv (CreateGame Scenario.bob Scenario.blitz 0)
             (deployed Scenario.admin)); [| done | evaluate].
    apply reachable_deployed.
  - do 9 (split; [evaluate|]). evaluate.
Qed.

(** Once a game is finished, every resolution entry point reverts, whoever calls
    it and whatever result is asked for. *)
Lemma finished_game_rejects_resolution env gameId result s :
  Game.status (games s).[gameId] = 2 →
  reverted (submitGameResult env gameId result s) ∧
  reverted (resolveDisputedGame env gameId result s) ∧
  reverted (pauseGame env gameId s).
Proof.
  intros Hfinished. repeat split.
  - unfold submitGameResult, gameExists, onlyGamePlayer. repeat step_require.
    by rewrite Hfinished in *.
  - unfold resolveDisputedGame, onlyOwner, gameExists. repeat step_require.
    by rewrite Hfinished in *.
  - unfold pauseGame, onlyOwner, gameExists. repeat step_require.
    by rewrite Hfinished in *.
Qed.

(** ** Claiming a payout *)

(** C4.  [claimPayout] behaves the same with a token that refuses any payout
    requested while the pending balance of the payee is not yet zero: the balance
    is zeroed before the external transfer is made.  A caller without a pending
    balance is rejected.  When the token fails the transfer the call reverts, and
    the storage the transaction leaves holds the pending balance of the caller as
    it was.  When the token accepts, the balance is zero afterwards. *)
Theorem C4_claim_zeroes_before_transfer env s :
  let caller := msg_sender env in
  let amount := (pendingPayouts s).[caller] in
  let zeroed := set_pendingPayouts (<[caller := 0]> (pendingPayouts s)) s in
  claimPayout env s = claimPayout (payeeZeroed env) s ∧
  (amount = 0 →
     claimPayout env s = Revert "No pending payout" ∧ commit (claimPayout env) s = s) ∧
  (0 < amount → token_ok env zeroed (SafeTransfer caller amount) = false →
     reverted (claimPayout env s) ∧
     (pendingPayouts (commit (claimPayout env) s)).[caller] = amount) ∧
  (0 < amount → token_ok env zeroed (SafeTransfer caller amount) = true →
     claimPayout env s = Ok (emit (PayoutClaimed caller amount) zeroed) ∧
     (pendingPayouts (commit (claimPayout env) s)).[caller] = 0).
Proof.
  intros caller amount zeroed.
  assert (Hbody : ∀ env', msg_sender env' = caller →
    claimPayout env' s =
    if 0 <? amount
    then if token_ok env' zeroed (SafeTransfer caller amount)
         then Ok (emit (PayoutClaimed caller amount) zeroed)
         else Revert "SafeERC20FailedOperation"
    else Revert "No pending payout").
  { intros env' Hcaller. unfold claimPayout, tokenCall. rewrite Hcaller.
    fold amount zeroed. rewrite !require_bind. reflexivity. }
  split; [|split; [|split]].
  - rewrite !Hbody by reflexivity. cbn [payeeZeroed token_ok].
    replace ((pendingPayouts zeroed).[caller]) with 0
      by (unfold zeroed; cbn; by rewrite sload_insert_eq).
    reflexivity.
  - intros Hzero. unfold commit. rewrite Hbody by reflexivity.
    by rewrite Hzero.
  - intros Hpos Hfail. unfold commit. rewrite Hbody by reflexivity.
    destruct (Z.ltb_spec 0 amount); [|lia]. rewrite Hfail.
    split; [by eexists | reflexivity].
  - intros Hpos Hpaid. unfold commit. rewrite Hbody by reflexivity.
    destruct (Z.ltb_spec 0 amount); [|lia]. rewrite Hpaid.
    split; [reflexivity|]. cbn. by rewrite sload_insert_eq.
Qed.

(** After the white win Alice has 9.5 USDC pending; a failing transfer leaves them
    pending, an accepted one leaves nothing. *)
Lemma C4_claim_zeroes_before_transfer_witness :
  (pendingPayouts Scenario.whiteWon).[Scenario.alice] = 9500000 ∧
  (pendingPayouts (commit (claimPayout (Scenario.refusedBy Scenario.alice)) Scenario.whiteWon))
    .[Scenario.alice] = 9500000 ∧
  (pendingPayouts (commit (claimPayout (Scenario.sentBy Scenario.alice)) Scenario.whiteWon))
    .[Scenario.alice] = 0 ∧
  reverted (claimPayout (Scenario.sentBy Scenario.bob) Scenario.whiteWon).
Proof.
  split; [evaluate|].
  destruct (C4_claim_zeroes_before_transfer (Scenario.refusedBy Scenario.alice) Scenario.whiteWon)
    as (_ & _ & Hfail & _).
  destruct (C4_claim_zeroes_before_transfer (Scenario.sentBy Scenario.alice) Scenario.whiteWon)
    as (_ & _ & _ & Hpaid).
  destruct (C4_claim_zeroes_before_transfer (Scenario.sentBy Scenario.bob) Scenario.whiteWon)
    as (_ & Hnone & _ & _).
  split; [|split].
  - destruct Hfail as [_ Hkept]; [evaluate.. |]. refine (eq_trans Hkept _). evaluate.
  - destruct Hpaid as [_ Hgone]; [evaluate.. |]. exact Hgone.
  - destruct Hnone as [Hrejected _]; [evaluate|]. exists "No pending payout". exact Hrejected.
Defined.

(** ** Moves *)

(** C9, as stated, fails: after 200 moves the game of Alice and Bob is at the cap
    of the move count, and a further move is not reported as an error.  The call
    returns; it emits [MoveMade] and leaves the rest of the storage as it was. *)
Lemma C9_move_after_the_cap_is_not_an_error :
  Game.moveCount (games Scenario.fullLog).[Scenario.stakedId] = MAX_MOVES ∧
  makeMove (Scenario.sentBy Scenario.alice) Scenario.stakedId "e5" Scenario.fullLog
    = Ok (emit (MoveMade Scenario.stakedId "e5") Scenario.fullLog) ∧
  ¬ reverted (makeMove (Scenario.sentBy Scenario.alice) Scenario.stakedId "e5"
                Scenario.fullLog).
Proof.
  assert (makeMove (Scenario.sentBy Scenario.alice) Scenario.stakedId "e5" Scenario.fullLog
          = Ok (emit (MoveMade Scenario.stakedId "e5") Scenario.fullLog)) as Hok by evaluate.
  split; [evaluate|]. split; [exact Hok|].
  intros [reason Hrev]. rewrite Hok in Hrev. discriminate.
Qed.

(** C9, amended.  A move longer than the size cap, or sent to a game that is not
    active, reverts and leaves the storage as it was; a call that returns was
    sent to an active game with a move within the size cap.  A move that arrives
    when the move count has reached its cap is not an error: sent by a player of
    an active game, it returns and only adds the [MoveMade] event, the move log
    and the move count being left as they were. *)
Theorem C9_move_caps env gameId move s :
  (MAX_MOVE_BYTES < Z.of_nat (String.length move) →
     reverted (makeMove env gameId move s) ∧ commit (makeMove env gameId move) s = s) ∧
  (Game.status (games s).[gameId] ≠ 1 →
     reverted (makeMove env gameId move s) ∧ commit (makeMove env gameId move) s = s) ∧
  (∀ s', makeMove env gameId move s = Ok s' →
     Game.status (games s).[gameId] = 1 ∧
     Z.of_nat (String.length move) ≤ MAX_MOVE_BYTES) ∧
  (Game.id (games s).[gameId] ≠ [] →
   msg_sender env = Game.whitePlayer (games s).[gameId] ∨
   msg_sender env = Game.blackPlayer (games s).[gameId] →
   Game.status (games s).[gameId] = 1 →
   Z.of_nat (String.length move) ≤ MAX_MOVE_BYTES →
   MAX_MOVES ≤ Game.moveCount (games s).[gameId] →
     makeMove env gameId move s = Ok (emit (MoveMade gameId move) s) ∧
     games (commit (makeMove env gameId move) s) = games s).
Proof.
  split; [|split; [|split]].
  - intros Hlong.
    assert (reverted (makeMove env gameId move s)) as Hrev.
    { unfold makeMove, gameExists, onlyGamePlayer. repeat step_require.
      apply Z.leb_le in Hreq2. lia. }
    split; [exact Hrev | by apply commit_reverted].
  - intros Hinactive.
    assert (reverted (makeMove env gameId move s)) as Hrev.
    { unfold makeMove, gameExists, onlyGamePlayer. repeat step_require.
      by apply Z.eqb_eq in Hreq1. }
    split; [exact Hrev | by apply commit_reverted].
  - intros s'. unfold makeMove, gameExists, onlyGamePlayer. repeat step_require.
    intros _. split; [by apply Z.eqb_eq | by apply Z.leb_le].
  - intros Hid Hplayer Hactive Hshort Hcap.
    assert (makeMove env gameId move s = Ok (emit (MoveMade gameId move) s)) as Hok.
    { unfold makeMove, gameExists, onlyGamePlayer, bytes32_eqb.
      rewrite bool_decide_eq_false_2 by done. cbn [negb require mbind outcome_bind].
      replace ((msg_sender env =? Game.whitePlayer (games s).[gameId])
               || (msg_sender env =? Game.blackPlayer (games s).[gameId])) with true
        by (symmetry; apply orb_true_iff; destruct Hplayer as [-> | ->];
            rewrite Z.eqb_refl; auto).
      cbn [require mbind outcome_bind]. rewrite Hactive.
      cbn [Z.eqb Pos.eqb require mbind outcome_bind].
      destruct (Z.leb_spec (Z.of_nat (String.length move)) MAX_MOVE_BYTES); [|lia].
      cbn [require mbind outcome_bind].
      change (games (emit (MoveMade gameId move) s)) with (games s).
      by destruct (Z.ltb_spec (Game.moveCount (games s).[gameId]) MAX_MOVES); [lia|]. }
    split; [exact Hok|]. unfold commit. by rewrite Hok.
Qed.

(** The game of Alice and Bob after 200 moves meets the hypotheses of the last
    part of C9. *)
Lemma C9_move_caps_witness :
  makeMove (Scenario.sentBy Scenario.bob) Scenario.stakedId "Nf6" Scenario.fullLog
    = Ok (emit (MoveMade Scenario.stakedId "Nf6") Scenario.fullLog) ∧
  games (commit (makeMove (Scenario.sentBy Scenario.bob) Scenario.stakedId "Nf6")
           Scenario.fullLog) = games Scenario.fullLog.
Proof.
  destruct (C9_move_caps (Scenario.sentBy Scenario.bob) Scenario.stakedId "Nf6"
              Scenario.fullLog) as (_ & _ & _ & Hcap).
  apply Hcap; try evaluate.
  right. evaluate.
Defined.

(** ** Order book *)

(** C10.  Alice places a white and a black order of one tick each for the same
    time control.  The second call matches the two orders, both of them hers,
    and creates an active game whose white and black players are both Alice.
    [createGame], for its part, reverts whenever the opponent is the caller. *)
Theorem C10_matching_pairs_orders_of_one_owner :
  map (λ o, (Order.player o, Order.side o, Order.timeControl o, Order.status o))
      (map (sload (orders Scenario.selfMatched))
           (playerOrders Scenario.selfMatched).[Scenario.alice])
    = [(Scenario.alice, 0, Scenario.blitz, 2); (Scenario.alice, 1, Scenario.blitz, 2)] ∧
  (let game := (games Scenario.selfMatched).[Scenario.selfMatchGame] in
   Game.id game = Scenario.selfMatchGame ∧
   Game.whitePlayer game = Scenario.alice ∧
   Game.blackPlayer game = Scenario.alice ∧
   Game.status game = 1) ∧
  map GameBet.player (gameBets Scenario.selfMatched).[Scenario.selfMatchGame]
    = [Scenario.alice; Scenario.alice] ∧
  (∀ env timeControl bettingTier s,
     reverted (createGame env (msg_sender env) timeControl bettingTier s)).
Proof.
  split; [evaluate|]. split; [by vm_compute|]. split; [evaluate|].
  intros env timeControl bettingTier s.
  unfold createGame, whenNotPaused. repeat step_require.
  by rewrite Z.eqb_refl in *.
Qed.

(** C6.  Bob places a white order of one tick and Alice a black one; they match
    in full.  The queue of the level of Alice holds her order alone, which is
    filled, so no open or partially filled order is queued there and the sum of
    the specification is zero; the aggregate of the level is still one tick. *)
Theorem C6_level_keeps_the_amount_of_a_filled_order :
  let key := (Scenario.blitz, 1, 10 * USDC_UNIT) in
  let level := (orderbookLevels Scenario.plainMatched).[key] in
  map (λ i, (Order.player (orders Scenario.plainMatched).[i],
             Order.filledAmount (orders Scenario.plainMatched).[i],
             Order.status (orders Scenario.plainMatched).[i]))
      (OrderbookLevel.orderIds level)
    = [(Scenario.alice, 10000000, 2)] ∧
  openInterest Scenario.plainMatched key = 0 ∧
  OrderbookLevel.totalAmount level = 10000000.
Proof. by vm_compute. Qed.

(** The engine does the same on the same two orders. *)
Lemma engine_level_keeps_the_amount_of_a_filled_order :
  (m ← Scenario.enginePlainMatched;
   level ← OrderbookManager.getLevel (10 * 10 ^ 18)
              (OrderbookManager.blackLevels (OrderbookManager.book (Scenario.blitz, 0) m));
   Some (OrderbookManager.openInterest m level, OrderbookManager.totalAmount level))
  = Some (0, 10 * 10 ^ 18).
Proof. evaluate. Qed.

(** ** The tolerance pass *)

Lemma tickSize_pos : 0 < tickSize.
Proof. reflexivity. Qed.

Lemma traced_eq {St} (body : Z → Z → St → outcome (Z * bool * St)) keep tick remaining st log :
  traced body keep tick remaining (st, log)
  = ('(remaining', break, st') ← body tick remaining st;
     Ok (remaining', break, (st', if keep tick st then log ++ [tick] else log))).
Proof. reflexivity. Qed.

Lemma traced_idle tick remaining log :
  traced idle (λ _ _, true) tick remaining (tt, log) = Ok (remaining, false, (tt, log ++ [tick])).
Proof. reflexivity. Qed.

(** With the idle body the ascending loop goes through [count] ticks, where
    [count] is the number of ticks from [tick] that are not above [maxTick]. *)
Lemma ascend_idle count : ∀ fuel maxTick tick remainingAmount log,
  (count ≤ fuel)%nat →
  0 < remainingAmount →
  tick + Z.of_nat count * tickSize ≤ MAX_UINT256 →
  tick + (Z.of_nat count - 1) * tickSize ≤ maxTick < tick + Z.of_nat count * tickSize →
  ascend (traced idle (λ _ _, true)) fuel maxTick tick remainingAmount (tt, log)
  = Ok (remainingAmount, (tt, log ++ upFrom count tick)).
Proof.
  pose proof tickSize_pos as Hts.
  induction count as [| count IH]; intros fuel maxTick tick remainingAmount log Hfuel Hrem Hmax Hband.
  - destruct fuel; cbn [ascend upFrom];
      (destruct (Z.leb_spec tick maxTick); [lia|]); cbn [andb]; by rewrite app_nil_r.
  - destruct fuel as [| fuel]; [lia|]. cbn [ascend upFrom].
    rewrite Nat2Z.inj_succ, Z.mul_succ_l in *.
    destruct (Z.leb_spec tick maxTick); [|lia].
    destruct (Z.ltb_spec 0 remainingAmount); [|lia]. cbn [andb].
    rewrite traced_idle. cbn [mbind outcome_bind].
    rewrite checked_add_ok by lia. cbn [mbind outcome_bind].
    rewrite IH; [| lia | lia | lia | lia].
    by rewrite <- app_assoc.
Qed.

(** The descending loop likewise, down to [minTick]; it never goes below zero. *)
Lemma descend_idle count : ∀ fuel minTick tick remainingAmount log,
  (count ≤ fuel)%nat →
  0 < remainingAmount →
  0 ≤ minTick →
  tick - Z.of_nat count * tickSize < minTick ≤ tick - (Z.of_nat count - 1) * tickSize →
  descend (traced idle (λ _ _, true)) fuel minTick tick remainingAmount (tt, log)
  = Ok (tt, log ++ downFrom count tick).
Proof.
  pose proof tickSize_pos as Hts.
  induction count as [| count IH]; intros fuel minTick tick remainingAmount log Hfuel Hrem Hmin Hband.
  - destruct fuel; cbn [descend downFrom];
      (destruct (Z.leb_spec minTick tick); [lia|]); cbn [andb]; by rewrite app_nil_r.
  - destruct fuel as [| fuel]; [lia|]. cbn [descend downFrom].
    rewrite Nat2Z.inj_succ, Z.mul_succ_l in *.
    destruct (Z.leb_spec minTick tick); [|lia].
    destruct (Z.ltb_spec 0 remainingAmount); [|lia]. cbn [andb].
    rewrite traced_idle. cbn [mbind outcome_bind].
    destruct (Z.ltb_spec tick tickSize).
    + destruct count as [| count]; [done|].
      rewrite Nat2Z.inj_succ, Z.mul_succ_l in *. lia.
    + rewrite IH; [| lia | lia | lia | lia].
      by rewrite <- app_assoc.
Qed.

Lemma downFrom_nonnegative count : ∀ tick,
  0 ≤ tick - (Z.of_nat count - 1) * tickSize →
  Forall (λ t, 0 ≤ t) (downFrom count tick).
Proof.
  pose proof tickSize_pos as Hts.
  induction count as [| count IH]; intros tick Hlow; cbn [downFrom]; [constructor|].
  rewrite Nat2Z.inj_succ in Hlow.
  constructor; [nia|]. apply IH. lia.
Qed.

(** The ticks of the tolerance pass of the contract. *)
Lemma nearestTicks_eq tickAmount :
  0 ≤ tickAmount →
  tickAmount * tolerancePercentage + tickSize ≤ MAX_UINT256 →
  let count := Z.to_nat (tickAmount * tolerancePercentage / 100 / tickSize) in
  nearestTicks tickAmount
  = Ok (upFrom count (tickAmount + tickSize) ++ downFrom count (tickAmount - tickSize)) ∧
  Forall (λ t, 0 ≤ t) (downFrom count (tickAmount - tickSize)).
Proof.
  intros Hpos Hmax count.
  pose proof tickSize_pos as Hts.
  set (tolerance := tickAmount * tolerancePercentage / 100).
  assert (0 ≤ tolerance ≤ tickAmount) as Htol.
  { unfold tolerance, tolerancePercentage. split.
    - apply Z.div_pos; lia.
    - apply Z.div_le_upper_bound; lia. }
  assert (tolerance < tickAmount ∨ tickAmount = 0) as Hstrict.
  { unfold tolerance, tolerancePercentage in *.
    destruct (decide (tickAmount = 0)); [by right | left].
    apply Z.div_lt_upper_bound; lia. }
  assert (Z.of_nat count = tolerance / tickSize) as Hcount.
  { unfold count. fold tolerance. rewrite Z2Nat.id; [done|]. apply Z.div_pos; lia. }
  pose proof (Z.mul_div_le tolerance tickSize Hts) as Hlow.
  pose proof (Z.mul_succ_div_gt tolerance tickSize Hts) as Hhigh.
  rewrite <- Hcount in Hlow, Hhigh.
  unfold tolerancePercentage in Hmax.
  split.
  - unfold nearestTicks, nearestLoops.
    rewrite checked_mul_ok by (unfold tolerancePercentage; lia).
    cbn [mbind outcome_bind]. fold tolerance.
    rewrite checked_add_ok by lia. cbn [mbind outcome_bind].
    rewrite checked_add_ok by lia. cbn [mbind outcome_bind].
    fold count.
    rewrite (ascend_idle count); [| lia | lia | lia | lia].
    cbn [mbind outcome_bind app].
    destruct (Z.leb_spec tickSize tickAmount).
    + destruct (Z.ltb_spec tolerance tickAmount); [|lia].
      rewrite (descend_idle count); [| lia | lia | lia | lia].
      reflexivity.
    + assert (count = 0%nat) as -> by nia.
      cbn [downFrom]. by rewrite app_nil_r.
  - destruct count as [| count']; [constructor|].
    apply downFrom_nonnegative.
    rewrite Nat2Z.inj_succ in *. nia.
Qed.

(** Whatever the body does, the ticks that the loops log are taken, in order,
    from the ticks that the fuel allows. *)
Section Traced.
Context {St : Type} (body : Z → Z → St → outcome (Z * bool * St)) (keep : Z → St → bool).

Lemma ascend_traced_log fuel : ∀ maxTick tick remainingAmount st log r st' log',
  ascend (traced body keep) fuel maxTick tick remainingAmount (st, log) = Ok (r, (st', log')) →
  ∃ visited, log' = log ++ visited ∧ visited `sublist_of` upFrom fuel tick.
Proof.
  induction fuel as [| fuel IH]; intros maxTick tick remainingAmount st log r st' log';
    cbn [ascend upFrom].
  - destruct ((tick <=? maxTick) && (0 <? remainingAmount)); [done|].
    intros [= <- <- <-]. exists []. by rewrite app_nil_r.
  - destruct ((tick <=? maxTick) && (0 <? remainingAmount)).
    2:{ intros [= <- <- <-]. exists []. rewrite app_nil_r. split; [done | apply sublist_nil_l]. }
    rewrite traced_eq.
    destruct (body tick remainingAmount st) as [[[r1 brk] st1] | |]; cbn [mbind outcome_bind];
      [| done | done].
    assert (∃ step, (if keep tick st then log ++ [tick] else log) = log ++ step
                    ∧ step `sublist_of` [tick]) as (step & -> & Hstep).
    { destruct (keep tick st); [by exists [tick] |].
      exists []. rewrite app_nil_r. split; [done | apply sublist_nil_l]. }
    destruct brk.
    + intros [= <- <- <-]. exists step. split; [done|].
      change (tick :: upFrom fuel (tick + tickSize))
        with ([tick] ++ upFrom fuel (tick + tickSize)).
      by apply sublist_inserts_r.
    + destruct (checked_add tick tickSize) as [tick' | |] eqn:Hnext; cbn [mbind outcome_bind];
        [| done | done].
      intros Hrun. apply IH in Hrun as (visited & -> & Hvisited).
      exists (step ++ visited). split; [by rewrite app_assoc|].
      assert (tick' = tick + tickSize) as ->.
      { unfold checked_add in Hnext. by destruct (_ <=? _); inversion Hnext. }
      change (tick :: upFrom fuel (tick + tickSize))
        with ([tick] ++ upFrom fuel (tick + tickSize)).
      by apply sublist_app.
Qed.

Lemma descend_traced_log fuel : ∀ minTick tick remainingAmount st log st' log',
  descend (traced body keep) fuel minTick tick remainingAmount (st, log) = Ok (st', log') →
  ∃ visited, log' = log ++ visited ∧ visited `sublist_of` downFrom fuel tick.
Proof.
  induction fuel as [| fuel IH]; intros minTick tick remainingAmount st log st' log';
    cbn [descend downFrom].
  - destruct ((minTick <=? tick) && (0 <? remainingAmount)); [done|].
    intros [= <- <-]. exists []. by rewrite app_nil_r.
  - destruct ((minTick <=? tick) && (0 <? remainingAmount)).
    2:{ intros [= <- <-]. exists []. rewrite app_nil_r. split; [done | apply sublist_nil_l]. }
    rewrite traced_eq.
    destruct (body tick remainingAmount st) as [[[r1 brk] st1] | |]; cbn [mbind outcome_bind];
      [| done | done].
    assert (∃ step, (if keep tick st then log ++ [tick] else log) = log ++ step
                    ∧ step `sublist_of` [tick]) as (step & -> & Hstep).
    { destruct (keep tick st); [by exists [tick] |].
      exists []. rewrite app_nil_r. split; [done | apply sublist_nil_l]. }
    assert (step `sublist_of` tick :: downFrom fuel (tick - tickSize)) as Hfirst.
    { change (tick :: downFrom fuel (tick - tickSize))
        with ([tick] ++ downFrom fuel (tick - tickSize)).
      by apply sublist_inserts_r. }
    destruct brk; [intros [= <- <-]; by exists step|].
    destruct (tick <? tickSize); [intros [= <- <-]; by exists step|].
    intros Hrun. apply IH in Hrun as (visited & -> & Hvisited).
    exists (step ++ visited). split; [by rewrite app_assoc|].
    change (tick :: downFrom fuel (tick - tickSize))
      with ([tick] ++ downFrom fuel (tick - tickSize)).
    by apply sublist_app.
Qed.

(** Forgetting the log of a traced run gives the run of the body itself. *)
Lemma ascend_traced_forget fuel : ∀ maxTick tick remainingAmount st log,
  forget (ascend (traced body keep) fuel maxTick tick remainingAmount (st, log))
  = ascend body fuel maxTick tick remainingAmount st.
Proof.
  induction fuel as [| fuel IH]; intros maxTick tick remainingAmount st log; cbn [ascend].
  - by destruct ((tick <=? maxTick) && (0 <? remainingAmount)).
  - destruct ((tick <=? maxTick) && (0 <? remainingAmount)); [|done].
    rewrite traced_eq.
    destruct (body tick remainingAmount st) as [[[r1 brk] st1] | |]; cbn [mbind outcome_bind];
      [| done | done].
    destruct brk; [done|].
    destruct (checked_add tick tickSize); cbn [mbind outcome_bind]; [| done | done].
    apply IH.
Qed.

Lemma descend_traced_forget fuel : ∀ minTick tick remainingAmount st log,
  (st' ← descend (traced body keep) fuel minTick tick remainingAmount (st, log); Ok (fst st'))
  = descend body fuel minTick tick remainingAmount st.
Proof.
  induction fuel as [| fuel IH]; intros minTick tick remainingAmount st log; cbn [descend].
  - by destruct ((minTick <=? tick) && (0 <? remainingAmount)).
  - destruct ((minTick <=? tick) && (0 <? remainingAmount)); [|done].
    rewrite traced_eq.
    destruct (body tick remainingAmount st) as [[[r1 brk] st1] | |]; cbn [mbind outcome_bind];
      [| done | done].
    destruct brk; [done|].
    destruct (tick <? tickSize); [done|].
    apply IH.
Qed.

(** The loops run the body only while something is left to fill. *)
Lemma onlyUnfilled_eq tick remainingAmount (st : St) :
  0 < remainingAmount →
  onlyUnfilled body tick remainingAmount st = body tick remainingAmount st.
Proof. intros. unfold onlyUnfilled. by destruct (Z.ltb_spec 0 remainingAmount); [|lia]. Qed.

Lemma ascend_onlyUnfilled fuel : ∀ maxTick tick remainingAmount (st : St),
  ascend (onlyUnfilled body) fuel maxTick tick remainingAmount st
  = ascend body fuel maxTick tick remainingAmount st.
Proof.
  induction fuel as [| fuel IH]; intros maxTick tick remainingAmount st; cbn [ascend];
    [done|].
  destruct (tick <=? maxTick); cbn [andb]; [|done].
  destruct (Z.ltb_spec 0 remainingAmount); [|done].
  rewrite onlyUnfilled_eq by done.
  destruct (body tick remainingAmount st) as [[[r brk] st1] | |]; cbn [mbind outcome_bind];
    [| done | done].
  destruct brk; [done|].
  destruct (checked_add tick tickSize); cbn [mbind outcome_bind]; [| done | done].
  apply IH.
Qed.

Lemma descend_onlyUnfilled fuel : ∀ minTick tick remainingAmount (st : St),
  descend (onlyUnfilled body) fuel minTick tick remainingAmount st
  = descend body fuel minTick tick remainingAmount st.
Proof.
  induction fuel as [| fuel IH]; intros minTick tick remainingAmount st; cbn [descend];
    [done|].
  destruct (minTick <=? tick); cbn [andb]; [|done].
  destruct (Z.ltb_spec 0 remainingAmount); [|done].
  rewrite onlyUnfilled_eq by done.
  destruct (body tick remainingAmount st) as [[[r brk] st1] | |]; cbn [mbind outcome_bind];
    [| done | done].
  destruct brk; [done|].
  destruct (tick <? tickSize); [done|].
  apply IH.
Qed.

Lemma nearestLoops_onlyUnfilled tickAmount maxAmount (st : St) :
  nearestLoops (onlyUnfilled body) tickAmount maxAmount st
  = nearestLoops body tickAmount maxAmount st.
Proof.
  unfold nearestLoops.
  destruct (checked_mul tickAmount tolerancePercentage) as [scaled | |];
    cbn [mbind outcome_bind]; [| done | done].
  destruct (checked_add tickAmount (scaled / 100)) as [maxTick | |];
    cbn [mbind outcome_bind]; [| done | done].
  destruct (checked_add tickAmount tickSize) as [first | |];
    cbn [mbind outcome_bind]; [| done | done].
  rewrite ascend_onlyUnfilled.
  destruct (ascend body _ _ _ _ _) as [[r st1] | |]; cbn [mbind outcome_bind];
    [| done | done].
  destruct (tickSize <=? tickAmount); [|done].
  apply descend_onlyUnfilled.
Qed.

Lemma nearestLoops_forget tickAmount maxAmount st :
  (st' ← nearestLoops (traced body keep) tickAmount maxAmount (st, []); Ok (fst st'))
  = nearestLoops body tickAmount maxAmount st.
Proof.
  unfold nearestLoops.
  destruct (checked_mul tickAmount tolerancePercentage) as [scaled | |];
    cbn [mbind outcome_bind]; [| done | done].
  destruct (checked_add tickAmount (scaled / 100)) as [maxTick | |];
    cbn [mbind outcome_bind]; [| done | done].
  destruct (checked_add tickAmount tickSize) as [first | |];
    cbn [mbind outcome_bind]; [| done | done].
  set (fuel := Z.to_nat _).
  rewrite <- (ascend_traced_forget fuel _ _ _ st []).
  destruct (ascend (traced body keep) fuel _ _ _ _) as [[r [st1 log1]] | |];
    cbn [forget mbind outcome_bind fst]; [| done | done].
  destruct (tickSize <=? tickAmount); [|done].
  apply descend_traced_forget.
Qed.

Lemma nearestLoops_traced_log tickAmount maxAmount st st' log :
  nearestLoops (traced body keep) tickAmount maxAmount (st, []) = Ok (st', log) →
  let count := Z.to_nat (tickAmount * tolerancePercentage / 100 / tickSize) in
  log `sublist_of` upFrom count (tickAmount + tickSize) ++ downFrom count (tickAmount - tickSize).
Proof.
  unfold nearestLoops.
  destruct (checked_mul tickAmount tolerancePercentage) as [scaled | |] eqn:Hscaled;
    cbn [mbind outcome_bind]; [| done | done].
  assert (scaled = tickAmount * tolerancePercentage) as ->.
  { unfold checked_mul in Hscaled. by destruct (_ <=? _); inversion Hscaled. }
  destruct (checked_add tickAmount (tickAmount * tolerancePercentage / 100)) as [maxTick | |];
    cbn [mbind outcome_bind]; [| done | done].
  destruct (checked_add tickAmount tickSize) as [first | |] eqn:Hfirst;
    cbn [mbind outcome_bind]; [| done | done].
  assert (first = tickAmount + tickSize) as ->.
  { unfold checked_add in Hfirst. by destruct (_ <=? _); inversion Hfirst. }
  set (fuel := Z.to_nat _).
  destruct (ascend (traced body keep) fuel _ _ _ _) as [[r [st1 log1]] | |] eqn:Hup;
    cbn [mbind outcome_bind]; [| done | done].
  apply ascend_traced_log in Hup as (up & -> & Hup). cbn [app] in *.
  destruct (tickSize <=? tickAmount).
  - intros Hdown. apply descend_traced_log in Hdown as (down & -> & Hdown).
    by apply sublist_app.
  - intros [= <- <-].
    rewrite <- (app_nil_r up). apply sublist_app; [done | apply sublist_nil_l].
Qed.

End Traced.

(** ** The candidate levels of the engine *)

Section SortBy.
Import OrderbookManager.
Context (key : OrderbookLevel → Z).

Lemma insertBy_perm x l : insertBy key x l ≡ₚ x :: l.
Proof.
  induction l as [| y l IH]; cbn [insertBy]; [done|].
  destruct (key x <=? key y); [done|].
  rewrite IH. apply Permutation_swap.
Qed.

Lemma sortBy_perm l : sortBy key l ≡ₚ l.
Proof.
  induction l as [| x l IH]; cbn [sortBy foldr]; [done|].
  fold (sortBy key l). by rewrite insertBy_perm, IH.
Qed.

Lemma insertBy_sorted x l :
  StronglySorted (λ a b, key a ≤ key b) l →
  StronglySorted (λ a b, key a ≤ key b) (insertBy key x l).
Proof.
  induction 1 as [| y l Hsorted IH Hhead]; cbn [insertBy].
  - repeat constructor.
  - destruct (Z.leb_spec (key x) (key y)).
    + constructor; [by constructor|].
      constructor; [done|]. eapply Forall_impl; [exact Hhead|]. intros z ?; cbn in *; lia.
    + constructor; [done|].
      rewrite insertBy_perm. constructor; [lia | done].
Qed.

Lemma sortBy_sorted l : StronglySorted (λ a b, key a ≤ key b) (sortBy key l).
Proof.
  induction l as [| x l IH]; cbn [sortBy foldr]; [constructor|].
  by apply insertBy_sorted.
Qed.

(** The sort is stable: the levels of one key keep their order. *)
Lemma insertBy_stable d x l :
  List.filter (λ a, key a =? d) (insertBy key x l)
  = List.filter (λ a, key a =? d) (x :: l).
Proof.
  induction l as [| y l IH]; cbn [insertBy]; [done|].
  destruct (Z.leb_spec (key x) (key y)); [done|].
  cbn [List.filter] in *. rewrite IH.
  destruct (Z.eqb_spec (key x) d), (Z.eqb_spec (key y) d); try done. lia.
Qed.

Lemma sortBy_stable d l :
  List.filter (λ a, key a =? d) (sortBy key l) = List.filter (λ a, key a =? d) l.
Proof.
  induction l as [| x l IH]; cbn [sortBy foldr]; [done|].
  fold (sortBy key l). rewrite insertBy_stable. cbn [List.filter]. by rewrite IH.
Qed.

End SortBy.

(** *** The loops and the ladder of the specification *)

Section Ladder.
Context {St : Type} (body : Z → Z → St → outcome (Z * bool * St)).
Hypothesis body_breaks : breaksWhenFilled body.

Lemma ladder_done ticks remainingAmount (st : St) :
  remainingAmount ≤ 0 → ladder body ticks remainingAmount st = Ok (remainingAmount, st).
Proof.
  intros Hdone. destruct ticks as [| tick ticks]; cbn [ladder]; [done|].
  by destruct (Z.ltb_spec 0 remainingAmount); [lia|].
Qed.

Lemma ladder_app ticks1 : ∀ ticks2 remainingAmount (st : St),
  ladder body (ticks1 ++ ticks2) remainingAmount st
  = ('(remainingAmount, st) ← ladder body ticks1 remainingAmount st;
     ladder body ticks2 remainingAmount st).
Proof.
  induction ticks1 as [| tick ticks1 IH]; intros ticks2 remainingAmount st;
    cbn [app ladder]; [done|].
  destruct (Z.ltb_spec 0 remainingAmount).
  - destruct (body tick remainingAmount st) as [[[r brk] st1] | |]; cbn [mbind outcome_bind];
      [apply IH | done | done].
  - cbn [mbind outcome_bind]. by rewrite ladder_done.
Qed.

(** The ascending loop is the ladder over the ticks from [tick] that are not
    above [maxTick]. *)
Lemma ascend_ladder count : ∀ fuel maxTick tick remainingAmount (st : St),
  (count ≤ fuel)%nat →
  tick + Z.of_nat count * tickSize ≤ MAX_UINT256 →
  tick + (Z.of_nat count - 1) * tickSize ≤ maxTick < tick + Z.of_nat count * tickSize →
  ascend body fuel maxTick tick remainingAmount st
  = ladder body (upFrom count tick) remainingAmount st.
Proof.
  pose proof tickSize_pos as Hts.
  induction count as [| count IH]; intros fuel maxTick tick remainingAmount st Hfuel Hmax Hband.
  - destruct fuel; cbn [ascend upFrom ladder];
      (destruct (Z.leb_spec tick maxTick); [lia|]); by cbn [andb].
  - destruct fuel as [| fuel]; [lia|]. cbn [ascend upFrom ladder].
    rewrite Nat2Z.inj_succ, Z.mul_succ_l in *.
    destruct (Z.leb_spec tick maxTick); [|lia]. cbn [andb].
    destruct (0 <? remainingAmount); [|done].
    destruct (body tick remainingAmount st) as [[[r brk] st1] | |] eqn:Hbody;
      cbn [mbind outcome_bind]; [| done | done].
    destruct brk.
    + rewrite ladder_done; [done|]. by eapply body_breaks.
    + rewrite checked_add_ok by lia. cbn [mbind outcome_bind].
      apply IH; lia.
Qed.

(** The descending loop is the ladder over the ticks from [tick] that are not
    below [minTick]. *)
Lemma descend_ladder count : ∀ fuel minTick tick remainingAmount (st : St),
  (count ≤ fuel)%nat →
  0 ≤ minTick →
  tick - Z.of_nat count * tickSize < minTick ≤ tick - (Z.of_nat count - 1) * tickSize →
  descend body fuel minTick tick remainingAmount st
  = ('(_, st) ← ladder body (downFrom count tick) remainingAmount st; Ok st).
Proof.
  pose proof tickSize_pos as Hts.
  induction count as [| count IH]; intros fuel minTick tick remainingAmount st Hfuel Hmin Hband.
  - destruct fuel; cbn [descend downFrom ladder];
      (destruct (Z.leb_spec minTick tick); [lia|]); by cbn [andb].
  - destruct fuel as [| fuel]; [lia|]. cbn [descend downFrom ladder].
    rewrite Nat2Z.inj_succ, Z.mul_succ_l in *.
    destruct (Z.leb_spec minTick tick); [|lia]. cbn [andb].
    destruct (0 <? remainingAmount); [|done].
    destruct (body tick remainingAmount st) as [[[r brk] st1] | |] eqn:Hbody;
      cbn [mbind outcome_bind]; [| done | done].
    destruct brk.
    + rewrite ladder_done; [done|]. by eapply body_breaks.
    + destruct (Z.ltb_spec tick tickSize).
      * destruct count as [| count]; [done|].
        rewrite Nat2Z.inj_succ, Z.mul_succ_l in *. lia.
      * apply IH; lia.
Qed.

(** The two loops of the pass are one ladder: the ticks above the tick of the
    order, ascending, and then the ticks below it, descending. *)
Lemma nearestLoops_ladder tickAmount maxAmount (st : St) :
  0 ≤ tickAmount →
  tickAmount * tolerancePercentage + tickSize ≤ MAX_UINT256 →
  let count := Z.to_nat (tickAmount * tolerancePercentage / 100 / tickSize) in
  nearestLoops body tickAmount maxAmount st
  = ('(_, st) ← ladder body
                  (upFrom count (tickAmount + tickSize) ++ downFrom count (tickAmount - tickSize))
                  maxAmount st;
     Ok st).
Proof.
  intros Hpos Hmax count.
  pose proof tickSize_pos as Hts.
  set (tolerance := tickAmount * tolerancePercentage / 100).
  assert (0 ≤ tolerance ≤ tickAmount) as Htol.
  { unfold tolerance, tolerancePercentage. split.
    - apply Z.div_pos; lia.
    - apply Z.div_le_upper_bound; lia. }
  assert (tolerance < tickAmount ∨ tickAmount = 0) as Hstrict.
  { unfold tolerance, tolerancePercentage in *.
    destruct (decide (tickAmount = 0)); [by right | left].
    apply Z.div_lt_upper_bound; lia. }
  assert (Z.of_nat count = tolerance / tickSize) as Hcount.
  { unfold count. fold tolerance. rewrite Z2Nat.id; [done|]. apply Z.div_pos; lia. }
  pose proof (Z.mul_div_le tolerance tickSize Hts) as Hlow.
  pose proof (Z.mul_succ_div_gt tolerance tickSize Hts) as Hhigh.
  rewrite <- Hcount in Hlow, Hhigh.
  unfold tolerancePercentage in Hmax.
  unfold nearestLoops.
  rewrite checked_mul_ok by (unfold tolerancePercentage; lia).
  cbn [mbind outcome_bind]. fold tolerance.
  rewrite checked_add_ok by lia. cbn [mbind outcome_bind].
  rewrite checked_add_ok by lia. cbn [mbind outcome_bind].
  fold count.
  rewrite ladder_app.
  rewrite (ascend_ladder count); [| lia | lia | lia].
  destruct (ladder body (upFrom count (tickAmount + tickSize)) maxAmount st)
    as [[r st1] | |]; cbn [mbind outcome_bind]; [| done | done].
  destruct (Z.leb_spec tickSize tickAmount).
  - destruct (Z.ltb_spec tolerance tickAmount); [|lia].
    apply (descend_ladder count); lia.
  - assert (count = 0%nat) as -> by nia. done.
Qed.

End Ladder.

Lemma matchTick_breaks env orderId oppositeSide :
  breaksWhenFilled (matchTick env orderId oppositeSide).
Proof.
  intros tick remainingAmount s remaining' s'. unfold matchTick.
  destruct (0 <? length _)%nat; [|done].
  destruct (_matchAtLevel _ _ _ _ _) as [s1 | |]; cbn [mbind outcome_bind]; [| done | done].
  destruct (checked_sub _ _) as [r | |]; cbn [mbind outcome_bind]; [| done | done].
  intros [= <- Hbreak <-]. by apply Z.eqb_eq in Hbreak as ->.
Qed.

Lemma traced_breaks {St} (body : Z → Z → St → outcome (Z * bool * St)) keep :
  breaksWhenFilled body → breaksWhenFilled (traced body keep).
Proof.
  intros Hbody tick remainingAmount [st log] remaining' [st' log']. rewrite traced_eq.
  destruct (body tick remainingAmount st) as [[[r brk] st1] | |] eqn:Hrun;
    cbn [mbind outcome_bind]; [| done | done].
  intros [= <- -> <- _]. by eapply Hbody.
Qed.

(** On an order that lacks [remainingAmount], the ladder of the loop body of
    the contract is the pass of the specification. *)
Lemma ladder_specPass env orderId oppositeSide ticks : ∀ remainingAmount s log,
  remainingAmount = unfilled orderId s →
  ('(_, st) ← ladder (traced (matchTick env orderId oppositeSide)
                             (populated orderId oppositeSide))
                ticks remainingAmount (s, log);
   Ok st)
  = specPass env orderId oppositeSide ticks s log.
Proof.
  induction ticks as [| tick ticks IH]; intros remainingAmount s log ->;
    cbn [ladder specPass]; [done|].
  destruct (0 <? unfilled orderId s); [|done].
  rewrite traced_eq. unfold matchTick. fold (populated orderId oppositeSide tick s).
  destruct (populated orderId oppositeSide tick s).
  - destruct (_matchAtLevel _ _ _ _ _) as [s1 | |]; cbn [mbind outcome_bind]; [| done | done].
    destruct (checked_sub _ _) as [r | |] eqn:Hread; cbn [mbind outcome_bind]; [| done | done].
    apply IH. unfold checked_sub in Hread. by destruct (_ <=? _); inversion Hread.
  - cbn [mbind outcome_bind]. by apply IH.
Qed.

(** The tolerance pass of the contract, run on an order with what the order
    lacks, is the pass of the specification. *)
Lemma loggedNearestLevels_specNearestLevels env orderId oppositeSide s :
  0 ≤ Order.tickAmount (orders s).[orderId] →
  Order.tickAmount (orders s).[orderId] * tolerancePercentage + tickSize ≤ MAX_UINT256 →
  loggedNearestLevels env orderId oppositeSide (unfilled orderId s) s
  = specNearestLevels env orderId oppositeSide s.
Proof.
  intros Hpos Hmax. unfold loggedNearestLevels, specNearestLevels.
  rewrite nearestLoops_ladder;
    [| apply traced_breaks, matchTick_breaks | done | done].
  by apply ladder_specPass.
Qed.




(** ** The iteration budgets are enough *)

Lemma checked_add_inv a b :
  (checked_add a b = Ok (a + b) ∧ a + b ≤ MAX_UINT256) ∨
  checked_add a b = Revert arithmetic_panic.
Proof. unfold checked_add. destruct (Z.leb_spec (a + b) MAX_UINT256); auto. Qed.

Lemma checked_sub_inv a b :
  (checked_sub a b = Ok (a - b) ∧ b ≤ a) ∨ checked_sub a b = Revert arithmetic_panic.
Proof. unfold checked_sub. destruct (Z.leb_spec b a); auto. Qed.

Lemma checked_mul_inv a b :
  (checked_mul a b = Ok (a * b) ∧ a * b ≤ MAX_UINT256) ∨
  checked_mul a b = Revert arithmetic_panic.
Proof. unfold checked_mul. destruct (Z.leb_spec (a * b) MAX_UINT256); auto. Qed.

(** Runs the checked operation at the head of a call that is to be shown not to
    exhaust its budget. *)
Ltac step_checked :=
  match goal with
  | |- (checked_add ?a ?b ≫= _) ≠ _ =>
    destruct (checked_add_inv a b) as [[-> ?] | ->]; cbn [mbind outcome_bind]; [| done]
  | |- (checked_sub ?a ?b ≫= _) ≠ _ =>
    destruct (checked_sub_inv a b) as [[-> ?] | ->]; cbn [mbind outcome_bind]; [| done]
  | |- (checked_mul ?a ?b ≫= _) ≠ _ =>
    destruct (checked_mul_inv a b) as [[-> ?] | ->]; cbn [mbind outcome_bind]; [| done]
  end.

Lemma _indexPlayerGame_book player gameId s :
  orderbookLevels (_indexPlayerGame player gameId s) = orderbookLevels s ∧
  orders (_indexPlayerGame player gameId s) = orders s.
Proof. unfold _indexPlayerGame. by destruct (negb _). Qed.

Lemma _recordBet_cases env gameId player amount s :
  (∃ s', _recordBet env gameId player amount s = Ok s' ∧
         orderbookLevels s' = orderbookLevels s ∧ orders s' = orders s) ∨
  reverted (_recordBet env gameId player amount s).
Proof.
  unfold _recordBet, addToPool.
  destruct (checked_add_inv
              (BettingPool.totalAmount
                 (bettingPools (_indexPlayerGame player gameId
                    (pushBet gameId (newBet env gameId player amount) s))).[gameId]) amount)
    as [[-> _] | ->]; cbn [mbind outcome_bind]; [| right; by eexists].
  match goal with
  | |- context [checked_mul ?a ?b] =>
    destruct (checked_mul_inv a b) as [[-> _] | ->]; cbn [mbind outcome_bind];
      [| right; by eexists]
  end.
  left. eexists. split; [reflexivity|].
  cbn [orderbookLevels orders emit modifyPool set_bettingPools set_events].
  destruct (_indexPlayerGame_book player gameId
              (pushBet gameId (newBet env gameId player amount) s)) as [-> ->].
  done.
Qed.

(** A match creates a game and its bets; it leaves the book as it is. *)
Lemma _createMatch_cases env whiteOrderId blackOrderId amount s :
  (∃ s', _createMatch env whiteOrderId blackOrderId amount s = Ok s' ∧
         orderbookLevels s' = orderbookLevels s ∧ orders s' = orders s) ∨
  reverted (_createMatch env whiteOrderId blackOrderId amount s).
Proof.
  unfold _createMatch. rewrite require_bind.
  destruct (0 <? amount); [| right; by eexists].
  match goal with
  | |- context [_recordBet env ?g ?p amount ?s0 ≫= _] =>
    destruct (_recordBet_cases env g p amount s0) as [(s1 & -> & Hl1 & Ho1) | [r ->]];
      cbn [mbind outcome_bind]; [| right; by eexists]
  end.
  match goal with
  | |- context [_recordBet env ?g ?p amount s1 ≫= _] =>
    destruct (_recordBet_cases env g p amount s1) as [(s2 & -> & Hl2 & Ho2) | [r ->]];
      cbn [mbind outcome_bind]; [| right; by eexists]
  end.
  left. eexists. split; [reflexivity|].
  cbn in *. split; congruence.
Qed.

Lemma swapPop_head_length (ids : list bytes32) :
  (0 < length ids)%nat → length (swapPop 0 ids) = pred (length ids).
Proof.
  intros Hlen. unfold swapPop.
  destruct (last ids) as [tail |] eqn:Hlast.
  - rewrite removelast_firstn_len, length_take, length_insert. lia.
  - apply last_None in Hlast. subst. cbn in Hlen. lia.
Qed.

(** [matchLoop] never exhausts a budget that exceeds the length of the queue:
    a turn either evicts the head of the queue or uses up the remaining amount. *)
Lemma matchLoop_budget fuel : ∀ env orderId key remainingAmount s,
  (length (OrderbookLevel.orderIds (orderbookLevels s).[key]) < fuel)%nat ∨
  remainingAmount ≤ 0 →
  matchLoop fuel env orderId key remainingAmount s ≠ OutOfGas.
Proof.
  induction fuel as [| fuel IH]; intros env orderId key remainingAmount s Hfuel;
    cbn [matchLoop].
  - destruct (Z.ltb_spec 0 remainingAmount); [|done].
    destruct Hfuel; lia.
  - destruct (Z.ltb_spec 0 remainingAmount) as [Hrem |]; [|done].
    destruct (Nat.ltb_spec 0 (length (OrderbookLevel.orderIds (orderbookLevels s).[key])))
      as [Hqueue |]; [|done].
    destruct Hfuel as [Hfuel |]; [|lia].
    cbn [andb].
    set (oppositeOrderId :=
           default [] (head (OrderbookLevel.orderIds (orderbookLevels s).[key]))).
    step_checked.
    set (oppositeRemaining :=
           Order.amount (orders s).[oppositeOrderId]
           - Order.filledAmount (orders s).[oppositeOrderId]) in *.
    destruct (Z.ltb_spec remainingAmount oppositeRemaining) as [Hless | Hmore].
    + (* the order is used up *)
      destruct (Z.eqb_spec remainingAmount 0); [lia|].
      destruct (_createMatch_cases env orderId oppositeOrderId remainingAmount s)
        as [(s1 & -> & _ & _) | [r ->]]; cbn [mbind outcome_bind]; [| done].
      do 2 step_checked.
      rewrite (checked_sub_ok remainingAmount remainingAmount) by lia.
      cbn [mbind outcome_bind].
      step_checked.
      apply IH. right. lia.
    + destruct (Z.eqb_spec oppositeRemaining 0) as [Hzero |].
      * (* the filled head is evicted *)
        apply IH. left.
        cbn. rewrite sload_insert_eq. cbn.
        rewrite swapPop_head_length by done. lia.
      * (* the head is filled, and evicted *)
        destruct (_createMatch_cases env orderId oppositeOrderId oppositeRemaining s)
          as [(s1 & -> & Hlevels & Horders) | [r ->]]; cbn [mbind outcome_bind]; [| done].
        step_checked.
        match goal with
        | |- (checked_add ?a ?b ≫= _) ≠ _ =>
          assert (Order.filledAmount (orders s).[oppositeOrderId] ≤ a) as Hfilled
        end.
        { cbn. rewrite sload_insert, Horders.
          destruct (decide (orderId = oppositeOrderId)) as [Heq |]; cbn;
            unfold oppositeRemaining in *; rewrite ?Heq in *; lia. }
        do 3 step_checked.
        match goal with
        | |- context [Order.amount ?o <=? Order.filledAmount ?o] =>
          replace (Order.amount o <=? Order.filledAmount o) with true
        end.
        2:{ symmetry. apply Z.leb_le. cbn. rewrite !sload_insert_eq. cbn.
            rewrite sload_insert, Horders.
            destruct (decide (orderId = oppositeOrderId)) as [Heq |]; cbn;
              unfold oppositeRemaining in *; rewrite ?Heq in *; lia. }
        apply IH. left. cbn. rewrite !sload_insert_eq. cbn.
        rewrite Hlevels, swapPop_head_length by done. lia.
Qed.

(** [_matchAtLevel] reverts or returns. *)
Lemma _matchAtLevel_budget env orderId key maxAmount s :
  _matchAtLevel env orderId key maxAmount s ≠ OutOfGas.
Proof.
  unfold _matchAtLevel. step_checked.
  destruct (matchLoop _ _ _ _ _ _) eqn:Hloop; cbn [mbind outcome_bind]; [| done |].
  - by repeat case_match.
  - by apply matchLoop_budget in Hloop; [| left; lia].
Qed.

Lemma matchTick_budget env orderId oppositeSide tick remainingAmount s :
  matchTick env orderId oppositeSide tick remainingAmount s ≠ OutOfGas.
Proof.
  unfold matchTick. destruct (0 <? _)%nat; [|done].
  destruct (_matchAtLevel _ _ _ _ _) eqn:Hlevel; cbn [mbind outcome_bind]; [| done |].
  - by step_checked.
  - by apply _matchAtLevel_budget in Hlevel.
Qed.

Section Budget.
Context {St : Type} (body : Z → Z → St → outcome (Z * bool * St)).
Hypothesis body_budget : ∀ tick remainingAmount st, body tick remainingAmount st ≠ OutOfGas.

Lemma ascend_budget fuel : ∀ maxTick tick remainingAmount st,
  maxTick < tick + Z.of_nat fuel * tickSize →
  ascend body fuel maxTick tick remainingAmount st ≠ OutOfGas.
Proof.
  pose proof tickSize_pos as Hts.
  induction fuel as [| fuel IH]; intros maxTick tick remainingAmount st Hfuel; cbn [ascend].
  - destruct (Z.leb_spec tick maxTick); [lia | done].
  - destruct ((tick <=? maxTick) && (0 <? remainingAmount)); [|done].
    destruct (body tick remainingAmount st) as [[[r brk] st1] | |] eqn:Hbody;
      cbn [mbind outcome_bind]; [| done | by apply body_budget in Hbody].
    destruct brk; [done|].
    step_checked. apply IH. lia.
Qed.

Lemma descend_budget fuel : ∀ minTick tick remainingAmount st,
  tick - Z.of_nat fuel * tickSize < minTick →
  descend body fuel minTick tick remainingAmount st ≠ OutOfGas.
Proof.
  pose proof tickSize_pos as Hts.
  induction fuel as [| fuel IH]; intros minTick tick remainingAmount st Hfuel; cbn [descend].
  - destruct (Z.leb_spec minTick tick); [lia | done].
  - destruct ((minTick <=? tick) && (0 <? remainingAmount)); [|done].
    destruct (body tick remainingAmount st) as [[[r brk] st1] | |] eqn:Hbody;
      cbn [mbind outcome_bind]; [| done | by apply body_budget in Hbody].
    destruct brk; [done|].
    destruct (tick <? tickSize); [done|].
    apply IH. lia.
Qed.

Lemma nearestLoops_budget tickAmount maxAmount st :
  nearestLoops body tickAmount maxAmount st ≠ OutOfGas.
Proof.
  pose proof tickSize_pos as Hts. unfold nearestLoops.
  step_checked.
  set (tolerance := tickAmount * tolerancePercentage / 100).
  assert (tolerance < (Z.of_nat (Z.to_nat (tolerance / tickSize)) + 1) * tickSize) as Hfuel.
  { destruct (Z.le_gt_cases 0 tolerance).
    - rewrite Z2Nat.id by (apply Z.div_pos; lia).
      pose proof (Z.mul_succ_div_gt tolerance tickSize Hts). lia.
    - nia. }
  do 2 step_checked.
  destruct (ascend _ _ _ _ _ _) as [[r st1] | |] eqn:Hup; cbn [mbind outcome_bind];
    [| done | by apply ascend_budget in Hup; [| lia]].
  destruct (Z.leb_spec tickSize tickAmount) as [Hroom |]; [|done].
  apply descend_budget.
  assert (0 ≤ tolerance) by (apply Z.div_pos; unfold tolerancePercentage; lia).
  destruct (Z.ltb_spec tolerance tickAmount); lia.
Qed.

End Budget.

(** The matching of an order and the placing of an order revert or return: none
    of their loops is cut short by its budget. *)
Lemma _attemptMatch_budget env orderId s : _attemptMatch env orderId s ≠ OutOfGas.
Proof.
  unfold _attemptMatch. destruct (negb _); [done|].
  match goal with
  | |- (?exact ≫= _) ≠ _ =>
    assert (exact ≠ OutOfGas) as Hexact;
      [| destruct exact as [s2 | |]; cbn [mbind outcome_bind]; [| done | done]]
  end.
  { destruct (0 <? _); [|done]. step_checked. apply _matchAtLevel_budget. }
  destruct (_ || _); [|done].
  step_checked.
  destruct (0 <? _); [|done].
  unfold _matchNearestLevels. apply nearestLoops_budget, matchTick_budget.
Qed.

Lemma enqueueOrder_budget env side timeControl amount s :
  enqueueOrder env side timeControl amount s ≠ OutOfGas.
Proof.
  unfold enqueueOrder, whenNotPaused, tokenCall. repeat step_require. by step_checked.
Qed.

Lemma placeOrder_budget env side timeControl amount s :
  placeOrder env side timeControl amount s ≠ OutOfGas.
Proof.
  unfold placeOrder.
  pose proof (enqueueOrder_budget env side timeControl amount s).
  destruct (enqueueOrder env side timeControl amount s) as [[orderId s1] | |];
    cbn [mbind outcome_bind]; [| done | done].
  pose proof (_attemptMatch_budget env orderId s1).
  by destruct (_attemptMatch env orderId s1).
Qed.

(** * Further properties of the contract *)

(** ** Quantization *)

Lemma tickSize_value : tickSize = 10000000.
Proof. reflexivity. Qed.

(** X1.  [quantizeAmount] rounds an amount down to a whole number of ticks: the
    result is a multiple of the tick, not more than the amount and less than one
    tick below it; quantizing is idempotent, changes nothing exactly on the
    multiples of the tick, and gives zero exactly on the amounts below one tick. *)
Theorem X1_quantizeAmount_rounds_down amount :
  0 ≤ amount →
  let quantized := quantizeAmount amount in
  (∃ n, 0 ≤ n ∧ quantized = n * tickSize) ∧
  quantized ≤ amount < quantized + tickSize ∧
  quantizeAmount quantized = quantized ∧
  (quantized = amount ↔ (tickSize | amount)) ∧
  (quantized = 0 ↔ amount < tickSize).
Proof.
  intros Hamount quantized. unfold quantized, quantizeAmount, _quantizeAmount.
  rewrite tickSize_value.
  pose proof (Z.div_mod amount 10000000 ltac:(lia)) as Hdiv.
  pose proof (Z.mod_pos_bound amount 10000000 ltac:(lia)) as Hmod.
  assert (0 ≤ amount / 10000000) as Hquot by (apply Z.div_pos; lia).
  split; [by exists (amount / 10000000)|].
  split; [lia|].
  split; [by rewrite Z.div_mul by lia|].
  split; [|lia].
  split.
  - intros Heq. exists (amount / 10000000). lia.
  - intros [n ->]. by rewrite Z.div_mul by lia.
Qed.

(** An amount of 25 USDC is quantized to 20 USDC. *)
Lemma X1_quantizeAmount_rounds_down_witness :
  quantizeAmount 25000000 ≤ 25000000 < quantizeAmount 25000000 + tickSize ∧
  quantizeAmount (quantizeAmount 25000000) = quantizeAmount 25000000.
Proof.
  destruct (X1_quantizeAmount_rounds_down 25000000) as (_ & Hbounds & Hidem & _); [lia|].
  split; [exact Hbounds | exact Hidem].
Defined.

(** ** What a resolution reads *)

(** A transformation of the storage that leaves alone what [_resolveBets] reads
    and writes (the games, the pools, the bets, the pending balances, the fee
    accumulator and the event log) commutes with [_resolveBets]. *)
Section Frame.
Variable F : Storage → Storage.
Hypothesis F_games : ∀ s, games (F s) = games s.
Hypothesis F_pools : ∀ s, bettingPools (F s) = bettingPools s.
Hypothesis F_bets : ∀ s, gameBets (F s) = gameBets s.
Hypothesis F_pending : ∀ s, pendingPayouts (F s) = pendingPayouts s.
Hypothesis F_fees : ∀ s, tokenFeeBalance (F s) = tokenFeeBalance s.
Hypothesis F_events : ∀ s, events (F s) = events s.
Hypothesis F_set_pools : ∀ v s, F (set_bettingPools v s) = set_bettingPools v (F s).
Hypothesis F_set_bets : ∀ v s, F (set_gameBets v s) = set_gameBets v (F s).
Hypothesis F_set_pending : ∀ v s, F (set_pendingPayouts v s) = set_pendingPayouts v (F s).
Hypothesis F_set_fees : ∀ v s, F (set_tokenFeeBalance v s) = set_tokenFeeBalance v (F s).
Hypothesis F_set_events : ∀ v s, F (set_events v s) = set_events v (F s).

Lemma frame_modifyBet gameId i f s : modifyBet gameId i f (F s) = F (modifyBet gameId i f s).
Proof. unfold modifyBet. by rewrite F_bets, F_set_bets. Qed.

Lemma frame_modifyPool gameId f s : modifyPool gameId f (F s) = F (modifyPool gameId f s).
Proof. unfold modifyPool. by rewrite F_pools, F_set_pools. Qed.

Lemma frame_emit e s : emit e (F s) = F (emit e s).
Proof. unfold emit. by rewrite F_events, F_set_events. Qed.

Lemma frame_creditPayout player amount s :
  creditPayout player amount (F s) = (s' ← creditPayout player amount s; Ok (F s')).
Proof.
  unfold creditPayout. rewrite F_pending.
  destruct (checked_add _ _); cbn [mbind outcome_bind]; [| done | done].
  by rewrite F_set_pending.
Qed.

Lemma frame_creditFee amount s :
  _creditFee amount (F s) = (s' ← _creditFee amount s; Ok (F s')).
Proof.
  unfold _creditFee. rewrite F_fees.
  destruct (checked_add _ _); cbn [mbind outcome_bind]; [| done | done].
  by rewrite F_set_fees.
Qed.

Lemma frame_refundLoop env gameId n : ∀ i s,
  refundLoop n i env gameId (F s) = (s' ← refundLoop n i env gameId s; Ok (F s')).
Proof.
  induction n as [| n IH]; intros i s; cbn [refundLoop]; [done|].
  rewrite F_bets. destruct (_ !! i) as [bet |]; [|done].
  rewrite frame_modifyBet, frame_creditPayout.
  destruct (creditPayout _ _ _) as [s1 | |]; cbn [mbind outcome_bind]; [| done | done].
  by rewrite frame_emit, IH.
Qed.

Lemma frame_payoutLoop env gameId winner netPool n : ∀ i s,
  payoutLoop n i env gameId winner netPool (F s) =
  (s' ← payoutLoop n i env gameId winner netPool s; Ok (F s')).
Proof.
  induction n as [| n IH]; intros i s; cbn [payoutLoop]; [done|].
  rewrite F_bets. destruct (_ !! i) as [bet |]; [|done].
  destruct (_ =? winner).
  - rewrite frame_modifyBet, frame_creditPayout.
    destruct (creditPayout _ _ _) as [s1 | |]; cbn [mbind outcome_bind]; [| done | done].
    by rewrite frame_emit, IH.
  - by rewrite frame_modifyBet, frame_emit, IH.
Qed.

Lemma frame_unwindLoop env gameId n : ∀ i s,
  unwindLoop n i env gameId (F s) = (s' ← unwindLoop n i env gameId s; Ok (F s')).
Proof.
  induction n as [| n IH]; intros i s; cbn [unwindLoop]; [done|].
  rewrite F_bets. destruct (_ !! i) as [bet |]; [|done].
  destruct (_ =? 0); [|apply IH].
  rewrite frame_modifyBet, frame_creditPayout.
  destruct (creditPayout _ _ _) as [s1 | |]; cbn [mbind outcome_bind]; [| done | done].
  by rewrite frame_emit, IH.
Qed.

Lemma frame_resolveBets env gameId result s :
  _resolveBets env gameId result (F s) = (s' ← _resolveBets env gameId result s; Ok (F s')).
Proof.
  unfold _resolveBets. rewrite F_pools, !require_bind.
  destruct (negb _); [|done].
  rewrite frame_modifyPool, F_bets.
  destruct (_ =? 2)%nat; [|done].
  destruct (result =? RESULT_DRAW).
  - rewrite frame_refundLoop.
    destruct (refundLoop _ _ _ _ _) as [s1 | |]; cbn [mbind outcome_bind]; [| done | done].
    by rewrite frame_modifyPool, frame_emit.
  - rewrite F_games, frame_modifyPool, frame_emit, F_pools, frame_creditFee.
    destruct (_creditFee _ _) as [s1 | |]; cbn [mbind outcome_bind]; [| done | done].
    destruct (checked_sub _ _); cbn [mbind outcome_bind]; [| done | done].
    apply frame_payoutLoop.
Qed.

End Frame.

(** X2.  A resolution pays by the fee that was written into the pool when the
    stakes were placed; it never reads the current rate.  Changing the rate
    between the stakes and the resolution changes neither the outcome of the
    resolution nor anything it writes, and [setHouseFeePercentage] itself leaves
    every pool, and so the fee of every game already staked, as it was. *)
Theorem X2_resolution_never_reads_the_current_rate env gameId result rate s :
  _resolveBets env gameId result (set_houseFeePercentage rate s) =
    (s' ← _resolveBets env gameId result s; Ok (set_houseFeePercentage rate s')) ∧
  (∀ caller s1, setHouseFeePercentage caller rate s = Ok s1 →
     s1 = emit (HouseFeePercentageUpdated rate) (set_houseFeePercentage rate s) ∧
     bettingPools s1 = bettingPools s).
Proof.
  split; [by apply frame_resolveBets|].
  intros caller s1. unfold setHouseFeePercentage, onlyOwner. repeat step_require.
  by intros [= <-].
Qed.

(** ** Betting tiers *)

(** X3.  [setBettingTierAmounts] returns exactly when the caller is the owner and
    the tick is not more than the low amount, which is less than the medium
    amount; it then stores the two amounts, which become the only valid stakes
    of the low and of the medium tier.  Its last requirement follows from the
    others and never fails.  The amounts that the contract is deployed with
    (5 and 50 USDC, with a tick of 10 USDC) do not pass: the owner cannot set
    them again. *)
Theorem X3_setBettingTierAmounts_accepts env low medium s :
  (msg_sender env = owner s ∧ tickSize ≤ low ∧ low < medium ↔
   ∃ s', setBettingTierAmounts env low medium s = Ok s') ∧
  (∀ s', setBettingTierAmounts env low medium s = Ok s' →
     getBettingTierAmounts s' = (low, medium) ∧
     (∀ amount, isValidBetAmountForTier 0 amount s' = true ↔ amount = low) ∧
     (∀ amount, isValidBetAmountForTier 1 amount s' = true ↔ amount = medium) ∧
     (∀ amount, isValidBetAmountForTier 2 amount s' = true ↔ USDC_UNIT ≤ amount)) ∧
  setBettingTierAmounts env low medium s ≠ Revert "Medium tier must be at least tick size" ∧
  (msg_sender env = owner s →
   ∀ deployer,
     setBettingTierAmounts env (lowTierAmount (deployed deployer))
       (mediumTierAmount (deployed deployer)) s
     = Revert "Low tier must be at least tick size").
Proof.
  pose proof tickSize_value as Htick.
  assert (Hdefaults : ∀ deployer,
    lowTierAmount (deployed deployer) = 5000000 ∧
    mediumTierAmount (deployed deployer) = 50000000) by done.
  unfold setBettingTierAmounts, onlyOwner. rewrite !require_bind.
  split; [|split; [|split]].
  - destruct (Z.eqb_spec (msg_sender env) (owner s)); [| split; [tauto | by intros [s' ?]]].
    destruct (Z.ltb_spec 0 low); [| split; [lia | by intros [s' ?]]].
    destruct (Z.ltb_spec low medium); [| split; [lia | by intros [s' ?]]].
    destruct (Z.leb_spec tickSize low); [| split; [lia | by intros [s' ?]]].
    destruct (Z.leb_spec tickSize medium); [| lia].
    split; [by eexists | done].
  - intros s'. repeat case_match; try done. intros [= <-].
    unfold isValidBetAmountForTier, _isValidBetAmount, getBettingTierAmounts. cbn.
    split; [done|]. split; [|split]; intros amount.
    + apply Z.eqb_eq.
    + apply Z.eqb_eq.
    + rewrite Z.leb_le. unfold USDC_UNIT. lia.
  - destruct (Z.eqb_spec (msg_sender env) (owner s)); [|done].
    destruct (Z.ltb_spec 0 low); [|done].
    destruct (Z.ltb_spec low medium); [|done].
    destruct (Z.leb_spec tickSize low); [|done].
    destruct (Z.leb_spec tickSize medium); [done | lia].
  - intros -> deployer. destruct (Hdefaults deployer) as [-> ->].
    by rewrite Z.eqb_refl.
Qed.

(** ** Fees of the house *)

(** X4.  [withdrawTokenFees] is for the owner alone and needs a positive
    accumulator.  It zeroes the accumulator before the external transfer (the
    call behaves the same with a token that refuses any payout requested while
    the accumulator is not yet zero), sends the whole accumulated amount to the
    owner and changes nothing else, not even the event log.  When the call
    reverts, the accumulator is left as it was. *)
Theorem X4_withdrawTokenFees_pays_the_owner env s :
  let amount := tokenFeeBalance s in
  let zeroed := set_tokenFeeBalance 0 s in
  (msg_sender env ≠ owner s →
     withdrawTokenFees env s = Revert "OwnableUnauthorizedAccount") ∧
  (msg_sender env = owner s → amount ≤ 0 →
     withdrawTokenFees env s = Revert "No token fees to withdraw") ∧
  (msg_sender env = owner s → 0 < amount →
     withdrawTokenFees env s =
       if token_ok env zeroed (SafeTransfer (owner s) amount)
       then Ok zeroed else Revert "SafeERC20FailedOperation") ∧
  withdrawTokenFees env s = withdrawTokenFees (feesZeroed env) s ∧
  (reverted (withdrawTokenFees env s) →
     tokenFeeBalance (commit (withdrawTokenFees env) s) = amount).
Proof.
  intros amount zeroed.
  assert (Hbody : ∀ env', msg_sender env' = msg_sender env →
    withdrawTokenFees env' s =
    if msg_sender env =? owner s then
      if 0 <? amount then
        if token_ok env' zeroed (SafeTransfer (owner s) amount)
        then Ok zeroed else Revert "SafeERC20FailedOperation"
      else Revert "No token fees to withdraw"
    else Revert "OwnableUnauthorizedAccount").
  { intros env' Hsender. unfold withdrawTokenFees, onlyOwner, tokenCall.
    rewrite Hsender, !require_bind. fold amount zeroed. reflexivity. }
  split; [|split; [|split; [|split]]].
  - intros Hother. rewrite Hbody by done.
    by destruct (Z.eqb_spec (msg_sender env) (owner s)).
  - intros Hown Hzero. rewrite Hbody by done.
    rewrite Hown, Z.eqb_refl. by destruct (Z.ltb_spec 0 amount); [lia|].
  - intros Hown Hpos. rewrite Hbody by done.
    rewrite Hown, Z.eqb_refl. by destruct (Z.ltb_spec 0 amount); [|lia].
  - rewrite !Hbody by done. cbn [feesZeroed token_ok].
    change (tokenFeeBalance zeroed) with 0. reflexivity.
  - intros Hrev. by rewrite commit_reverted.
Qed.

(** ** Pausing *)

Lemma whenNotPaused_paused s : _paused s = true → whenNotPaused s = Revert "EnforcedPause".
Proof. unfold whenNotPaused. by intros ->. Qed.

(** X5.  While the contract is paused, [createGame], [placeBet] and [placeOrder]
    revert, whatever their arguments.  The pause flag is read nowhere else:
    claiming a payout, cancelling an order, starting a game, making a move and
    voting on a result go through as they would on the contract not paused,
    provided the token itself does not look at the flag. *)
Theorem X5_pause_closes_entries_and_leaves_exits_open env s b :
  tokenIgnoresPause env →
  (_paused s = true →
     (∀ blackPlayer timeControl bettingTier,
        createGame env blackPlayer timeControl bettingTier s = Revert "EnforcedPause") ∧
     (∀ side timeControl amount,
        placeOrder env side timeControl amount s = Revert "EnforcedPause") ∧
     (∀ gameId amount, reverted (placeBet env gameId amount s))) ∧
  claimPayout env (set_paused b s) = (s' ← claimPayout env s; Ok (set_paused b s')) ∧
  (∀ orderId,
     cancelOrder env orderId (set_paused b s) =
     (s' ← cancelOrder env orderId s; Ok (set_paused b s'))) ∧
  (∀ gameId,
     startGame env gameId (set_paused b s) =
     (s' ← startGame env gameId s; Ok (set_paused b s'))) ∧
  (∀ gameId move,
     makeMove env gameId move (set_paused b s) =
     (s' ← makeMove env gameId move s; Ok (set_paused b s'))) ∧
  (∀ gameId result,
     submitGameResult env gameId result (set_paused b s) =
     (s' ← submitGameResult env gameId result s; Ok (set_paused b s'))).
Proof.
  intros Htoken. split; [|split; [|split; [|split; [|split]]]].
  - intros Hpaused. split; [|split].
    + intros. unfold createGame. by rewrite whenNotPaused_paused.
    + intros. unfold placeOrder, enqueueOrder. by rewrite whenNotPaused_paused.
    + intros. unfold placeBet, gameExists, gameNotFinished.
      do 2 step_require. rewrite whenNotPaused_paused by done. by eexists.
  - unfold claimPayout, tokenCall. cbn [pendingPayouts set_paused].
    rewrite !require_bind. destruct (0 <? _); [|done].
    change (set_pendingPayouts ?v (set_paused b s)) with (set_paused b (set_pendingPayouts v s)).
    rewrite Htoken. by destruct (token_ok _ _ _).
  - intros orderId. unfold cancelOrder, tokenCall. cbn [orders set_paused].
    rewrite !require_bind. destruct (_ =? msg_sender env); [|done].
    destruct (_ || _); [|done].
    change (modifyOrder orderId (Order.set_status 3) (set_paused b s))
      with (set_paused b (modifyOrder orderId (Order.set_status 3) s)).
    set (s1 := modifyOrder orderId (Order.set_status 3) s).
    cbn [orders orderbookLevels set_paused].
    set (key := (Order.timeControl (orders s1).[orderId], Order.side (orders s1).[orderId],
                 Order.tickAmount (orders s1).[orderId])).
    destruct (indexOf orderId _ 0) as [i |].
    + change (modifyLevel key ?f (set_paused b s1)) with (set_paused b (modifyLevel key f s1)).
      set (s2 := modifyLevel key _ s1).
      destruct (checked_sub _ _) as [unfilled | |]; cbn [mbind outcome_bind]; [| done | done].
      cbn [orderbookLevels set_paused].
      destruct (checked_sub _ _) as [total | |]; cbn [mbind outcome_bind]; [| done | done].
      change (modifyLevel key ?f (set_paused b s2)) with (set_paused b (modifyLevel key f s2)).
      destruct (0 <? unfilled); [|done].
      rewrite !require_bind, Htoken. by destruct (token_ok _ _ _).
    + destruct (checked_sub _ _) as [unfilled | |]; cbn [mbind outcome_bind]; [| done | done].
      cbn [orderbookLevels set_paused].
      destruct (checked_sub _ _) as [total | |]; cbn [mbind outcome_bind]; [| done | done].
      change (modifyLevel key ?f (set_paused b s1)) with (set_paused b (modifyLevel key f s1)).
      destruct (0 <? unfilled); [|done].
      rewrite !require_bind, Htoken. by destruct (token_ok _ _ _).
  - intros gameId. unfold startGame, gameExists, onlyGamePlayer. cbn [games set_paused].
    rewrite !require_bind. by repeat case_match.
  - intros gameId move. unfold makeMove, gameExists, onlyGamePlayer. cbn [games set_paused].
    rewrite !require_bind. by repeat case_match.
  - intros gameId result. unfold submitGameResult, gameExists, onlyGamePlayer.
    cbn [games resultResolved set_paused].
    rewrite !require_bind.
    do 5 (match goal with |- context [if ?c then _ else Revert _] => destruct c end; [|done]).
    cbn [resultSubmitted resultValue set_resultSubmitted set_resultValue set_paused].
    destruct (_ && _); [|done].
    match goal with
    | |- _resolveBets env gameId result (finishGame env gameId result
           (set_resultValue ?v (set_resultSubmitted ?w (set_paused b s)))) ≫= _ = _ =>
      change (finishGame env gameId result (set_resultValue v (set_resultSubmitted w (set_paused b s))))
        with (set_paused b (finishGame env gameId result
                              (set_resultValue v (set_resultSubmitted w s))))
    end.
    rewrite (frame_resolveBets (set_paused b)) by done.
    by destruct (_resolveBets _ _ _ _).
Qed.

(** After the white win Alice has 9.5 USDC pending; she can claim them while the
    contract is paused. *)
Lemma X5_pause_closes_entries_and_leaves_exits_open_witness :
  tokenIgnoresPause (Scenario.sentBy Scenario.alice) ∧
  (∀ timeControl bettingTier,
     createGame (Scenario.sentBy Scenario.alice) Scenario.bob timeControl bettingTier
       (set_paused true Scenario.whiteWon) = Revert "EnforcedPause") ∧
  ∃ s', claimPayout (Scenario.sentBy Scenario.alice) (set_paused true Scenario.whiteWon)
          = Ok s' ∧
        (pendingPayouts s').[Scenario.alice] = 0.
Proof.
  assert (tokenIgnoresPause (Scenario.sentBy Scenario.alice)) as Htoken by done.
  destruct (X5_pause_closes_entries_and_leaves_exits_open
              (Scenario.sentBy Scenario.alice) (set_paused true Scenario.whiteWon) true Htoken)
    as (Hclosed & _).
  destruct (X5_pause_closes_entries_and_leaves_exits_open
              (Scenario.sentBy Scenario.alice) Scenario.whiteWon true Htoken)
    as (_ & Hclaim & _).
  split; [exact Htoken|]. split.
  - intros timeControl bettingTier. by apply Hclosed.
  - rewrite Hclaim. eexists. split; [vm_compute; reflexivity | evaluate].
Defined.

(** ** The bets of a player *)

Lemma countBets_filter player gb : ∀ count,
  countBets player gb count = Nat.add count (length (List.filter (ownedBy player) gb)).
Proof.
  unfold ownedBy.
  induction gb as [| bet gb IH]; intros count; cbn [countBets List.filter]; [cbn; lia|].
  rewrite IH. destruct (_ =? player); cbn [length]; lia.
Qed.

Lemma countGames_indexed player s index : ∀ count,
  countGames player index s count =
  Nat.add count (length (concat (map (λ gameId,
       List.filter (ownedBy player) (getGameBets gameId s)) index))).
Proof.
  unfold getGameBets.
  induction index as [| gameId index IH]; intros count; cbn [countGames map concat]; [cbn; lia|].
  rewrite IH, countBets_filter, length_app. lia.
Qed.

(** The second pass, started on an array whose first cells are filled and that
    has room left for the bets of the player, fills the next cells. *)
Lemma copyBets_fills player gb : ∀ (filled : list GameBet.t) (room : nat),
  (length (List.filter (ownedBy player) gb) ≤ room)%nat →
  copyBets player gb (filled ++ replicate room GameBet.zero) (length filled) =
  Ok ((filled ++ List.filter (ownedBy player) gb)
        ++ replicate (room - length (List.filter (ownedBy player) gb)) GameBet.zero,
      length (filled ++ List.filter (ownedBy player) gb)).
Proof.
  unfold ownedBy.
  induction gb as [| bet gb IH]; intros filled room Hroom;
    cbn [copyBets List.filter] in *.
  - cbn. by rewrite app_nil_r, Nat.sub_0_r.
  - destruct (_ =? player); cbn [length] in *.
    + destruct room as [| room]; [lia|].
      rewrite length_app, length_replicate.
      destruct (Nat.ltb_spec (length filled) (length filled + S room)); [|lia].
      cbn [replicate].
      replace (<[length filled := bet]> (filled ++ GameBet.zero :: replicate room GameBet.zero))
        with ((filled ++ [bet]) ++ replicate room GameBet.zero).
      2:{ rewrite insert_app_r_alt by lia. rewrite Nat.sub_diag. cbn.
          by rewrite <- app_assoc. }
      replace (S (length filled)) with (length (filled ++ [bet]))
        by (rewrite length_app; cbn; lia).
      rewrite IH by lia. by rewrite <- !app_assoc.
    + by apply IH.
Qed.

Lemma copyGames_fills player s index : ∀ (filled : list GameBet.t) (room : nat),
  (length (concat (map (λ gameId, List.filter (ownedBy player) (getGameBets gameId s)) index))
     ≤ room)%nat →
  copyGames player index s (filled ++ replicate room GameBet.zero) (length filled) =
  Ok ((filled
         ++ concat (map (λ gameId, List.filter (ownedBy player) (getGameBets gameId s)) index))
        ++ replicate
             (room - length (concat (map (λ gameId,
                 List.filter (ownedBy player) (getGameBets gameId s)) index)))
             GameBet.zero,
      length (filled
         ++ concat (map (λ gameId, List.filter (ownedBy player) (getGameBets gameId s)) index))).
Proof.
  unfold getGameBets.
  induction index as [| gameId index IH]; intros filled room Hroom;
    cbn [copyGames map concat] in *.
  - cbn. by rewrite app_nil_r, Nat.sub_0_r.
  - rewrite length_app in Hroom.
    set (here := List.filter (ownedBy player) (gameBets s).[gameId]) in *.
    set (later := concat (map _ index)) in *.
    rewrite (copyBets_fills player _ filled room) by (fold here; lia).
    fold here. cbn [mbind outcome_bind].
    rewrite (IH (filled ++ here) (room - length here)%nat) by (fold later; lia).
    fold later. rewrite <- !app_assoc, !length_app.
    by replace (room - length here - length later)%nat
         with (room - (length here + length later))%nat by lia;
       rewrite Nat.add_assoc.
Qed.

(** X6.  [getPlayerBets] returns, game by game in the order of the index of the
    player, the bets of these games that the player owns.  Its two passes agree:
    the array that the first pass sizes is filled exactly by the second, which
    never writes past its end and leaves no cell empty. *)
Theorem X6_getPlayerBets_collects_the_indexed_bets player s :
  getPlayerBets player s = Ok (indexedBets player s).
Proof.
  unfold getPlayerBets, indexedBets. rewrite countGames_indexed. cbn [Nat.add].
  pose proof (copyGames_fills player s (playerGameIndex s).[player] []) as Hfill.
  cbn [app length] in Hfill.
  rewrite Hfill by lia. cbn [mbind outcome_bind].
  by rewrite Nat.sub_diag, app_nil_r.
Qed.

(** ** The move log *)

Lemma concat_moves_nonempty (moves : list string) :
  moves ≠ [] → Forall (λ move, (0 < String.length move)%nat) moves →
  (0 < String.length (String.concat " " moves))%nat.
Proof.
  destruct moves as [| move rest]; [done|]. intros _ Hall.
  apply Forall_cons in Hall as [Hmove _].
  destruct move as [| c move]; [cbn in Hmove; lia|].
  destruct rest as [| second rest]; [cbn; lia|].
  change (String.concat " " (String c move :: second :: rest))
    with (String c (String.append move
            (String.append " " (String.concat " " (second :: rest))))).
  cbn [String.length]. lia.
Qed.

Lemma string_app_assoc (a b c : string) :
  String.append (String.append a b) c = String.append a (String.append b c).
Proof.
  induction a as [| ch a IH]; [done|].
  change (String ch (String.append (String.append a b) c)
          = String ch (String.append a (String.append b c))).
  by f_equal.
Qed.

Lemma concat_moves_snoc (moves : list string) (move : string) :
  moves ≠ [] →
  String.concat " " (moves ++ [move]) =
  String.append (String.concat " " moves) (String.append " " move).
Proof.
  induction moves as [| first rest IH]; [done|]. intros _.
  destruct rest as [| second rest]; [done|].
  change (String.concat " " ((first :: second :: rest) ++ [move]))
    with (String.append first
            (String.append " " (String.concat " " ((second :: rest) ++ [move])))).
  rewrite IH by done.
  change (String.concat " " (first :: second :: rest))
    with (String.append first (String.append " " (String.concat " " (second :: rest)))).
  by rewrite !string_app_assoc.
Qed.

(** What one accepted move does to the game. *)
Lemma makeMove_logs env gameId move s (done : list string) :
  let game := (games s).[gameId] in
  Game.id game ≠ [] →
  Game.status game = 1 →
  validMove game (env, move) →
  Forall (λ move, (0 < String.length move)%nat) done →
  Game.pgn game = String.concat " " done →
  Game.moveCount game = Z.of_nat (length done) →
  ∃ s', makeMove env gameId move s = Ok s' ∧
    events s' = events s ++ [MoveMade gameId move] ∧
    (games s').[gameId] =
      (if (length done <? 200)%nat
       then Game.set_moveCount (Z.of_nat (length (done ++ [move])))
              (Game.set_pgn (String.concat " " (done ++ [move])) game)
       else game).
Proof.
  intros game Hid Hactive (Hplayer & Hfull & Hshort) Hdone Hpgn Hcount.
  unfold makeMove, gameExists, onlyGamePlayer, bytes32_eqb.
  rewrite bool_decide_eq_false_2 by done. cbn [negb require mbind outcome_bind].
  fold game.
  replace ((msg_sender env =? Game.whitePlayer game) || (msg_sender env =? Game.blackPlayer game))
    with true
    by (symmetry; apply orb_true_iff; cbn in Hplayer; destruct Hplayer as [-> | ->];
        rewrite Z.eqb_refl; auto).
  cbn [require mbind outcome_bind]. rewrite Hactive.
  cbn [Z.eqb Pos.eqb require mbind outcome_bind].
  cbn [snd] in Hshort, Hfull.
  destruct (Z.leb_spec (Z.of_nat (String.length move)) MAX_MOVE_BYTES); [|lia].
  cbn [require mbind outcome_bind].
  change (games (emit (MoveMade gameId move) s)) with (games s).
  rewrite Hcount. unfold MAX_MOVES.
  destruct (Nat.ltb_spec (length done) 200) as [Hroom | Hfullog].
  - destruct (Z.ltb_spec (Z.of_nat (length done)) 200); [|lia].
    eexists. split; [reflexivity|]. split; [done|].
    cbn. rewrite sload_insert_eq. rewrite Hpgn, length_app. cbn [length].
    replace (Z.of_nat (length done) + 1) with (Z.of_nat (length done + 1)) by lia.
    destruct done as [| first rest]; [done|].
    pose proof (concat_moves_nonempty (first :: rest) ltac:(done) Hdone) as Hlen.
    destruct (String.length (String.concat " " (first :: rest))); [lia|].
    by rewrite concat_moves_snoc.
  - destruct (Z.ltb_spec (Z.of_nat (length done)) 200); [lia|].
    eexists. split; [reflexivity|]. done.
Qed.

Lemma makeMoves_logs gameId calls : ∀ s (done : list string),
  let game := (games s).[gameId] in
  Game.id game ≠ [] →
  Game.status game = 1 →
  Forall (validMove game) calls →
  Forall (λ move, (0 < String.length move)%nat) done →
  (length done ≤ 200)%nat →
  Game.pgn game = String.concat " " done →
  Game.moveCount game = Z.of_nat (length done) →
  ∃ s', makeMoves gameId calls s = Ok s' ∧
    events s' = events s ++ map (λ call, MoveMade gameId (snd call)) calls ∧
    Game.pgn (games s').[gameId] = String.concat " " (take 200 (done ++ map snd calls)) ∧
    Game.moveCount (games s').[gameId]
      = Z.of_nat (length (take 200 (done ++ map snd calls))) ∧
    Game.status (games s').[gameId] = 1.
Proof.
  induction calls as [| [env move] calls IH]; intros s done game Hid Hactive Hcalls Hdone
    Hlen Hpgn Hcount; cbn [makeMoves map].
  - eexists. split; [reflexivity|]. rewrite !app_nil_r, take_ge by lia. done.
  - apply Forall_cons in Hcalls as [Hcall Hcalls].
    destruct (makeMove_logs env gameId move s done Hid Hactive Hcall Hdone Hpgn Hcount)
      as (s1 & -> & Hevents & Hgame).
    cbn [mbind outcome_bind]. fold game in Hgame.
    destruct (Nat.ltb_spec (length done) 200) as [Hroom | Hfullog].
    + destruct (IH s1 (done ++ [move])) as (s' & -> & Hevents' & Hpgn' & Hcount' & Hactive').
      * by rewrite Hgame.
      * by rewrite Hgame.
      * rewrite Hgame. exact Hcalls.
      * apply Forall_app. split; [done|]. apply Forall_singleton.
        by destruct Hcall as (_ & ? & _).
      * rewrite length_app. cbn. lia.
      * by rewrite Hgame.
      * by rewrite Hgame.
      * eexists. split; [reflexivity|].
        rewrite Hevents', Hevents, <- !app_assoc. cbn [app snd].
        rewrite <- app_assoc in Hpgn', Hcount'. done.
    + destruct (IH s1 done) as (s' & -> & Hevents' & Hpgn' & Hcount' & Hactive').
      * by rewrite Hgame.
      * by rewrite Hgame.
      * rewrite Hgame. exact Hcalls.
      * done.
      * done.
      * by rewrite Hgame.
      * by rewrite Hgame.
      * eexists. split; [reflexivity|].
        rewrite Hevents', Hevents, <- !app_assoc. cbn [app snd].
        rewrite take_app_le in Hpgn', Hcount' by lia.
        rewrite take_app_le by lia. done.
Qed.

(** X7.  Starting from an active game with an empty move log, a sequence of
    calls of [makeMove] by the players, each with a move of 1 to 16 bytes, all
    return and emit one [MoveMade] each.  The stored PGN is then the moves
    joined by single spaces, and the move count is their number, as long as
    there are at most 200 of them; of a longer sequence the log and the count
    keep the first 200 moves and silently drop the rest. *)
Theorem X7_move_log_keeps_the_first_200_moves gameId calls s :
  let game := (games s).[gameId] in
  Game.id game ≠ [] →
  Game.status game = 1 →
  Game.pgn game = EmptyString →
  Game.moveCount game = 0 →
  Forall (validMove game) calls →
  ∃ s', makeMoves gameId calls s = Ok s' ∧
    events s' = events s ++ map (λ call, MoveMade gameId (snd call)) calls ∧
    Game.pgn (games s').[gameId] = String.concat " " (take 200 (map snd calls)) ∧
    Game.moveCount (games s').[gameId] = Z.of_nat (Nat.min 200 (length calls)).
Proof.
  intros game Hid Hactive Hpgn Hcount Hcalls.
  destruct (makeMoves_logs gameId calls s [] Hid Hactive Hcalls) as (s' & Hrun & He & Hp & Hc & _);
    try done; [cbn; lia|].
  exists s'. cbn [app] in *. rewrite length_take, length_map in Hc. done.
Qed.

(** Alice opens with e4, Bob answers e5, Alice plays Nf3. *)
Lemma X7_move_log_keeps_the_first_200_moves_witness :
  ∃ s', makeMoves Scenario.stakedId
          [(Scenario.sentBy Scenario.alice, "e4"); (Scenario.sentBy Scenario.bob, "e5");
           (Scenario.sentBy Scenario.alice, "Nf3")] Scenario.staked = Ok s' ∧
    Game.pgn (games s').[Scenario.stakedId] = "e4 e5 Nf3" ∧
    Game.moveCount (games s').[Scenario.stakedId] = 3.
Proof.
  destruct (X7_move_log_keeps_the_first_200_moves Scenario.stakedId
              [(Scenario.sentBy Scenario.alice, "e4"); (Scenario.sentBy Scenario.bob, "e5");
               (Scenario.sentBy Scenario.alice, "Nf3")] Scenario.staked)
    as (s' & Hrun & _ & Hpgn & Hcount); [evaluate | evaluate | evaluate | evaluate | |].
  - repeat (apply Forall_cons; split; [
      split; [first [left; evaluate | right; evaluate] | split; [cbn; lia | evaluate]] |]).
    by apply Forall_nil.
  - exists s'. split; [exact Hrun|]. split; [exact Hpgn | exact Hcount].
Defined.

(** ** Staking *)

Lemma _indexPlayerGame_frame player gameId s :
  let s' := _indexPlayerGame player gameId s in
  games s' = games s ∧ bettingPools s' = bettingPools s ∧ gameBets s' = gameBets s ∧
  pendingPayouts s' = pendingPayouts s ∧ houseFeePercentage s' = houseFeePercentage s ∧
  lowTierAmount s' = lowTierAmount s ∧ mediumTierAmount s' = mediumTierAmount s ∧
  tokenFeeBalance s' = tokenFeeBalance s ∧ _paused s' = _paused s ∧ events s' = events s.
Proof. unfold _indexPlayerGame. by destruct (negb _). Qed.

(** What an accepted stake does. *)
Lemma placeBet_accepts env gameId amount s :
  let game := (games s).[gameId] in
  let pool := (bettingPools s).[gameId] in
  let bets := (gameBets s).[gameId] in
  Game.id game ≠ [] →
  Game.status game = 0 →
  _paused s = false →
  msg_sender env = Game.whitePlayer game ∨ msg_sender env = Game.blackPlayer game →
  _isValidBetAmount (Game.bettingTier game) amount s = true →
  Forall (λ bet, GameBet.player bet ≠ msg_sender env) bets →
  token_ok env s (SafeTransferFrom (msg_sender env) amount) = true →
  BettingPool.totalAmount pool + amount ≤ MAX_UINT256 →
  (BettingPool.totalAmount pool + amount) * houseFeePercentage s ≤ MAX_UINT256 →
  ∃ s', placeBet env gameId amount s = Ok s' ∧
    (gameBets s').[gameId] = bets ++ [newBet env gameId (msg_sender env) amount] ∧
    (bettingPools s').[gameId] =
      BettingPool.set_houseFee
        ((BettingPool.totalAmount pool + amount) * houseFeePercentage s / 10000)
        (BettingPool.set_totalAmount (BettingPool.totalAmount pool + amount) pool) ∧
    (games s').[gameId] =
      (if (length bets =? 1)%nat
       then Game.set_startedAt (block_timestamp env) (Game.set_status 1 game) else game) ∧
    pendingPayouts s' = pendingPayouts s ∧ houseFeePercentage s' = houseFeePercentage s ∧
    lowTierAmount s' = lowTierAmount s ∧ mediumTierAmount s' = mediumTierAmount s ∧
    tokenFeeBalance s' = tokenFeeBalance s ∧ _paused s' = _paused s.
Proof.
  intros game pool bets Hid Hstatus Hpaused Hplayer Hvalid Hfirst Htoken Hsum Hmul.
  unfold placeBet, gameExists, gameNotFinished, whenNotPaused, tokenCall, bytes32_eqb.
  fold game bets.
  rewrite bool_decide_eq_false_2 by done. rewrite Hstatus, Hpaused, Hvalid, Htoken.
  replace ((msg_sender env =? Game.whitePlayer game) || (msg_sender env =? Game.blackPlayer game))
    with true
    by (symmetry; apply orb_true_iff; destruct Hplayer as [-> | ->];
        rewrite Z.eqb_refl; auto).
  replace (forallb (λ b, negb (GameBet.player b =? msg_sender env)) bets) with true.
  2:{ symmetry. apply forallb_forall. intros bet Hin.
      apply negb_true_iff, Z.eqb_neq.
      rewrite Forall_forall in Hfirst. apply Hfirst. by apply list_elem_of_In. }
  cbn [negb Z.eqb require mbind outcome_bind].
  set (s1 := _indexPlayerGame _ _ _).
  destruct (_indexPlayerGame_frame (msg_sender env) gameId
              (pushBet gameId (newBet env gameId (msg_sender env) amount) s))
    as (Hg & Hp & Hb & Hpend & Hfee & Hlow & Hmed & Hacc & Hflag & _).
  fold s1 in Hg, Hp, Hb, Hpend, Hfee, Hlow, Hmed, Hacc, Hflag.
  unfold addToPool. rewrite Hp, Hfee. cbn [bettingPools pushBet set_gameBets houseFeePercentage].
  fold pool. rewrite checked_add_ok by done. cbn [mbind outcome_bind].
  rewrite checked_mul_ok by done. cbn [mbind outcome_bind].
  cbn [gameBets emit set_events modifyPool set_bettingPools games].
  rewrite Hb. cbn [gameBets pushBet set_gameBets].
  rewrite sload_insert_eq. fold bets.
  rewrite length_app. cbn [length].
  destruct (Nat.eqb_spec (length bets + 1) 2) as [Htwo | Hnot].
  - eexists. split; [reflexivity|].
    cbn. rewrite !sload_insert_eq, Hb, Hg, Hp, Hpend, Hfee, Hlow, Hmed, Hacc, Hflag. cbn.
    rewrite sload_insert_eq.
    destruct (Nat.eqb_spec (length bets) 1); [|lia]. done.
  - eexists. split; [reflexivity|].
    cbn. rewrite !sload_insert_eq, Hb, Hg, Hp, Hpend, Hfee, Hlow, Hmed, Hacc, Hflag. cbn.
    rewrite sload_insert_eq.
    destruct (Nat.eqb_spec (length bets) 1); [lia|]. done.
Qed.

Lemma _isValidBetAmount_tiers tier amount s s' :
  lowTierAmount s' = lowTierAmount s → mediumTierAmount s' = mediumTierAmount s →
  _isValidBetAmount tier amount s' = _isValidBetAmount tier amount s.
Proof. unfold _isValidBetAmount. by intros -> ->. Qed.

(** X8.  A game whose identifier holds no bets yet is created in the waiting
    state with an empty pool.  The two players then stake in either order, each
    an amount that is valid for the tier of the game.  The first stake leaves the
    game waiting; the second starts it at the time of its block.  The pool then
    holds the sum of the two stakes and, as its fee, the floor of that sum times
    the current rate over 10000, and the bets are stored in the order of the
    stakes.  From then on every further stake on the game reverts. *)
Theorem X8_two_stakes_start_the_game creator env1 env2 blackPlayer timeControl tier a b s :
  let white := msg_sender creator in
  let gameId := keccak256 [white; blackPlayer; block_timestamp creator; block_number creator] in
  _paused s = false →
  blackPlayer ≠ 0 → blackPlayer ≠ white → tier ≤ 2 →
  (gameBets s).[gameId] = [] →
  msg_sender env1 = white ∨ msg_sender env1 = blackPlayer →
  msg_sender env2 = white ∨ msg_sender env2 = blackPlayer →
  msg_sender env1 ≠ msg_sender env2 →
  _isValidBetAmount tier a s = true → _isValidBetAmount tier b s = true →
  0 ≤ a → 0 ≤ b → 0 ≤ houseFeePercentage s →
  a + b ≤ MAX_UINT256 → (a + b) * houseFeePercentage s ≤ MAX_UINT256 →
  (∀ s', token_ok env1 s' (SafeTransferFrom (msg_sender env1) a) = true) →
  (∀ s', token_ok env2 s' (SafeTransferFrom (msg_sender env2) b) = true) →
  ∃ s1 s2 s3,
    createGame creator blackPlayer timeControl tier s = Ok (gameId, s1) ∧
    placeBet env1 gameId a s1 = Ok s2 ∧
    placeBet env2 gameId b s2 = Ok s3 ∧
    Game.status (getGame gameId s1) = 0 ∧
    getBettingPool gameId s1 =
      {| BettingPool.gameId := gameId; BettingPool.totalAmount := 0;
         BettingPool.houseFee := 0; BettingPool.resolved := false;
         BettingPool.winner := 0 |} ∧
    Game.status (getGame gameId s2) = 0 ∧
    Game.status (getGame gameId s3) = 1 ∧
    Game.startedAt (getGame gameId s3) = block_timestamp env2 ∧
    getGameBets gameId s3 =
      [newBet env1 gameId (msg_sender env1) a; newBet env2 gameId (msg_sender env2) b] ∧
    BettingPool.totalAmount (getBettingPool gameId s3) = a + b ∧
    BettingPool.houseFee (getBettingPool gameId s3) = (a + b) * houseFeePercentage s / 10000 ∧
    (∀ env amount, placeBet env gameId amount s3 = Revert "Game already started or finished").
Proof.
  intros white gameId Hpaused Hzero Hself Htier Hfresh Hfirst Hsecond Hdiff Hva Hvb Ha Hb Hrate
    Hsum Hmul Htoken1 Htoken2.
  unfold getGame, getBettingPool, getGameBets.
  assert (∃ s1, createGame creator blackPlayer timeControl tier s = Ok (gameId, s1) ∧
            (games s1).[gameId] =
              {| Game.id := gameId; Game.whitePlayer := white; Game.blackPlayer := blackPlayer;
                 Game.fen := START_FEN; Game.pgn := EmptyString; Game.status := 0;
                 Game.result := 0; Game.bettingTier := tier; Game.timeControl := timeControl;
                 Game.createdAt := block_timestamp creator; Game.startedAt := 0;
                 Game.finishedAt := 0; Game.moveCount := 0 |} ∧
            (bettingPools s1).[gameId] =
              {| BettingPool.gameId := gameId; BettingPool.totalAmount := 0;
                 BettingPool.houseFee := 0; BettingPool.resolved := false;
                 BettingPool.winner := 0 |} ∧
            gameBets s1 = gameBets s ∧ _paused s1 = false ∧
            houseFeePercentage s1 = houseFeePercentage s ∧
            lowTierAmount s1 = lowTierAmount s ∧ mediumTierAmount s1 = mediumTierAmount s)
    as (s1 & Hcreate & Hgame1 & Hpool1 & Hbets1 & Hpaused1 & Hrate1 & Hlow1 & Hmed1).
  { unfold createGame, whenNotPaused. rewrite Hpaused. fold white.
    destruct (Z.eqb_spec blackPlayer 0); [done|].
    destruct (Z.eqb_spec blackPlayer white); [done|].
    destruct (Z.leb_spec tier 2); [|lia].
    cbn [negb require mbind outcome_bind]. fold gameId.
    eexists. split; [reflexivity|]. cbn. by rewrite !sload_insert_eq. }
  destruct (placeBet_accepts env1 gameId a s1)
    as (s2 & Hbet1 & Hbets2 & Hpool2 & Hgame2 & _ & Hrate2 & Hlow2 & Hmed2 & _ & Hpaused2).
  { rewrite Hgame1. done. }
  { by rewrite Hgame1. }
  { done. }
  { by rewrite Hgame1. }
  { rewrite Hgame1. cbn [Game.bettingTier].
    by rewrite (_isValidBetAmount_tiers tier a s s1). }
  { rewrite Hbets1, Hfresh. by apply Forall_nil. }
  { apply Htoken1. }
  { rewrite Hpool1. cbn. lia. }
  { rewrite Hpool1, Hrate1. cbn. nia. }
  rewrite Hbets1, Hfresh, Hgame1, Hpool1, Hrate1 in *.
  cbn [app length Nat.eqb BettingPool.totalAmount] in *.
  destruct (placeBet_accepts env2 gameId b s2)
    as (s3 & Hbet2 & Hbets3 & Hpool3 & Hgame3 & _ & Hrate3 & _ & _ & _ & Hpaused3).
  { rewrite Hgame2. done. }
  { by rewrite Hgame2. }
  { congruence. }
  { by rewrite Hgame2. }
  { rewrite Hgame2. cbn [Game.bettingTier].
    rewrite (_isValidBetAmount_tiers tier b s s2); [done | congruence | congruence]. }
  { rewrite Hbets2. apply Forall_singleton. cbn. congruence. }
  { apply Htoken2. }
  { rewrite Hpool2. cbn. lia. }
  { rewrite Hpool2, Hrate2. cbn. rewrite Z.add_0_l. lia. }
  rewrite Hbets2, Hgame2, Hpool2, Hrate2 in *.
  cbn [app length Nat.eqb BettingPool.totalAmount BettingPool.set_houseFee
       BettingPool.set_totalAmount] in *.
  exists s1, s2, s3.
  do 3 (split; [done|]). split; [by rewrite Hgame1|]. split; [done|].
  split; [by rewrite Hgame2|].
  rewrite Hgame3, Hpool3, Hbets3. cbn. rewrite Z.add_0_l.
  do 5 (split; [done|]).
  intros env amount. unfold placeBet, gameExists, gameNotFinished, whenNotPaused, bytes32_eqb.
  rewrite Hgame3. cbn [Game.id Game.status Game.set_startedAt Game.set_status].
  rewrite bool_decide_eq_false_2 by done.
  cbn [negb Z.eqb Pos.eqb require mbind outcome_bind].
  replace (_paused s3) with false by congruence. done.
Qed.

(** Alice creates a low-tier game against Bob; Bob stakes 5 USDC first, then
    Alice. *)
Lemma X8_two_stakes_start_the_game_witness :
  ∃ s3,
    (run ← Scenario.stakedGame; Ok (fst run)) = Ok Scenario.stakedId ∧
    Game.status (getGame Scenario.stakedId s3) = 1 ∧
    map GameBet.player (getGameBets Scenario.stakedId s3) = [Scenario.bob; Scenario.alice] ∧
    BettingPool.totalAmount (getBettingPool Scenario.stakedId s3) = 10000000 ∧
    BettingPool.houseFee (getBettingPool Scenario.stakedId s3) = 500000.
Proof.
  destruct (X8_two_stakes_start_the_game (Scenario.sentBy Scenario.alice)
              (Scenario.sentBy Scenario.bob) (Scenario.sentBy Scenario.alice)
              Scenario.bob Scenario.blitz 0 5000000 5000000 (deployed Scenario.admin))
    as (s1 & s2 & s3 & _ & _ & _ & _ & _ & _ & Hstatus & _ & Hbets & Htotal & Hfee & _);
    [first [done | lia | by left | by right | evaluate].. |].
  exists s3. split; [evaluate|]. split; [exact Hstatus|].
  split; [exact (f_equal (map GameBet.player) Hbets)|]. split; [exact Htotal | exact Hfee].
Defined.

(** ** A game started short of its stakes *)

(** X9.  Either player can start a waiting game by [startGame], whether or not
    the stakes have been placed.  Once a game is active with other than two bets,
    no stake can be added, a vote of a player either reverts or only records the
    vote, and the override of the owner reverts: the game stays active and no
    balance moves, whatever the players do.  (Only [pauseGame] ends it.) *)
Theorem X9_game_started_short_of_stakes_cannot_be_settled env gameId s :
  Game.id (games s).[gameId] ≠ [] →
  msg_sender env = Game.whitePlayer (games s).[gameId]
    ∨ msg_sender env = Game.blackPlayer (games s).[gameId] →
  Game.status (games s).[gameId] = 0 →
  length (gameBets s).[gameId] ≠ 2%nat →
  (∃ s', startGame env gameId s = Ok s' ∧ shortOfStakes gameId s' ∧
         gameBets s' = gameBets s ∧ pendingPayouts s' = pendingPayouts s) ∧
  (∀ t, shortOfStakes gameId t →
     (∀ caller amount, reverted (placeBet caller gameId amount t)) ∧
     (∀ caller result t', submitGameResult caller gameId result t = Ok t' →
        shortOfStakes gameId t' ∧ gameBets t' = gameBets t ∧
        pendingPayouts t' = pendingPayouts t ∧ bettingPools t' = bettingPools t) ∧
     (∀ caller result, reverted (resolveDisputedGame caller gameId result t))).
Proof.
  intros Hid Hplayer Hwaiting Hbets. split.
  - unfold startGame, gameExists, onlyGamePlayer, bytes32_eqb.
    rewrite bool_decide_eq_false_2 by done.
    replace ((msg_sender env =? Game.whitePlayer (games s).[gameId])
             || (msg_sender env =? Game.blackPlayer (games s).[gameId])) with true
      by (symmetry; apply orb_true_iff; destruct Hplayer as [-> | ->];
          rewrite Z.eqb_refl; auto).
    rewrite Hwaiting. cbn [negb Z.eqb require mbind outcome_bind].
    eexists. split; [reflexivity|]. unfold shortOfStakes. cbn.
    by rewrite sload_insert_eq.
  - intros t [Hactive Hshort]. split; [|split].
    + intros caller amount. unfold placeBet, gameExists, gameNotFinished, whenNotPaused.
      repeat step_require. by rewrite Hactive in *.
    + intros caller result t'. unfold submitGameResult, gameExists, onlyGamePlayer.
      repeat step_require.
      destruct (_ && _).
      * unfold _resolveBets. rewrite !require_bind.
        cbn [gameBets finishGame modifyPool set_bettingPools set_games set_resultFinal
             set_resultResolved set_resultValue set_resultSubmitted].
        destruct (Nat.eqb_spec (length (gameBets t).[gameId]) 2); [congruence|].
        match goal with |- context [if ?c then Revert _ else Revert _] => by destruct c end.
      * intros [= <-]. by split.
    + intros caller result. unfold resolveDisputedGame, onlyOwner, gameExists.
      repeat step_require.
      unfold _resolveBets. rewrite !require_bind.
      cbn [gameBets finishGame modifyPool set_bettingPools set_games set_resultFinal
           set_resultResolved].
      destruct (Nat.eqb_spec (length (gameBets t).[gameId]) 2); [congruence|].
      match goal with
      | |- context [if ?c then Revert _ else Revert _] => destruct c; by eexists
      end.
Qed.

(** Alice has staked 5 USDC on her game against Bob; Bob starts the game without
    staking.  The stake of Alice then stays in the contract: no vote moves it,
    and the override of the owner reverts. *)
Lemma X9_game_started_short_of_stakes_cannot_be_settled_witness :
  ∃ s', startGame (Scenario.sentBy Scenario.bob) Scenario.stakedId
          (Scenario.stateOf startedUnstaked) = Ok s' ∧
    shortOfStakes Scenario.stakedId s' ∧
    map GameBet.amount (gameBets s').[Scenario.stakedId] = [5000000] ∧
    (∀ result t', submitGameResult (Scenario.sentBy Scenario.alice) Scenario.stakedId result s'
                    = Ok t' → pendingPayouts t' = pendingPayouts s') ∧
    (∀ result, reverted (resolveDisputedGame (Scenario.sentBy Scenario.admin)
                           Scenario.stakedId result s')).
Proof.
  destruct (X9_game_started_short_of_stakes_cannot_be_settled
              (Scenario.sentBy Scenario.bob) Scenario.stakedId
              (Scenario.stateOf startedUnstaked))
    as [(s' & Hstart & Hshort & Hbets & _) Hstuck];
    [evaluate | right; evaluate | evaluate | evaluate |].
  destruct (Hstuck s' Hshort) as (_ & Hvote & Hoverride).
  exists s'. split; [exact Hstart|]. split; [exact Hshort|].
  split; [rewrite Hbets; evaluate|]. split.
  - intros result t' Hok. by destruct (Hvote _ _ _ Hok) as (_ & _ & ? & _).
  - intros result. apply Hoverride.
Defined.

(** ** The emergency unwinding *)

Lemma pendingStakes_bound player bets :
  Forall (λ bet, 0 ≤ GameBet.amount bet) bets →
  0 ≤ pendingStakes player bets ≤ pendingTotal bets.
Proof.
  induction 1 as [| bet bets Hbet _ IH]; cbn [pendingStakes pendingTotal foldr]; [lia|].
  fold (pendingStakes player bets) (pendingTotal bets).
  destruct (GameBet.status bet =? 0); cbn [andb]; [|lia].
  destruct (GameBet.player bet =? player); lia.
Qed.

(** The loop of [pauseGame] on the bets from index [length before] on. *)
Lemma unwindLoop_refunds env gameId after : ∀ before s,
  (gameBets s).[gameId] = before ++ after →
  Forall (λ bet, 0 ≤ GameBet.amount bet) after →
  (∀ x, (pendingPayouts s).[x] + pendingTotal after ≤ MAX_UINT256) →
  ∃ s', unwindLoop (length after) (length before) env gameId s = Ok s' ∧
    (gameBets s').[gameId] = before ++ map (refundIfPending env) after ∧
    (∀ x, (pendingPayouts s').[x] = (pendingPayouts s).[x] + pendingStakes x after) ∧
    games s' = games s ∧ bettingPools s' = bettingPools s ∧
    tokenFeeBalance s' = tokenFeeBalance s ∧ resultResolved s' = resultResolved s ∧
    resultFinal s' = resultFinal s.
Proof.
  induction after as [| bet after IH]; intros before s Hbets Hamounts Hsum;
    cbn [unwindLoop length map].
  - eexists. split; [reflexivity|]. rewrite Hbets. cbn. split; [done|].
    split; [intros; lia | done].
  - apply Forall_cons in Hamounts as [Hamount Hamounts].
    rewrite Hbets, lookup_app_r, Nat.sub_diag by lia. cbn [lookup list_lookup].
    cbn [pendingStakes pendingTotal foldr] in *.
    fold (pendingTotal after) in *.
    destruct (Z.eqb_spec (GameBet.status bet) 0) as [Hpending | Hsettled].
    + pose proof (Hsum (GameBet.player bet)) as Hplayer.
      pose proof (pendingStakes_bound (GameBet.player bet) after Hamounts).
      rewrite creditPayout_ok by (cbn; lia). cbn [mbind outcome_bind].
      match goal with
      | |- ∃ s', unwindLoop _ _ _ _ ?s1 = _ ∧ _ =>
        destruct (IH (before ++ [refundIfPending env bet]) s1)
          as (s' & Hloop & Hbets' & Hpending' & Hframe)
      end.
      * cbn. rewrite sload_insert_eq, Hbets.
        rewrite alter_app_r_alt, Nat.sub_diag by lia. cbn.
        unfold refundIfPending. rewrite Hpending. cbn. by rewrite <- app_assoc.
      * done.
      * intros x. cbn. rewrite sload_insert.
        pose proof (Hsum x). destruct (decide (GameBet.player bet = x)); subst; lia.
      * rewrite length_app in Hloop. cbn [length] in Hloop.
        rewrite Nat.add_1_r in Hloop. rewrite Hloop.
        eexists. split; [reflexivity|].
        rewrite Hbets', <- app_assoc. split; [done|]. split; [|exact Hframe].
        intros x. rewrite Hpending'. cbn. rewrite sload_insert. cbn [andb].
        destruct (decide (GameBet.player bet = x)) as [-> | Hother].
        -- rewrite Z.eqb_refl. unfold pendingStakes. lia.
        -- destruct (Z.eqb_spec (GameBet.player bet) x); [done | unfold pendingStakes; lia].
    + destruct (IH (before ++ [bet]) s) as (s' & Hloop & Hbets' & Hpending' & Hframe).
      * by rewrite Hbets, <- app_assoc.
      * done.
      * done.
      * rewrite length_app in Hloop. cbn [length] in Hloop.
        rewrite Nat.add_1_r in Hloop. rewrite Hloop.
        eexists. split; [reflexivity|].
        rewrite Hbets', <- app_assoc. split; [|split; [|exact Hframe]].
        -- unfold refundIfPending at 2. by destruct (Z.eqb_spec (GameBet.status bet) 0).
        -- intros x. rewrite Hpending'.
           by destruct (Z.eqb_spec (GameBet.status bet) 0).
Qed.



(** ** Votes *)

(** The storage after a vote has been recorded. *)
Lemma submitGameResult_unfolds env gameId result s :
  let game := (games s).[gameId] in
  let other :=
    if msg_sender env =? Game.whitePlayer game
    then Game.blackPlayer game else Game.whitePlayer game in
  let voted :=
    set_resultValue (<[(gameId, msg_sender env) := result]> (resultValue s))
      (set_resultSubmitted (<[(gameId, msg_sender env) := true]> (resultSubmitted s)) s) in
  Game.id game ≠ [] →
  msg_sender env = Game.whitePlayer game ∨ msg_sender env = Game.blackPlayer game →
  Game.status game = 1 →
  (resultResolved s).[gameId] = false →
  result ≤ 2 →
  msg_sender env ≠ other →
  submitGameResult env gameId result s =
  if (resultSubmitted s).[(gameId, other)] && ((resultValue s).[(gameId, other)] =? result)
  then s' ← _resolveBets env gameId result (finishGame env gameId result voted);
       Ok (emit (GameFinished gameId result) s')
  else Ok voted.
Proof.
  intros game other voted Hid Hplayer Hactive Hopen Hresult Hother.
  unfold submitGameResult, gameExists, onlyGamePlayer, bytes32_eqb.
  rewrite bool_decide_eq_false_2 by done. fold game.
  replace ((msg_sender env =? Game.whitePlayer game) || (msg_sender env =? Game.blackPlayer game))
    with true
    by (symmetry; apply orb_true_iff; destruct Hplayer as [-> | ->];
        rewrite Z.eqb_refl; auto).
  destruct (Z.leb_spec result 2); [|lia].
  rewrite Hactive, Hopen. cbn [negb Z.eqb Pos.eqb require mbind outcome_bind].
  cbn [resultSubmitted resultValue set_resultSubmitted set_resultValue].
  fold other. rewrite !sload_insert_ne by congruence. reflexivity.
Qed.

(** X11.  In an active game of two different players that holds two bets, the
    vote of one player alone settles nothing: it is recorded and the game stays
    active.  When the other player then votes for a different result, the game
    still stays active and no balance moves; a player may vote again, and the
    game is finished with a result as soon as the vote that comes in equals the
    vote on record of the other player. *)
Theorem X11_votes_settle_the_game_by_agreement envW envB gameId r1 r2 s bet1 bet2 :
  let game := (games s).[gameId] in
  let white := Game.whitePlayer game in
  let black := Game.blackPlayer game in
  Game.id game ≠ [] →
  Game.status game = 1 →
  (resultResolved s).[gameId] = false →
  msg_sender envW = white → msg_sender envB = black → white ≠ black →
  (resultSubmitted s).[(gameId, black)] = false →
  0 ≤ r1 ≤ 2 → 0 ≤ r2 ≤ 2 →
  (gameBets s).[gameId] = [bet1; bet2] →
  BettingPool.resolved (bettingPools s).[gameId] = false →
  0 ≤ BettingPool.houseFee (bettingPools s).[gameId]
    ≤ BettingPool.totalAmount (bettingPools s).[gameId] →
  0 ≤ GameBet.amount bet1 → 0 ≤ GameBet.amount bet2 →
  tokenFeeBalance s + BettingPool.houseFee (bettingPools s).[gameId] ≤ MAX_UINT256 →
  (∀ x, (pendingPayouts s).[x] + 2 * BettingPool.totalAmount (bettingPools s).[gameId]
          + GameBet.amount bet1 + GameBet.amount bet2 ≤ MAX_UINT256) →
  ∃ s1, submitGameResult envW gameId r1 s = Ok s1 ∧
    Game.status (games s1).[gameId] = 1 ∧
    (resultSubmitted s1).[(gameId, white)] = true ∧
    (resultValue s1).[(gameId, white)] = r1 ∧
    pendingPayouts s1 = pendingPayouts s ∧
    (r2 = r1 →
       ∃ s2, submitGameResult envB gameId r2 s1 = Ok s2 ∧
         Game.status (games s2).[gameId] = 2 ∧ Game.result (games s2).[gameId] = r1 ∧
         (resultFinal s2).[gameId] = r1 ∧ (resultResolved s2).[gameId] = true ∧
         BettingPool.resolved (bettingPools s2).[gameId] = true) ∧
    (r2 ≠ r1 →
       ∃ s2, submitGameResult envB gameId r2 s1 = Ok s2 ∧
         Game.status (games s2).[gameId] = 1 ∧
         pendingPayouts s2 = pendingPayouts s ∧
         ∃ s3, submitGameResult envW gameId r2 s2 = Ok s3 ∧
           Game.status (games s3).[gameId] = 2 ∧ Game.result (games s3).[gameId] = r2 ∧
           (resultFinal s3).[gameId] = r2 ∧
           BettingPool.resolved (bettingPools s3).[gameId] = true).
Proof.
  intros game white black Hid Hactive Hopen HW HB Hdiff Hnovote Hr1 Hr2 Hbets Hpool Hfee
    Ha1 Ha2 HsumFee Hsum.
  (* the vote of white *)
  rewrite submitGameResult_unfolds; fold game white black;
    [| done | by left | done | done | lia | by rewrite HW, Z.eqb_refl].
  rewrite HW, Z.eqb_refl, Hnovote. cbn [andb].
  eexists. split; [reflexivity|].
  cbn. rewrite !sload_insert_eq. do 4 (split; [done|]).
  set (s1 := set_resultValue _ _).
  assert (games s1 = games s) as Hgames1 by done.
  assert ((msg_sender envB =? Game.whitePlayer (games s1).[gameId]) = false) as HnotW.
  { rewrite Hgames1. fold game white. rewrite HB. by apply Z.eqb_neq. }
  assert (∀ r, 0 ≤ r ≤ 2 → ∀ t env,
            gameBets t = gameBets s → bettingPools t = bettingPools s →
            tokenFeeBalance t = tokenFeeBalance s → pendingPayouts t = pendingPayouts s →
            ∃ t', _resolveBets env gameId r (finishGame env gameId r t) = Ok t' ∧
              Game.status (games t').[gameId] = 2 ∧ Game.result (games t').[gameId] = r ∧
              (resultFinal t').[gameId] = r ∧ (resultResolved t').[gameId] = true ∧
              BettingPool.resolved (bettingPools t').[gameId] = true) as Hsettle.
  { intros r Hr t env Hb Hp Hf Hpend.
    destruct (_resolveBets_succeeds env gameId r (finishGame env gameId r t) bet1 bet2)
      as (t' & Hrun & Hg & Hres & Hfin & _ & Hflag); try done.
    - cbn. by rewrite Hb.
    - cbn. by rewrite Hp.
    - cbn. by rewrite Hp.
    - cbn. by rewrite Hf, Hp.
    - intros x. cbn. rewrite Hpend, Hp. apply Hsum.
    - exists t'. split; [done|]. rewrite Hg, Hres, Hfin. cbn. by rewrite !sload_insert_eq. }
  split.
  - (* black agrees *)
    intros ->.
    rewrite submitGameResult_unfolds;
      [| by rewrite Hgames1 | rewrite Hgames1; by right | by rewrite Hgames1 | done | lia
       | rewrite HnotW, Hgames1; fold game white black; congruence].
    rewrite HnotW, Hgames1. fold game white.
    unfold s1 at 1 2. cbn [resultSubmitted resultValue set_resultSubmitted set_resultValue].
    rewrite ?HW, !sload_insert_eq, Z.eqb_refl. cbn [andb].
    match goal with
    | |- context [_resolveBets envB gameId r1 (finishGame envB gameId r1 ?t)] =>
      destruct (Hsettle r1 Hr1 t envB) as (t' & -> & Hdone); try done
    end.
    eexists. split; [reflexivity|]. exact Hdone.
  - (* black disagrees, white changes its vote *)
    intros Hne.
    rewrite submitGameResult_unfolds;
      [| by rewrite Hgames1 | rewrite Hgames1; by right | by rewrite Hgames1 | done | lia
       | rewrite HnotW, Hgames1; fold game white black; congruence].
    rewrite HnotW, Hgames1. fold game white.
    unfold s1 at 1 2. cbn [resultSubmitted resultValue set_resultSubmitted set_resultValue].
    rewrite ?HW, !sload_insert_eq.
    destruct (Z.eqb_spec r1 r2); [congruence|]. cbn [andb].
    eexists. split; [reflexivity|]. split; [by cbn|]. split; [done|].
    set (s2 := set_resultValue _ _).
    assert (games s2 = games s) as Hgames2 by done.
    rewrite submitGameResult_unfolds;
      [| by rewrite Hgames2 | rewrite Hgames2; by left | by rewrite Hgames2 | done | lia
       | rewrite Hgames2; fold game white black; by rewrite HW, Z.eqb_refl].
    rewrite Hgames2. fold game white black. rewrite HW, Z.eqb_refl.
    unfold s2 at 1 2. cbn [resultSubmitted resultValue set_resultSubmitted set_resultValue].
    rewrite ?HB, !sload_insert_eq, Z.eqb_refl. cbn [andb].
    match goal with
    | |- context [_resolveBets envW gameId r2 (finishGame envW gameId r2 ?t)] =>
      destruct (Hsettle r2 Hr2 t envW) as (t' & -> & Hdone); try done
    end.
    eexists. split; [reflexivity|]. by destruct Hdone as (? & ? & ? & _ & ?).
Qed.

(** Alice reports a win of white and Bob a win of black on the game they staked
    on; Alice then gives in and reports a win of black, which finishes the game. *)
Lemma X11_votes_settle_the_game_by_agreement_witness :
  ∃ s1 s2 s3,
    submitGameResult (Scenario.sentBy Scenario.alice) Scenario.stakedId RESULT_WHITE
      Scenario.staked = Ok s1 ∧
    submitGameResult (Scenario.sentBy Scenario.bob) Scenario.stakedId RESULT_BLACK s1 = Ok s2 ∧
    Game.status (games s2).[Scenario.stakedId] = 1 ∧
    submitGameResult (Scenario.sentBy Scenario.alice) Scenario.stakedId RESULT_BLACK s2 = Ok s3 ∧
    Game.status (games s3).[Scenario.stakedId] = 2 ∧
    Game.result (games s3).[Scenario.stakedId] = RESULT_BLACK.
Proof.
  assert (pendingPayouts Scenario.staked = ∅) as Hpending by evaluate.
  destruct (X11_votes_settle_the_game_by_agreement
              (Scenario.sentBy Scenario.alice) (Scenario.sentBy Scenario.bob)
              Scenario.stakedId RESULT_WHITE RESULT_BLACK Scenario.staked
              (newBet (Scenario.sentBy Scenario.alice) Scenario.stakedId Scenario.alice 5000000)
              (newBet (Scenario.sentBy Scenario.bob) Scenario.stakedId Scenario.bob 5000000))
    as (s1 & Hfirst & _ & _ & _ & _ & _ & Hdisagree).
  - evaluate.
  - evaluate.
  - evaluate.
  - evaluate.
  - evaluate.
  - evaluate.
  - evaluate.
  - vm_compute; split; discriminate.
  - vm_compute; split; discriminate.
  - evaluate.
  - evaluate.
  - vm_compute; split; discriminate.
  - evaluate.
  - evaluate.
  - evaluate.
  - intros x. rewrite Hpending. evaluate.
  - destruct Hdisagree as (s2 & Hsecond & Hactive & _ & s3 & Hthird & Hstatus & Hresult & _);
      [evaluate|].
    exists s1, s2, s3. repeat split; assumption.
Defined.

(** * Further properties of the order book *)

(** ** What matching preserves *)

Lemma returnsOrPanics_bind {A B} (m : outcome A) (k : A → outcome B) (Q : A → Prop)
    (R : B → Prop) :
  returnsOrPanics m Q → (∀ a, Q a → returnsOrPanics (k a) R) →
  returnsOrPanics (m ≫= k) R.
Proof. destruct m; cbn; auto. Qed.

Lemma returnsOrPanics_weaken {A} (m : outcome A) (Q R : A → Prop) :
  returnsOrPanics m Q → (∀ a, Q a → R a) → returnsOrPanics m R.
Proof. destruct m; cbn; auto. Qed.

Lemma checked_add_panics a b : returnsOrPanics (checked_add a b) (λ c, c = a + b ∧ c ≤ MAX_UINT256).
Proof. by destruct (checked_add_inv a b) as [[-> ?] | ->]. Qed.

Lemma checked_sub_panics a b : returnsOrPanics (checked_sub a b) (λ c, c = a - b ∧ 0 ≤ c).
Proof. destruct (checked_sub_inv a b) as [[-> ?] | ->]; cbn; [lia | done]. Qed.

Lemma checked_mul_panics a b : returnsOrPanics (checked_mul a b) (λ c, c = a * b ∧ c ≤ MAX_UINT256).
Proof. by destruct (checked_mul_inv a b) as [[-> ?] | ->]. Qed.

(** Runs the checked operation at the head of a call. *)
Ltac hoare_checked :=
  match goal with
  | |- returnsOrPanics (checked_add ?a ?b ≫= _) _ =>
    apply (returnsOrPanics_bind _ _ _ _ (checked_add_panics a b)); intros ? [-> ?]
  | |- returnsOrPanics (checked_sub ?a ?b ≫= _) _ =>
    apply (returnsOrPanics_bind _ _ _ _ (checked_sub_panics a b)); intros ? [-> ?]
  | |- returnsOrPanics (checked_mul ?a ?b ≫= _) _ =>
    apply (returnsOrPanics_bind _ _ _ _ (checked_mul_panics a b)); intros ? [-> ?]
  end.

Lemma _recordBet_panics env gameId player amount s :
  returnsOrPanics (_recordBet env gameId player amount s)
    (λ s', orderbookLevels s' = orderbookLevels s ∧ orders s' = orders s).
Proof.
  unfold _recordBet.
  eapply (returnsOrPanics_bind _ _ (λ s', orderbookLevels s' = orderbookLevels s
                                          ∧ orders s' = orders s)); [|by intros].
  unfold addToPool. do 2 hoare_checked. cbn.
  by destruct (_indexPlayerGame_book player gameId
                 (pushBet gameId (newBet env gameId player amount) s)) as [-> ->].
Qed.

(** A match of a positive amount creates a game and its bets and leaves the book
    as it is; it can fail by overflow only. *)
Lemma _createMatch_panics env whiteOrderId blackOrderId amount s :
  0 < amount →
  returnsOrPanics (_createMatch env whiteOrderId blackOrderId amount s)
    (λ s', orderbookLevels s' = orderbookLevels s ∧ orders s' = orders s).
Proof.
  intros Hamount. unfold _createMatch. rewrite require_bind.
  destruct (Z.ltb_spec 0 amount); [|lia].
  eapply returnsOrPanics_bind; [apply _recordBet_panics|]. intros s1 [Hl1 Ho1].
  eapply returnsOrPanics_bind; [apply _recordBet_panics|]. intros s2 [Hl2 Ho2].
  cbn in *. split; congruence.
Qed.

(** A property of the storage that the writes of matching preserve (the writes
    to the orders, to the levels whose key is [touched], and the creation of a
    match) holds after [_matchAtLevel] and after the tolerance pass, which can
    fail by overflow only. *)
Section Matching.
Variable P : Storage → Prop.
Variable touched : Z * Z * Z → Prop.
Hypothesis P_order : ∀ orderId f s, P s → P (modifyOrder orderId f s).
Hypothesis P_level : ∀ key f s, touched key → P s → P (modifyLevel key f s).
Hypothesis P_match : ∀ env whiteOrderId blackOrderId amount s s',
  0 < amount → P s → _createMatch env whiteOrderId blackOrderId amount s = Ok s' → P s'.

Lemma _createMatch_keeps env whiteOrderId blackOrderId amount s :
  0 < amount → P s →
  returnsOrPanics (_createMatch env whiteOrderId blackOrderId amount s) P.
Proof.
  intros Hamount HP.
  pose proof (_createMatch_panics env whiteOrderId blackOrderId amount s Hamount) as Hpanics.
  pose proof (P_match env whiteOrderId blackOrderId amount s) as Hkeeps.
  destruct (_createMatch _ _ _ _ _); cbn in *; eauto.
Qed.

Lemma matchLoop_keeps fuel : ∀ env orderId key remainingAmount s,
  touched key → P s →
  returnsOrPanics (matchLoop fuel env orderId key remainingAmount s) P.
Proof.
  induction fuel as [| fuel IH]; intros env orderId key remainingAmount s Hkey HP;
    cbn [matchLoop].
  - by destruct (_ && _).
  - destruct (Z.ltb_spec 0 remainingAmount) as [Hrem |]; [|done].
    destruct (0 <? length _)%nat; [|done]. cbn [andb].
    hoare_checked.
    match goal with
    | |- context [if ?m =? 0 then _ else _] => destruct (Z.eqb_spec m 0) as [Hzero | Hsome]
    end.
    + destruct (_ =? 0); [|done]. apply IH; [done|]. by apply P_level, P_order.
    + eapply returnsOrPanics_bind.
      { apply _createMatch_keeps; [|done]. destruct (_ <? _); lia. }
      intros s1 HP1. cbn beta. do 4 hoare_checked.
      apply IH; [done|].
      destruct (_ <=? _); repeat first [apply P_level | apply P_order]; done.
Qed.

Lemma _matchAtLevel_keeps env orderId key maxAmount s :
  touched key → P s →
  returnsOrPanics (_matchAtLevel env orderId key maxAmount s) P.
Proof.
  intros Hkey HP. unfold _matchAtLevel. hoare_checked.
  eapply returnsOrPanics_bind; [by apply matchLoop_keeps|].
  intros s1 HP1. cbn beta. repeat case_match; cbn; auto.
Qed.

Section Body.
Context {St : Type} (body : Z → Z → St → outcome (Z * bool * St)) (I : St → Prop).
Hypothesis body_keeps : ∀ tick remainingAmount st,
  I st → returnsOrPanics (body tick remainingAmount st) (λ r, I (snd r)).

Lemma ascend_keeps fuel : ∀ maxTick tick remainingAmount st,
  I st → returnsOrPanics (ascend body fuel maxTick tick remainingAmount st) (λ r, I (snd r)).
Proof.
  induction fuel as [| fuel IH]; intros maxTick tick remainingAmount st HI; cbn [ascend].
  - by destruct (_ && _).
  - destruct (_ && _); [|done].
    eapply returnsOrPanics_bind; [by apply body_keeps|].
    intros [[r brk] st1] HI1. cbn in HI1. destruct brk; [done|].
    hoare_checked. by apply IH.
Qed.

Lemma descend_keeps fuel : ∀ minTick tick remainingAmount st,
  I st → returnsOrPanics (descend body fuel minTick tick remainingAmount st) I.
Proof.
  induction fuel as [| fuel IH]; intros minTick tick remainingAmount st HI; cbn [descend].
  - by destruct (_ && _).
  - destruct (_ && _); [|done].
    eapply returnsOrPanics_bind; [by apply body_keeps|].
    intros [[r brk] st1] HI1. cbn in HI1. destruct brk; [done|].
    destruct (_ <? _); [done|]. by apply IH.
Qed.

Lemma nearestLoops_keeps tickAmount maxAmount st :
  I st → returnsOrPanics (nearestLoops body tickAmount maxAmount st) I.
Proof.
  intros HI. unfold nearestLoops. do 3 hoare_checked.
  eapply returnsOrPanics_bind; [by apply ascend_keeps|].
  intros [r st1] HI1. cbn in HI1.
  destruct (_ <=? _); [|done]. by apply descend_keeps.
Qed.

End Body.

Lemma matchTick_keeps env orderId oppositeSide tick remainingAmount s :
  (∀ timeControl, touched (timeControl, oppositeSide, tick)) → P s →
  returnsOrPanics (matchTick env orderId oppositeSide tick remainingAmount s)
    (λ r, P (snd r)).
Proof.
  intros Hkey HP. unfold matchTick. destruct (0 <? _)%nat; [|done].
  eapply returnsOrPanics_bind; [by apply _matchAtLevel_keeps|].
  intros s1 HP1. cbn beta. by hoare_checked.
Qed.

Lemma _attemptMatch_keeps env orderId s :
  (∀ timeControl tick,
      touched (timeControl, (if Order.side (orders s).[orderId] =? 0 then 1 else 0), tick)) →
  P s → returnsOrPanics (_attemptMatch env orderId s) P.
Proof.
  intros Hkey HP. unfold _attemptMatch. destruct (negb _); [done|].
  set (oppositeSide := if Order.side (orders s).[orderId] =? 0 then 1 else 0) in *.
  eapply (returnsOrPanics_bind _ _ P).
  { destruct (0 <? _); [|done]. hoare_checked. by apply _matchAtLevel_keeps. }
  intros s1 HP1. cbn beta. destruct (_ || _); [|done].
  hoare_checked. destruct (0 <? _); [|done].
  unfold _matchNearestLevels. apply nearestLoops_keeps; [|done].
  intros tick remainingAmount st HI. by apply matchTick_keeps.
Qed.

End Matching.

(** ** Placing an order *)

Lemma _quantizeAmount_pos amount : tickSize ≤ amount → 0 < _quantizeAmount amount.
Proof.
  unfold _quantizeAmount. rewrite tickSize_value. intros Hamount.
  assert (1 ≤ amount / 10000000) by (apply Z.div_le_lower_bound; lia). lia.
Qed.

(** What the first half of [placeOrder] returns and writes. *)
Lemma enqueueOrder_unfolds env side timeControl amount s :
  let quantized := _quantizeAmount amount in
  let orderId :=
    keccak256 [msg_sender env; side; quantized; timeControl;
               block_timestamp env; block_number env] in
  let key := (timeControl, side, quantized) in
  let level := (orderbookLevels s).[key] in
  enqueueOrder env side timeControl amount s =
  if _paused s then Revert "EnforcedPause"
  else if negb (side <=? 1) then Revert "Invalid side"
  else if negb (tickSize <=? amount) then Revert "Amount below minimum tick size"
  else if negb (token_ok env s (SafeTransferFrom (msg_sender env) quantized))
  then Revert "SafeERC20FailedOperation"
  else
    total ← checked_add (OrderbookLevel.totalAmount level) quantized;
    Ok (orderId,
        set_orderbookLevels
          (<[key := {| OrderbookLevel.tickAmount :=
                         if OrderbookLevel.tickAmount level =? 0
                         then quantized else OrderbookLevel.tickAmount level;
                       OrderbookLevel.orderIds := OrderbookLevel.orderIds level ++ [orderId];
                       OrderbookLevel.totalAmount := total |}]> (orderbookLevels s))
          (set_playerOrders
             (<[msg_sender env := (playerOrders s).[msg_sender env] ++ [orderId]]>
                (playerOrders s))
             (set_orders
                (<[orderId :=
                     {| Order.id := orderId; Order.player := msg_sender env;
                        Order.side := side; Order.amount := quantized;
                        Order.tickAmount := quantized; Order.timeControl := timeControl;
                        Order.createdAt := block_timestamp env; Order.filledAmount := 0;
                        Order.status := 0 |}]> (orders s)) s))).
Proof.
  intros quantized orderId key level.
  unfold enqueueOrder, whenNotPaused, tokenCall. rewrite !require_bind.
  fold quantized orderId key.
  destruct (_paused s); [done|]. destruct (side <=? 1); [|done].
  destruct (Z.leb_spec tickSize amount) as [Hamount |]; [|done].
  pose proof (_quantizeAmount_pos amount Hamount).
  destruct (Z.ltb_spec 0 quantized); [|unfold quantized in *; lia].
  destruct (token_ok env s _); [|done]. cbn [negb].
  cbn [orderbookLevels modifyLevel set_orderbookLevels set_playerOrders set_orders].
  rewrite !sload_insert_eq. fold level. cbn.
  replace (OrderbookLevel.totalAmount
             (if OrderbookLevel.tickAmount level =? 0
              then OrderbookLevel.set_tickAmount quantized level else level))
    with (OrderbookLevel.totalAmount level) by (by destruct (_ =? 0)).
  destruct (checked_add _ _); cbn [mbind outcome_bind]; [| done | done].
  do 2 f_equal. unfold modifyLevel. cbn.
  rewrite !sload_insert_eq, !insert_insert_eq. fold level.
  by destruct (_ =? 0).
Qed.

(** X12.  [placeOrder] either returns or reverts: the loops of matching end within
    their bounds.  It reverts for one of five reasons only: the contract is
    paused, the side is not 0 or 1, the amount is below one tick, the token
    refuses the escrow of the quantized amount, or an addition or multiplication
    overflows.  Its third requirement ("Amount too small after quantization") and
    the requirement of [_createMatch] ("zero match") never fail. *)
Theorem X12_placeOrder_fails_for_five_reasons_only env side timeControl amount s :
  placeOrder env side timeControl amount s ≠ OutOfGas ∧
  (∀ reason, placeOrder env side timeControl amount s = Revert reason →
     reason ∈ ["EnforcedPause"; "Invalid side"; "Amount below minimum tick size";
               "SafeERC20FailedOperation"; arithmetic_panic]) ∧
  (_paused s = true → placeOrder env side timeControl amount s = Revert "EnforcedPause") ∧
  (_paused s = false → 1 < side →
     placeOrder env side timeControl amount s = Revert "Invalid side") ∧
  (_paused s = false → side ≤ 1 → amount < tickSize →
     placeOrder env side timeControl amount s = Revert "Amount below minimum tick size") ∧
  (_paused s = false → side ≤ 1 → tickSize ≤ amount →
   token_ok env s (SafeTransferFrom (msg_sender env) (quantizeAmount amount)) = false →
     placeOrder env side timeControl amount s = Revert "SafeERC20FailedOperation").
Proof.
  split; [apply placeOrder_budget|].
  unfold placeOrder, quantizeAmount. rewrite enqueueOrder_unfolds.
  split; [|split; [|split; [|split]]].
  - intros reason.
    destruct (_paused s); [intros [= <-]; set_solver|].
    destruct (negb (side <=? 1)); [intros [= <-]; set_solver|].
    destruct (negb (tickSize <=? amount)); [intros [= <-]; set_solver|].
    destruct (negb (token_ok _ _ _)); [intros [= <-]; set_solver|].
    intros Hrevert.
    assert (reason = arithmetic_panic) as ->; [|set_solver].
    destruct (checked_add_inv
                (OrderbookLevel.totalAmount
                   (orderbookLevels s).[(timeControl, side, _quantizeAmount amount)])
                (_quantizeAmount amount)) as [[Hadd _] | Hadd];
      rewrite Hadd in Hrevert; cbn [mbind outcome_bind] in Hrevert; [|congruence].
    match type of Hrevert with
    | (_attemptMatch env ?orderId ?s1 ≫= _) = _ =>
      pose proof (_attemptMatch_keeps (λ _, True) (λ _, True)
                    ltac:(done) ltac:(done) ltac:(done) env orderId s1
                    ltac:(done) I) as Hmatch;
        destruct (_attemptMatch env orderId s1); cbn in Hrevert, Hmatch; congruence
    end.
  - by intros ->.
  - intros -> Hside. by destruct (Z.leb_spec side 1); [lia|].
  - intros -> Hside Hamount. destruct (Z.leb_spec side 1); [|lia].
    by destruct (Z.leb_spec tickSize amount); [lia|].
  - intros -> Hside Hamount ->. destruct (Z.leb_spec side 1); [|lia].
    by destruct (Z.leb_spec tickSize amount); [|lia].
Qed.

(** X13.  A call of [placeOrder] that returns has queued the order at the level
    of its own side, time control and quantized amount, and has added the
    quantized amount to the aggregate of that level.  Matching, which runs in the
    same call, writes to the levels of the opposite side only: whatever part of
    the order is filled at once, the order stays in the queue of its level and
    its whole amount stays in the aggregate, and every other level of its side
    is as it was before the call. *)
Theorem X13_placeOrder_queues_the_order_at_its_own_level env side timeControl amount s
    orderId s' :
  placeOrder env side timeControl amount s = Ok (orderId, s') →
  let quantized := quantizeAmount amount in
  let level := getOrderbookLevel timeControl side quantized s in
  let level' := getOrderbookLevel timeControl side quantized s' in
  orderId = keccak256 [msg_sender env; side; quantized; timeControl;
                       block_timestamp env; block_number env] ∧
  OrderbookLevel.orderIds level' = OrderbookLevel.orderIds level ++ [orderId] ∧
  OrderbookLevel.totalAmount level' = OrderbookLevel.totalAmount level + quantized ∧
  (∀ timeControl' tick,
     (timeControl', tick) ≠ (timeControl, quantized) →
     getOrderbookLevel timeControl' side tick s' = getOrderbookLevel timeControl' side tick s).
Proof.
  unfold placeOrder, quantizeAmount, getOrderbookLevel. rewrite enqueueOrder_unfolds.
  destruct (_paused s); [done|].
  destruct (Z.leb_spec side 1) as [Hside |]; [|done].
  destruct (negb (tickSize <=? amount)); [done|].
  destruct (negb (token_ok _ _ _)); [done|].
  destruct (checked_add_inv
              (OrderbookLevel.totalAmount
                 (orderbookLevels s).[(timeControl, side, _quantizeAmount amount)])
              (_quantizeAmount amount)) as [[-> _] | ->]; [|done].
  cbn [negb mbind outcome_bind].
  match goal with
  | |- (_attemptMatch env ?id ?s1 ≫= _) = _ → _ => set (queued := s1); set (placed := id)
  end.
  assert (returnsOrPanics (_attemptMatch env placed queued)
            (λ t, ∀ timeControl' tick,
               (orderbookLevels t).[(timeControl', side, tick)]
               = (orderbookLevels queued).[(timeControl', side, tick)])) as Hkeeps.
  { apply (_attemptMatch_keeps _ (λ key, snd (fst key) ≠ side)).
    - intros id f t Hsame. exact Hsame.
    - intros [[tc sd] tk] f t Hkey Hsame timeControl' tick.
      unfold modifyLevel. cbn [orderbookLevels set_orderbookLevels].
      rewrite sload_insert_ne; [apply Hsame|]. cbn in Hkey. congruence.
    - intros env' whiteOrderId blackOrderId matchAmount t t' Hpos Hsame Hok.
      pose proof (_createMatch_panics env' whiteOrderId blackOrderId matchAmount t Hpos)
        as Hbook.
      rewrite Hok in Hbook. destruct Hbook as [-> _]. exact Hsame.
    - intros timeControl' tick. cbn. unfold queued, placed. cbn.
      rewrite sload_insert_eq. cbn. destruct (Z.eqb_spec side 0); lia.
    - done. }
  destruct (_attemptMatch env placed queued) as [matched | |]; cbn [mbind outcome_bind];
    [| done | done].
  intros [= <- <-]. cbn zeta. cbn in Hkeeps.
  rewrite !Hkeeps. unfold queued. cbn [orderbookLevels set_orderbookLevels].
  rewrite !sload_insert_eq. cbn. do 3 (split; [done|]).
  intros timeControl' tick Hother. rewrite Hkeeps. cbn.
  rewrite sload_insert_ne; [done | congruence].
Qed.

(** Alice's order takes Bob's resting order in full and is filled at once; it is
    still the queue of its level, whose aggregate is its whole amount. *)
Lemma X13_placeOrder_queues_the_order_at_its_own_level_witness :
  Order.status (getOrder aliceTaker Scenario.plainMatched) = 2 ∧
  OrderbookLevel.orderIds
    (getOrderbookLevel Scenario.blitz 1 (quantizeAmount 10000000) Scenario.plainMatched)
    = [aliceTaker] ∧
  OrderbookLevel.totalAmount
    (getOrderbookLevel Scenario.blitz 1 (quantizeAmount 10000000) Scenario.plainMatched)
    = 10000000.
Proof.
  destruct (X13_placeOrder_queues_the_order_at_its_own_level (Scenario.sentBy Scenario.alice)
              1 Scenario.blitz 10000000 bobResting aliceTaker Scenario.plainMatched)
    as (_ & Hqueue & Htotal & _); [evaluate|].
  split; [evaluate|]. rewrite Hqueue, Htotal. split; evaluate.
Defined.

(** ** Cancelling an order *)

(** Swap-and-pop removes the element at the index and keeps all the others,
    though not their order. *)
Lemma swapPop_removes (i : nat) (ids : list bytes32) (x : bytes32) :
  ids !! i = Some x → ids ≡ₚ x :: swapPop i ids.
Proof.
  intros Hi. unfold swapPop.
  destruct (last ids) as [tail |] eqn:Hlast.
  2:{ apply last_None in Hlast. subst. done. }
  apply last_Some in Hlast as [init ->].
  destruct (decide (i < length init)%nat) as [Hin | Hlast].
  - rewrite insert_app_l by done. rewrite List.removelast_last.
    rewrite lookup_app_l in Hi by done.
    rewrite (delete_Permutation init i x Hi) at 1.
    rewrite insert_take_drop by done. rewrite delete_take_drop.
    cbn. constructor.
    rewrite <- (Permutation_middle (take i init) (drop (S i) init) tail).
    by rewrite (Permutation_app_comm _ [tail]).
  - apply lookup_lt_Some in Hi as Hlen. rewrite length_app in Hlen. cbn in Hlen.
    assert (i = length init) as -> by lia.
    rewrite list_lookup_middle in Hi by done. injection Hi as <-.
    rewrite insert_app_r_alt, Nat.sub_diag by lia. cbn.
    rewrite List.removelast_last. by rewrite Permutation_app_comm.
Qed.

Lemma indexOf_finds orderId ids : ∀ start,
  match indexOf orderId ids start with
  | Some i => (start ≤ i)%nat ∧ ids !! (i - start)%nat = Some orderId
  | None => orderId ∉ ids
  end.
Proof.
  induction ids as [| x ids IH]; intros start; cbn [indexOf]; [set_solver|].
  unfold bytes32_eqb. destruct (decide (x = orderId)) as [-> | Hne].
  - rewrite bool_decide_eq_true_2 by done. by rewrite Nat.sub_diag.
  - rewrite bool_decide_eq_false_2 by done.
    specialize (IH (S start)). destruct (indexOf orderId ids (S start)) as [i |].
    + destruct IH as [Hle Hi]. split; [lia|].
      replace (i - start)%nat with (S (i - S start)) by lia. done.
    + by intros [-> | Hin]%elem_of_cons.
Qed.

(** [cancelOrder], with its storage references resolved. *)
Lemma cancelOrder_unfolds env orderId s :
  let order := (orders s).[orderId] in
  let key := (Order.timeControl order, Order.side order, Order.tickAmount order) in
  let level := (orderbookLevels s).[key] in
  cancelOrder env orderId s =
  if negb (Order.player order =? msg_sender env) then Revert "Not order owner"
  else if negb ((Order.status order =? 0) || (Order.status order =? 1))
  then Revert "Cannot cancel filled or cancelled order"
  else
    unfilled ← checked_sub (Order.amount order) (Order.filledAmount order);
    total ← checked_sub (OrderbookLevel.totalAmount level) unfilled;
    let s' :=
      set_orderbookLevels
        (<[key := {| OrderbookLevel.tickAmount := OrderbookLevel.tickAmount level;
                     OrderbookLevel.orderIds :=
                       match indexOf orderId (OrderbookLevel.orderIds level) 0 with
                       | Some i => swapPop i (OrderbookLevel.orderIds level)
                       | None => OrderbookLevel.orderIds level
                       end;
                     OrderbookLevel.totalAmount := total |}]> (orderbookLevels s))
        (set_orders (<[orderId := Order.set_status 3 order]> (orders s)) s) in
    if (0 <? unfilled) && negb (token_ok env s' (SafeTransfer (msg_sender env) unfilled))
    then Revert "SafeERC20FailedOperation" else Ok s'.
Proof.
  intros order key level.
  unfold cancelOrder, tokenCall. rewrite !require_bind. fold order.
  destruct (Order.player order =? msg_sender env); [|done].
  destruct (_ || _); [|done]. cbn [negb].
  set (s1 := modifyOrder orderId (Order.set_status 3) s).
  assert ((orders s1).[orderId] = Order.set_status 3 order) as Horder
    by (unfold s1, modifyOrder; cbn; by rewrite sload_insert_eq).
  rewrite !Horder.
  cbn [Order.timeControl Order.side Order.tickAmount Order.amount Order.filledAmount
       Order.set_status].
  fold key. change (orderbookLevels s1) with (orderbookLevels s). fold level.
  destruct (checked_sub (Order.amount order) (Order.filledAmount order)) as [unfilled | |];
    cbn [mbind outcome_bind]; [| done | done].
  assert (∀ ids,
    (total ← checked_sub
               (OrderbookLevel.totalAmount
                  (orderbookLevels
                     (modifyLevel key (λ l, OrderbookLevel.set_orderIds ids l) s1)).[key])
               unfilled;
     (if 0 <? unfilled
      then tokenCall env (modifyLevel key (OrderbookLevel.set_totalAmount total)
                            (modifyLevel key (λ l, OrderbookLevel.set_orderIds ids l) s1))
             (SafeTransfer (msg_sender env) unfilled)
      else Ok tt);;
     Ok (modifyLevel key (OrderbookLevel.set_totalAmount total)
           (modifyLevel key (λ l, OrderbookLevel.set_orderIds ids l) s1)))
    = (total ← checked_sub (OrderbookLevel.totalAmount level) unfilled;
       let s' :=
         set_orderbookLevels
           (<[key := {| OrderbookLevel.tickAmount := OrderbookLevel.tickAmount level;
                        OrderbookLevel.orderIds := ids;
                        OrderbookLevel.totalAmount := total |}]> (orderbookLevels s))
           (set_orders (<[orderId := Order.set_status 3 order]> (orders s)) s) in
       if (0 <? unfilled) && negb (token_ok env s' (SafeTransfer (msg_sender env) unfilled))
       then Revert "SafeERC20FailedOperation" else Ok s')) as Hrest.
  { intros ids. unfold modifyLevel, tokenCall. cbn [orderbookLevels set_orderbookLevels].
    rewrite sload_insert_eq. change (orderbookLevels s1) with (orderbookLevels s). fold level.
    cbn [OrderbookLevel.totalAmount OrderbookLevel.set_orderIds].
    destruct (checked_sub _ _) as [total | |]; cbn [mbind outcome_bind]; [| done | done].
    rewrite insert_insert_eq.
    match goal with
    | |- context [Ok (set_orderbookLevels ?m (set_orderbookLevels ?m' s1))] =>
      change (set_orderbookLevels m (set_orderbookLevels m' s1))
        with (set_orderbookLevels m
                (set_orders (<[orderId := Order.set_status 3 order]> (orders s)) s))
    end.
    destruct (0 <? unfilled); [|done]. cbn [andb].
    rewrite require_bind. by destruct (token_ok _ _ _). }
  destruct (indexOf orderId (OrderbookLevel.orderIds level) 0) as [i |].
  - unfold tokenCall in Hrest. apply Hrest.
  - clear Hrest. change (orderbookLevels s1) with (orderbookLevels s). fold level.
    destruct (checked_sub _ _) as [total | |]; cbn [mbind outcome_bind]; [| done | done].
    unfold modifyLevel, tokenCall.
    change (orderbookLevels s1) with (orderbookLevels s). fold level.
    match goal with
    | |- context [Ok (set_orderbookLevels ?m s1)] =>
      change (set_orderbookLevels m s1)
        with (set_orderbookLevels m
                (set_orders (<[orderId := Order.set_status 3 order]> (orders s)) s))
    end.
    destruct (0 <? unfilled); [|done]. cbn [andb].
    rewrite require_bind. by destruct (token_ok _ _ _).
Qed.

(** X14.  [cancelOrder] is for the owner of the order, and for an order that is
    open or partially filled; an identifier that no order was stored under
    belongs to the zero address, so no caller can cancel it.  A cancellation
    that returns has marked the order as cancelled and left its other fields as
    they were, has removed one occurrence of the order from the queue of its
    level (the other orders stay queued, not always in their former order), has
    taken the unfilled amount off the aggregate of that level, and has had the
    token accept the refund of the unfilled amount, if it is not zero, after
    all these writes.  It has
    written to no other order and no other level, and the same order cannot be
    cancelled again. *)
Theorem X14_cancelOrder_refunds_the_unfilled_amount env orderId s :
  let order := getOrder orderId s in
  let key := (Order.timeControl order, Order.side order, Order.tickAmount order) in
  let level := (orderbookLevels s).[key] in
  let unfilled := Order.amount order - Order.filledAmount order in
  (Order.player order ≠ msg_sender env →
     cancelOrder env orderId s = Revert "Not order owner") ∧
  (Order.player order = msg_sender env → Order.status order ≠ 0 → Order.status order ≠ 1 →
     cancelOrder env orderId s = Revert "Cannot cancel filled or cancelled order") ∧
  (∀ s', cancelOrder env orderId s = Ok s' →
     Order.player order = msg_sender env ∧
     getOrder orderId s' = Order.set_status 3 order ∧
     (∀ other, other ≠ orderId → getOrder other s' = getOrder other s) ∧
     OrderbookLevel.totalAmount (orderbookLevels s').[key]
       = OrderbookLevel.totalAmount level - unfilled ∧
     0 ≤ unfilled ≤ OrderbookLevel.totalAmount level ∧
     (orderId ∈ OrderbookLevel.orderIds level →
        OrderbookLevel.orderIds level
          ≡ₚ orderId :: OrderbookLevel.orderIds (orderbookLevels s').[key]) ∧
     (orderId ∉ OrderbookLevel.orderIds level →
        OrderbookLevel.orderIds (orderbookLevels s').[key] = OrderbookLevel.orderIds level) ∧
     (∀ key', key' ≠ key → (orderbookLevels s').[key'] = (orderbookLevels s).[key']) ∧
     (0 < unfilled → token_ok env s' (SafeTransfer (msg_sender env) unfilled) = true) ∧
     games s' = games s ∧ bettingPools s' = bettingPools s ∧
     pendingPayouts s' = pendingPayouts s ∧ tokenFeeBalance s' = tokenFeeBalance s ∧
     cancelOrder env orderId s' = Revert "Cannot cancel filled or cancelled order").
Proof.
  intros order key level unfilled. unfold getOrder in *.
  rewrite cancelOrder_unfolds. fold order key level.
  split; [|split].
  - intros Hother. by destruct (Z.eqb_spec (Order.player order) (msg_sender env)).
  - intros -> H0 H1. rewrite Z.eqb_refl.
    destruct (Z.eqb_spec (Order.status order) 0); [done|].
    by destruct (Z.eqb_spec (Order.status order) 1).
  - intros s'.
    destruct (Z.eqb_spec (Order.player order) (msg_sender env)) as [Hown |]; [|done].
    destruct (_ || _); [|done]. cbn [negb].
    destruct (checked_sub_inv (Order.amount order) (Order.filledAmount order))
      as [[-> Hfilled] | ->]; [|done].
    fold unfilled. cbn [mbind outcome_bind].
    destruct (checked_sub_inv (OrderbookLevel.totalAmount level) unfilled)
      as [[-> Htotal] | ->]; [|done].
    cbn [mbind outcome_bind]. cbn zeta.
    set (final := set_orderbookLevels _ _).
    destruct (Z.ltb_spec 0 unfilled) as [Hpos | Hnone];
      [destruct (token_ok env final _) eqn:Htoken; [|done] |];
      cbn [andb negb]; intros [= <-].
    all: assert (cancelOrder env orderId final
                 = Revert "Cannot cancel filled or cancelled order") as Hagain
      by (rewrite cancelOrder_unfolds; unfold final; cbn [orders set_orderbookLevels set_orders];
          rewrite sload_insert_eq; cbn [Order.player Order.status Order.set_status];
          fold order; rewrite Hown, Z.eqb_refl; done).
    all: pose proof (indexOf_finds orderId (OrderbookLevel.orderIds level) 0) as Hindex.
    all: unfold final; cbn [orders orderbookLevels set_orderbookLevels set_orders
                            games bettingPools pendingPayouts tokenFeeBalance].
    all: rewrite !sload_insert_eq; cbn [OrderbookLevel.totalAmount OrderbookLevel.orderIds].
    all: split; [done|]; split; [done|].
    all: split; [intros other Hother; by rewrite sload_insert_ne|].
    all: split; [done|]; split; [unfold unfilled in *; lia|].
    all: split; [intros Hin;
                 destruct (indexOf orderId (OrderbookLevel.orderIds level) 0) as [i |];
                 [destruct Hindex as [_ Hi]; rewrite Nat.sub_0_r in Hi;
                  by apply swapPop_removes | done] |].
    all: split; [intros Hout;
                 destruct (indexOf orderId (OrderbookLevel.orderIds level) 0) as [i |];
                 [destruct Hindex as [_ Hi]; rewrite Nat.sub_0_r in Hi;
                  by apply list_elem_of_lookup_2 in Hi | done] |].
    all: split; [intros key' Hother; by rewrite sload_insert_ne|].
    all: split; [first [done | lia] | done].
Qed.

(** With nothing queued on the opposite side of its time control, an order finds
    no match: [_attemptMatch] leaves the storage as it is, unless a tick of the
    band overflows. *)
Lemma _attemptMatch_finds_nothing env orderId s :
  (∀ tick,
     (orderbookLevels s).[(Order.timeControl (orders s).[orderId],
                           (if Order.side (orders s).[orderId] =? 0 then 1 else 0), tick)]
     = OrderbookLevel.zero) →
  returnsOrPanics (_attemptMatch env orderId s) (λ s', s' = s).
Proof.
  intros Hempty. unfold _attemptMatch. destruct (negb _); [done|].
  rewrite Hempty. cbn [OrderbookLevel.totalAmount OrderbookLevel.zero Z.ltb Z.compare
                       mbind outcome_bind].
  destruct (_ || _); [|done]. hoare_checked.
  destruct (0 <? _); [|done].
  unfold _matchNearestLevels.
  apply (nearestLoops_keeps _ (λ st, st = s)); [|done].
  intros tick remainingAmount st ->. unfold matchTick. by rewrite Hempty.
Qed.

(** X15.  An order placed while nothing was ever queued on the opposite side of
    its time control rests in the book unfilled.  When its owner then cancels
    it, the queue and the aggregate of its level are again what they were before
    the order was placed, the token is asked to refund exactly the quantized
    amount that was escrowed, and the order is kept on record as cancelled. *)
Theorem X15_place_then_cancel_restores_the_level env side timeControl amount s orderId s1 :
  let quantized := quantizeAmount amount in
  let level := getOrderbookLevel timeControl side quantized s in
  (∀ tick, getOrderbookLevel timeControl (if side =? 0 then 1 else 0) tick s
           = OrderbookLevel.zero) →
  0 ≤ OrderbookLevel.totalAmount level →
  placeOrder env side timeControl amount s = Ok (orderId, s1) →
  Order.status (getOrder orderId s1) = 0 ∧
  Order.filledAmount (getOrder orderId s1) = 0 ∧
  Order.amount (getOrder orderId s1) = quantized ∧
  (∀ s2, cancelOrder env orderId s1 = Ok s2 →
     token_ok env s2 (SafeTransfer (msg_sender env) quantized) = true ∧
     OrderbookLevel.orderIds (getOrderbookLevel timeControl side quantized s2)
       = OrderbookLevel.orderIds level ∧
     OrderbookLevel.totalAmount (getOrderbookLevel timeControl side quantized s2)
       = OrderbookLevel.totalAmount level ∧
     Order.status (getOrder orderId s2) = 3) ∧
  ((∀ t, token_ok env t (SafeTransfer (msg_sender env) quantized) = true) →
   ∃ s2, cancelOrder env orderId s1 = Ok s2).
Proof.
  intros quantized level Hempty Htotal.
  unfold placeOrder, quantizeAmount, getOrderbookLevel, getOrder in *.
  rewrite enqueueOrder_unfolds. fold quantized.
  destruct (_paused s); [done|].
  destruct (negb (side <=? 1)); [done|].
  destruct (Z.leb_spec tickSize amount) as [Hamount |]; [|done].
  destruct (negb (token_ok _ _ _)); [done|]. cbn [negb].
  pose proof (_quantizeAmount_pos amount Hamount) as Hpos. fold quantized in Hpos.
  destruct (checked_add_inv (OrderbookLevel.totalAmount level) quantized)
    as [[Hadd _] | Hadd]; unfold level, quantized in Hadd |- *; rewrite Hadd; [|done].
  fold quantized. fold level. cbn [mbind outcome_bind].
  match goal with
  | |- (_attemptMatch env ?id ?s0 ≫= _) = _ → _ =>
    remember s0 as queued eqn:Hqueued; remember id as placed eqn:Hplaced;
    pose proof (_attemptMatch_finds_nothing env placed queued) as Hnothing
  end.
  assert ((orders queued).[placed] =
          {| Order.id := placed; Order.player := msg_sender env; Order.side := side;
             Order.amount := quantized; Order.tickAmount := quantized;
             Order.timeControl := timeControl; Order.createdAt := block_timestamp env;
             Order.filledAmount := 0; Order.status := 0 |}) as Horder.
  { subst queued placed. cbn [orders set_orderbookLevels set_playerOrders set_orders].
    by rewrite sload_insert_eq. }
  assert ((orderbookLevels queued).[(timeControl, side, quantized)] =
          {| OrderbookLevel.tickAmount :=
               if OrderbookLevel.tickAmount level =? 0
               then quantized else OrderbookLevel.tickAmount level;
             OrderbookLevel.orderIds := OrderbookLevel.orderIds level ++ [placed];
             OrderbookLevel.totalAmount := OrderbookLevel.totalAmount level + quantized |})
    as Hlevel.
  { subst queued placed. cbn [orderbookLevels set_orderbookLevels].
    by rewrite sload_insert_eq. }
  destruct (_attemptMatch env placed queued) as [matched | |]; cbn [mbind outcome_bind];
    [| done | done].
  cbn in Hnothing. intros [= <- <-].
  rewrite Hnothing.
  2:{ intros tick. rewrite Horder. cbn [Order.timeControl Order.side].
      rewrite Hqueued at 1. cbn [orderbookLevels set_orderbookLevels].
      rewrite sload_insert_ne; [apply Hempty|].
      destruct (Z.eqb_spec side 0); intros [= ]; lia. }
  rewrite Horder. cbn [Order.status Order.filledAmount Order.amount].
  do 3 (split; [done|]).
  assert (match indexOf placed (OrderbookLevel.orderIds level ++ [placed]) 0 with
          | Some i => swapPop i (OrderbookLevel.orderIds level ++ [placed])
          | None => OrderbookLevel.orderIds level ++ [placed]
          end = OrderbookLevel.orderIds level) as Hqueue.
  { pose proof (indexOf_finds placed (OrderbookLevel.orderIds level ++ [placed]) 0) as Hindex.
    destruct (indexOf _ _ _) as [i |]; [| set_solver].
    destruct Hindex as [_ Hi]. rewrite Nat.sub_0_r in Hi.
    unfold swapPop. rewrite last_snoc.
    rewrite list_insert_id by done. apply List.removelast_last. }
  rewrite cancelOrder_unfolds. rewrite !Horder.
  cbn [Order.player Order.status Order.timeControl Order.side Order.tickAmount
       Order.amount Order.filledAmount].
  rewrite Z.eqb_refl, Hlevel.
  cbn [negb orb Z.eqb OrderbookLevel.totalAmount OrderbookLevel.orderIds
       OrderbookLevel.tickAmount].
  rewrite (checked_sub_ok quantized 0) by lia. cbn [mbind outcome_bind].
  rewrite Z.sub_0_r, checked_sub_ok by lia. cbn [mbind outcome_bind]. cbn zeta.
  rewrite Hqueue. replace (OrderbookLevel.totalAmount level + quantized - quantized)
    with (OrderbookLevel.totalAmount level) by lia.
  destruct (Z.ltb_spec 0 quantized); [|lia]. cbn [andb].
  split.
  - intros s2. destruct (token_ok env _ _) eqn:Htoken; [|done]. cbn [negb].
    intros [= <-]. split; [exact Htoken|].
    cbn. by rewrite !sload_insert_eq.
  - intros Htoken. rewrite Htoken. by eexists.
Qed.

(** Alice asks for a white order of 25 USDC on the fresh contract: 20 USDC are
    escrowed and queued; she cancels, and the level is empty again. *)
Lemma X15_place_then_cancel_restores_the_level_witness :
  ∃ s1 s2,
    placeOrder (Scenario.sentBy Scenario.alice) 0 Scenario.blitz 25000000
      (deployed Scenario.admin) = Ok (aliceResting, s1) ∧
    Order.amount (getOrder aliceResting s1) = 20000000 ∧
    cancelOrder (Scenario.sentBy Scenario.alice) aliceResting s1 = Ok s2 ∧
    OrderbookLevel.orderIds
      (getOrderbookLevel Scenario.blitz 0 (quantizeAmount 25000000) s2) = [] ∧
    OrderbookLevel.totalAmount
      (getOrderbookLevel Scenario.blitz 0 (quantizeAmount 25000000) s2) = 0.
Proof.
  set (s1 := Scenario.stateOf (placeOrder (Scenario.sentBy Scenario.alice) 0 Scenario.blitz
                                 25000000 (deployed Scenario.admin))).
  assert (placeOrder (Scenario.sentBy Scenario.alice) 0 Scenario.blitz 25000000
            (deployed Scenario.admin) = Ok (aliceResting, s1)) as Hplace by evaluate.
  destruct (X15_place_then_cancel_restores_the_level (Scenario.sentBy Scenario.alice) 0
              Scenario.blitz 25000000 (deployed Scenario.admin) aliceResting s1)
    as (_ & _ & Hamount & Hrestored & Hcancel).
  - intros tick. unfold getOrderbookLevel, sload. cbn. by rewrite lookup_empty.
  - evaluate.
  - exact Hplace.
  - destruct Hcancel as [s2 Hcancel]; [done|].
    destruct (Hrestored s2 Hcancel) as (_ & Hqueue & Htotal & _).
    exists s1, s2. split; [exact Hplace|]. split; [rewrite Hamount; evaluate|].
    split; [exact Hcancel|]. rewrite Hqueue, Htotal. split; evaluate.
Defined.

(** * Invariants of the reachable storage *)

Lemma settles_refl s : settles s s.
Proof. unfold settles. repeat split; auto. Qed.

Lemma settles_trans s1 s2 s3 : settles s1 s2 → settles s2 s3 → settles s1 s3.
Proof.
  intros (Hf & Hi & Hs & Hg & Hp & Hb) (Hf' & Hi' & Hs' & Hg' & Hp' & Hb').
  unfold settles. split; [congruence|]. split; [congruence|]. split; [congruence|].
  split; [|split].
  - intros g. destruct (Hg g), (Hg' g). split; congruence.
  - intros g. destruct (Hp g) as [Ht Hfee], (Hp' g) as [Ht' Hfee']. split; [congruence|].
    destruct Hfee' as [Hfee' | Hfee']; [|by right].
    rewrite Hfee'. exact Hfee.
  - intros g. by rewrite Hb', Hb.
Qed.

Lemma settles_invariant s s' : settles s s' → invariant s → invariant s'.
Proof.
  intros (Hf & Hi & Hs & Hg & Hp & Hb) (Hfee & Hpools & Hlogs & Hbets & Hseen & Hdup).
  unfold invariant, feeCapped, poolsCapped, logsBounded, betsIndexed.
  rewrite Hf, Hi, Hs. split; [done|]. split; [|split; [|split; [|done]]].
  - intros g. destruct (Hp g) as [-> [-> | ->]]; destruct (Hpools g); lia.
  - intros g. destruct (Hg g) as [-> ->]. apply Hlogs.
  - intros g bet Hin.
    assert (GameBet.player bet ∈ map GameBet.player (gameBets s).[g]) as Hplayer
      by (rewrite <- Hb; by apply list_elem_of_fmap_2).
    apply list_elem_of_fmap in Hplayer as (bet0 & -> & Hin0). by apply Hbets.
Qed.

(** The elementary writes of the settling calls. *)
Ltac settle := unfold settles; cbn; split_and!; try done; auto.

Lemma settles_emit e s : settles s (emit e s).
Proof. settle. Qed.

Lemma settles_pending v s : settles s (set_pendingPayouts v s).
Proof. settle. Qed.

Lemma settles_fees v s : settles s (set_tokenFeeBalance v s).
Proof. settle. Qed.

Lemma settles_modifyBet gameId i f s :
  (∀ bet, GameBet.player (f bet) = GameBet.player bet) →
  settles s (modifyBet gameId i f s).
Proof.
  intros Hf. settle. intros g. rewrite sload_insert.
  destruct (decide (gameId = g)) as [<- |]; [|done].
  generalize (gameBets s).[gameId]. intros bets. revert i.
  induction bets as [| bet bets IH]; intros [| i]; cbn; [done | done | by rewrite Hf |].
  by rewrite IH.
Qed.

Lemma settles_modifyPool gameId f s :
  (∀ pool, BettingPool.totalAmount (f pool) = BettingPool.totalAmount pool ∧
           (BettingPool.houseFee (f pool) = BettingPool.houseFee pool
            ∨ BettingPool.houseFee (f pool) = 0)) →
  settles s (modifyPool gameId f s).
Proof.
  intros Hf. settle. intros g. rewrite sload_insert.
  destruct (decide (gameId = g)) as [<- |]; [apply Hf | auto].
Qed.

Lemma settles_games gameId f s :
  (∀ game, Game.pgn (f game) = Game.pgn game ∧ Game.moveCount (f game) = Game.moveCount game) →
  settles s (set_games (<[gameId := f (games s).[gameId]]> (games s)) s).
Proof.
  intros Hf. settle. intros g. rewrite sload_insert.
  destruct (decide (gameId = g)) as [<- |]; [apply Hf | auto].
Qed.

Lemma settles_game gameId game s :
  Game.pgn game = Game.pgn (games s).[gameId] →
  Game.moveCount game = Game.moveCount (games s).[gameId] →
  settles s (set_games (<[gameId := game]> (games s)) s).
Proof.
  intros Hpgn Hcount. settle. intros g. rewrite sload_insert.
  destruct (decide (gameId = g)) as [<- |]; auto.
Qed.

Lemma settles_creditPayout player amount s s' :
  creditPayout player amount s = Ok s' → settles s s'.
Proof.
  unfold creditPayout. destruct (checked_add _ _); cbn; [| done | done].
  intros [= <-]. apply settles_pending.
Qed.

Lemma settles_refundLoop env gameId n : ∀ i s s',
  refundLoop n i env gameId s = Ok s' → settles s s'.
Proof.
  induction n as [| n IH]; intros i s s'; cbn [refundLoop].
  - intros [= <-]. apply settles_refl.
  - destruct (_ !! i) as [bet |]; [|done].
    destruct (creditPayout _ _ _) as [s1 | |] eqn:Hcredit; cbn [mbind outcome_bind];
      [| done | done].
    intros Hloop. apply IH in Hloop. apply settles_creditPayout in Hcredit.
    eapply settles_trans; [|exact Hloop].
    eapply settles_trans; [|apply settles_emit].
    eapply settles_trans; [|exact Hcredit].
    by apply settles_modifyBet.
Qed.

Lemma settles_payoutLoop env gameId winner netPool n : ∀ i s s',
  payoutLoop n i env gameId winner netPool s = Ok s' → settles s s'.
Proof.
  induction n as [| n IH]; intros i s s'; cbn [payoutLoop].
  - intros [= <-]. apply settles_refl.
  - destruct (_ !! i) as [bet |]; [|done].
    destruct (_ =? winner).
    + destruct (creditPayout _ _ _) as [s1 | |] eqn:Hcredit; cbn [mbind outcome_bind];
        [| done | done].
      intros Hloop. apply IH in Hloop. apply settles_creditPayout in Hcredit.
      eapply settles_trans; [|exact Hloop].
      eapply settles_trans; [|apply settles_emit].
      eapply settles_trans; [|exact Hcredit].
      by apply settles_modifyBet.
    + intros Hloop. apply IH in Hloop.
      eapply settles_trans; [|exact Hloop].
      eapply settles_trans; [|apply settles_emit].
      by apply settles_modifyBet.
Qed.

Lemma settles_unwindLoop env gameId n : ∀ i s s',
  unwindLoop n i env gameId s = Ok s' → settles s s'.
Proof.
  induction n as [| n IH]; intros i s s'; cbn [unwindLoop].
  - intros [= <-]. apply settles_refl.
  - destruct (_ !! i) as [bet |]; [|done].
    destruct (_ =? 0); [|apply IH].
    destruct (creditPayout _ _ _) as [s1 | |] eqn:Hcredit; cbn [mbind outcome_bind];
      [| done | done].
    intros Hloop. apply IH in Hloop. apply settles_creditPayout in Hcredit.
    eapply settles_trans; [|exact Hloop].
    eapply settles_trans; [|apply settles_emit].
    eapply settles_trans; [|exact Hcredit].
    by apply settles_modifyBet.
Qed.

Lemma settles_resolveBets env gameId result s s' :
  _resolveBets env gameId result s = Ok s' → settles s s'.
Proof.
  unfold _resolveBets. rewrite !require_bind.
  destruct (negb _); [|done]. destruct (_ =? 2)%nat; [|done].
  assert (settles s (modifyPool gameId (BettingPool.set_resolved true) s)) as Hflag
    by (apply settles_modifyPool; auto).
  destruct (result =? RESULT_DRAW).
  - destruct (refundLoop _ _ _ _ _) as [s1 | |] eqn:Hloop; cbn [mbind outcome_bind];
      [| done | done].
    intros [= <-]. apply settles_refundLoop in Hloop.
    eapply settles_trans; [exact Hflag|]. eapply settles_trans; [exact Hloop|].
    eapply settles_trans; [|apply settles_emit]. apply settles_modifyPool. auto.
  - unfold _creditFee.
    destruct (checked_add _ _) as [fee | |]; cbn [mbind outcome_bind]; [| done | done].
    destruct (checked_sub _ _) as [netPool | |]; cbn [mbind outcome_bind]; [| done | done].
    intros Hloop. apply settles_payoutLoop in Hloop.
    eapply settles_trans; [exact Hflag|]. eapply settles_trans; [|exact Hloop].
    eapply settles_trans; [|apply settles_fees].
    eapply settles_trans; [|apply settles_emit]. apply settles_modifyPool. auto.
Qed.

(** The calls that settle. *)
Lemma execute_settles env call s s' :
  match call with
  | CreateGame _ _ _ | MakeMove _ _ | PlaceBet _ _ | PlaceOrder _ _ _
  | SetHouseFeePercentage _ => False
  | _ => True
  end →
  execute env call s = Ok s' → settles s s'.
Proof.
  destruct call; try done; intros _; cbn [execute].
  - (* startGame *)
    unfold startGame, gameExists, onlyGamePlayer. repeat step_require. intros [= <-].
    eapply settles_trans; [|apply settles_emit].
    apply (settles_games gameId
             (λ game, Game.set_startedAt (block_timestamp env) (Game.set_status 1 game))). auto.
  - (* submitGameResult *)
    unfold submitGameResult, gameExists, onlyGamePlayer. repeat step_require.
    match goal with
    | |- (if _ then _ else Ok ?voted) = _ → _ => assert (settles s voted) as Hvoted by settle
    end.
    destruct (_ && _); [|by intros [= <-]].
    destruct (_resolveBets _ _ _ _) as [s1 | |] eqn:Hresolve; cbn [mbind outcome_bind];
      [| done | done].
    intros [= <-]. apply settles_resolveBets in Hresolve.
    eapply settles_trans; [|apply settles_emit].
    eapply settles_trans; [|exact Hresolve].
    eapply settles_trans; [exact Hvoted|].
    unfold finishGame.
    eapply settles_trans;
      [| apply (settles_games gameId
                  (λ game, Game.set_finishedAt (block_timestamp env)
                             (Game.set_result result (Game.set_status 2 game)))); auto].
    settle.
  - (* resolveDisputedGame *)
    unfold resolveDisputedGame, onlyOwner, gameExists. repeat step_require.
    destruct (_resolveBets _ _ _ _) as [s1 | |] eqn:Hresolve; cbn [mbind outcome_bind];
      [| done | done].
    intros [= <-]. apply settles_resolveBets in Hresolve.
    eapply settles_trans; [|apply settles_emit].
    eapply settles_trans; [|exact Hresolve].
    unfold finishGame.
    eapply settles_trans;
      [| apply (settles_games gameId
                  (λ game, Game.set_finishedAt (block_timestamp env)
                             (Game.set_result result (Game.set_status 2 game)))); auto].
    settle.
  - (* claimPayout *)
    unfold claimPayout, tokenCall. repeat step_require. intros [= <-]. settle.
  - (* withdrawTokenFees *)
    unfold withdrawTokenFees, onlyOwner, tokenCall. repeat step_require. intros [= <-]. settle.
  - (* cancelOrder *)
    rewrite cancelOrder_unfolds. repeat (case_match; try done).
    all: destruct (checked_sub _ _); cbn [mbind outcome_bind]; try done.
    all: destruct (checked_sub _ _); cbn [mbind outcome_bind]; try done.
    all: cbn zeta; case_match; try done; intros [= <-]; settle.
  - (* setBettingTierAmounts *)
    unfold setBettingTierAmounts, onlyOwner. repeat step_require. intros [= <-]. settle.
  - (* pause *)
    unfold pause, onlyOwner, whenNotPaused. repeat step_require. intros [= <-]. settle.
  - (* unpause *)
    unfold unpause, onlyOwner. repeat step_require. intros [= <-]. settle.
  - (* pauseGame *)
    unfold pauseGame, onlyOwner, gameExists. repeat step_require.
    match goal with
    | |- (?unwinding ≫= _) = _ → _ =>
      destruct unwinding as [s1 | |] eqn:Hunwind; cbn [mbind outcome_bind]; [| done | done]
    end.
    intros [= <-].
    assert (settles (set_games (<[gameId := Game.set_status 2 (games s).[gameId]]> (games s)) s)
              s1) as Hs1.
    { cbn [gameBets set_games] in Hunwind. destruct (_ =? 2)%nat.
      - by apply settles_resolveBets in Hunwind.
      - destruct (unwindLoop _ _ _ _ _) as [s2 | |] eqn:Hloop; cbn [mbind outcome_bind] in Hunwind;
          [| done | done].
        injection Hunwind as <-. apply settles_unwindLoop in Hloop.
        eapply settles_trans; [exact Hloop|].
        eapply settles_trans; [|apply settles_emit]. apply settles_modifyPool. auto. }
    eapply settles_trans; [apply (settles_games gameId (Game.set_status 2)); auto|].
    eapply settles_trans; [exact Hs1|].
    eapply settles_trans; [|apply settles_emit].
    eapply settles_trans;
      [apply (settles_games gameId
                (λ game, Game.set_finishedAt (block_timestamp env)
                           (Game.set_result RESULT_DRAW game))); auto|].
    settle.
Qed.

(** A stake: the bet is pushed, its game is indexed for the player, and the
    amount is added to the pool. *)
Lemma stake_invariant env gameId player amount s s' :
  invariant s → 0 ≤ amount →
  addToPool gameId amount
    (_indexPlayerGame player gameId (pushBet gameId (newBet env gameId player amount) s))
    = Ok s' →
  invariant s'.
Proof.
  intros (Hfee & Hpools & Hlogs & Hbets & Hseen & Hdup) Hamount.
  unfold addToPool.
  destruct (checked_add _ _) as [total | |] eqn:Hadd; cbn [mbind outcome_bind]; [| done | done].
  destruct (checked_mul _ _) as [scaled | |] eqn:Hmul; cbn [mbind outcome_bind]; [| done | done].
  intros [= <-].
  unfold checked_add in Hadd. destruct (_ <=? _) in Hadd; [|done]. injection Hadd as <-.
  unfold checked_mul in Hmul. destruct (_ <=? _) in Hmul; [|done]. injection Hmul as <-.
  unfold invariant, feeCapped, poolsCapped, logsBounded, betsIndexed, _indexPlayerGame in *.
  destruct (negb (_playerSeenGame _).[(player, gameId)]) eqn:Hfresh;
    cbn [pushBet _playerSeenGame set_gameBets] in Hfresh; cbn.
  all: split; [done|]. all: split; [|split; [done|]].
  1,3: intros g; rewrite sload_insert; destruct (decide (gameId = g)) as [<- |]; [|apply Hpools];
    destruct (Hpools gameId); cbn; split; [apply Z.div_pos; nia|];
    match goal with
    | |- 10 * (?t * ?h / 10000) ≤ ?t =>
      pose proof (Z.mul_div_le (t * h) 10000 ltac:(lia)); nia
    end.
  - (* the game is new to the index of the player *)
    apply negb_true_iff in Hfresh.
    assert (gameId ∉ (playerGameIndex s).[player]) as Hnew
      by (intros Hin%Hseen; congruence).
    split; [|split].
    + intros g bet. rewrite !sload_insert.
      destruct (decide (gameId = g)) as [<- |].
      * intros [Hin | ->%list_elem_of_singleton]%elem_of_app.
        -- destruct (decide (player = GameBet.player bet)) as [Heq |];
             [apply elem_of_app; left; rewrite Heq|]; by apply Hbets.
        -- cbn. rewrite decide_True by done. apply elem_of_app. right. by constructor.
      * intros Hin. destruct (decide (player = GameBet.player bet)) as [Heq |];
          [apply elem_of_app; left; rewrite Heq|]; by apply Hbets.
    + intros p g. rewrite !sload_insert.
      destruct (decide (player = p)) as [<- |].
      * destruct (decide ((player, gameId) = (player, g))) as [[= <-] |].
        -- split; [done|]. intros _. apply elem_of_app. right. by constructor.
        -- rewrite elem_of_app, list_elem_of_singleton, Hseen. split; [|auto].
           intros [? | ->]; [done | congruence].
      * rewrite decide_False by congruence. apply Hseen.
    + intros p. rewrite sload_insert. destruct (decide (player = p)) as [<- |]; [|apply Hdup].
      apply NoDup_app. split; [apply Hdup|]. split; [|apply NoDup_singleton].
      by intros g Hin ->%list_elem_of_singleton.
  - (* the game is in the index of the player already *)
    apply negb_false_iff in Hfresh.
    split; [|split; [done | done]].
    intros g bet. rewrite !sload_insert.
    destruct (decide (gameId = g)) as [<- |]; [|apply Hbets].
    intros [Hin | ->%list_elem_of_singleton]%elem_of_app; [by apply Hbets|].
    cbn. by apply Hseen.
Qed.

(** A new game and its empty pool, written under [gameId]. *)
Lemma newGame_invariant gameId game pool s :
  Game.pgn game = EmptyString → Game.moveCount game = 0 →
  BettingPool.totalAmount pool = 0 → BettingPool.houseFee pool = 0 →
  invariant s →
  invariant (set_bettingPools (<[gameId := pool]> (bettingPools s))
               (set_games (<[gameId := game]> (games s)) s)).
Proof.
  intros Hpgn Hcount Htotal Hfee (Hrate & Hpools & Hlogs & Hindex).
  unfold invariant, feeCapped, poolsCapped, logsBounded, betsIndexed in *. cbn.
  split; [done|]. split; [|split; [|done]].
  - intros g. rewrite sload_insert. destruct (decide (gameId = g)); [lia | apply Hpools].
  - intros g. rewrite sload_insert. destruct (decide (gameId = g)); [|apply Hlogs].
    rewrite Hpgn, Hcount. cbn. unfold MAX_MOVES. lia.
Qed.

Lemma createGame_invariant env blackPlayer timeControl bettingTier s gameId s' :
  invariant s →
  createGame env blackPlayer timeControl bettingTier s = Ok (gameId, s') → invariant s'.
Proof.
  intros Hinv. unfold createGame, whenNotPaused. repeat step_require. intros [= <- <-].
  eapply settles_invariant; [apply settles_emit|]. by apply newGame_invariant.
Qed.

Lemma string_length_app (a b : string) :
  String.length (String.append a b) = (String.length a + String.length b)%nat.
Proof.
  induction a as [| ch a IH]; [done|].
  change (S (String.length (String.append a b)) = S (String.length a + String.length b)).
  by rewrite IH.
Qed.

Lemma makeMove_invariant env gameId move s s' :
  invariant s → makeMove env gameId move s = Ok s' → invariant s'.
Proof.
  intros Hinv. unfold makeMove, gameExists, onlyGamePlayer. repeat step_require.
  destruct (Z.ltb_spec (Game.moveCount (games s).[gameId]) MAX_MOVES) as [Hroom |];
    intros [= <-]; [| by apply (settles_invariant s); [apply settles_emit|]].
  destruct Hinv as (Hrate & Hpools & Hlogs & Hindex).
  unfold invariant, feeCapped, poolsCapped, logsBounded, betsIndexed in *. cbn.
  split; [done|]. split; [done|]. split; [|done].
  intros g. rewrite sload_insert. destruct (decide (gameId = g)) as [<- |]; [|apply Hlogs].
  destruct (Hlogs gameId) as [Hcount Hlength]. cbn. split; [lia|].
  apply Z.leb_le in Hreq2. unfold MAX_MOVE_BYTES in *.
  destruct (String.length (Game.pgn (games s).[gameId])) eqn:Hlen; [lia|].
  rewrite !string_length_app. cbn [String.length]. lia.
Qed.

Lemma placeBet_invariant env gameId amount s s' :
  invariant s → 0 ≤ amount → placeBet env gameId amount s = Ok s' → invariant s'.
Proof.
  intros Hinv Hamount. unfold placeBet, gameExists, gameNotFinished, whenNotPaused, tokenCall.
  repeat step_require.
  destruct (addToPool _ _ _) as [s1 | |] eqn:Hstake; cbn [mbind outcome_bind]; [| done | done].
  apply stake_invariant in Hstake; [| done | done].
  destruct (_ =? 2)%nat; intros [= <-].
  - eapply settles_invariant; [|exact Hstake].
    eapply settles_trans;
      [apply (settles_emit (BetPlaced gameId (msg_sender env) amount))|].
    eapply settles_trans; [|apply settles_emit].
    by apply (settles_game gameId _ (emit (BetPlaced gameId (msg_sender env) amount) s1)).
  - eapply settles_invariant; [apply settles_emit | exact Hstake].
Qed.

Lemma setHouseFeePercentage_invariant env fee s s' :
  invariant s → 0 ≤ fee → setHouseFeePercentage env fee s = Ok s' → invariant s'.
Proof.
  intros (Hrate & Hinv) Hfee. unfold setHouseFeePercentage, onlyOwner. repeat step_require.
  intros [= <-]. split; [|exact Hinv].
  unfold feeCapped. cbn. apply Z.leb_le in Hreq0. lia.
Qed.

Lemma _recordBet_invariant env gameId player amount s s' :
  invariant s → 0 ≤ amount → _recordBet env gameId player amount s = Ok s' → invariant s'.
Proof.
  intros Hinv Hamount. unfold _recordBet.
  destruct (addToPool _ _ _) as [s1 | |] eqn:Hstake; cbn [mbind outcome_bind]; [| done | done].
  intros [= <-]. apply stake_invariant in Hstake; [| done | done].
  eapply settles_invariant; [apply settles_emit | exact Hstake].
Qed.

Lemma _createMatch_invariant env whiteOrderId blackOrderId amount s s' :
  0 < amount → invariant s →
  _createMatch env whiteOrderId blackOrderId amount s = Ok s' → invariant s'.
Proof.
  intros Hamount Hinv. unfold _createMatch. rewrite require_bind.
  destruct (0 <? amount); [|done].
  match goal with
  | |- (?record ≫= _) = _ → _ =>
    destruct record as [s1 | |] eqn:Hwhite; cbn [mbind outcome_bind]; [| done | done]
  end.
  match goal with
  | |- (?record ≫= _) = _ → _ =>
    destruct record as [s2 | |] eqn:Hblack; cbn [mbind outcome_bind]; [| done | done]
  end.
  intros [= <-].
  match type of Hwhite with
  | _recordBet _ _ _ _
      (set_bettingPools (<[?g := ?pool]> _) (set_games (<[_ := ?game]> _) _)) = _ =>
    pose proof (newGame_invariant g game pool s eq_refl eq_refl eq_refl eq_refl Hinv) as Hnew
  end.
  apply _recordBet_invariant in Hwhite; [| exact Hnew | lia].
  apply _recordBet_invariant in Hblack; [| done | lia].
  eapply settles_invariant; [|exact Hblack].
  eapply settles_trans; [|apply settles_emit].
  eapply settles_trans; [|apply settles_emit].
  by apply settles_game.
Qed.

Lemma placeOrder_invariant env side timeControl amount s orderId s' :
  invariant s → placeOrder env side timeControl amount s = Ok (orderId, s') → invariant s'.
Proof.
  intros Hinv. unfold placeOrder. rewrite enqueueOrder_unfolds.
  destruct (_paused s); [done|].
  destruct (negb (side <=? 1)); [done|].
  destruct (negb (tickSize <=? amount)); [done|].
  destruct (negb (token_ok _ _ _)); [done|].
  destruct (checked_add _ _) as [total | |]; cbn [mbind outcome_bind]; [| done | done].
  match goal with
  | |- (_attemptMatch env ?id ?queued ≫= _) = _ → _ =>
    pose proof (_attemptMatch_keeps invariant (λ _, True)) as Hkeeps;
      specialize (Hkeeps ltac:(intros ? ? t Ht; eapply settles_invariant; [|exact Ht]; settle));
      specialize (Hkeeps ltac:(intros ? ? t _ Ht; eapply settles_invariant; [|exact Ht]; settle));
      specialize (Hkeeps ltac:(intros; by eapply _createMatch_invariant));
      specialize (Hkeeps env id queued ltac:(done));
      destruct (_attemptMatch env id queued) as [matched | |]; cbn [mbind outcome_bind];
        [| done | done]
  end.
  intros [= <- <-]. apply Hkeeps.
  eapply settles_invariant; [|exact Hinv]. settle.
Qed.

(** The invariant holds at deployment, and every call that returns keeps it. *)
Lemma deployed_invariant deployer : invariant (deployed deployer).
Proof.
  unfold invariant, feeCapped, poolsCapped, logsBounded, betsIndexed, sload. cbn.
  split; [lia|]. split; [|split; [|split; [|split]]].
  - intros g. rewrite lookup_empty. cbn. lia.
  - intros g. rewrite lookup_empty. cbn. unfold MAX_MOVES. lia.
  - intros g bet. rewrite lookup_empty. cbn. by intros ?%elem_of_nil.
  - intros p g. rewrite !lookup_empty. cbn. split; [by intros ?%elem_of_nil | done].
  - intros p. rewrite lookup_empty. cbn. apply NoDup_nil_2.
Qed.

Lemma execute_invariant env call s s' :
  invariant s → wellTyped call → execute env call s = Ok s' → invariant s'.
Proof.
  intros Hinv Htyped Hrun.
  pose proof (execute_settles env call s s') as Hsettles.
  destruct call; try exact (settles_invariant s s' (Hsettles I Hrun) Hinv);
    clear Hsettles; cbn [execute wellTyped] in *.
  - destruct (createGame _ _ _ _ _) as [[gameId s1] | |] eqn:Hcreate;
      cbn [mbind outcome_bind] in Hrun; [| done | done].
    injection Hrun as <-. exact (createGame_invariant _ _ _ _ _ _ _ Hinv Hcreate).
  - exact (makeMove_invariant _ _ _ _ _ Hinv Hrun).
  - exact (placeBet_invariant _ _ _ _ _ Hinv Htyped Hrun).
  - destruct (placeOrder _ _ _ _ _) as [[orderId s1] | |] eqn:Hplace;
      cbn [mbind outcome_bind] in Hrun; [| done | done].
    injection Hrun as <-. exact (placeOrder_invariant _ _ _ _ _ _ _ Hinv Hplace).
  - exact (setHouseFeePercentage_invariant _ _ _ _ Hinv Htyped Hrun).
Qed.

Lemma reachable_invariant s : reachable s → invariant s.
Proof.
  induction 1 as [deployer | newOwner s _ IH | env call s s' _ IH Htyped Hrun].
  - apply deployed_invariant.
  - exact IH.
  - by eapply execute_invariant.
Qed.

(** The game that Alice and Bob staked on is reached by three calls. *)
Lemma staked_reachable : reachable Scenario.staked.
Proof.
  apply (reachable_step (Scenario.sentBy Scenario.bob)
           (PlaceBet Scenario.stakedId (5 * USDC_UNIT)) aliceStaked); [| by vm_compute | evaluate].
  apply (reachable_step (Scenario.sentBy Scenario.alice)
           (PlaceBet Scenario.stakedId (5 * USDC_UNIT)) aliceCreated); [| by vm_compute | evaluate].
  apply (reachable_step (Scenario.sentBy Scenario.alice)
           (CreateGame Scenario.bob Scenario.blitz 0) (deployed Scenario.admin));
    [| done | evaluate].
  apply reachable_deployed.
Qed.

(** X16.  In every storage that calls can reach from a deployment, the fee rate
    is at most 1000 basis points, and the fee written into any pool is at most a
    tenth of the total of the pool: the net pool that a decisive resolution pays
    out is never less than nine tenths of the stakes, and its subtraction never
    underflows. *)
Theorem X16_the_fee_is_at_most_a_tenth_of_the_pool s :
  reachable s →
  0 ≤ houseFeePercentage s ≤ 1000 ∧
  ∀ gameId,
    let pool := getBettingPool gameId s in
    0 ≤ BettingPool.houseFee pool ≤ BettingPool.totalAmount pool ∧
    10 * BettingPool.houseFee pool ≤ BettingPool.totalAmount pool ∧
    9 * BettingPool.totalAmount pool ≤ 10 * netPoolOf pool ∧
    checked_sub (BettingPool.totalAmount pool) (BettingPool.houseFee pool)
      = Ok (netPoolOf pool).
Proof.
  intros (Hrate & Hpools & _)%reachable_invariant. split; [exact Hrate|].
  intros gameId. cbv zeta. unfold getBettingPool, netPoolOf.
  destruct (Hpools gameId) as [Hfee Htenth].
  rewrite checked_sub_ok by lia. repeat split; lia.
Qed.

(** In the game that Alice and Bob staked 5 USDC each on, the fee is 0.5 USDC. *)
Lemma X16_the_fee_is_at_most_a_tenth_of_the_pool_witness :
  BettingPool.totalAmount (getBettingPool Scenario.stakedId Scenario.staked) = 10000000 ∧
  10 * BettingPool.houseFee (getBettingPool Scenario.stakedId Scenario.staked)
    ≤ BettingPool.totalAmount (getBettingPool Scenario.stakedId Scenario.staked).
Proof.
  destruct (X16_the_fee_is_at_most_a_tenth_of_the_pool Scenario.staked staked_reachable)
    as [_ Hpools].
  split; [evaluate|]. by destruct (Hpools Scenario.stakedId) as (_ & ? & _).
Defined.

(** X17.  In every storage that calls can reach from a deployment, no game
    counts more than 200 moves, and the stored move log of a game is never
    longer than 17 bytes for each move counted, hence never longer than 3400
    bytes. *)
Theorem X17_the_move_log_is_bounded s :
  reachable s →
  ∀ gameId,
    let game := getGame gameId s in
    0 ≤ Game.moveCount game ≤ MAX_MOVES ∧
    Z.of_nat (String.length (Game.pgn game)) ≤ (MAX_MOVE_BYTES + 1) * Game.moveCount game ∧
    Z.of_nat (String.length (Game.pgn game)) ≤ 3400.
Proof.
  intros (_ & _ & Hlogs & _)%reachable_invariant gameId. cbv zeta. unfold getGame.
  destruct (Hlogs gameId) as [Hcount Hlength].
  unfold MAX_MOVES, MAX_MOVE_BYTES in *. repeat split; lia.
Qed.

Lemma X17_the_move_log_is_bounded_witness :
  Z.of_nat (String.length (Game.pgn (getGame Scenario.stakedId Scenario.staked))) ≤ 3400.
Proof.
  by destruct (X17_the_move_log_is_bounded Scenario.staked staked_reachable Scenario.stakedId)
    as (_ & _ & ?).
Defined.

(** X18.  In every storage that calls can reach from a deployment, the index
    that [getPlayerBets] goes through is complete and free of duplicates: the
    call returns, and what it returns holds exactly the stored bets of the
    player, whatever game they were placed on. *)
Theorem X18_getPlayerBets_finds_every_bet_of_the_player s :
  reachable s →
  ∀ player,
    NoDup (playerGameIndex s).[player] ∧
    ∃ bets, getPlayerBets player s = Ok bets ∧
      ∀ bet, bet ∈ bets ↔
        GameBet.player bet = player ∧ ∃ gameId, bet ∈ getGameBets gameId s.
Proof.
  intros (_ & _ & _ & Hbets & _ & Hdup)%reachable_invariant player.
  split; [apply Hdup|].
  exists (indexedBets player s). split.
  - unfold getPlayerBets, indexedBets. rewrite countGames_indexed. cbn [Nat.add].
    pose proof (copyGames_fills player s (playerGameIndex s).[player] []) as Hfill.
    cbn [app length] in Hfill.
    rewrite Hfill by lia. cbn [mbind outcome_bind].
    by rewrite Nat.sub_diag, app_nil_r.
  - intros bet. unfold indexedBets, ownedBy.
    rewrite list_elem_of_In, in_concat. split.
    + intros (found & (gameId & <- & Hindex)%in_map_iff & Hin).
      apply filter_In in Hin as [Hin Hplayer%Z.eqb_eq].
      split; [done|]. exists gameId. by apply list_elem_of_In.
    + intros [Hplayer [gameId Hin]].
      exists (List.filter (λ bet, GameBet.player bet =? player) (getGameBets gameId s)).
      split.
      * apply in_map_iff. exists gameId. split; [done|].
        apply list_elem_of_In. rewrite <- Hplayer. by apply Hbets.
      * apply filter_In. split; [by apply list_elem_of_In | by apply Z.eqb_eq].
Qed.

Lemma X18_getPlayerBets_finds_every_bet_of_the_player_witness :
  ∃ bets, getPlayerBets Scenario.bob Scenario.staked = Ok bets ∧
    newBet (Scenario.sentBy Scenario.bob) Scenario.stakedId Scenario.bob 5000000 ∈ bets.
Proof.
  destruct (X18_getPlayerBets_finds_every_bet_of_the_player Scenario.staked staked_reachable
              Scenario.bob) as [_ (bets & Hrun & Hexactly)].
  exists bets. split; [exact Hrun|].
  apply Hexactly. split; [evaluate|]. exists Scenario.stakedId.
  assert (getGameBets Scenario.stakedId Scenario.staked =
          [newBet (Scenario.sentBy Scenario.alice) Scenario.stakedId Scenario.alice 5000000;
           newBet (Scenario.sentBy Scenario.bob) Scenario.stakedId Scenario.bob 5000000])
    as -> by evaluate.
  apply list_elem_of_In. right. left. reflexivity.
Defined.

(** ** The engine: well-formed managers *)

Section Engine.
Import OrderbookManager.

Lemma sameOrder_refl o : sameOrder o o.
Proof. by repeat split. Qed.

Lemma sameOrder_trans o1 o2 o3 : sameOrder o1 o2 → sameOrder o2 o3 → sameOrder o1 o3.
Proof. unfold sameOrder. intros (?&?&?&?&?&?) (?&?&?&?&?&?). repeat split; congruence. Qed.

Lemma keepsLevel_refl l : keepsLevel l l.
Proof. by split. Qed.

Lemma keepsLevel_trans l1 l2 l3 : keepsLevel l1 l2 → keepsLevel l2 l3 → keepsLevel l1 l3.
Proof. intros [? ?] [? ?]. split; [congruence | by etrans]. Qed.

Lemma keepsLevels_refl levels : Forall2 keepsLevel levels levels.
Proof. induction levels; constructor; auto using keepsLevel_refl. Qed.

Lemma keepsLevels_trans l1 l2 l3 :
  Forall2 keepsLevel l1 l2 → Forall2 keepsLevel l2 l3 → Forall2 keepsLevel l1 l3.
Proof.
  intros H12. revert l3. induction H12; intros l3 H23; inversion H23; subst; constructor;
    eauto using keepsLevel_trans.
Qed.

Lemma advances_refl m : advances m m.
Proof.
  split; [lia|]. split; [eauto using sameOrder_refl|].
  intros tc. split; [done|]. intros sd. apply keepsLevels_refl.
Qed.

Lemma advances_trans m1 m2 m3 : advances m1 m2 → advances m2 m3 → advances m1 m3.
Proof.
  intros (Hid12 & Hobj12 & Hbook12) (Hid23 & Hobj23 & Hbook23).
  split; [lia|]. split.
  - intros i o Ho. destruct (Hobj12 i o Ho) as (o2 & Ho2 & Hsame12).
    destruct (Hobj23 i o2 Ho2) as (o3 & Ho3 & Hsame23).
    eauto using sameOrder_trans.
  - intros tc. destruct (Hbook12 tc) as [Hall12 Hlev12], (Hbook23 tc) as [Hall23 Hlev23].
    split; [congruence|]. intros sd. eauto using keepsLevels_trans.
Qed.

(** *** The books and objects after a write *)

Lemma book_modifyObject i f m tc : book tc (modifyObject i f m) = book tc m.
Proof. unfold modifyObject. by destruct (objects m !! i). Qed.

Lemma nextId_modifyObject i f m : nextId (modifyObject i f m) = nextId m.
Proof. unfold modifyObject. by destruct (objects m !! i). Qed.

Lemma objects_modifyObject i f m j :
  objects (modifyObject i f m) !! j
  = if decide (i = j) then f <$> objects m !! i else objects m !! j.
Proof.
  unfold modifyObject. destruct (objects m !! i) as [o |] eqn:Ho; cbn.
  - destruct (decide (i = j)) as [<- |]; [by rewrite lookup_insert_eq|].
    by rewrite lookup_insert_ne.
  - by destruct (decide (i = j)) as [<- |].
Qed.

Lemma book_modifyLevelOf tc sd tick f m tc' :
  book tc' (modifyLevelOf tc sd tick f m)
  = if decide (tc = tc')
    then set_sideLevels sd (modifyLevel tick f (sideLevels sd (book tc m))) (book tc m)
    else book tc' m.
Proof.
  unfold modifyLevelOf, book at 1. cbn.
  destruct (decide (tc = tc')) as [<- |]; [by rewrite lookup_insert_eq|].
  by rewrite lookup_insert_ne.
Qed.

Lemma side_cases (sd sd' : OrderSide) : sd = sd' ∨ sd ≠ sd'.
Proof. destruct sd, sd'; auto. Qed.

Lemma sideLevels_set_eq sd v b : sideLevels sd (set_sideLevels sd v b) = v.
Proof. by destruct sd. Qed.

Lemma sideLevels_set_ne sd sd' v b :
  sd ≠ sd' → sideLevels sd' (set_sideLevels sd v b) = sideLevels sd' b.
Proof. by destruct sd, sd'. Qed.

Lemma allOrders_set sd v b : allOrders (set_sideLevels sd v b) = allOrders b.
Proof. by destruct sd. Qed.

Lemma book_getOrCreateOrderbook tc tc' m : book tc' (getOrCreateOrderbook tc m) = book tc' m.
Proof.
  unfold getOrCreateOrderbook. destruct (orderbooks m !! tc) eqn:Hbook; [done|].
  unfold book. cbn. destruct (decide (tc = tc')) as [<- |].
  - by rewrite lookup_insert_eq, Hbook.
  - by rewrite lookup_insert_ne.
Qed.

Lemma keepsLevels_modifyLevel tick f levels :
  (∀ l, keepsLevel l (f l)) → Forall2 keepsLevel levels (modifyLevel tick f levels).
Proof.
  intros Hf. induction levels as [| l levels IH]; cbn; constructor; [|done].
  destruct (levelTick l =? tick); [apply Hf | apply keepsLevel_refl].
Qed.

Lemma getLevel_modifyLevel tick f levels :
  (∀ l, levelTick (f l) = levelTick l) →
  getLevel tick (modifyLevel tick f levels) = f <$> getLevel tick levels.
Proof.
  intros Hf. unfold getLevel, modifyLevel.
  induction levels as [| l levels IH]; cbn; [done|].
  destruct (levelTick l =? tick) eqn:Htick.
  - by rewrite Hf, Htick.
  - by rewrite Htick.
Qed.

Lemma getLevel_Some tick levels l :
  getLevel tick levels = Some l → l ∈ levels ∧ levelTick l = tick.
Proof.
  unfold getLevel. intros [Hin Htick%Z.eqb_eq]%find_some. split; [by apply list_elem_of_In | done].
Qed.

Lemma getLevel_None tick levels l :
  getLevel tick levels = None → l ∈ levels → levelTick l ≠ tick.
Proof.
  unfold getLevel. intros Hnone Hin%list_elem_of_In.
  by apply (find_none _ _ Hnone), Z.eqb_neq in Hin.
Qed.

(** *** The steps of matching and cancelling *)

Lemma advances_createMatch m : advances m (snd (createMatch m)).
Proof.
  split; [cbn; lia|]. split; [eauto using sameOrder_refl|].
  intros tc. split; [done|]. intros sd. apply keepsLevels_refl.
Qed.

Lemma advances_modifyObject i f m :
  (∀ o, sameOrder o (f o)) → advances m (modifyObject i f m).
Proof.
  intros Hf. split; [by rewrite nextId_modifyObject|]. split.
  - intros j o Ho. rewrite objects_modifyObject.
    destruct (decide (i = j)) as [<- |]; [|eauto using sameOrder_refl].
    rewrite Ho. cbn. eauto.
  - intros tc. rewrite book_modifyObject. split; [done|]. intros sd. apply keepsLevels_refl.
Qed.

Lemma advances_modifyLevelOf tc sd tick f m :
  (∀ l, keepsLevel l (f l)) → advances m (modifyLevelOf tc sd tick f m).
Proof.
  intros Hf. split; [done|]. split; [eauto using sameOrder_refl|].
  intros tc'. rewrite book_modifyLevelOf.
  destruct (decide (tc = tc')) as [<- |]; [|split; [done | intros; apply keepsLevels_refl]].
  rewrite allOrders_set. split; [done|]. intros sd'.
  destruct (side_cases sd sd') as [<- | Hne].
  - rewrite sideLevels_set_eq. by apply keepsLevels_modifyLevel.
  - rewrite sideLevels_set_ne by done. apply keepsLevels_refl.
Qed.

Lemma advances_getOrCreateOrderbook tc m : advances m (getOrCreateOrderbook tc m).
Proof.
  split; [unfold getOrCreateOrderbook; by destruct (orderbooks m !! tc)|]. split.
  - intros i o Ho. exists o. split; [|apply sameOrder_refl].
    unfold getOrCreateOrderbook. by destruct (orderbooks m !! tc).
  - intros tc'. rewrite book_getOrCreateOrderbook. split; [done|]. intros; apply keepsLevels_refl.
Qed.

(** *** Well-formed managers stay well formed *)

Lemma keepsLevels_ticks levels levels' :
  Forall2 keepsLevel levels levels' → map levelTick levels' = map levelTick levels.
Proof. induction 1 as [| l l' ? ? [Htick _]]; cbn; [done | congruence]. Qed.

Lemma keepsLevels_elem_of levels levels' l' :
  Forall2 keepsLevel levels levels' → l' ∈ levels' → ∃ l, l ∈ levels ∧ keepsLevel l l'.
Proof.
  induction 1 as [| l k ? ? Hkeep Hrest IH]; intros Hin; [by apply elem_of_nil in Hin|].
  apply elem_of_cons in Hin as [-> | Hin].
  - exists l. split; [apply elem_of_cons; by left | done].
  - destruct (IH Hin) as (x & ? & ?). exists x. split; [apply elem_of_cons; by right | done].
Qed.

Lemma sublist_elem_of (queue' queue : list nat) i :
  sublist queue' queue → i ∈ queue' → i ∈ queue.
Proof. intros Hsub%sublist_submseteq Hin. by eapply elem_of_submseteq. Qed.

Lemma wellFormed_advances m m' : wellFormed m → advances m m' → wellFormed m'.
Proof.
  intros Hwf (Hid & Hobj & Hbook) tc.
  destruct (Hwf tc) as [Hreg Hsides], (Hbook tc) as [Hall Hlevels]. split.
  - intros i Hin. rewrite Hall in Hin.
    destruct (Hreg i Hin) as (Hlt & o & Ho & Hido & Htc).
    destruct (Hobj i o Ho) as (o' & Ho' & Hsame). split; [lia|].
    exists o'. unfold sameOrder in Hsame. split; [done|]. split; [|] ; intuition congruence.
  - intros sd. destruct (Hsides sd) as [Hticks Hqueues]. split.
    + by rewrite (keepsLevels_ticks _ _ (Hlevels sd)).
    + intros l' Hin'.
      destruct (keepsLevels_elem_of _ _ _ (Hlevels sd) Hin') as (l & Hin & Htick & Hsub).
      destruct (Hqueues l Hin) as [Hdup Hmembers]. split; [by eapply sublist_NoDup|].
      intros i Hi. apply (sublist_elem_of _ _ _ Hsub) in Hi.
      destruct (Hmembers i Hi) as [Hreg' (o & Ho & Hside & Htk)]. split; [by rewrite Hall|].
      destruct (Hobj i o Ho) as (o' & Ho' & Hsame). exists o'.
      unfold sameOrder in Hsame. split; [done|]. split; intuition congruence.
Qed.

Lemma matchable_advances orderId tc sd m m' :
  matchable orderId tc sd m → advances m m' → matchable orderId tc sd m'.
Proof.
  intros [[o Ho] Hqueues] (_ & Hobj & Hbook). split.
  - destruct (Hobj _ _ Ho) as (o' & -> & _). by eexists.
  - intros l' Hin' i Hi. destruct (Hbook tc) as [_ Hlevels].
    destruct (keepsLevels_elem_of _ _ _ (Hlevels sd) Hin') as (l & Hin & _ & Hsub).
    apply (sublist_elem_of _ _ _ Hsub) in Hi.
    destruct (Hqueues l Hin i Hi) as [Hne [oi Hoi]]. split; [done|].
    destruct (Hobj _ _ Hoi) as (o' & -> & _). by eexists.
Qed.

End Engine.

(** ** The engine: matching returns *)

Section EngineMatching.
Import OrderbookManager.

Lemma matchLoop_done fuel orderId tc sd tick remaining acc m :
  remaining ≤ 0 →
  matchLoop fuel orderId tc sd tick remaining acc m = Some (acc, remaining, m).
Proof.
  intros Hdone.
  destruct fuel; cbn [matchLoop]; destruct (getLevel _ _) as [level |]; try done;
    destruct (levelOrders level); try done;
    by destruct (Z.ltb_spec 0 remaining); [lia|].
Qed.

Lemma matchLoop_returns orderId tc sd tick fuel : ∀ remaining acc m,
  matchable orderId tc sd m →
  (length (levelOrders (levelAt tick (sideLevels sd (book tc m)))) < fuel)%nat →
  ∃ acc' remaining' m',
    matchLoop fuel orderId tc sd tick remaining acc m = Some (acc', remaining', m') ∧
    advances m m'.
Proof.
  induction fuel as [| fuel IH]; intros remaining acc m Hmatchable Hfuel; [lia|].
  cbn [matchLoop]. unfold levelAt in Hfuel.
  destruct (getLevel _ _) as [level |] eqn:Hlevel; [|eauto 6 using advances_refl].
  destruct (levelOrders level) as [| oppositeId rest] eqn:Hqueue; [eauto 6 using advances_refl|].
  destruct (Z.ltb_spec 0 remaining) as [Hpos |]; [|eauto 6 using advances_refl].
  pose proof Hmatchable as [[order Horder] Hqueues].
  apply getLevel_Some in Hlevel as Hin. destruct Hin as [Hin Htick].
  destruct (Hqueues level Hin oppositeId) as [Hne [oppositeOrder Hopposite]];
    [rewrite Hqueue; apply elem_of_cons; by left|].
  rewrite Horder, Hopposite. cbn [createMatch].
  set (matched := if remaining <? amount oppositeOrder - filledAmount oppositeOrder
                  then remaining else amount oppositeOrder - filledAmount oppositeOrder).
  set (m1 := {| orderbooks := orderbooks m; objects := objects m;
                pools := pools m ++ [nextId m]; nextId := S (nextId m) |}).
  set (m2 := modifyObject orderId _ m1). set (m3 := modifyObject oppositeId _ m2).
  set (m4 := modifyLevelOf tc sd tick (addTotal (- matched)) m3).
  assert (advances m m4) as Hadvances.
  { apply (advances_trans _ m1); [apply (advances_createMatch m)|].
    apply (advances_trans _ m2); [apply advances_modifyObject; intros; by repeat split|].
    apply (advances_trans _ m3); [apply advances_modifyObject; intros; by repeat split|].
    apply advances_modifyLevelOf. intros l. by split. }
  assert (objects m4 !! oppositeId
          = Some (set_filledAmount (filledAmount oppositeOrder + matched) oppositeOrder))
    as ->.
  { unfold m4, modifyLevelOf. cbn [objects set_orderbooks]. unfold m3, m2.
    rewrite !objects_modifyObject. destruct (decide (oppositeId = oppositeId)); [|done].
    destruct (decide (orderId = oppositeId)); [congruence|]. unfold m1. cbn [objects].
    by rewrite Hopposite. }
  assert (getLevel tick (sideLevels sd (book tc m4)) = Some (addTotal (- matched) level))
    as Hlevel4.
  { unfold m4. rewrite book_modifyLevelOf. destruct (decide (tc = tc)); [|done].
    rewrite sideLevels_set_eq, getLevel_modifyLevel by done.
    unfold m3, m2. rewrite !book_modifyObject.
    change (book tc m1) with (book tc m). by rewrite Hlevel. }
  cbn [amount filledAmount set_filledAmount].
  destruct (Z.leb_spec (amount oppositeOrder) (filledAmount oppositeOrder + matched))
    as [Hfilled | Hopen].
  - set (m5 := modifyObject oppositeId (set_status filled) m4).
    set (m6 := modifyLevelOf tc sd tick removeHead m5).
    assert (advances m m6) as Hadvances6.
    { apply (advances_trans _ m4); [exact Hadvances|].
      apply (advances_trans _ m5); [apply advances_modifyObject; intros; by repeat split|].
      apply advances_modifyLevelOf. intros l. split; [done|]. cbn [removeHead levelOrders].
      destruct (levelOrders l); cbn [tail]; [done | by apply sublist_cons]. }
    destruct (IH (remaining - matched)
                (acc ++ [{| whiteOrder := match side order with
                                          | white => orderId | black => oppositeId end;
                            blackOrder := match side order with
                                          | white => oppositeId | black => orderId end;
                            matchAmount := matched; gameId := nextId m |}]) m6)
      as (acc' & remaining' & m' & Hrun & Hadvances').
    + by eapply matchable_advances.
    + unfold levelAt, m6. rewrite book_modifyLevelOf. destruct (decide (tc = tc)); [|done].
      rewrite sideLevels_set_eq, getLevel_modifyLevel by done.
      unfold m5. rewrite book_modifyObject, Hlevel4. cbn. rewrite Hqueue. cbn.
      cbn in Hfuel. rewrite Hqueue in Hfuel. cbn in Hfuel. lia.
    + exists acc', remaining', m'. split; [exact Hrun|]. by eapply advances_trans.
  - assert (remaining - matched ≤ 0) as Hdone.
    { unfold matched in *. destruct (Z.ltb_spec remaining
        (amount oppositeOrder - filledAmount oppositeOrder)); lia. }
    rewrite matchLoop_done by done. eauto 6.
Qed.

Lemma matchAtLevel_returns orderId tc sd tick maxAmount m :
  matchable orderId tc sd m →
  ∃ found remaining m',
    matchAtLevel orderId tc sd tick maxAmount m = Some (found, remaining, m') ∧
    advances m m'.
Proof.
  intros Hmatchable. unfold matchAtLevel. apply matchLoop_returns; [done|].
  unfold levelAt. destruct (getLevel _ _); cbn; lia.
Qed.

Lemma visitLevels_returns orderId tc sd levels : ∀ remaining acc m,
  matchable orderId tc sd m →
  ∃ found remaining' m',
    visitLevels orderId tc sd levels remaining acc m = Some (found, remaining', m') ∧
    advances m m'.
Proof.
  induction levels as [| level levels IH]; intros remaining acc m Hmatchable;
    cbn [visitLevels]; [eauto 6 using advances_refl|].
  destruct (remaining <=? 0); [eauto 6 using advances_refl|].
  destruct (matchAtLevel_returns orderId tc sd (levelTick level) remaining m Hmatchable)
    as (found & remaining1 & m1 & -> & Hadvances1). cbn.
  destruct (IH remaining1 (acc ++ found) m1) as (found' & remaining' & m' & -> & Hadvances');
    [by eapply matchable_advances|].
  eauto 6 using advances_trans.
Qed.

Lemma matchNearestLevels_returns orderId tc sd maxAmount m :
  matchable orderId tc sd m →
  ∃ found remaining m',
    matchNearestLevels orderId tc sd maxAmount m = Some (found, remaining, m') ∧
    advances m m'.
Proof.
  intros Hmatchable. unfold matchNearestLevels.
  destruct Hmatchable as [[order Horder] Hqueues] eqn:Hkeep. rewrite Horder. cbn.
  by apply visitLevels_returns.
Qed.

(** [attemptMatch] returns: every loop of the matching comes to an end. *)
Lemma attemptMatch_returns orderId order m :
  objects m !! orderId = Some order →
  matchable orderId (timeControl order) (opposite (side order)) m →
  ∃ matches m', attemptMatch orderId m = Some (matches, m') ∧ advances m m'.
Proof.
  intros Horder Hmatchable. unfold attemptMatch. rewrite Horder. cbn [mbind option_bind].
  set (tc := timeControl order) in *. set (sd := opposite (side order)) in *.
  set (m0 := getOrCreateOrderbook tc m).
  assert (advances m m0) as Hadvances0 by apply advances_getOrCreateOrderbook.
  assert (matchable orderId tc sd m0) as Hmatchable0 by by eapply matchable_advances.
  assert (∃ found remaining m1,
    match getLevel (tickAmount order) (sideLevels sd (book tc m0)) with
    | Some _ => matchAtLevel orderId tc sd (tickAmount order)
                  (amount order - filledAmount order) m0
    | None => Some ([], amount order - filledAmount order, m0)
    end = Some (found, remaining, m1) ∧ advances m0 m1)
    as (found & remaining & m1 & -> & Hadvances1).
  { destruct (getLevel _ _); [by apply matchAtLevel_returns | eauto 6 using advances_refl]. }
  cbn [mbind option_bind].
  assert (matchable orderId tc sd m1) as Hmatchable1 by by eapply matchable_advances.
  assert (∃ found' remaining' m2,
    (if 0 <? remaining
     then '(nearest, remainingAmount, m) ← matchNearestLevels orderId tc sd remaining m1;
          Some (found ++ nearest, remainingAmount, m)
     else Some (found, remaining, m1)) = Some (found', remaining', m2) ∧ advances m1 m2)
    as (found' & remaining' & m2 & -> & Hadvances2).
  { destruct (0 <? remaining); [|eauto 6 using advances_refl].
    destruct (matchNearestLevels_returns orderId tc sd remaining m1 Hmatchable1)
      as (nearest & remaining' & m2 & -> & Hadvances2). cbn. eauto 6. }
  cbn [mbind option_bind].
  assert (advances m m2) as Hadvances by eauto using advances_trans.
  destruct Hadvances as (Hid & Hobj & Hbook) eqn:Hkeep.
  destruct (Hobj _ _ Horder) as (order' & -> & _). cbn [mbind option_bind].
  eexists _, _. split; [reflexivity|].
  apply (advances_trans _ m2); [done|].
  destruct (remaining' =? 0); [apply advances_modifyObject; intros; by repeat split|].
  destruct (0 <? filledAmount order');
    [apply advances_modifyObject; intros; by repeat split | apply advances_refl].
Qed.

End EngineMatching.

(** ** The engine: placing an order *)

Section EnginePlacing.
Import OrderbookManager.

(** The order object that [placeOrder] creates. *)
Lemma engine_enqueueOrder_unfolds player sd amt tc m :
  quantizeAmount amt ≠ 0 →
  ∃ m1, enqueueOrder player sd amt tc m = Some (nextId m, m1) ∧
    nextId m1 = S (nextId m) ∧
    objects m1 =
      <[nextId m := {| id := nextId m; playerAddress := player; side := sd; amount := amt;
                       tickAmount := quantizeAmount amt; timeControl := tc;
                       filledAmount := 0; status := open |}]> (objects m) ∧
    is_Some (orderbooks m1 !! tc) ∧
    (∀ tc', tc' ≠ tc → book tc' m1 = book tc' m) ∧
    allOrders (book tc m1) = allOrders (book tc m) ++ [nextId m] ∧
    sideLevels (opposite sd) (book tc m1) = sideLevels (opposite sd) (book tc m) ∧
    sideLevels sd (book tc m1) =
      modifyLevel (quantizeAmount amt)
        (λ l, addTotal (quantizeAmount amt) (pushOrder (nextId m) l))
        (match getLevel (quantizeAmount amt) (sideLevels sd (book tc m)) with
         | Some _ => sideLevels sd (book tc m)
         | None => sideLevels sd (book tc m) ++
                     [{| levelTick := quantizeAmount amt; levelOrders := []; totalAmount := 0 |}]
         end).
Proof.
  intros Hquantized. unfold enqueueOrder.
  destruct (Z.eqb_spec (quantizeAmount amt) 0) as [| _]; [done|].
  eexists. split; [reflexivity|]. split; [|split].
  - unfold getOrCreateOrderbook. cbn. by destruct (orderbooks m !! tc).
  - unfold getOrCreateOrderbook. cbn. by destruct (orderbooks m !! tc).
  - rewrite !book_getOrCreateOrderbook.
    match goal with
    | |- context [book tc ?m'] => change (book tc m') with (book tc m)
    end.
    split; [cbn; rewrite lookup_insert_eq; by eexists|]. split; [|split; [|split]].
    + intros tc' Hne. unfold book at 1. cbn. rewrite lookup_insert_ne by done.
      unfold getOrCreateOrderbook. cbn. destruct (orderbooks m !! tc) eqn:Hbook; cbn; [done|].
      by rewrite lookup_insert_ne.
    + unfold book at 1. cbn. rewrite lookup_insert_eq. cbn. by rewrite allOrders_set.
    + unfold book at 1. cbn. rewrite lookup_insert_eq. cbn.
      rewrite sideLevels_set_ne by (by destruct sd). by destruct sd.
    + unfold book at 1. cbn. rewrite lookup_insert_eq. cbn.
      rewrite sideLevels_set_eq. by destruct sd.
Qed.

Lemma ticks_modifyLevel tick f levels :
  (∀ l, levelTick (f l) = levelTick l) →
  map levelTick (modifyLevel tick f levels) = map levelTick levels.
Proof.
  intros Hf. unfold modifyLevel. induction levels as [| l levels IH]; cbn; [done|].
  rewrite IH. by destruct (levelTick l =? tick); rewrite ?Hf.
Qed.

Lemma elem_of_modifyLevel tick f levels l' :
  l' ∈ modifyLevel tick f levels →
  ∃ l, l ∈ levels ∧ l' = if levelTick l =? tick then f l else l.
Proof.
  unfold modifyLevel. intros (l & <- & Hin)%list_elem_of_In%in_map_iff.
  exists l. split; [by apply list_elem_of_In | done].
Qed.

(** A well-formed manager is well formed with the new order queued. *)
Lemma engine_enqueueOrder_wellFormed player sd amt tc m orderId m1 :
  wellFormed m →
  enqueueOrder player sd amt tc m = Some (orderId, m1) →
  wellFormed m1.
Proof.
  intros Hwf Hrun.
  assert (quantizeAmount amt ≠ 0) as Hquantized.
  { intros Hzero. unfold enqueueOrder in Hrun. by rewrite Hzero in Hrun. }
  destruct (engine_enqueueOrder_unfolds player sd amt tc m Hquantized)
    as (m1' & Hrun' & Hnext & Hobjects & _ & Hother & Hall & Hopposite & Hown).
  rewrite Hrun' in Hrun. injection Hrun as <- <-.
  assert (∀ tc' i, i ∈ allOrders (book tc' m) → registered m1' tc' i) as Hregistered.
  { intros tc' i Hin. destruct (Hwf tc') as [Hreg _].
    destruct (Hreg i Hin) as (Hlt & o & Ho & Hid & Htc). split; [lia|].
    exists o. rewrite Hobjects, lookup_insert_ne by lia. done. }
  assert (∀ tc' sd' l i, l ∈ sideLevels sd' (book tc' m) → i ∈ levelOrders l →
            (i < nextId m)%nat ∧ i ∈ allOrders (book tc' m) ∧
            ∀ l', levelTick l' = levelTick l → queuedAt m1' sd' l' i) as Hqueued.
  { intros tc' sd' l i Hl Hi. destruct (Hwf tc') as [Hreg Hsides].
    destruct (Hsides sd') as [_ Hqueues]. destruct (Hqueues l Hl) as [_ Hmembers].
    destruct (Hmembers i Hi) as [Hin (o & Ho & Hside & Htick)].
    destruct (Hreg i Hin) as [Hlt _]. split; [done|]. split; [done|].
    intros l' Hl'. exists o. rewrite Hobjects, lookup_insert_ne by lia.
    split; [done|]. split; [done | congruence]. }
  assert (∀ tc' sd', sideLevels sd' (book tc' m1') = sideLevels sd' (book tc' m) →
            (∀ i, i ∈ allOrders (book tc' m) → i ∈ allOrders (book tc' m1')) →
            wellFormedSide m1' (book tc' m1') sd') as Hold.
  { intros tc' sd' Hlevels Hkeep. unfold wellFormedSide. rewrite Hlevels.
    destruct (Hwf tc') as [_ Hsides]. destruct (Hsides sd') as [Hticks Hqueues].
    split; [done|]. intros l Hl. split; [by apply Hqueues|].
    intros i Hi. destruct (Hqueued tc' sd' l i Hl Hi) as (_ & Hin & Hat). auto. }
  intros tc'. destruct (decide (tc' = tc)) as [-> | Hne].
  - split.
    + intros i Hin. rewrite Hall in Hin. apply elem_of_app in Hin as [Hin | Hin]; [by auto|].
      apply list_elem_of_singleton in Hin as ->. split; [lia|].
      eexists. rewrite Hobjects, lookup_insert_eq. done.
    + intros sd'. destruct (side_cases sd' sd) as [-> | Hside].
      * unfold wellFormedSide. rewrite Hown.
        destruct (Hwf tc) as [_ Hsides]. destruct (Hsides sd) as [Hticks Hqueues].
        set (levels := sideLevels sd (book tc m)) in *.
        set (levels0 := match getLevel (quantizeAmount amt) levels with
                        | Some _ => levels
                        | None => levels ++ [{| levelTick := quantizeAmount amt;
                                                levelOrders := []; totalAmount := 0 |}]
                        end).
        assert (NoDup (map levelTick levels0)) as Hticks0.
        { unfold levels0. destruct (getLevel _ _) eqn:Hlevel; [done|].
          rewrite map_app. apply NoDup_app. split; [done|]. split; [|apply NoDup_singleton].
          intros tick (l & <- & Hl)%list_elem_of_In%in_map_iff Hnew. cbn in Hnew.
          apply list_elem_of_singleton in Hnew.
          by apply (getLevel_None _ _ l Hlevel); [apply list_elem_of_In|]. }
        assert (∀ l, l ∈ levels0 → l ∈ levels ∨ levelOrders l = []) as Hlevels0.
        { intros l Hl. unfold levels0 in Hl. destruct (getLevel _ _); [by left|].
          apply elem_of_app in Hl as [Hl | Hl]; [by left|].
          apply list_elem_of_singleton in Hl as ->. by right. }
        split; [by rewrite ticks_modifyLevel|].
        intros l' (l & Hl & ->)%elem_of_modifyLevel.
        assert (NoDup (levelOrders l) ∧
                ∀ i, i ∈ levelOrders l →
                  (i < nextId m)%nat ∧ i ∈ allOrders (book tc m) ∧
                  ∀ l', levelTick l' = levelTick l → queuedAt m1' sd l' i) as [Hdup Hmembers].
        { destruct (Hlevels0 l Hl) as [Hin | Hempty].
          - split; [by apply Hqueues|]. intros i Hi. by apply (Hqueued tc sd l i).
          - rewrite Hempty. split; [constructor|]. by intros i Hi%elem_of_nil. }
        destruct (Z.eqb_spec (levelTick l) (quantizeAmount amt)) as [Htick |].
        -- cbn [addTotal pushOrder levelOrders levelTick]. split.
           ++ apply NoDup_app. split; [done|]. split; [|apply NoDup_singleton].
              intros i Hi ->%list_elem_of_singleton. destruct (Hmembers _ Hi). lia.
           ++ intros i [Hi | ->%list_elem_of_singleton]%elem_of_app.
              ** destruct (Hmembers i Hi) as (_ & Hin & Hat). rewrite Hall.
                 split; [apply elem_of_app; by left | by apply Hat].
              ** rewrite Hall. split; [apply elem_of_app; right; by apply list_elem_of_singleton|].
                 eexists. rewrite Hobjects, lookup_insert_eq. done.
        -- split; [done|]. intros i Hi. destruct (Hmembers i Hi) as (_ & Hin & Hat).
           rewrite Hall. split; [apply elem_of_app; by left | by apply Hat].
      * assert (sd' = opposite sd) as -> by (by destruct sd, sd').
        apply Hold; [done|]. intros i Hi. rewrite Hall. apply elem_of_app. by left.
  - split.
    + intros i Hin. rewrite Hother in Hin by done. auto.
    + intros sd'. apply Hold; by rewrite Hother.
Qed.

(** The amounts that [placeOrder] refuses are the amounts below one tick,
    whatever their sign. *)
Lemma engine_quantizeAmount_zero amt :
  quantizeAmount amt = 0 ↔ - TICK_SIZE < amt < TICK_SIZE.
Proof.
  unfold quantizeAmount. assert (0 < TICK_SIZE) as Htick by done.
  rewrite Z.mul_eq_0, Z.quot_small_iff by lia. lia.
Qed.

(** On a well-formed manager [placeOrder] returns whenever the amount does not
    quantize to zero: the order is created under a fresh identifier, queued and
    matched, and every loop of the matching ends. *)
Lemma engine_placeOrder_returns player sd amt tc m :
  wellFormed m →
  quantizeAmount amt ≠ 0 →
  ∃ m1 m', enqueueOrder player sd amt tc m = Some (nextId m, m1) ∧
    placeOrder player sd amt tc m = Some (nextId m, m') ∧
    advances m1 m' ∧ wellFormed m'.
Proof.
  intros Hwf Hquantized.
  destruct (engine_enqueueOrder_unfolds player sd amt tc m Hquantized)
    as (m1 & Hrun & Hnext & Hobjects & _ & Hother & Hall & Hopposite & Hown).
  assert (wellFormed m1) as Hwf1 by by eapply engine_enqueueOrder_wellFormed.
  destruct (attemptMatch_returns (nextId m)
              {| id := nextId m; playerAddress := player; side := sd; amount := amt;
                 tickAmount := quantizeAmount amt; timeControl := tc;
                 filledAmount := 0; status := open |} m1)
    as (matches & m' & Hmatch & Hadvances).
  - by rewrite Hobjects, lookup_insert_eq.
  - cbn [timeControl side]. split; [rewrite Hobjects, lookup_insert_eq; by eexists|].
    rewrite Hopposite. intros l Hl i Hi.
    destruct (Hwf tc) as [Hreg Hsides]. destruct (Hsides (opposite sd)) as [_ Hqueues].
    destruct (Hqueues l Hl) as [_ Hmembers]. destruct (Hmembers i Hi) as [Hin _].
    destruct (Hreg i Hin) as (Hlt & o & Ho & _). split; [lia|].
    rewrite Hobjects, lookup_insert_ne by lia. by eexists.
  - exists m1, m'. split; [done|]. split; [|split; [done | by eapply wellFormed_advances]].
    unfold placeOrder. rewrite Hrun. cbn [mbind option_bind]. by rewrite Hmatch.
Qed.

End EnginePlacing.

(** ** The engine: cancelling an order *)

Section EngineCancelling.
Import OrderbookManager.

Lemma engine_cancelOrder_advances orderId m : advances m (snd (cancelOrder orderId m)).
Proof.
  unfold cancelOrder.
  destruct (findBook orderId m) as [[tc b] |]; [|apply advances_refl].
  destruct (objects m !! orderId) as [order |]; [|apply advances_refl].
  assert (advances m (modifyObject orderId (set_status cancelled) m)) as Hcancelled
    by (apply advances_modifyObject; intros; by repeat split).
  assert (∀ level,
            advances m
              (match findIndex orderId (modifyObject orderId (set_status cancelled) m)
                       (levelOrders level) 0 with
               | Some index =>
                   (true, modifyLevelOf tc (side order) (tickAmount order)
                            (spliceOrder index (amount order - filledAmount order))
                            (modifyObject orderId (set_status cancelled) m))
               | None => (true, modifyObject orderId (set_status cancelled) m)
               end).2) as Hspliced.
  { intros level. destruct (findIndex _ _ _ _); [|done].
    eapply advances_trans; [exact Hcancelled|].
    apply advances_modifyLevelOf. intros l. split; [done|]. apply sublist_delete. }
  destruct (status order); try apply advances_refl;
    (destruct (getLevel _ _) as [level |]; [by apply Hspliced | done]).
Qed.

Lemma wellFormed_empty : wellFormed empty.
Proof.
  intros tc. split; [by intros i Hi%elem_of_nil|].
  intros sd. split; [destruct sd; constructor|]. destruct sd; by intros l Hl%elem_of_nil.
Qed.

(** Every manager that the public calls reach is well formed. *)
Lemma engineReachable_wellFormed m : engineReachable m → wellFormed m.
Proof.
  induction 1 as [| call m m' Hreach IH Hrun]; [apply wellFormed_empty|].
  destruct call as [player sd amt tc | orderId]; cbn [engineExecute] in Hrun.
  - destruct (Z.eq_dec (quantizeAmount amt) 0) as [Hzero | Hquantized].
    { unfold placeOrder, enqueueOrder in Hrun. by rewrite Hzero in Hrun. }
    destruct (engine_placeOrder_returns player sd amt tc m IH Hquantized)
      as (m1 & m2 & _ & Hplace & _ & Hwf).
    rewrite Hplace in Hrun. by injection Hrun as <-.
  - injection Hrun as <-. eapply wellFormed_advances; [exact IH|].
    apply engine_cancelOrder_advances.
Qed.

(** *** Finding an order *)

Lemma book_Some tc b m : orderbooks m !! tc = Some b → book tc m = b.
Proof. unfold book. by intros ->. Qed.

Lemma findBook_Some orderId m tc b :
  findBook orderId m = Some (tc, b) → book tc m = b ∧ orderId ∈ allOrders b.
Proof.
  unfold findBook. intros [Hin Hfound]%find_some. cbn in Hfound.
  apply list_elem_of_In, elem_of_map_to_list in Hin.
  split; [by apply book_Some | by apply bool_decide_eq_true in Hfound].
Qed.

Lemma findBook_None orderId m tc :
  findBook orderId m = None → orderId ∉ allOrders (book tc m).
Proof.
  unfold findBook. intros Hnone Hin.
  destruct (orderbooks m !! tc) as [b |] eqn:Hbook.
  - pose proof (find_none _ _ Hnone (tc, b)) as Hfalse. cbn in Hfalse.
    rewrite (book_Some _ _ _ Hbook) in Hin.
    rewrite bool_decide_eq_false in Hfalse. apply Hfalse; [|done].
    by apply list_elem_of_In, elem_of_map_to_list.
  - unfold book in Hin. rewrite Hbook in Hin. by apply elem_of_nil in Hin.
Qed.

(** In a well-formed manager an identifier is registered in one book only, so
    that the order in which the books are searched does not matter. *)
Lemma findBook_registered orderId m tc :
  wellFormed m → orderId ∈ allOrders (book tc m) →
  findBook orderId m = Some (tc, book tc m).
Proof.
  intros Hwf Hin.
  destruct (findBook orderId m) as [[tc' b'] |] eqn:Hfind;
    [|by apply (findBook_None _ _ tc) in Hfind].
  apply findBook_Some in Hfind as [<- Hin'].
  destruct (Hwf tc) as [Hreg _], (Hwf tc') as [Hreg' _].
  destruct (Hreg _ Hin) as (_ & o & Ho & _ & Htc), (Hreg' _ Hin') as (_ & o' & Ho' & _ & Htc').
  by replace tc' with tc by congruence.
Qed.

Lemma findIndex_None orderId m queue index :
  (∀ i, i ∈ queue → ∃ o, objects m !! i = Some o ∧ id o = i) →
  findIndex orderId m queue index = None → orderId ∉ queue.
Proof.
  revert index. induction queue as [| i queue IH]; intros index Hobjects Hnone;
    [apply not_elem_of_nil|].
  cbn [findIndex] in Hnone.
  destruct (Hobjects i) as (o & Ho & Hid); [apply elem_of_cons; by left|].
  rewrite Ho, Hid in Hnone. destruct (Nat.eqb_spec i orderId); [done|].
  apply not_elem_of_cons. split; [done|]. apply (IH (S index)); [|done].
  intros j Hj. apply Hobjects, elem_of_cons. by right.
Qed.

Lemma findIndex_Some orderId m queue index found :
  (∀ i, i ∈ queue → ∃ o, objects m !! i = Some o ∧ id o = i) →
  findIndex orderId m queue index = Some found →
  ∃ j, found = (index + j)%nat ∧ queue !! j = Some orderId.
Proof.
  revert index. induction queue as [| i queue IH]; intros index Hobjects Hfound; [done|].
  cbn [findIndex] in Hfound.
  destruct (Hobjects i) as (o & Ho & Hid); [apply elem_of_cons; by left|].
  rewrite Ho, Hid in Hfound. destruct (Nat.eqb_spec i orderId) as [-> |].
  - injection Hfound as <-. exists 0%nat. split; [lia | done].
  - destruct (IH (S index)) as (j & -> & Hj); [|done|].
    + intros k Hk. apply Hobjects, elem_of_cons. by right.
    + exists (S j). split; [lia | done].
Qed.

Lemma delete_NoDup_lookup (queue : list nat) j x :
  NoDup queue → queue !! j = Some x → x ∉ delete j queue.
Proof.
  intros Hdup Hj [k Hk]%list_elem_of_lookup. rewrite list_lookup_delete in Hk.
  pose proof (NoDup_lookup _ _ _ _ Hdup Hj Hk). case_decide; lia.
Qed.

Lemma ticks_unique levels (l1 l2 : OrderbookLevel) :
  NoDup (map levelTick levels) → l1 ∈ levels → l2 ∈ levels →
  levelTick l1 = levelTick l2 → l1 = l2.
Proof.
  induction levels as [| l levels IH]; intros Hdup H1 H2 Htick; [by apply elem_of_nil in H1|].
  cbn in Hdup. apply NoDup_cons in Hdup as [Hfresh Hdup].
  assert (∀ k, k ∈ levels → levelTick k ≠ levelTick l) as Hother.
  { intros k Hk Heq. apply Hfresh. rewrite <- Heq. apply list_elem_of_In, in_map.
    by apply list_elem_of_In. }
  apply elem_of_cons in H1 as [-> | H1], H2 as [-> | H2]; [done | | | by apply IH].
  - by apply Hother in H2.
  - by apply Hother in H1.
Qed.

(** The only level that can hold an order is the level of its tick, on its
    side, in the book of its time control. *)
Lemma queued_where m orderId order tc sd l :
  wellFormed m → objects m !! orderId = Some order →
  l ∈ sideLevels sd (book tc m) → orderId ∈ levelOrders l →
  tc = timeControl order ∧ sd = side order ∧ levelTick l = tickAmount order.
Proof.
  intros Hwf Horder Hl Hin. destruct (Hwf tc) as [Hreg Hsides].
  destruct (Hsides sd) as [_ Hqueues]. destruct (Hqueues l Hl) as [_ Hmembers].
  destruct (Hmembers _ Hin) as [Hall (o & Ho & Hside & Htick)].
  destruct (Hreg _ Hall) as (_ & o' & Ho' & _ & Htc).
  replace o with order in * by congruence. replace o' with order in * by congruence. done.
Qed.

(** A cancelled order is in no queue any more. *)
Lemma engine_cancelOrder_unqueues m orderId m' :
  wellFormed m → cancelOrder orderId m = (true, m') →
  ∀ tc sd l, l ∈ sideLevels sd (book tc m') → orderId ∉ levelOrders l.
Proof.
  intros Hwf Hrun. unfold cancelOrder in Hrun.
  destruct (findBook orderId m) as [[tc0 b] |] eqn:Hfind; [|done].
  destruct (objects m !! orderId) as [order |] eqn:Horder; [|done].
  apply findBook_Some in Hfind as [<- Hall].
  destruct (Hwf tc0) as [Hreg Hsides]. destruct (Hreg _ Hall) as (_ & o & Ho & _ & Htc).
  replace o with order in * by congruence. clear o Ho. subst tc0.
  set (m0 := modifyObject orderId (set_status cancelled) m) in *.
  assert (∀ tc sd l, l ∈ sideLevels sd (book tc m0) → orderId ∈ levelOrders l →
            tc = timeControl order ∧ sd = side order ∧ levelTick l = tickAmount order)
    as Hwhere.
  { intros tc sd l. unfold m0. rewrite book_modifyObject. by apply queued_where. }
  assert (∀ level, level ∈ sideLevels (side order) (book (timeControl order) m) →
            ∀ i, i ∈ levelOrders level → ∃ o, objects m0 !! i = Some o ∧ id o = i)
    as Hobjects.
  { intros level Hlevel i Hi. destruct (Hsides (side order)) as [_ Hqueues].
    destruct (Hqueues level Hlevel) as [_ Hmembers]. destruct (Hmembers i Hi) as [Hin _].
    destruct (Hreg i Hin) as (_ & o & Ho & Hid & _).
    unfold m0. rewrite objects_modifyObject.
    destruct (decide (orderId = i)) as [<- |]; [|eauto]. rewrite Ho. cbn. eauto. }
  assert (m' = m0 → (∀ level, getLevel (tickAmount order)
                        (sideLevels (side order) (book (timeControl order) m)) = Some level →
                      orderId ∉ levelOrders level) →
          ∀ tc sd l, l ∈ sideLevels sd (book tc m') → orderId ∉ levelOrders l) as Hkept.
  { intros -> Hlevel tc sd l Hl Hin.
    destruct (Hwhere tc sd l Hl Hin) as (-> & -> & Htick).
    unfold m0 in Hl. rewrite book_modifyObject in Hl.
    destruct (getLevel (tickAmount order)
                (sideLevels (side order) (book (timeControl order) m))) as [level |] eqn:Hget.
    - apply getLevel_Some in Hget as Hin'. destruct Hin' as [Hin' Htick'].
      destruct (Hsides (side order)) as [Hticks _].
      replace l with level in Hin by (eapply ticks_unique; [done..|congruence]).
      by apply (Hlevel level).
    - by apply (getLevel_None _ _ l Hget). }
  destruct (getLevel (tickAmount order)
              (sideLevels (side order) (book (timeControl order) m))) as [level |] eqn:Hget.
  2: { apply Hkept; [|done]. destruct (status order); congruence. }
  apply getLevel_Some in Hget as Hlevel. destruct Hlevel as [Hlevel Htick].
  destruct (findIndex orderId m0 (levelOrders level) 0) as [index |] eqn:Hindex.
  2: { apply Hkept; [destruct (status order); congruence|].
       intros ? [= <-]. eapply findIndex_None; [|exact Hindex]. by apply Hobjects. }
  assert (m' = modifyLevelOf (timeControl order) (side order) (tickAmount order)
                 (spliceOrder index (amount order - filledAmount order)) m0) as ->
    by (destruct (status order); congruence).
  apply findIndex_Some in Hindex as (j & -> & Hj); [|by apply Hobjects].
  intros tc sd l Hl Hin. rewrite book_modifyLevelOf in Hl.
  destruct (decide (timeControl order = tc)) as [<- | Hne].
  - destruct (side_cases (side order) sd) as [<- | Hside].
    + rewrite sideLevels_set_eq in Hl. unfold m0 in Hl. rewrite book_modifyObject in Hl.
      apply elem_of_modifyLevel in Hl as (l0 & Hl0 & ->).
      destruct (Hsides (side order)) as [Hticks Hqueues].
      destruct (Z.eqb_spec (levelTick l0) (tickAmount order)) as [Htick0 | Htick0].
      * replace l0 with level in Hin by (eapply ticks_unique; [done..|congruence]).
        cbn in Hin. destruct (Hqueues level Hlevel) as [Hdup _].
        by apply (delete_NoDup_lookup _ _ _ Hdup Hj).
      * destruct (queued_where m orderId order _ _ l0 Hwf Horder Hl0 Hin) as (_ & _ & ?).
        done.
    + rewrite sideLevels_set_ne in Hl by done.
      destruct (Hwhere _ _ _ Hl Hin) as (_ & ? & _). done.
  - destruct (Hwhere _ _ _ Hl Hin) as (? & _). done.
Qed.

End EngineCancelling.

(** ** The engine: an order that finds nothing to match *)

Section EngineIdle.
Import OrderbookManager.

Lemma matchAtLevel_idle orderId tc sd tick maxAmount m :
  (∀ l, l ∈ sideLevels sd (book tc m) → levelOrders l = []) →
  matchAtLevel orderId tc sd tick maxAmount m = Some ([], maxAmount, m).
Proof.
  intros Hempty. unfold matchAtLevel.
  destruct (getLevel tick (sideLevels sd (book tc m))) as [level |] eqn:Hlevel.
  - apply getLevel_Some in Hlevel as Hin. destruct Hin as [Hin _].
    rewrite (Hempty level Hin). cbn [length matchLoop]. by rewrite Hlevel, (Hempty level Hin).
  - cbn [length matchLoop]. by rewrite Hlevel.
Qed.

Lemma visitLevels_idle orderId tc sd levels remaining acc m :
  (∀ l, l ∈ sideLevels sd (book tc m) → levelOrders l = []) →
  visitLevels orderId tc sd levels remaining acc m = Some (acc, remaining, m).
Proof.
  intros Hempty. revert acc. induction levels as [| level levels IH]; intros acc;
    cbn [visitLevels]; [done|].
  destruct (remaining <=? 0); [done|].
  rewrite matchAtLevel_idle by done. cbn [mbind option_bind]. by rewrite IH, app_nil_r.
Qed.

(** An unfilled order whose opposite side holds no order is left as it is. *)
Lemma attemptMatch_idle orderId order m :
  objects m !! orderId = Some order →
  filledAmount order = 0 → amount order ≠ 0 →
  is_Some (orderbooks m !! timeControl order) →
  (∀ l, l ∈ sideLevels (opposite (side order)) (book (timeControl order) m) →
        levelOrders l = []) →
  attemptMatch orderId m = Some ([], m).
Proof.
  intros Horder Hfilled Hamount [b Hbook] Hempty. unfold attemptMatch.
  rewrite Horder. cbn [mbind option_bind].
  assert (getOrCreateOrderbook (timeControl order) m = m) as ->
    by (unfold getOrCreateOrderbook; by rewrite Hbook).
  rewrite Hfilled, Z.sub_0_r.
  assert (match getLevel (tickAmount order)
                  (sideLevels (opposite (side order)) (book (timeControl order) m)) with
          | Some _ => matchAtLevel orderId (timeControl order) (opposite (side order))
                        (tickAmount order) (amount order) m
          | None => Some ([], amount order, m)
          end = Some ([], amount order, m)) as ->.
  { destruct (getLevel _ _); [by apply matchAtLevel_idle | done]. }
  cbn [mbind option_bind].
  assert ((if 0 <? amount order
           then '(nearest, remainingAmount, m0) ←
                  matchNearestLevels orderId (timeControl order) (opposite (side order))
                    (amount order) m;
                Some ([] ++ nearest, remainingAmount, m0)
           else Some ([], amount order, m)) = Some ([], amount order, m)) as ->.
  { destruct (0 <? amount order); [|done]. unfold matchNearestLevels.
    rewrite Horder. cbn [mbind option_bind]. by rewrite visitLevels_idle. }
  cbn [mbind option_bind]. rewrite Horder. cbn [mbind option_bind].
  destruct (Z.eqb_spec (amount order) 0); [done|]. by rewrite Hfilled.
Qed.

Lemma getLevel_snoc tick levels new :
  levelTick new = tick →
  getLevel tick (levels ++ [new]) = Some (default new (getLevel tick levels)).
Proof.
  intros Hnew. unfold getLevel. induction levels as [| l levels IH]; cbn.
  - by rewrite Hnew, Z.eqb_refl.
  - by destruct (levelTick l =? tick).
Qed.

Lemma levelAt_tick tick levels : levelTick (levelAt tick levels) = tick.
Proof.
  unfold levelAt. destruct (getLevel tick levels) as [l |] eqn:Hlevel; [|done].
  by apply getLevel_Some in Hlevel as [_ ?].
Qed.

Lemma findIndex_snoc orderId order m queue index :
  objects m !! orderId = Some order → id order = orderId →
  (∀ i, i ∈ queue → i ≠ orderId ∧ ∃ o, objects m !! i = Some o ∧ id o = i) →
  findIndex orderId m (queue ++ [orderId]) index = Some (index + length queue)%nat.
Proof.
  intros Horder Hid. revert index.
  induction queue as [| i queue IH]; intros index Hqueue; cbn [app findIndex length].
  - rewrite Horder, Hid, Nat.eqb_refl. f_equal. lia.
  - destruct (Hqueue i) as (Hne & o & -> & Hido); [apply elem_of_cons; by left|].
    rewrite Hido. destruct (Nat.eqb_spec i orderId); [done|].
    rewrite IH; [f_equal; lia|]. intros j Hj. apply Hqueue, elem_of_cons. by right.
Qed.

Lemma delete_snoc (queue : list nat) i : delete (length queue) (queue ++ [i]) = queue.
Proof. by rewrite (delete_middle queue [] i), app_nil_r. Qed.

End EngineIdle.

(** ** The engine: what its callers can rely on *)

(** X19.  On every manager that the public calls of the engine reach,
    [placeOrder] throws exactly when the amount is below one tick in absolute
    value.  For any other amount, a negative one included, it returns: the
    loops of the matching end, the order is registered under a fresh
    identifier with the fields of the call, and its tick is the amount
    truncated towards zero to a multiple of the tick size. *)
Theorem X19_engine_placeOrder_throws_only_below_one_tick m player sd amt tc :
  engineReachable m →
  (OrderbookManager.placeOrder player sd amt tc m = None
     ↔ - OrderbookManager.TICK_SIZE < amt < OrderbookManager.TICK_SIZE) ∧
  (¬ (- OrderbookManager.TICK_SIZE < amt < OrderbookManager.TICK_SIZE) →
   ∃ m' order,
     OrderbookManager.placeOrder player sd amt tc m
       = Some (OrderbookManager.nextId m, m') ∧
     engineReachable m' ∧
     OrderbookManager.getOrder (OrderbookManager.nextId m) m' = Some order ∧
     OrderbookManager.playerAddress order = player ∧
     OrderbookManager.side order = sd ∧
     OrderbookManager.timeControl order = tc ∧
     OrderbookManager.amount order = amt ∧
     OrderbookManager.tickAmount order
       = Z.quot amt OrderbookManager.TICK_SIZE * OrderbookManager.TICK_SIZE).
Proof.
  intros Hreach. pose proof (engineReachable_wellFormed m Hreach) as Hwf.
  assert (OrderbookManager.quantizeAmount amt ≠ 0 →
    ∃ m' order,
     OrderbookManager.placeOrder player sd amt tc m
       = Some (OrderbookManager.nextId m, m') ∧
     engineReachable m' ∧
     OrderbookManager.getOrder (OrderbookManager.nextId m) m' = Some order ∧
     OrderbookManager.playerAddress order = player ∧
     OrderbookManager.side order = sd ∧
     OrderbookManager.timeControl order = tc ∧
     OrderbookManager.amount order = amt ∧
     OrderbookManager.tickAmount order
       = Z.quot amt OrderbookManager.TICK_SIZE * OrderbookManager.TICK_SIZE) as Hreturns.
  { intros Hquantized.
    destruct (engine_placeOrder_returns player sd amt tc m Hwf Hquantized)
      as (m1 & m' & Henqueue & Hplace & (_ & Hobjects & Hbooks) & Hwf').
    destruct (engine_enqueueOrder_unfolds player sd amt tc m Hquantized)
      as (m1' & Henqueue' & _ & Hobjects1 & _ & _ & Hall & _).
    rewrite Henqueue in Henqueue'. injection Henqueue' as <-.
    destruct (Hobjects (OrderbookManager.nextId m)
                {| OrderbookManager.id := OrderbookManager.nextId m;
                   OrderbookManager.playerAddress := player;
                   OrderbookManager.side := sd; OrderbookManager.amount := amt;
                   OrderbookManager.tickAmount := OrderbookManager.quantizeAmount amt;
                   OrderbookManager.timeControl := tc;
                   OrderbookManager.filledAmount := 0;
                   OrderbookManager.status := OrderbookManager.open |})
      as (order & Horder & _ & Hplayer & Hside & Hamount & Htick & Htc);
      [by rewrite Hobjects1, lookup_insert_eq|].
    exists m', order. split; [done|]. split.
    { apply (engineReachable_step (EnginePlaceOrder player sd amt tc) m); [done|].
      cbn. by rewrite Hplace. }
    split; [|done].
    unfold OrderbookManager.getOrder.
    rewrite (findBook_registered _ _ tc Hwf'); [done|].
    destruct (Hbooks tc) as [-> _]. rewrite Hall. apply elem_of_app. right.
    by apply list_elem_of_singleton. }
  split; [|intros Hrange; apply Hreturns; by rewrite engine_quantizeAmount_zero].
  rewrite <- engine_quantizeAmount_zero. split.
  - intros Hthrown. destruct (Z.eq_dec (OrderbookManager.quantizeAmount amt) 0) as [| Hne];
      [done|].
    destruct (Hreturns Hne) as (m' & order & Hplace & _). congruence.
  - intros Hzero. unfold OrderbookManager.placeOrder, OrderbookManager.enqueueOrder.
    by rewrite Hzero.
Qed.

(** An order of 9 units is refused by the manager that the constructor builds,
    and an order of minus 15 units is accepted at the tick of minus 10 units. *)
Lemma X19_engine_placeOrder_throws_only_below_one_tick_witness :
  OrderbookManager.placeOrder "alice" OrderbookManager.white (9 * Scenario.WEI)
    (Scenario.blitz, 0) OrderbookManager.empty = None ∧
  ∃ m' order,
    OrderbookManager.placeOrder "alice" OrderbookManager.white (-15 * Scenario.WEI)
      (Scenario.blitz, 0) OrderbookManager.empty = Some (0%nat, m') ∧
    OrderbookManager.tickAmount order = -10 * Scenario.WEI.
Proof.
  split.
  - apply (X19_engine_placeOrder_throws_only_below_one_tick OrderbookManager.empty "alice"
             OrderbookManager.white (9 * Scenario.WEI) (Scenario.blitz, 0)
             engineReachable_empty).
    unfold OrderbookManager.TICK_SIZE, Scenario.WEI. lia.
  - destruct (X19_engine_placeOrder_throws_only_below_one_tick OrderbookManager.empty "alice"
                OrderbookManager.white (-15 * Scenario.WEI) (Scenario.blitz, 0)
                engineReachable_empty) as [_ Hreturns].
    destruct Hreturns as (m' & order & Hplace & _ & _ & _ & _ & _ & _ & Htick).
    { unfold OrderbookManager.TICK_SIZE, Scenario.WEI. lia. }
    exists m', order. split; [exact Hplace|]. rewrite Htick. reflexivity.
Defined.

(** X20.  On every manager that the public calls of the engine reach,
    [cancelOrder] answers true exactly for a registered order that is open or
    partially filled.  It then marks the order cancelled, leaves every other
    order object as it was, and takes the order out of its queue, so that no
    level holds it any more; a second cancellation answers false.  An answer of
    false leaves the manager as it was. *)
Theorem X20_engine_cancelOrder_cancels_once m orderId :
  engineReachable m →
  let answer := fst (OrderbookManager.cancelOrder orderId m) in
  let m' := snd (OrderbookManager.cancelOrder orderId m) in
  (answer = true ↔
     ∃ order, OrderbookManager.getOrder orderId m = Some order ∧
       (OrderbookManager.status order = OrderbookManager.open ∨
        OrderbookManager.status order = OrderbookManager.partially_filled)) ∧
  (answer = false → m' = m) ∧
  (answer = true →
     (∃ order, OrderbookManager.objects m !! orderId = Some order ∧
        OrderbookManager.objects m' !! orderId
          = Some (OrderbookManager.set_status OrderbookManager.cancelled order)) ∧
     (∀ i, i ≠ orderId →
        OrderbookManager.objects m' !! i = OrderbookManager.objects m !! i) ∧
     (∀ tc sd l, l ∈ OrderbookManager.sideLevels sd (OrderbookManager.book tc m') →
        orderId ∉ OrderbookManager.levelOrders l) ∧
     OrderbookManager.cancelOrder orderId m' = (false, m')).
Proof.
  intros Hreach answer m'. pose proof (engineReachable_wellFormed m Hreach) as Hwf.
  assert (answer = true →
    ∃ order tc b, OrderbookManager.findBook orderId m = Some (tc, b) ∧
      OrderbookManager.objects m !! orderId = Some order ∧
      (OrderbookManager.status order = OrderbookManager.open ∨
       OrderbookManager.status order = OrderbookManager.partially_filled) ∧
      OrderbookManager.objects m'
        = OrderbookManager.objects
            (OrderbookManager.modifyObject orderId
               (OrderbookManager.set_status OrderbookManager.cancelled) m)) as Htrue.
  { unfold answer, m', OrderbookManager.cancelOrder.
    destruct (OrderbookManager.findBook orderId m) as [[tc b] |]; [|done].
    destruct (OrderbookManager.objects m !! orderId) as [order |]; [|done].
    intros Hanswer. exists order, tc, b. split; [done|]. split; [done|].
    destruct (OrderbookManager.status order); try done;
      (split; [by auto|]);
      (destruct (OrderbookManager.getLevel _ _); [|done];
       by destruct (OrderbookManager.findIndex _ _ _ _)). }
  split; [|split].
  - split.
    + intros (order & tc & b & Hfind & Horder & Hstatus & _)%Htrue.
      exists order. unfold OrderbookManager.getOrder. by rewrite Hfind.
    + intros (order & Hget & Hstatus). unfold OrderbookManager.getOrder in Hget.
      unfold answer, OrderbookManager.cancelOrder.
      destruct (OrderbookManager.findBook orderId m) as [[tc b] |]; [|done].
      rewrite Hget.
      destruct Hstatus as [-> | ->];
        (destruct (OrderbookManager.getLevel _ _); [|done];
         by destruct (OrderbookManager.findIndex _ _ _ _)).
  - unfold answer, m', OrderbookManager.cancelOrder.
    destruct (OrderbookManager.findBook orderId m) as [[tc b] |]; [|done].
    destruct (OrderbookManager.objects m !! orderId) as [order |]; [|done].
    destruct (OrderbookManager.status order); try done;
      (destruct (OrderbookManager.getLevel _ _); [|done];
       by destruct (OrderbookManager.findIndex _ _ _ _)).
  - intros Hanswer.
    destruct (Htrue Hanswer) as (order & tc & b & Hfind & Horder & Hstatus & Hobjects).
    assert (OrderbookManager.objects m' !! orderId
            = Some (OrderbookManager.set_status OrderbookManager.cancelled order)) as Hcancelled.
    { rewrite Hobjects, objects_modifyObject, Horder.
      by destruct (decide (orderId = orderId)). }
    split; [by exists order|]. split; [|split].
    + intros i Hne. rewrite Hobjects, objects_modifyObject.
      by destruct (decide (orderId = i)).
    + apply (engine_cancelOrder_unqueues m orderId m' Hwf).
      unfold answer in Hanswer. unfold m'.
      destruct (OrderbookManager.cancelOrder orderId m). cbn in *. by subst.
    + unfold OrderbookManager.cancelOrder at 1.
      rewrite Hcancelled. by destruct (OrderbookManager.findBook orderId m') as [[? ?] |].
Qed.

Lemma engineResting_reachable : engineReachable engineResting.
Proof.
  apply (engineReachable_step
           (EnginePlaceOrder "bob" OrderbookManager.white (15 * Scenario.WEI) (Scenario.blitz, 0))
           OrderbookManager.empty); [apply engineReachable_empty | evaluate].
Qed.

(** Bob cancels his resting order, and cancels it again. *)
Lemma X20_engine_cancelOrder_cancels_once_witness :
  fst (OrderbookManager.cancelOrder 0 engineResting) = true ∧
  OrderbookManager.cancelOrder 0 (snd (OrderbookManager.cancelOrder 0 engineResting))
    = (false, snd (OrderbookManager.cancelOrder 0 engineResting)).
Proof.
  destruct (X20_engine_cancelOrder_cancels_once engineResting 0 engineResting_reachable)
    as (_ & _ & Hcancelled).
  split; [evaluate|]. apply Hcancelled. evaluate.
Defined.

(** X21.  On a manager that the public calls of the engine reach, an order
    that finds no order on the opposite side of its book is queued as it is;
    cancelling it then leaves the queue of its level as it was before the
    order, but not the total of the level: placing added the quantized amount
    and cancelling subtracts the amount, so that the total ends lower by the
    remainder of the amount modulo the tick size. *)
Theorem X21_engine_place_then_cancel_lowers_the_total m player sd amt tc :
  engineReachable m →
  ¬ (- OrderbookManager.TICK_SIZE < amt < OrderbookManager.TICK_SIZE) →
  (∀ l, l ∈ OrderbookManager.sideLevels (OrderbookManager.opposite sd)
              (OrderbookManager.book tc m) →
        OrderbookManager.levelOrders l = []) →
  let tick := OrderbookManager.quantizeAmount amt in
  let before := levelAt tick (OrderbookManager.sideLevels sd (OrderbookManager.book tc m)) in
  ∃ m1 m2,
    OrderbookManager.placeOrder player sd amt tc m = Some (OrderbookManager.nextId m, m1) ∧
    OrderbookManager.cancelOrder (OrderbookManager.nextId m) m1 = (true, m2) ∧
    OrderbookManager.getLevel tick
      (OrderbookManager.sideLevels sd (OrderbookManager.book tc m1))
      = Some {| OrderbookManager.levelTick := tick;
                OrderbookManager.levelOrders :=
                  OrderbookManager.levelOrders before ++ [OrderbookManager.nextId m];
                OrderbookManager.totalAmount := OrderbookManager.totalAmount before + tick |} ∧
    OrderbookManager.getLevel tick
      (OrderbookManager.sideLevels sd (OrderbookManager.book tc m2))
      = Some {| OrderbookManager.levelTick := tick;
                OrderbookManager.levelOrders := OrderbookManager.levelOrders before;
                OrderbookManager.totalAmount :=
                  OrderbookManager.totalAmount before
                  - Z.rem amt OrderbookManager.TICK_SIZE |}.
Proof.
  intros Hreach Hrange Hempty tick before.
  pose proof (engineReachable_wellFormed m Hreach) as Hwf.
  assert (tick ≠ 0) as Hquantized by (unfold tick; by rewrite engine_quantizeAmount_zero).
  destruct (engine_enqueueOrder_unfolds player sd amt tc m Hquantized)
    as (m1 & Henqueue & Hnext & Hobjects & Hbook & Hother & Hall & Hopposite & Hown).
  fold tick in Hobjects, Hown.
  set (orderId := OrderbookManager.nextId m) in *.
  set (order := {| OrderbookManager.id := orderId; OrderbookManager.playerAddress := player;
                   OrderbookManager.side := sd; OrderbookManager.amount := amt;
                   OrderbookManager.tickAmount := tick; OrderbookManager.timeControl := tc;
                   OrderbookManager.filledAmount := 0;
                   OrderbookManager.status := OrderbookManager.open |}) in *.
  assert (OrderbookManager.objects m1 !! orderId = Some order) as Horder
    by (by rewrite Hobjects, lookup_insert_eq).
  assert (wellFormed m1) as Hwf1 by by eapply engine_enqueueOrder_wellFormed.
  assert (amt ≠ 0) as Hamount by (unfold OrderbookManager.TICK_SIZE in Hrange; lia).
  assert (OrderbookManager.placeOrder player sd amt tc m = Some (orderId, m1)) as Hplace.
  { unfold OrderbookManager.placeOrder. rewrite Henqueue. cbn [mbind option_bind].
    rewrite (attemptMatch_idle orderId order m1); try done.
    cbn [OrderbookManager.timeControl OrderbookManager.side order]. by rewrite Hopposite. }
  set (levels := OrderbookManager.sideLevels sd (OrderbookManager.book tc m)) in *.
  set (queued := {| OrderbookManager.levelTick := tick;
                    OrderbookManager.levelOrders :=
                      OrderbookManager.levelOrders before ++ [orderId];
                    OrderbookManager.totalAmount :=
                      OrderbookManager.totalAmount before + tick |}).
  assert (OrderbookManager.getLevel tick
            (OrderbookManager.sideLevels sd (OrderbookManager.book tc m1)) = Some queued)
    as Hqueued.
  { rewrite Hown, getLevel_modifyLevel by done.
    assert (OrderbookManager.getLevel tick
              match OrderbookManager.getLevel tick levels with
              | Some _ => levels
              | None => levels ++ [{| OrderbookManager.levelTick := tick;
                                      OrderbookManager.levelOrders := [];
                                      OrderbookManager.totalAmount := 0 |}]
              end = Some before) as ->.
    { unfold before, levelAt.
      destruct (OrderbookManager.getLevel tick levels) eqn:Hlevel; [done|].
      by rewrite getLevel_snoc, Hlevel. }
    unfold queued, OrderbookManager.addTotal, OrderbookManager.pushOrder. cbn.
    unfold before. by rewrite levelAt_tick. }
  assert (∀ i, i ∈ OrderbookManager.levelOrders before →
            i ≠ orderId ∧
            ∃ o, OrderbookManager.objects
                   (OrderbookManager.modifyObject orderId
                      (OrderbookManager.set_status OrderbookManager.cancelled) m1) !! i
                 = Some o ∧ OrderbookManager.id o = i) as Hmembers.
  { intros i Hi. unfold before, levelAt in Hi.
    destruct (OrderbookManager.getLevel tick levels) as [level |] eqn:Hlevel;
      [|by apply elem_of_nil in Hi].
    apply getLevel_Some in Hlevel as [Hlevel _]. cbn in Hi.
    destruct (Hwf tc) as [Hreg Hsides]. destruct (Hsides sd) as [_ Hqueues].
    destruct (Hqueues level Hlevel) as [_ Hin]. destruct (Hin i Hi) as [Hregistered _].
    destruct (Hreg i Hregistered) as (Hlt & o & Ho & Hid & _).
    split; [unfold orderId; lia|]. exists o. split; [|done].
    rewrite objects_modifyObject. destruct (decide (orderId = i)); [unfold orderId in *; lia|].
    rewrite Hobjects, lookup_insert_ne by (unfold orderId in *; lia). done. }
  eexists m1, _. split; [exact Hplace|]. split; [|split; [exact Hqueued|]].
  - unfold OrderbookManager.cancelOrder.
    rewrite (findBook_registered orderId m1 tc Hwf1)
      by (rewrite Hall; apply elem_of_app; right; by apply list_elem_of_singleton).
    rewrite Horder. cbn [OrderbookManager.status OrderbookManager.tickAmount
                          OrderbookManager.side OrderbookManager.amount
                          OrderbookManager.filledAmount order].
    rewrite Hqueued. cbn [OrderbookManager.levelOrders queued].
    rewrite (findIndex_snoc orderId
               (OrderbookManager.set_status OrderbookManager.cancelled order)); [done| |done|done].
    rewrite objects_modifyObject, Horder. by destruct (decide (orderId = orderId)).
  - rewrite book_modifyLevelOf. destruct (decide (tc = tc)); [|done].
    rewrite sideLevels_set_eq, getLevel_modifyLevel by done.
    rewrite book_modifyObject, Hqueued. cbn. f_equal.
    unfold OrderbookManager.spliceOrder. cbn. rewrite delete_snoc. f_equal.
    pose proof (Z.quot_rem' amt OrderbookManager.TICK_SIZE) as Hrem.
    unfold tick, OrderbookManager.quantizeAmount. lia.
Qed.

(** Bob places 15 units on white in the empty book of the constructor, where
    the tick is 10 units, and cancels: the level that held a total of 0 before
    holds a total of minus 5 units. *)
Lemma X21_engine_place_then_cancel_lowers_the_total_witness :
  ∃ m1 m2,
    OrderbookManager.placeOrder "bob" OrderbookManager.white (15 * Scenario.WEI)
      (Scenario.blitz, 0) OrderbookManager.empty = Some (0%nat, m1) ∧
    OrderbookManager.cancelOrder 0 m1 = (true, m2) ∧
    OrderbookManager.getLevel (10 * Scenario.WEI)
      (OrderbookManager.whiteLevels (OrderbookManager.book (Scenario.blitz, 0) m2))
      = Some {| OrderbookManager.levelTick := 10 * Scenario.WEI;
                OrderbookManager.levelOrders := [];
                OrderbookManager.totalAmount := -5 * Scenario.WEI |}.
Proof.
  destruct (X21_engine_place_then_cancel_lowers_the_total OrderbookManager.empty "bob"
              OrderbookManager.white (15 * Scenario.WEI) (Scenario.blitz, 0)
              engineReachable_empty) as (m1 & m2 & Hplace & Hcancel & _ & Hlevel).
  - unfold OrderbookManager.TICK_SIZE, Scenario.WEI. lia.
  - by intros l Hl%elem_of_nil.
  - exists m1, m2. split; [exact Hplace|]. split; [exact Hcancel|]. exact Hlevel.
Defined.

(** ** The engine: the views of a book *)

Section EngineViews.
Import OrderbookManager.

Lemma insertRow_perm x rows : insertRow x rows ≡ₚ x :: rows.
Proof.
  induction rows as [| y rows IH]; cbn [insertRow]; [done|].
  destruct (rowTick x <=? rowTick y); [done|].
  rewrite IH. apply Permutation_swap.
Qed.

Lemma sortRows_perm rows : sortRows rows ≡ₚ rows.
Proof.
  induction rows as [| x rows IH]; cbn [sortRows foldr]; [done|].
  fold (sortRows rows). by rewrite insertRow_perm, IH.
Qed.

Lemma insertRow_sorted x rows :
  StronglySorted (λ a b, rowTick a ≤ rowTick b) rows →
  StronglySorted (λ a b, rowTick a ≤ rowTick b) (insertRow x rows).
Proof.
  induction 1 as [| y rows Hsorted IH Hhead]; cbn [insertRow].
  - repeat constructor.
  - destruct (Z.leb_spec (rowTick x) (rowTick y)).
    + constructor; [by constructor|].
      constructor; [done|]. eapply Forall_impl; [exact Hhead|]. intros z ?; cbn in *; lia.
    + constructor; [done|].
      rewrite insertRow_perm. constructor; [lia | done].
Qed.

Lemma sortRows_sorted rows : StronglySorted (λ a b, rowTick a ≤ rowTick b) (sortRows rows).
Proof.
  induction rows as [| x rows IH]; cbn [sortRows foldr]; [constructor|].
  by apply insertRow_sorted.
Qed.

(** Rows of distinct ticks are sorted strictly. *)
Lemma sorted_strictly rows :
  NoDup (map rowTick rows) →
  StronglySorted (λ a b, rowTick a ≤ rowTick b) rows →
  StronglySorted (λ a b, rowTick a < rowTick b) rows.
Proof.
  intros Hdup. induction 1 as [| x rows Hsorted IH Hhead]; [constructor|].
  cbn in Hdup. apply NoDup_cons in Hdup as [Hfresh Hdup].
  constructor; [by apply IH|].
  apply Forall_forall. intros y Hy.
  pose proof (proj1 (Forall_forall _ _) Hhead y Hy) as Hle. cbn in Hle.
  assert (rowTick y ≠ rowTick x); [|lia].
  intros Heq. apply Hfresh. rewrite <- Heq. by apply list_elem_of_In, in_map, list_elem_of_In.
Qed.

Lemma sortRows_strict levels :
  NoDup (map levelTick levels) →
  StronglySorted (λ a b, rowTick a < rowTick b) (sortRows (map depthRow levels)).
Proof.
  intros Hdup. apply sorted_strictly; [|apply sortRows_sorted].
  rewrite (sortRows_perm (map depthRow levels)).
  by rewrite map_map. 
Qed.

Lemma populated_true (l : OrderbookLevel) :
  (0 <? length (levelOrders l))%nat = true ↔ levelOrders l ≠ [].
Proof. destruct (levelOrders l); cbn; [split; [discriminate | done] | done]. Qed.

(** The first level of [populatedLevels] has the lowest tick of the levels that
    hold an order. *)
Lemma populatedLevels_lowest levels :
  lowestPopulated levels
    match populatedLevels levels with l :: _ => levelTick l | [] => 0 end.
Proof.
  unfold populatedLevels.
  set (populated := List.filter (λ l, (0 <? length (levelOrders l))%nat) levels).
  assert (∀ l, l ∈ sortBy levelTick populated ↔ l ∈ levels ∧ levelOrders l ≠ []) as Hin.
  { intros l. rewrite (sortBy_perm levelTick populated). unfold populated.
    by rewrite list_elem_of_In, filter_In, populated_true, <- list_elem_of_In. }
  pose proof (sortBy_sorted levelTick populated) as Hsorted.
  destruct (sortBy levelTick populated) as [| best rest].
  - split.
    + intros l Hl Hqueue. assert (l ∈ @nil OrderbookLevel) as Hnil by by apply Hin.
      by apply elem_of_nil in Hnil.
    + right. split; [done|]. intros l Hl.
      destruct (levelOrders l) eqn:Hqueue; [done|].
      assert (l ∈ @nil OrderbookLevel) as Hnil by (apply Hin; by rewrite Hqueue).
      by apply elem_of_nil in Hnil.
  - apply StronglySorted_inv in Hsorted as [_ Hhead]. split.
    + intros l Hl Hqueue.
      assert (l ∈ best :: rest) as [-> | Hrest]%elem_of_cons by by apply Hin.
      * done.
      * by apply (proj1 (Forall_forall _ _) Hhead l).
    + left. exists best. destruct (proj1 (Hin best)) as [? ?]; [apply elem_of_cons; by left|].
      done.
Qed.

End EngineViews.


(** X23.  [getBestBidAsk] returns as the best bid the lowest tick of the black
    levels that hold an order, and as the best ask the lowest tick of the white
    levels that hold an order; 0 stands for a side without an order and for an
    unknown time control. *)
Theorem X23_engine_getBestBidAsk_gives_the_lowest_populated_ticks m tc :
  lowestPopulated (OrderbookManager.blackLevels (OrderbookManager.book tc m))
    (fst (OrderbookManager.getBestBidAsk tc m)) ∧
  lowestPopulated (OrderbookManager.whiteLevels (OrderbookManager.book tc m))
    (snd (OrderbookManager.getBestBidAsk tc m)).
Proof.
  unfold OrderbookManager.getBestBidAsk, OrderbookManager.book.
  destruct (OrderbookManager.orderbooks m !! tc) as [b |]; cbn [fst snd default].
  - split; apply populatedLevels_lowest.
  - split; apply (populatedLevels_lowest []).
Qed.

(** ** A finished game *)

(** X24.  Once the status of a game is 2, every entry point that takes the
    game reverts, whoever calls it and whatever the arguments are: the game
    cannot be started, moved in, staked on, voted on, overridden or unwound, and
    the storage that such a transaction leaves is the storage it found. *)
Theorem X24_finished_game_is_frozen env gameId move amount result s :
  Game.status (games s).[gameId] = 2 →
  reverted (startGame env gameId s) ∧
  reverted (makeMove env gameId move s) ∧
  reverted (placeBet env gameId amount s) ∧
  reverted (submitGameResult env gameId result s) ∧
  reverted (resolveDisputedGame env gameId result s) ∧
  reverted (pauseGame env gameId s) ∧
  commit (startGame env gameId) s = s ∧
  commit (makeMove env gameId move) s = s ∧
  commit (placeBet env gameId amount) s = s ∧
  commit (submitGameResult env gameId result) s = s ∧
  commit (resolveDisputedGame env gameId result) s = s ∧
  commit (pauseGame env gameId) s = s.
Proof.
  intros Hfinished.
  assert (reverted (startGame env gameId s)) as Hstart.
  { unfold startGame, gameExists, onlyGamePlayer. repeat step_require.
    by rewrite Hfinished in *. }
  assert (reverted (makeMove env gameId move s)) as Hmove.
  { unfold makeMove, gameExists, onlyGamePlayer. repeat step_require.
    by rewrite Hfinished in *. }
  assert (reverted (placeBet env gameId amount s)) as Hbet.
  { unfold placeBet, gameExists, gameNotFinished. do 2 step_require.
    by rewrite Hfinished in *. }
  assert (reverted (submitGameResult env gameId result s)) as Hsubmit.
  { unfold submitGameResult, gameExists, onlyGamePlayer. repeat step_require.
    by rewrite Hfinished in *. }
  assert (reverted (resolveDisputedGame env gameId result s)) as Hresolve.
  { unfold resolveDisputedGame, onlyOwner, gameExists. repeat step_require.
    by rewrite Hfinished in *. }
  assert (reverted (pauseGame env gameId s)) as Hpause.
  { unfold pauseGame, onlyOwner, gameExists. repeat step_require.
    by rewrite Hfinished in *. }
  split_and!; try done; by apply commit_reverted.
Qed.

(** The game that Alice and Bob reported as a win of white is finished. *)
Lemma X24_finished_game_is_frozen_witness :
  reverted (pauseGame (Scenario.sentBy Scenario.admin) Scenario.stakedId Scenario.whiteWon) ∧
  commit (placeBet (Scenario.sentBy Scenario.alice) Scenario.stakedId 5000000)
    Scenario.whiteWon = Scenario.whiteWon.
Proof.
  destruct (X24_finished_game_is_frozen (Scenario.sentBy Scenario.admin) Scenario.stakedId
              EmptyString 0 RESULT_DRAW Scenario.whiteWon)
    as (_ & _ & _ & _ & _ & Hpause & _); [evaluate|].
  destruct (X24_finished_game_is_frozen (Scenario.sentBy Scenario.alice) Scenario.stakedId
              EmptyString 5000000 RESULT_DRAW Scenario.whiteWon)
    as (_ & _ & _ & _ & _ & _ & _ & _ & Hbet & _); [evaluate|].
  split; [exact Hpause | exact Hbet].
Defined.

(** ** The engine: fills *)

Section EngineFilling.
Import OrderbookManager.

(** One turn of the loop of [matchAtLevel]. *)
Lemma matchLoop_step orderId tc sd tick fuel remaining acc m level oppositeId rest
    order oppositeOrder :
  getLevel tick (sideLevels sd (book tc m)) = Some level →
  levelOrders level = oppositeId :: rest →
  0 < remaining →
  objects m !! orderId = Some order →
  objects m !! oppositeId = Some oppositeOrder →
  oppositeId ≠ orderId →
  ∃ matched acc' m',
    matched = (if remaining <? amount oppositeOrder - filledAmount oppositeOrder
               then remaining else amount oppositeOrder - filledAmount oppositeOrder) ∧
    matchLoop (S fuel) orderId tc sd tick remaining acc m
      = matchLoop fuel orderId tc sd tick (remaining - matched) acc' m' ∧
    advances m m' ∧
    objects m' !! orderId = Some (set_filledAmount (filledAmount order + matched) order) ∧
    objects m' !! oppositeId
      = Some (if amount oppositeOrder <=? filledAmount oppositeOrder + matched
              then set_status filled
                     (set_filledAmount (filledAmount oppositeOrder + matched) oppositeOrder)
              else set_filledAmount (filledAmount oppositeOrder + matched) oppositeOrder) ∧
    (∀ i, i ≠ orderId → i ≠ oppositeId → objects m' !! i = objects m !! i).
Proof.
  intros Hlevel Hqueue Hpos Horder Hopposite Hne.
  cbn [matchLoop]. rewrite Hlevel, Hqueue.
  destruct (Z.ltb_spec 0 remaining) as [_ |]; [|lia].
  rewrite Horder, Hopposite. cbn [createMatch].
  set (matched := if remaining <? amount oppositeOrder - filledAmount oppositeOrder
                  then remaining else amount oppositeOrder - filledAmount oppositeOrder).
  set (m1 := {| orderbooks := orderbooks m; objects := objects m;
                pools := pools m ++ [nextId m]; nextId := S (nextId m) |}).
  set (m2 := modifyObject orderId _ m1). set (m3 := modifyObject oppositeId _ m2).
  set (m4 := modifyLevelOf tc sd tick (addTotal (- matched)) m3).
  assert (advances m m4) as Hadvances.
  { apply (advances_trans _ m1); [apply (advances_createMatch m)|].
    apply (advances_trans _ m2); [apply advances_modifyObject; intros; by repeat split|].
    apply (advances_trans _ m3); [apply advances_modifyObject; intros; by repeat split|].
    apply advances_modifyLevelOf. intros l. by split. }
  assert (∀ i, objects m4 !! i =
            if decide (oppositeId = i)
            then Some (set_filledAmount (filledAmount oppositeOrder + matched) oppositeOrder)
            else if decide (orderId = i)
                 then Some (set_filledAmount (filledAmount order + matched) order)
                 else objects m !! i) as Hobjects4.
  { intros i. unfold m4, modifyLevelOf. cbn [objects set_orderbooks]. unfold m3, m2.
    rewrite !objects_modifyObject. destruct (decide (orderId = oppositeId)); [congruence|].
    unfold m1. cbn [objects]. rewrite Hopposite, Horder.
    by destruct (decide (oppositeId = i)), (decide (orderId = i)). }
  exists matched. eexists _, _. split; [done|]. split; [reflexivity|].
  rewrite (Hobjects4 oppositeId). destruct (decide (oppositeId = oppositeId)); [|done].
  cbn [amount filledAmount set_filledAmount].
  destruct (Z.leb_spec (amount oppositeOrder) (filledAmount oppositeOrder + matched)).
  - set (m5 := modifyObject oppositeId (set_status filled) m4).
    split.
    { apply (advances_trans _ m4); [exact Hadvances|].
      apply (advances_trans _ m5); [apply advances_modifyObject; intros; by repeat split|].
      apply advances_modifyLevelOf. intros l. split; [done|]. cbn [removeHead levelOrders].
      destruct (levelOrders l); cbn [tail]; [done | by apply sublist_cons]. }
    unfold modifyLevelOf. cbn [objects set_orderbooks]. unfold m5.
    split; [|split].
    + rewrite objects_modifyObject, !Hobjects4.
      destruct (decide (oppositeId = orderId)); [done|].
      by destruct (decide (orderId = orderId)).
    + rewrite objects_modifyObject, !Hobjects4.
      by destruct (decide (oppositeId = oppositeId)).
    + intros i Hi Hi'. rewrite objects_modifyObject, !Hobjects4.
      destruct (decide (oppositeId = i)); [done|]. by destruct (decide (orderId = i)).
  - split; [exact Hadvances|]. split; [|split].
    + rewrite Hobjects4. destruct (decide (oppositeId = orderId)); [done|].
      by destruct (decide (orderId = orderId)).
    + rewrite Hobjects4. by destruct (decide (oppositeId = oppositeId)).
    + intros i Hi Hi'. rewrite Hobjects4.
      destruct (decide (oppositeId = i)); [done|]. by destruct (decide (orderId = i)).
Qed.

Lemma matchLoop_fills orderId tc sd tick fuel : ∀ remaining acc m acc' remaining' m',
  matchable orderId tc sd m → matching orderId remaining m →
  matchLoop fuel orderId tc sd tick remaining acc m = Some (acc', remaining', m') →
  matching orderId remaining' m' ∧ advances m m'.
Proof.
  induction fuel as [| fuel IH]; intros remaining acc m acc' remaining' m' Hmatchable Hmatching Hrun.
  - cbn [matchLoop] in Hrun.
    destruct (getLevel _ _) as [level |]; [|injection Hrun as <- <- <-; auto using advances_refl].
    destruct (levelOrders level); [injection Hrun as <- <- <-; auto using advances_refl|].
    destruct (0 <? remaining); [done|]. injection Hrun as <- <- <-; auto using advances_refl.
  - destruct (getLevel tick (sideLevels sd (book tc m))) as [level |] eqn:Hlevel.
    2: { cbn [matchLoop] in Hrun. rewrite Hlevel in Hrun.
         injection Hrun as <- <- <-; auto using advances_refl. }
    destruct (levelOrders level) as [| oppositeId rest] eqn:Hqueue.
    1: { cbn [matchLoop] in Hrun. rewrite Hlevel, Hqueue in Hrun.
         injection Hrun as <- <- <-; auto using advances_refl. }
    destruct (Z.ltb_spec 0 remaining) as [Hpos | Hdone].
    2: { rewrite matchLoop_done in Hrun by done.
         injection Hrun as <- <- <-; auto using advances_refl. }
    pose proof Hmatchable as [_ Hqueues].
    apply getLevel_Some in Hlevel as Hin. destruct Hin as [Hin _].
    destruct (Hqueues level Hin oppositeId) as [Hne [oppositeOrder Hopposite]];
      [rewrite Hqueue; apply elem_of_cons; by left|].
    destruct Hmatching as [Hothers (order & Horder & Hstatus & Hfilled & Hremaining & _)].
    destruct (matchLoop_step orderId tc sd tick fuel remaining acc m level oppositeId rest
                order oppositeOrder Hlevel Hqueue Hpos Horder Hopposite Hne)
      as (matched & acc1 & m1 & Hmatched & Hstep & Hadvances & Horder1 & Hopposite1 & Hrest).
    rewrite Hstep in Hrun.
    destruct (Hothers oppositeId oppositeOrder Hne Hopposite) as [Hbounds Hmarked].
    assert (0 ≤ matched ≤ remaining ∧
            matched ≤ amount oppositeOrder - filledAmount oppositeOrder) as Hbound.
    { rewrite Hmatched.
      destruct (Z.ltb_spec remaining (amount oppositeOrder - filledAmount oppositeOrder)); lia. }
    assert (matching orderId (remaining - matched) m1) as Hmatching1.
    { split.
      - intros i o Hi Ho. destruct (decide (i = oppositeId)) as [-> | Hi'].
        + rewrite Hopposite1 in Ho. injection Ho as <-. unfold fillSettled.
          destruct (Z.leb_spec (amount oppositeOrder) (filledAmount oppositeOrder + matched));
            cbn [amount filledAmount status set_status set_filledAmount].
          * split; [lia|]. split; [lia | done].
          * split; [lia|]. split; [|lia]. intros Hfilled'%Hmarked. lia.
        + rewrite Hrest in Ho by done. eauto.
      - eexists. split; [exact Horder1|].
        cbn [amount filledAmount status set_filledAmount]. repeat split; (done || lia). }
    destruct (IH _ _ _ _ _ _ (matchable_advances _ _ _ _ _ Hmatchable Hadvances)
                Hmatching1 Hrun) as [Hmatching' Hadvances'].
    split; [done | eauto using advances_trans].
Qed.

Lemma visitLevels_fills orderId tc sd levels : ∀ remaining acc m acc' remaining' m',
  matchable orderId tc sd m → matching orderId remaining m →
  visitLevels orderId tc sd levels remaining acc m = Some (acc', remaining', m') →
  matching orderId remaining' m' ∧ advances m m'.
Proof.
  induction levels as [| level levels IH];
    intros remaining acc m acc' remaining' m' Hmatchable Hmatching Hrun;
    cbn [visitLevels] in Hrun; [injection Hrun as <- <- <-; auto using advances_refl|].
  destruct (remaining <=? 0); [injection Hrun as <- <- <-; auto using advances_refl|].
  destruct (matchAtLevel orderId tc sd (levelTick level) remaining m)
    as [[[found remaining1] m1] |] eqn:Hlevel; [|done].
  cbn [mbind option_bind] in Hrun.
  destruct (matchLoop_fills _ _ _ _ _ _ _ _ _ _ _ Hmatchable Hmatching Hlevel)
    as [Hmatching1 Hadvances1].
  destruct (IH _ _ _ _ _ _ (matchable_advances _ _ _ _ _ Hmatchable Hadvances1)
              Hmatching1 Hrun) as [Hmatching' Hadvances'].
  split; [done | eauto using advances_trans].
Qed.

Lemma matching_objects orderId remaining m m' :
  objects m' = objects m → matching orderId remaining m → matching orderId remaining m'.
Proof. unfold matching. by intros ->. Qed.

(** When [attemptMatch] returns, every order is settled. *)
Lemma attemptMatch_fills orderId order m matches m' :
  objects m !! orderId = Some order →
  matchable orderId (timeControl order) (opposite (side order)) m →
  matching orderId (amount order - filledAmount order) m →
  attemptMatch orderId m = Some (matches, m') →
  ∀ i o, objects m' !! i = Some o → fillSettled o.
Proof.
  intros Horder Hmatchable Hmatching Hrun. unfold attemptMatch in Hrun.
  rewrite Horder in Hrun. cbn [mbind option_bind] in Hrun.
  set (tc := timeControl order) in *. set (sd := opposite (side order)) in *.
  set (m0 := getOrCreateOrderbook tc m) in *.
  assert (matchable orderId tc sd m0) as Hmatchable0
    by (eapply matchable_advances; [done | apply advances_getOrCreateOrderbook]).
  assert (matching orderId (amount order - filledAmount order) m0) as Hmatching0.
  { eapply matching_objects; [|exact Hmatching].
    unfold m0, getOrCreateOrderbook. by destruct (orderbooks m !! tc). }
  destruct (match getLevel (tickAmount order) (sideLevels sd (book tc m0)) with
            | Some _ => matchAtLevel orderId tc sd (tickAmount order)
                          (amount order - filledAmount order) m0
            | None => Some ([], amount order - filledAmount order, m0)
            end) as [[[found remaining1] m1] |] eqn:Hexact; [|done].
  cbn [mbind option_bind] in Hrun.
  assert (matching orderId remaining1 m1 ∧ advances m0 m1) as [Hmatching1 Hadvances1].
  { destruct (getLevel _ _).
    - by eapply matchLoop_fills.
    - injection Hexact as <- <- <-. auto using advances_refl. }
  assert (matchable orderId tc sd m1) as Hmatchable1 by by eapply matchable_advances.
  destruct (if 0 <? remaining1
            then '(nearest, remainingAmount, m) ←
                   matchNearestLevels orderId tc sd remaining1 m1;
                 Some (found ++ nearest, remainingAmount, m)
            else Some (found, remaining1, m1)) as [[[found2 remaining2] m2] |] eqn:Hnearest;
    [|done].
  cbn [mbind option_bind] in Hrun.
  assert (matching orderId remaining2 m2) as Hmatching2.
  { destruct (0 <? remaining1); [|by injection Hnearest as <- <- <-].
    unfold matchNearestLevels in Hnearest.
    destruct (objects m1 !! orderId) as [order1 |]; [|done].
    cbn [mbind option_bind] in Hnearest.
    destruct (visitLevels _ _ _ _ _ _ _) as [[[nearest remaining3] m3] |] eqn:Hvisit; [|done].
    cbn [mbind option_bind] in Hnearest. injection Hnearest as <- <- <-.
    by destruct (visitLevels_fills _ _ _ _ _ _ _ _ _ _ Hmatchable1 Hmatching1 Hvisit). }
  destruct Hmatching2 as [Hothers (order2 & Horder2 & Hstatus & Hfilled & Hremaining & Hleft)].
  rewrite Horder2 in Hrun. cbn [mbind option_bind] in Hrun. injection Hrun as _ <-.
  intros i o Ho.
  assert (i ≠ orderId → fillSettled o) as Hother.
  { intros Hi. apply (Hothers i o Hi).
    destruct (remaining2 =? 0); [|destruct (0 <? filledAmount order2)];
      rewrite ?objects_modifyObject in Ho; by destruct (decide (orderId = i)). }
  destruct (decide (i = orderId)) as [-> |]; [|auto].
  unfold fillSettled. destruct (Z.eqb_spec remaining2 0).
  - rewrite objects_modifyObject, Horder2 in Ho.
    destruct (decide (orderId = orderId)); [|done]. injection Ho as <-.
    cbn. split; [lia|]. split; [lia | done].
  - assert (status o = status order2 ∨ status o = partially_filled) as Hmark.
    { destruct (0 <? filledAmount order2); [|left; congruence].
      rewrite objects_modifyObject, Horder2 in Ho.
      destruct (decide (orderId = orderId)); [|done]. injection Ho as <-. by right. }
    assert (filledAmount o = filledAmount order2 ∧ amount o = amount order2) as [-> ->].
    { destruct (0 <? filledAmount order2); [|split; congruence].
      rewrite objects_modifyObject, Horder2 in Ho.
      destruct (decide (orderId = orderId)); [|done]. by injection Ho as <-. }
    split; [lia|]. split; [|lia]. destruct Hmark as [-> | ->]; [by rewrite Hstatus | done].
Qed.

Lemma placeOrder_fills player sd amt tc m orderId m' :
  wellFormed m → 0 ≤ amt →
  (∀ i o, objects m !! i = Some o → fillSettled o) →
  placeOrder player sd amt tc m = Some (orderId, m') →
  ∀ i o, objects m' !! i = Some o → fillSettled o.
Proof.
  intros Hwf Hamount Hsettled Hrun.
  assert (quantizeAmount amt ≠ 0) as Hquantized.
  { intros Hzero. unfold placeOrder, enqueueOrder in Hrun. by rewrite Hzero in Hrun. }
  destruct (engine_enqueueOrder_unfolds player sd amt tc m Hquantized)
    as (m1 & Henqueue & _ & Hobjects & _ & _ & _ & Hopposite & _).
  unfold placeOrder in Hrun. rewrite Henqueue in Hrun. cbn [mbind option_bind] in Hrun.
  destruct (attemptMatch (nextId m) m1) as [[matches m2] |] eqn:Hmatch; [|done].
  cbn [mbind option_bind] in Hrun. injection Hrun as _ <-.
  eapply (attemptMatch_fills (nextId m)); [| | |exact Hmatch].
  - by rewrite Hobjects, lookup_insert_eq.
  - cbn [timeControl side]. split; [rewrite Hobjects, lookup_insert_eq; by eexists|].
    rewrite Hopposite. intros l Hl i Hi.
    destruct (Hwf tc) as [Hreg Hsides]. destruct (Hsides (opposite sd)) as [_ Hqueues].
    destruct (Hqueues l Hl) as [_ Hmembers]. destruct (Hmembers i Hi) as [Hin _].
    destruct (Hreg i Hin) as (Hlt & o & Ho & _). split; [lia|].
    rewrite Hobjects, lookup_insert_ne by lia. by eexists.
  - cbn [amount filledAmount]. split.
    + intros i o Hi Ho. rewrite Hobjects, lookup_insert_ne in Ho by done. eauto.
    + eexists. split; [by rewrite Hobjects, lookup_insert_eq|]. cbn. repeat split; lia.
Qed.

Lemma cancelOrder_objects orderId m :
  objects (snd (cancelOrder orderId m)) = objects m ∨
  ∃ order, objects m !! orderId = Some order ∧
    (status order = open ∨ status order = partially_filled) ∧
    objects (snd (cancelOrder orderId m))
      = objects (modifyObject orderId (set_status cancelled) m).
Proof.
  unfold cancelOrder.
  destruct (findBook orderId m) as [[tc b] |]; [|by left].
  destruct (objects m !! orderId) as [order |] eqn:Horder; [|by left].
  destruct (status order) eqn:Hstatus; try (by left);
    (right; exists order; split; [done|]; split; [by auto|];
     destruct (getLevel _ _); [|done]; by destruct (findIndex _ _ _ _)).
Qed.

Lemma cancelOrder_fills orderId m :
  (∀ i o, objects m !! i = Some o → fillSettled o) →
  ∀ i o, objects (snd (cancelOrder orderId m)) !! i = Some o → fillSettled o.
Proof.
  intros Hsettled i o.
  destruct (cancelOrder_objects orderId m) as [-> | (order & Horder & Hstatus & ->)]; [eauto|].
  rewrite objects_modifyObject. destruct (decide (orderId = i)) as [<- |]; [|eauto].
  rewrite Horder. intros [= <-]. destruct (Hsettled _ _ Horder) as [Hbounds Hmarked].
  split; [done|]. cbn. split; [done|]. intros Hfull%Hmarked.
  destruct Hstatus; congruence.
Qed.

Lemma engineReachableNonNegative_reachable m :
  engineReachableNonNegative m → engineReachable m.
Proof. induction 1; [constructor | by econstructor]. Qed.

End EngineFilling.

(** X25.  While no call places a negative amount, no order of the engine is
    overfilled: in every manager that such calls reach, the filled amount of
    every order object lies between 0 and the amount of the order, and the
    order is marked filled exactly when it is filled up to its amount. *)
Theorem X25_engine_orders_are_never_overfilled m :
  engineReachableNonNegative m →
  ∀ orderId order, OrderbookManager.objects m !! orderId = Some order →
    0 ≤ OrderbookManager.filledAmount order ≤ OrderbookManager.amount order ∧
    (OrderbookManager.status order = OrderbookManager.filled
       ↔ OrderbookManager.filledAmount order = OrderbookManager.amount order).
Proof.
  induction 1 as [| call m m' Hreach IH Hcall Hrun]; [done|].
  pose proof (engineReachable_wellFormed m (engineReachableNonNegative_reachable m Hreach))
    as Hwf.
  destruct call as [player sd amt tc | orderId]; cbn in Hcall, Hrun.
  - destruct (OrderbookManager.placeOrder player sd amt tc m) as [[orderId m1] |] eqn:Hplace;
      [|done].
    injection Hrun as <-. by apply (placeOrder_fills player sd amt tc m orderId m1).
  - injection Hrun as <-. by apply cancelOrder_fills.
Qed.

Lemma engineTaken_reachable : engineReachableNonNegative engineTaken.
Proof.
  apply (engineReachableNonNegative_step
           (EnginePlaceOrder "alice" OrderbookManager.black (10 * Scenario.WEI)
              (Scenario.blitz, 0)) engineResting); [| by vm_compute | evaluate].
  apply (engineReachableNonNegative_step
           (EnginePlaceOrder "bob" OrderbookManager.white (15 * Scenario.WEI)
              (Scenario.blitz, 0)) OrderbookManager.empty); [| by vm_compute | evaluate].
  apply engineReachableNonNegative_empty.
Qed.

(** The order of Bob is filled by 10 of its 15 units and still open; the order
    of Alice is filled. *)
Lemma X25_engine_orders_are_never_overfilled_witness :
  ∃ resting taker,
    OrderbookManager.objects engineTaken !! 0%nat = Some resting ∧
    OrderbookManager.objects engineTaken !! 1%nat = Some taker ∧
    OrderbookManager.filledAmount resting = 10 * Scenario.WEI ∧
    OrderbookManager.filledAmount resting ≤ OrderbookManager.amount resting ∧
    OrderbookManager.status resting = OrderbookManager.open ∧
    OrderbookManager.filledAmount taker = OrderbookManager.amount taker.
Proof.
  destruct (OrderbookManager.objects engineTaken !! 0%nat) as [resting |] eqn:Hresting;
    [|by vm_compute in Hresting].
  destruct (OrderbookManager.objects engineTaken !! 1%nat) as [taker |] eqn:Htaker;
    [|by vm_compute in Htaker].
  exists resting, taker.
  destruct (X25_engine_orders_are_never_overfilled engineTaken engineTaken_reachable
              0%nat resting Hresting) as [Hbounds _].
  destruct (X25_engine_orders_are_never_overfilled engineTaken engineTaken_reachable
              1%nat taker Htaker) as [_ Hmarked].
  vm_compute in Hresting, Htaker. injection Hresting as <-. injection Htaker as <-.
  split; [done|]. split; [done|]. split; [reflexivity|]. split; [apply Hbounds|].
  split; [reflexivity|]. by apply Hmarked.
Defined.
